(** * Verification of the [es] query builder (src/es.go)

    A shallow embedding of the Go package [es] together with the parts of
    the Go standard library it calls ([strings.Join], [fmt.Sprintf],
    [strconv.Quote], [unicode/utf8], [encoding/json], [time]).

    Go strings are byte strings: they are modelled by [string], one [ascii]
    per byte.  A call that may panic returns an [outcome]. *)

From Stdlib Require Import String Ascii List ZArith Lia Bool.
From Stdlib Require Import SpecFloat.
Import ListNotations.
#[local] Set Warnings "-register-all".
Open Scope string_scope.
Open Scope Z_scope.

(* ================================================================= *)
(** ** Outcomes: a Go call either returns or panics *)

Inductive outcome (A : Type) : Type :=
| Returns (a : A)
| Panics (msg : string).
Arguments Returns {A} a.
Arguments Panics {A} msg.

Definition returns {A} (o : outcome A) : bool :=
  match o with Returns _ => true | Panics _ => false end.

(* ================================================================= *)
(** ** Bytes and Go raw string literals *)

(** The byte 0x22, the double quote. *)
Definition dquote : ascii := Ascii false true false false false true false false.

Definition byte_val (c : ascii) : Z := Z.of_N (N_of_ascii c).
Definition byte_of (z : Z) : ascii := ascii_of_N (Z.to_N z).

(** The templates of es.go are Go raw string literals (back quotes).  They
    are written here with an apostrophe where the Go text has a double
    quote; [golit] puts the double quotes back.  No template of es.go
    contains an apostrophe. *)
Fixpoint golit (s : string) : string :=
  match s with
  | EmptyString => EmptyString
  | String c r => String (if Ascii.eqb c "'" then dquote else c) (golit r)
  end.

(* ================================================================= *)
(** ** strings.Join *)

Fixpoint strings_Join (elems : list string) (sep : string) : string :=
  match elems with
  | [] => ""
  | [x] => x
  | x :: xs => x ++ sep ++ strings_Join xs sep
  end.

(* ================================================================= *)
(** ** Decimal rendering of integers ([%d]) *)

Definition digit_char (d : Z) : ascii := byte_of (48 + d).

Definition is_digit (c : ascii) : bool :=
  (48 <=? byte_val c) && (byte_val c <=? 57).

Fixpoint utoa_fuel (fuel : nat) (n : Z) (acc : string) : string :=
  match fuel with
  | O => acc
  | S fuel' =>
      let acc' := String (digit_char (n mod 10)) acc in
      if n <? 10 then acc' else utoa_fuel fuel' (n / 10) acc'
  end.

(** Decimal digits of a natural number [n >= 0], most significant first. *)
Definition utoa (n : Z) : string :=
  utoa_fuel (S (Z.to_nat (Z.log2 n))) n "".

(** [strconv.Itoa] / the verb [%d]. *)
Definition itoa (n : Z) : string :=
  if n <? 0 then String "-" (utoa (- n)) else utoa n.

(* ================================================================= *)
(** ** unicode/utf8 *)

(** Runes are Unicode code points, modelled by [Z]. *)
Definition rune := Z.
Definition RuneError : rune := 65533.   (* U+FFFD *)
Definition MaxRune : rune := 1114111.   (* U+10FFFF *)

Definition in_range (lo hi b : Z) : bool := (lo <=? b) && (b <=? hi).

(** Continuation bytes are 0x80..0xBF. *)
Definition is_cont (b : Z) : bool := in_range 128 191 b.

(** [utf8.DecodeRuneInString]: the first rune of [s] and its width in
    bytes.  An invalid or truncated encoding gives [(RuneError, 1)];
    the empty string gives [(RuneError, 0)].  The accepted range of the
    second byte depends on the first one (Go's [first] and
    [acceptRanges] tables): overlong forms, surrogates and values above
    U+10FFFF are invalid. *)
Definition DecodeRuneInString (s : string) : rune * nat :=
  match s with
  | EmptyString => (RuneError, 0%nat)
  | String c0 r0 =>
      let b0 := byte_val c0 in
      if b0 <? 128 then (b0, 1%nat)
      else if b0 <? 194 then (RuneError, 1%nat)
      else if b0 <? 224 then
        match r0 with
        | String c1 _ =>
            let b1 := byte_val c1 in
            if is_cont b1
            then (Z.lor (Z.shiftl (Z.land b0 31) 6) (Z.land b1 63), 2%nat)
            else (RuneError, 1%nat)
        | _ => (RuneError, 1%nat)
        end
      else if b0 <? 240 then
        match r0 with
        | String c1 (String c2 _) =>
            let b1 := byte_val c1 in
            let b2 := byte_val c2 in
            let lo := if b0 =? 224 then 160 else 128 in
            let hi := if b0 =? 237 then 159 else 191 in
            if in_range lo hi b1 && is_cont b2
            then (Z.lor (Z.lor (Z.shiftl (Z.land b0 15) 12)
                               (Z.shiftl (Z.land b1 63) 6))
                        (Z.land b2 63), 3%nat)
            else (RuneError, 1%nat)
        | _ => (RuneError, 1%nat)
        end
      else if b0 <? 245 then
        match r0 with
        | String c1 (String c2 (String c3 _)) =>
            let b1 := byte_val c1 in
            let b2 := byte_val c2 in
            let b3 := byte_val c3 in
            let lo := if b0 =? 240 then 144 else 128 in
            let hi := if b0 =? 244 then 143 else 191 in
            if in_range lo hi b1 && is_cont b2 && is_cont b3
            then (Z.lor (Z.lor (Z.lor (Z.shiftl (Z.land b0 7) 18)
                                      (Z.shiftl (Z.land b1 63) 12))
                               (Z.shiftl (Z.land b2 63) 6))
                        (Z.land b3 63), 4%nat)
            else (RuneError, 1%nat)
        | _ => (RuneError, 1%nat)
        end
      else (RuneError, 1%nat)
  end.

Definition is_surrogate (r : rune) : bool := in_range 55296 57343 r.

(** [utf8.AppendRune]: the UTF-8 encoding of [r]; surrogates and values
    out of range are encoded as U+FFFD. *)
Definition EncodeRune (r : rune) : string :=
  if in_range 0 127 r then String (byte_of r) ""
  else if in_range 0 2047 r then
    String (byte_of (Z.lor 192 (Z.shiftr r 6)))
      (String (byte_of (Z.lor 128 (Z.land r 63))) "")
  else if (r <? 0) || (MaxRune <? r) || is_surrogate r then
    String (byte_of 239) (String (byte_of 191) (String (byte_of 189) ""))
  else if r <=? 65535 then
    String (byte_of (Z.lor 224 (Z.shiftr r 12)))
      (String (byte_of (Z.lor 128 (Z.land (Z.shiftr r 6) 63)))
         (String (byte_of (Z.lor 128 (Z.land r 63))) ""))
  else
    String (byte_of (Z.lor 240 (Z.shiftr r 18)))
      (String (byte_of (Z.lor 128 (Z.land (Z.shiftr r 12) 63)))
         (String (byte_of (Z.lor 128 (Z.land (Z.shiftr r 6) 63)))
            (String (byte_of (Z.lor 128 (Z.land r 63))) ""))).

(** [s\[n:\]] for [n <= len(s)]. *)
Fixpoint drop (n : nat) (s : string) : string :=
  match n, s with
  | O, _ => s
  | S n', String _ r => drop n' r
  | S _, EmptyString => EmptyString
  end.

(* ================================================================= *)
(** ** strconv.Quote, the verb [%q] *)

Definition hex_char (d : Z) : ascii :=
  if d <? 10 then byte_of (48 + d) else byte_of (87 + d).

Definition hex2 (b : Z) : string :=
  String (hex_char (Z.shiftr b 4)) (String (hex_char (Z.land b 15)) "").

Definition hex4 (r : Z) : string :=
  String (hex_char (Z.land (Z.shiftr r 12) 15))
    (String (hex_char (Z.land (Z.shiftr r 8) 15))
       (String (hex_char (Z.land (Z.shiftr r 4) 15))
          (String (hex_char (Z.land r 15)) ""))).

Definition hex8 (r : Z) : string :=
  hex4 (Z.shiftr r 16) ++ hex4 (Z.land r 65535).

(* ================================================================= *)
(** ** float64 and the verb [%.Nf] *)

(** A [float64] is a [spec_float]: a zero, an infinity, a NaN, or a finite
    number [(-1)^s * m * 2^e]. *)
Definition float64 := spec_float.

(** [num / den] rounded to the nearest integer, ties to even
    ([num >= 0], [den > 0]). *)
Definition round_half_even (num den : Z) : Z :=
  let q := num / den in
  let r := num mod den in
  if 2 * r <? den then q
  else if den <? 2 * r then q + 1
  else if Z.even q then q else q + 1.

(** [m * 2^e * 10^prec], correctly rounded to an integer. *)
Definition scaled_round (m : positive) (e : Z) (prec : nat) : Z :=
  let p := 10 ^ Z.of_nat prec in
  if 0 <=? e then Z.pos m * 2 ^ e * p
  else round_half_even (Z.pos m * p) (2 ^ (- e)).

Fixpoint zeros (n : nat) : string :=
  match n with O => "" | S n' => String "0" (zeros n') end.

Definition pad_left0 (width : nat) (s : string) : string :=
  zeros (width - String.length s) ++ s.

(** The digits of [n / 10^prec], a point and [prec] fraction digits. *)
Definition format_fixed (prec : nat) (neg : bool) (n : Z) : string :=
  let p := 10 ^ Z.of_nat prec in
  (if neg then "-" else "") ++ utoa (n / p)
  ++ match prec with
     | O => ""
     | _ => String "." (pad_left0 prec (utoa (n mod p)))
     end.

(** [strconv.FormatFloat(f, 'f', prec, 64)] as [fmt] prints it: the exact
    binary value rounded half-to-even to [prec] decimals. *)
Definition fmt_f (prec : nat) (f : float64) : string :=
  match f with
  | S754_nan => "NaN"
  | S754_infinity false => "+Inf"
  | S754_infinity true => "-Inf"
  | S754_zero s => format_fixed prec s 0
  | S754_finite s m e => format_fixed prec s (scaled_round m e prec)
  end.

Definition is_finite (f : float64) : bool :=
  match f with
  | S754_zero _ | S754_finite _ _ _ => true
  | _ => false
  end.

(** The float64 nearest to [m * 2^e] (used to write float constants). *)
Definition float_of (m e : Z) : float64 := binary_normalize 53 1024 m e false.

(* ================================================================= *)
(** ** Dynamic values ([interface{}]) *)

(** A value with its dynamic type: the types that [fmt.Sprintf]
    receives in this package and that the type switch of [Interval]
    tells apart, some of their neighbours (a sized integer, a named
    string type), and [VOther] for a value of any other type, known by
    the name of its type alone.  The package never formats a
    [VOther]. *)
Inductive any : Type :=
| VString (s : string)        (* string *)
| VInt (n : Z)                (* int *)
| VInt64 (n : Z)              (* int64 *)
| VFloat64 (f : float64)      (* float64 *)
| VBool (b : bool)            (* bool *)
| VDirection (s : string)     (* es.Direction, a named string type *)
| VNil                        (* the nil interface *)
| VOther (type_name : string). (* any other dynamic type *)

(* ================================================================= *)
(** ** time: zone offsets *)

(** A location maps an instant (Unix seconds) to the zone offset in
    seconds east of UTC that is in force at that instant. *)
Definition Location := Z -> Z.

Record Time : Type := { unix : Z; location : Location }.

Definition Time_In (t : Time) (loc : Location) : Time :=
  {| unix := unix t; location := loc |}.

Definition pad2 (n : Z) : string := pad_left0 2 (utoa n).

(** [t.Format] with the layout [-07:00]: sign, hours and minutes of the
    zone offset; Go divides with truncation toward zero. *)
Definition Format_offset (t : Time) : string :=
  let zone := Z.quot (location t (unix t)) 60 in
  let a := Z.abs zone in
  String (if zone <? 0 then "-"%char else "+"%char)
    (pad2 (Z.quot a 60) ++ ":" ++ pad2 (Z.rem a 60)).

(* ================================================================= *)
(** ** A sample host environment

    Used to run the package on concrete inputs: a Unicode table that
    marks no rune above U+00FF as printable (the sample inputs are
    ASCII), and a time-zone database with two regions.  Los Angeles is
    at -08:00 until 2024-03-10 10:00 UTC, at -07:00 until 2024-11-03
    09:00 UTC, and at -08:00 afterwards. *)

Definition sample_table : rune -> bool := fun _ => false.

Definition utc : Location := fun _ => 0.

Definition los_angeles : Location :=
  fun t =>
    if t <? 1710064800 then -28800
    else if t <? 1730624400 then -25200
    else -28800.

Definition sample_tzdb (name : string) : option Location :=
  if String.eqb name "America/Los_Angeles" then Some los_angeles
  else if String.eqb name "UTC" then Some utc
  else None.

(* ================================================================= *)
(** ** strconv: float64 from and to decimal text *)

(** The value of a run of decimal digits, continuing from [acc]. *)
Fixpoint digits_val (acc : Z) (s : string) : Z :=
  match s with
  | EmptyString => acc
  | String c r => digits_val (10 * acc + (byte_val c - 48)) r
  end.

(** The leading digits of [s] and what follows them. *)
Fixpoint span_digits (s : string) : string * string :=
  match s with
  | EmptyString => ("", "")
  | String c r =>
      if is_digit c
      then let '(d, t) := span_digits r in (String c d, t)
      else ("", s)
  end.

(** A number literal [-?digits(.digits)?(\[eE\]\[+-\]?digits)?] read as
    sign, integer mantissa [M] and decimal exponent [e10]: its value is
    [M * 10^e10]. *)
Definition decode_number (lit : string) : bool * Z * Z :=
  let '(neg, s1) :=
    match lit with
    | String "-" r => (true, r)
    | _ => (false, lit)
    end in
  let '(ip, s2) := span_digits s1 in
  let '(fp, s3) :=
    match s2 with
    | String "." r => span_digits r
    | _ => ("", s2)
    end in
  let ex :=
    match s3 with
    | String _ (String "-" r) => - digits_val 0 (fst (span_digits r))
    | String _ (String "+" r) => digits_val 0 (fst (span_digits r))
    | String _ r => digits_val 0 (fst (span_digits r))
    | EmptyString => 0
    end in
  (neg, digits_val 0 (ip ++ fp), ex - Z.of_nat (String.length fp)).

(** The float64 nearest to [p / q] ([p, q > 0]), ties to even, or [None]
    when it is out of range.  [p / q] is first expressed in units of
    2^-1074, the spacing of the smallest float64s; [shift] is the
    number of low bits that do not fit in a 53-bit mantissa. *)
Definition round_binary64 (neg : bool) (p q : Z) : option float64 :=
  let x := p * 2 ^ 1074 in
  let shift := Z.max 0 (Z.log2 (x / q) - 52) in
  let n := round_half_even x (q * 2 ^ shift) in
  let '(n, e) :=
    if n =? 2 ^ 53 then (2 ^ 52, shift - 1073) else (n, shift - 1074) in
  match n with
  | Z.pos m => if e <=? 971 then Some (S754_finite neg m e) else None
  | _ => Some (S754_zero neg)
  end.

(** [strconv.ParseFloat(lit, 64)] on a JSON number literal: the nearest
    float64, or [None] for the range error. *)
Definition ParseFloat (lit : string) : option float64 :=
  let '(neg, M, e10) := decode_number lit in
  if M =? 0 then Some (S754_zero neg)
  else if 0 <=? e10 then round_binary64 neg (M * 10 ^ e10) 1
  else round_binary64 neg M (10 ^ (- e10)).

(** *** Shortest decimal text of a float64 *)

Definition float_eqb (f g : float64) : bool :=
  match f, g with
  | S754_zero s, S754_zero t => Bool.eqb s t
  | S754_infinity s, S754_infinity t => Bool.eqb s t
  | S754_nan, S754_nan => true
  | S754_finite s m e, S754_finite t n d =>
      Bool.eqb s t && Pos.eqb m n && (e =? d)
  | _, _ => false
  end.

(** [lit] converts back to [f]. *)
Definition number_ok (f : float64) (lit : string) : bool :=
  match ParseFloat lit with
  | Some g => float_eqb f g
  | None => false
  end.

(** [m * 2^e] as an integer [N] times a power of ten [10^k]. *)
Definition exact_decimal (m : positive) (e : Z) : Z * Z :=
  if 0 <=? e then (Z.pos m * 2 ^ e, 0) else (Z.pos m * 5 ^ (- e), e).

(** Trailing zeros of [n] moved into the exponent. *)
Fixpoint strip_zeros (fuel : nat) (n k : Z) : Z * Z :=
  match fuel with
  | O => (n, k)
  | S fuel' =>
      if (n mod 10 =? 0) && negb (n =? 0)
      then strip_zeros fuel' (n / 10) (k + 1)
      else (n, k)
  end.

Fixpoint take (n : nat) (s : string) : string :=
  match n, s with
  | S n', String c r => String c (take n' r)
  | _, _ => EmptyString
  end.

Definition sign_text (neg : bool) : string := if neg then "-" else "".

(** The format [e] with the digits [ds] and the decimal point after
    [dp] of them, as [encoding/json] prints it: Go writes the exponent
    with two digits at least and the encoder drops a leading zero of a
    two-digit exponent, which leaves the plain digits of the exponent. *)
Definition fmt_e (neg : bool) (ds : string) (dp : Z) : string :=
  let ex := dp - 1 in
  sign_text neg
  ++ take 1 ds
  ++ (match drop 1 ds with
      | EmptyString => ""
      | r => String "." r
      end)
  ++ String "e" (String (if ex <? 0 then "-"%char else "+"%char)
                   (utoa (Z.abs ex))).

(** The format [f] with as many fraction digits as [ds] has after the
    point. *)
Definition fmt_fshort (neg : bool) (ds : string) (dp : Z) : string :=
  let nd := Z.of_nat (String.length ds) in
  sign_text neg
  ++ (if 0 <? dp
      then take (Z.to_nat dp) ds ++ zeros (Z.to_nat (dp - nd))
      else "0")
  ++ (if dp <? nd
      then String "." (zeros (Z.to_nat (- dp)) ++ drop (Z.to_nat dp) ds)
      else "").

(** The decimal [n * 10^k] in the format chosen by the encoder. *)
Definition candidate (neg use_e : bool) (n k : Z) : string :=
  let '(n', k') := strip_zeros (String.length (utoa n)) n k in
  let ds := utoa n' in
  let dp := Z.of_nat (String.length ds) + k' in
  if use_e then fmt_e neg ds dp else fmt_fshort neg ds dp.

(** The value in units of 2^-1074 (an integer for every float64). *)
Definition ulps (m : positive) (e : Z) : Z := Z.pos m * 2 ^ (e + 1074).

Definition ulps_of_literal (lit : string) : Z :=
  match ParseFloat lit with
  | Some (S754_finite _ m e) => ulps m e
  | _ => 0
  end.

(** The encoder uses the format [e] when [abs < 1e-6 || abs >= 1e21],
    both bounds being float64 constants. *)
Definition use_exponent (m : positive) (e : Z) : bool :=
  (ulps m e <? ulps_of_literal "1e-6") || (ulps_of_literal "1e21" <=? ulps m e).

(** The shortest decimal that converts back to [f]
    ([strconv.FormatFloat] with precision -1): with [kept] digits, the
    exact expansion [N * 10^k] (of [len] digits) is cut down or bumped
    up; the first [kept] for which one of the two converts back to [f]
    wins, the nearer one when both do (ties to the even digit).
    Seventeen digits always suffice for a float64; the last line, the
    exact value written as an integer with an exponent, only makes the
    function total. *)
Fixpoint shortest (fuel : nat) (kept : Z) (f : float64)
    (neg use_e : bool) (N k len : Z) : string :=
  match fuel with
  | O => sign_text neg ++ utoa N ++ String "e" (itoa k)
  | S fuel' =>
      let cut := 10 ^ Z.max 0 (len - kept) in
      let down := N / cut in
      let r := N mod cut in
      let k' := k + Z.max 0 (len - kept) in
      let cd := candidate neg use_e down k' in
      let cu := candidate neg use_e (down + 1) k' in
      let okdown := number_ok f cd in
      let okup := number_ok f cu in
      if okdown && okup then
        if 2 * r <? cut then cd
        else if cut <? 2 * r then cu
        else if Z.even down then cd else cu
      else if okdown then cd
      else if okup then cu
      else shortest fuel' (kept + 1) f neg use_e N k len
  end.

(** The float encoder of [encoding/json]. *)
Definition FormatFloat (f : float64) : string :=
  match f with
  | S754_zero s => if s then "-0" else "0"
  | S754_finite s m e =>
      let '(N, k) := exact_decimal m e in
      shortest 17 1 f s (use_exponent m e) N k
        (Z.of_nat (String.length (utoa N)))
  | S754_infinity s => if s then "-Inf" else "+Inf"
  | S754_nan => "NaN"
  end.

(* ================================================================= *)
(** ** encoding/json: the scanner *)

(** The text is first cut into tokens by a state machine that follows
    the states of Go's scanner, then the tokens are parsed.  A string
    token carries the bytes between its quotes, a number token its
    literal. *)
Inductive token : Type :=
| TLBrace | TRBrace | TLBracket | TRBracket | TComma | TColon
| TTrue | TFalse | TNull
| TNum (lit : string)
| TStr (raw : string).

(** The states inside a number (Go: stateNeg, state0, state1, stateDot,
    stateDot0, stateE, stateESign, stateE0). *)
Inductive numstate : Type :=
| NNeg | N0 | N1 | NDot | NDot0 | NE | NESign | NE0.

Definition is_e (c : ascii) : bool := Ascii.eqb c "e" || Ascii.eqb c "E".

Definition num_next (ns : numstate) (c : ascii) : option numstate :=
  match ns with
  | NNeg =>
      if Ascii.eqb c "0" then Some N0
      else if is_digit c then Some N1 else None
  | N0 =>
      if Ascii.eqb c "." then Some NDot
      else if is_e c then Some NE else None
  | N1 =>
      if is_digit c then Some N1
      else if Ascii.eqb c "." then Some NDot
      else if is_e c then Some NE else None
  | NDot => if is_digit c then Some NDot0 else None
  | NDot0 =>
      if is_digit c then Some NDot0
      else if is_e c then Some NE else None
  | NE =>
      if Ascii.eqb c "+" || Ascii.eqb c "-" then Some NESign
      else if is_digit c then Some NE0 else None
  | NESign => if is_digit c then Some NE0 else None
  | NE0 => if is_digit c then Some NE0 else None
  end.

(** The states in which the number read so far is complete. *)
Definition num_complete (ns : numstate) : bool :=
  match ns with
  | N0 | N1 | NDot0 | NE0 => true
  | _ => false
  end.

(** The states inside a string: plain, after a backslash, and inside
    [\u] with [k] hex digits read. *)
Inductive strstate : Type :=
| SIn | SEsc | SU (k : nat).

Inductive lstate : Type :=
| LStart                                  (* between tokens *)
| LStr (st : strstate) (acc : string)     (* inside a string *)
| LNum (ns : numstate) (acc : string)     (* inside a number *)
| LLit (rest : string) (tok : token).     (* inside true, false, null *)

Definition snoc (s : string) (c : ascii) : string := s ++ String c "".

Definition is_space (c : ascii) : bool :=
  let b := byte_val c in
  (b =? 32) || (b =? 9) || (b =? 13) || (b =? 10).

Definition is_hex (c : ascii) : bool :=
  let b := byte_val c in
  in_range 48 57 b || in_range 97 102 b || in_range 65 70 b.

(** A byte met between tokens: the tokens it completes and the state it
    leads to, or [None] for a byte that starts nothing. *)
Definition lstart (c : ascii) : option (list token * lstate) :=
  if is_space c then Some ([], LStart)
  else if Ascii.eqb c "{" then Some ([TLBrace], LStart)
  else if Ascii.eqb c "}" then Some ([TRBrace], LStart)
  else if Ascii.eqb c "[" then Some ([TLBracket], LStart)
  else if Ascii.eqb c "]" then Some ([TRBracket], LStart)
  else if Ascii.eqb c "," then Some ([TComma], LStart)
  else if Ascii.eqb c ":" then Some ([TColon], LStart)
  else if Ascii.eqb c dquote then Some ([], LStr SIn "")
  else if Ascii.eqb c "-" then Some ([], LNum NNeg (String c ""))
  else if Ascii.eqb c "0" then Some ([], LNum N0 (String c ""))
  else if is_digit c then Some ([], LNum N1 (String c ""))
  else if Ascii.eqb c "t" then Some ([], LLit "rue" TTrue)
  else if Ascii.eqb c "f" then Some ([], LLit "alse" TFalse)
  else if Ascii.eqb c "n" then Some ([], LLit "ull" TNull)
  else None.

Definition is_simple_escape (c : ascii) : bool :=
  Ascii.eqb c dquote || Ascii.eqb c "\" || Ascii.eqb c "/"
  || Ascii.eqb c "b" || Ascii.eqb c "f" || Ascii.eqb c "n"
  || Ascii.eqb c "r" || Ascii.eqb c "t".

(** One byte of input. *)
Definition lstep (st : lstate) (c : ascii) : option (list token * lstate) :=
  match st with
  | LStart => lstart c
  | LStr SIn acc =>
      if Ascii.eqb c dquote then Some ([TStr acc], LStart)
      else if Ascii.eqb c "\" then Some ([], LStr SEsc (snoc acc c))
      else if byte_val c <? 32 then None
      else Some ([], LStr SIn (snoc acc c))
  | LStr SEsc acc =>
      if is_simple_escape c then Some ([], LStr SIn (snoc acc c))
      else if Ascii.eqb c "u" then Some ([], LStr (SU 0) (snoc acc c))
      else None
  | LStr (SU k) acc =>
      if is_hex c
      then Some ([], LStr (if Nat.eqb k 3 then SIn else SU (S k)) (snoc acc c))
      else None
  | LNum ns acc =>
      match num_next ns c with
      | Some ns' => Some ([], LNum ns' (snoc acc c))
      | None =>
          if num_complete ns then
            match lstart c with
            | Some (ts, st') => Some (TNum acc :: ts, st')
            | None => None
            end
          else None
      end
  | LLit rest tok =>
      match rest with
      | String e rest' =>
          if Ascii.eqb c e
          then match rest' with
               | EmptyString => Some ([tok], LStart)
               | _ => Some ([], LLit rest' tok)
               end
          else None
      | EmptyString => None
      end
  end.

Fixpoint lex_run (st : lstate) (s : string) : option (list token * lstate) :=
  match s with
  | EmptyString => Some ([], st)
  | String c r =>
      match lstep st c with
      | Some (ts, st') =>
          match lex_run st' r with
          | Some (ts', st'') => Some ((ts ++ ts')%list, st'')
          | None => None
          end
      | None => None
      end
  end.

(** At the end of the input a complete number is a token; any other
    unfinished token is an error. *)
Definition lex_finish (st : lstate) : option (list token) :=
  match st with
  | LStart => Some []
  | LNum ns acc => if num_complete ns then Some [TNum acc] else None
  | _ => None
  end.

Definition lex (s : string) : option (list token) :=
  match lex_run LStart s with
  | Some (ts, st) =>
      match lex_finish st with
      | Some ts' => Some (ts ++ ts')%list
      | None => None
      end
  | None => None
  end.

(* ================================================================= *)
(** ** encoding/json: the grammar *)

(** The syntax tree of a text; numbers and strings are still text. *)
Inductive tree : Type :=
| TrNull
| TrBool (b : bool)
| TrNum (lit : string)
| TrStr (raw : string)
| TrArr (l : list tree)
| TrObj (ms : list (string * tree)).

(** Go's scanner refuses more than 10000 open arrays and objects. *)
Definition maxNestingDepth : Z := 10000.

(** Recursive descent over the tokens.  [depth] is the number of arrays
    and objects open around the value; [fuel] bounds the recursion and
    is never exhausted when it exceeds the number of tokens. *)
Fixpoint parse_value (fuel : nat) (depth : Z) (ts : list token)
  : option (tree * list token) :=
  match fuel with
  | O => None
  | S fuel' =>
      match ts with
      | TNull :: r => Some (TrNull, r)
      | TTrue :: r => Some (TrBool true, r)
      | TFalse :: r => Some (TrBool false, r)
      | TNum l :: r => Some (TrNum l, r)
      | TStr s :: r => Some (TrStr s, r)
      | TLBracket :: r =>
          if maxNestingDepth <=? depth then None
          else
            match r with
            | TRBracket :: r' => Some (TrArr [], r')
            | _ =>
                match parse_elements fuel' (depth + 1) r with
                | Some (l, r') => Some (TrArr l, r')
                | None => None
                end
            end
      | TLBrace :: r =>
          if maxNestingDepth <=? depth then None
          else
            match r with
            | TRBrace :: r' => Some (TrObj [], r')
            | _ =>
                match parse_members fuel' (depth + 1) r with
                | Some (ms, r') => Some (TrObj ms, r')
                | None => None
                end
            end
      | _ => None
      end
  end
with parse_elements (fuel : nat) (depth : Z) (ts : list token)
  : option (list tree * list token) :=
  match fuel with
  | O => None
  | S fuel' =>
      match parse_value fuel' depth ts with
      | Some (v, TComma :: r) =>
          match parse_elements fuel' depth r with
          | Some (l, r') => Some (v :: l, r')
          | None => None
          end
      | Some (v, TRBracket :: r) => Some ([v], r)
      | _ => None
      end
  end
with parse_members (fuel : nat) (depth : Z) (ts : list token)
  : option (list (string * tree) * list token) :=
  match fuel with
  | O => None
  | S fuel' =>
      match ts with
      | TStr k :: TColon :: r =>
          match parse_value fuel' depth r with
          | Some (v, TComma :: r') =>
              match parse_members fuel' depth r' with
              | Some (ms, r'') => Some ((k, v) :: ms, r'')
              | None => None
              end
          | Some (v, TRBrace :: r') => Some ([(k, v)], r')
          | _ => None
          end
      | _ => None
      end
  end.

(** A text is one value, with nothing after it. *)
Definition parse (ts : list token) : option tree :=
  match parse_value (S (List.length ts)) 0 ts with
  | Some (t, []) => Some t
  | _ => None
  end.

Definition scan (s : string) : option tree :=
  match lex s with
  | Some ts => parse ts
  | None => None
  end.

(** [json.Valid]: the text is well formed. *)
Definition checkValid (s : string) : bool :=
  match scan s with Some _ => true | None => false end.

(* ================================================================= *)
(** ** encoding/json: decoding into [interface{}] *)

(** What [json.Unmarshal] stores in an [interface{}]: nil, bool,
    float64, string, [[]interface{}] and [map[string]interface{}].  A
    map is represented by its association list sorted by key, without
    repeated keys, so that equal maps are equal terms. *)
Inductive value : Type :=
| JNull
| JBool (b : bool)
| JNumber (f : float64)
| JString (s : string)
| JArray (l : list value)
| JObject (m : list (string * value)).

(** [m\[k\] = v]: a later value for a key replaces the earlier one. *)
Fixpoint map_set (k : string) (v : value) (m : list (string * value))
  : list (string * value) :=
  match m with
  | [] => [(k, v)]
  | (k', v') :: m' =>
      match String.compare k k' with
      | Lt => (k, v) :: m
      | Eq => (k, v) :: m'
      | Gt => (k', v') :: map_set k v m'
      end
  end.

Fixpoint map_get (k : string) (m : list (string * value)) : option value :=
  match m with
  | [] => None
  | (k', v') :: m' => if String.eqb k k' then Some v' else map_get k m'
  end.

Definition hex_val (c : ascii) : Z :=
  let b := byte_val c in
  if in_range 48 57 b then b - 48
  else if in_range 97 102 b then b - 87
  else if in_range 65 70 b then b - 55
  else -1.

(** Go's [getu4] after the [\u]: four hex digits as a rune, or -1. *)
Definition getu4 (s : string) : rune :=
  match s with
  | String a (String b (String c (String d _))) =>
      if is_hex a && is_hex b && is_hex c && is_hex d
      then hex_val a * 4096 + hex_val b * 256 + hex_val c * 16 + hex_val d
      else -1
  | _ => -1
  end.

(** Go's [getu4] on a whole escape [\uXXXX]. *)
Definition getu4_escape (s : string) : rune :=
  match s with
  | String "\" (String "u" r) => getu4 r
  | _ => -1
  end.

(** [utf16.DecodeRune]. *)
Definition utf16_DecodeRune (r1 r2 : rune) : rune :=
  if in_range 55296 56319 r1 && in_range 56320 57343 r2
  then (r1 - 55296) * 1024 + (r2 - 56320) + 65536
  else RuneError.

Definition unescape (c : ascii) : ascii :=
  if Ascii.eqb c "b" then byte_of 8
  else if Ascii.eqb c "f" then byte_of 12
  else if Ascii.eqb c "n" then byte_of 10
  else if Ascii.eqb c "r" then byte_of 13
  else if Ascii.eqb c "t" then byte_of 9
  else c.

(** One step of Go's [unquoteBytes] at the head of [s]: the bytes it
    writes and the number of bytes of [s] it consumes.  Invalid UTF-8
    is coerced to U+FFFD, and so is a surrogate escape that is not
    followed by its partner.  Where Go reports a failure (a backslash
    before a byte that is no escape), which cannot happen on a token
    the scanner has accepted, nothing is written. *)
Definition unquote_step (s : string) : string * nat :=
  match s with
  | EmptyString => ("", 0%nat)
  | String "\" (String "u" r) =>
      let rr := getu4 r in
      if is_surrogate rr then
        let dec := utf16_DecodeRune rr (getu4_escape (drop 4 r)) in
        if dec =? RuneError then (EncodeRune RuneError, 6%nat)
        else (EncodeRune dec, 12%nat)
      else (EncodeRune rr, 6%nat)
  | String "\" (String c _) =>
      if is_simple_escape c then (String (unescape c) "", 2%nat)
      else ("", 2%nat)
  | String c _ =>
      if byte_val c <? 128 then (String c "", 1%nat)
      else let '(rr, size) := DecodeRuneInString s in (EncodeRune rr, size)
  end.

Fixpoint unquote_from (skip : nat) (s : string) : string :=
  match s with
  | EmptyString => ""
  | String _ r =>
      match skip with
      | S k => unquote_from k r
      | O =>
          let '(out, n) := unquote_step s in
          out ++ unquote_from (n - 1) r
      end
  end.

(** The string a string token stands for. *)
Definition unquote (raw : string) : string := unquote_from 0 raw.

Inductive json_error : Type :=
| SyntaxError               (* the text is not well formed *)
| UnmarshalTypeError        (* a number does not fit a float64 *)
| UnsupportedValueError.    (* Marshal met a NaN or an infinity *)

Inductive result (A : Type) : Type :=
| Ok (a : A)
| Err (e : json_error).
Arguments Ok {A} a.
Arguments Err {A} e.

(** The value of a syntax tree; [None] when a number is out of the
    float64 range. *)
Fixpoint convert (t : tree) : option value :=
  match t with
  | TrNull => Some JNull
  | TrBool b => Some (JBool b)
  | TrNum lit =>
      match ParseFloat lit with
      | Some f => Some (JNumber f)
      | None => None
      end
  | TrStr raw => Some (JString (unquote raw))
  | TrArr l =>
      match
        (fix elements (l : list tree) : option (list value) :=
           match l with
           | [] => Some []
           | x :: r =>
               match convert x, elements r with
               | Some v, Some vs => Some (v :: vs)
               | _, _ => None
               end
           end) l
      with
      | Some vs => Some (JArray vs)
      | None => None
      end
  | TrObj ms =>
      match
        (fix members (ms : list (string * tree)) (acc : list (string * value))
           : option (list (string * value)) :=
           match ms with
           | [] => Some acc
           | (k, x) :: r =>
               match convert x with
               | Some v => members r (map_set (unquote k) v acc)
               | None => None
               end
           end) ms []
      with
      | Some m => Some (JObject m)
      | None => None
      end
  end.

(** [json.Unmarshal(data, &v)] with [v] an [interface{}]. *)
Definition Unmarshal (data : string) : result value :=
  match scan data with
  | None => Err SyntaxError
  | Some t =>
      match convert t with
      | Some v => Ok v
      | None => Err UnmarshalTypeError
      end
  end.

(* ================================================================= *)
(** ** encoding/json: encoding *)

(** Bytes the encoder copies as they are (Go's [htmlSafeSet]): ASCII
    from the space on, but for the double quote, the backslash and the
    HTML characters. *)
Definition htmlSafe (b : Z) : bool :=
  in_range 32 127 b
  && negb ((b =? 34) || (b =? 38) || (b =? 60) || (b =? 62) || (b =? 92)).

Definition escape_byte (c : ascii) : string :=
  let b := byte_val c in
  if (b =? 92) || (b =? 34) then String "\" (String c "")
  else if b =? 8 then "\b"
  else if b =? 12 then "\f"
  else if b =? 10 then "\n"
  else if b =? 13 then "\r"
  else if b =? 9 then "\t"
  else "\u00" ++ hex2 b.

(** One step of the encoder's [appendString] at the head of [s]. *)
Definition encode_step (s : string) : string * nat :=
  match s with
  | EmptyString => ("", 0%nat)
  | String c _ =>
      let b := byte_val c in
      if b <? 128 then
        if htmlSafe b then (String c "", 1%nat) else (escape_byte c, 1%nat)
      else
        let '(rr, size) := DecodeRuneInString s in
        if (rr =? RuneError) && Nat.eqb size 1 then ("\ufffd", 1%nat)
        else if (rr =? 8232) || (rr =? 8233)
        then ("\u202" ++ String (hex_char (Z.land rr 15)) "", size)
        else (take size s, size)
  end.

Fixpoint encode_from (skip : nat) (s : string) : string :=
  match s with
  | EmptyString => ""
  | String _ r =>
      match skip with
      | S k => encode_from k r
      | O =>
          let '(out, n) := encode_step s in
          out ++ encode_from (n - 1) r
      end
  end.

Definition encode_string (s : string) : string :=
  String dquote (encode_from 0 s ++ String dquote "").

(** The compact encoding; [None] for a NaN or an infinity. *)
Fixpoint encode (v : value) : option string :=
  match v with
  | JNull => Some "null"
  | JBool b => Some (if b then "true" else "false")
  | JNumber f => if is_finite f then Some (FormatFloat f) else None
  | JString s => Some (encode_string s)
  | JArray l =>
      match
        (fix elements (l : list value) : option (list string) :=
           match l with
           | [] => Some []
           | x :: r =>
               match encode x, elements r with
               | Some s, Some ss => Some (s :: ss)
               | _, _ => None
               end
           end) l
      with
      | Some ss => Some ("[" ++ strings_Join ss "," ++ "]")
      | None => None
      end
  | JObject m =>
      match
        (fix members (m : list (string * value)) : option (list string) :=
           match m with
           | [] => Some []
           | (k, x) :: r =>
               match encode x, members r with
               | Some s, Some ss =>
                   Some ((encode_string k ++ String ":" s) :: ss)
               | _, _ => None
               end
           end) m
      with
      | Some ss => Some ("{" ++ strings_Join ss "," ++ "}")
      | None => None
      end
  end.

(** [json.Marshal]. *)
Definition Marshal (v : value) : result string :=
  match encode v with
  | Some s => Ok s
  | None => Err UnsupportedValueError
  end.

Fixpoint spaces (n : nat) : string :=
  match n with O => "" | S n' => String " " (spaces n') end.

(** A line break followed by [depth] indents of two spaces. *)
Definition newline_indent (depth : nat) : string :=
  String (byte_of 10) (spaces (2 * depth)).

(** The indented encoding: what [json.Indent] makes of the compact
    one, with an empty prefix and an indent of two spaces. *)
Fixpoint encode_indent (depth : nat) (v : value) : option string :=
  match v with
  | JArray ((_ :: _) as l) =>
      match
        (fix elements (l : list value) : option (list string) :=
           match l with
           | [] => Some []
           | x :: r =>
               match encode_indent (S depth) x, elements r with
               | Some s, Some ss => Some (s :: ss)
               | _, _ => None
               end
           end) l
      with
      | Some ss =>
          Some ("[" ++ newline_indent (S depth)
                ++ strings_Join ss ("," ++ newline_indent (S depth))
                ++ newline_indent depth ++ "]")
      | None => None
      end
  | JObject ((_ :: _) as m) =>
      match
        (fix members (m : list (string * value)) : option (list string) :=
           match m with
           | [] => Some []
           | (k, x) :: r =>
               match encode_indent (S depth) x, members r with
               | Some s, Some ss =>
                   Some ((encode_string k ++ String ":" (String " " s)) :: ss)
               | _, _ => None
               end
           end) m
      with
      | Some ss =>
          Some ("{" ++ newline_indent (S depth)
                ++ strings_Join ss ("," ++ newline_indent (S depth))
                ++ newline_indent depth ++ "}")
      | None => None
      end
  | _ => encode v
  end.

(** [json.MarshalIndent(v, prefix, indent)] for the empty prefix and
    the indent of two spaces. *)
Definition MarshalIndent (v : value) : result string :=
  match encode_indent 0 v with
  | Some s => Ok s
  | None => Err UnsupportedValueError
  end.

Definition error_text (e : json_error) : string :=
  match e with
  | SyntaxError => "json: syntax error"
  | UnmarshalTypeError =>
      "json: cannot unmarshal number into Go value of type float64"
  | UnsupportedValueError => "json: unsupported value"
  end.

(* ================================================================= *)
(** ** Induction over nested trees and values, and their invariants *)

Fixpoint tree_induction (P : tree -> Prop)
    (Hnull : P TrNull) (Hbool : forall b, P (TrBool b))
    (Hnum : forall lit, P (TrNum lit)) (Hstr : forall raw, P (TrStr raw))
    (Harr : forall l, Forall P l -> P (TrArr l))
    (Hobj : forall ms, Forall (fun kv => P (snd kv)) ms -> P (TrObj ms))
    (t : tree) : P t :=
  match t with
  | TrNull => Hnull
  | TrBool b => Hbool b
  | TrNum lit => Hnum lit
  | TrStr raw => Hstr raw
  | TrArr l =>
      Harr l
        ((fix all (l : list tree) : Forall P l :=
            match l with
            | [] => Forall_nil P
            | x :: r =>
                Forall_cons x
                  (tree_induction P Hnull Hbool Hnum Hstr Harr Hobj x) (all r)
            end) l)
  | TrObj ms =>
      Hobj ms
        ((fix all (ms : list (string * tree))
            : Forall (fun kv => P (snd kv)) ms :=
            match ms with
            | [] => Forall_nil _
            | kv :: r =>
                Forall_cons kv
                  (tree_induction P Hnull Hbool Hnum Hstr Harr Hobj (snd kv))
                  (all r)
            end) ms)
  end.

Fixpoint value_induction (P : value -> Prop)
    (Hnull : P JNull) (Hbool : forall b, P (JBool b))
    (Hnum : forall f, P (JNumber f)) (Hstr : forall s, P (JString s))
    (Harr : forall l, Forall P l -> P (JArray l))
    (Hobj : forall m, Forall (fun kv => P (snd kv)) m -> P (JObject m))
    (v : value) : P v :=
  match v with
  | JNull => Hnull
  | JBool b => Hbool b
  | JNumber f => Hnum f
  | JString s => Hstr s
  | JArray l =>
      Harr l
        ((fix all (l : list value) : Forall P l :=
            match l with
            | [] => Forall_nil P
            | x :: r =>
                Forall_cons x
                  (value_induction P Hnull Hbool Hnum Hstr Harr Hobj x) (all r)
            end) l)
  | JObject m =>
      Hobj m
        ((fix all (m : list (string * value))
            : Forall (fun kv => P (snd kv)) m :=
            match m with
            | [] => Forall_nil _
            | kv :: r =>
                Forall_cons kv
                  (value_induction P Hnull Hbool Hnum Hstr Harr Hobj (snd kv))
                  (all r)
            end) m)
  end.

(** Every number literal of the tree fits a float64. *)
Fixpoint numbers_in_range (t : tree) : bool :=
  match t with
  | TrNum lit => match ParseFloat lit with Some _ => true | None => false end
  | TrArr l => forallb numbers_in_range l
  | TrObj ms => forallb (fun kv => numbers_in_range (snd kv)) ms
  | _ => true
  end.

(** No number of the value is a NaN or an infinity. *)
Fixpoint finite_value (v : value) : bool :=
  match v with
  | JNumber f => is_finite f
  | JArray l => forallb finite_value l
  | JObject m => forallb (fun kv => finite_value (snd kv)) m
  | _ => true
  end.

(** The loops inside [convert], [encode] and [encode_indent], by name. *)
Definition convert_elements : list tree -> option (list value) :=
  fix elements (l : list tree) : option (list value) :=
    match l with
    | [] => Some []
    | x :: r =>
        match convert x, elements r with
        | Some v, Some vs => Some (v :: vs)
        | _, _ => None
        end
    end.

Definition convert_members
  : list (string * tree) -> list (string * value)
    -> option (list (string * value)) :=
  fix members (ms : list (string * tree)) (acc : list (string * value))
    : option (list (string * value)) :=
    match ms with
    | [] => Some acc
    | (k, x) :: r =>
        match convert x with
        | Some v => members r (map_set (unquote k) v acc)
        | None => None
        end
    end.

Definition encode_elements : list value -> option (list string) :=
  fix elements (l : list value) : option (list string) :=
    match l with
    | [] => Some []
    | x :: r =>
        match encode x, elements r with
        | Some s, Some ss => Some (s :: ss)
        | _, _ => None
        end
    end.

Definition encode_members : list (string * value) -> option (list string) :=
  fix members (m : list (string * value)) : option (list string) :=
    match m with
    | [] => Some []
    | (k, x) :: r =>
        match encode x, members r with
        | Some s, Some ss => Some ((encode_string k ++ String ":" s) :: ss)
        | _, _ => None
        end
    end.

Definition indent_elements (depth : nat) : list value -> option (list string) :=
  fix elements (l : list value) : option (list string) :=
    match l with
    | [] => Some []
    | x :: r =>
        match encode_indent (S depth) x, elements r with
        | Some s, Some ss => Some (s :: ss)
        | _, _ => None
        end
    end.

Definition indent_members (depth : nat)
  : list (string * value) -> option (list string) :=
  fix members (m : list (string * value)) : option (list string) :=
    match m with
    | [] => Some []
    | (k, x) :: r =>
        match encode_indent (S depth) x, members r with
        | Some s, Some ss =>
            Some ((encode_string k ++ String ":" (String " " s)) :: ss)
        | _, _ => None
        end
    end.

(* ================================================================= *)
(** ** Tokens and trees of an encoded value *)

(** The bytes that may continue a number. *)
Definition number_char (c : ascii) : bool :=
  is_digit c || Ascii.eqb c "." || is_e c || Ascii.eqb c "+" || Ascii.eqb c "-".

Definition prepend (pre : list token) (r : option (list token * lstate))
  : option (list token * lstate) :=
  match r with
  | Some (ts, st) => Some ((pre ++ ts)%list, st)
  | None => None
  end.

Fixpoint num_run (ns : numstate) (s : string) : option numstate :=
  match s with
  | EmptyString => Some ns
  | String c r =>
      match num_next ns c with
      | Some ns' => num_run ns' r
      | None => None
      end
  end.

(** [s] is a number literal. *)
Definition number_syntax (s : string) : bool :=
  match s with
  | EmptyString => false
  | String c r =>
      match
        (if Ascii.eqb c "-" then Some NNeg
         else if Ascii.eqb c "0" then Some N0
         else if is_digit c then Some N1 else None)
      with
      | Some ns =>
          match num_run ns r with
          | Some ns' => num_complete ns'
          | None => false
          end
      | None => false
      end
  end.

(** The encoder's text for [f] is a number literal that converts back
    to [f]. *)
Definition float_round_trips (f : float64) : bool :=
  number_syntax (FormatFloat f) && number_ok f (FormatFloat f).

(** The tree that the encoding of a value parses to. *)
Fixpoint tree_of (v : value) : tree :=
  match v with
  | JNull => TrNull
  | JBool b => TrBool b
  | JNumber f => TrNum (FormatFloat f)
  | JString s => TrStr (encode_from 0 s)
  | JArray l => TrArr (map tree_of l)
  | JObject m => TrObj (map (fun kv => (encode_from 0 (fst kv), tree_of (snd kv))) m)
  end.

(** The tokens of a tree. *)
Fixpoint tokens_of (t : tree) : list token :=
  match t with
  | TrNull => [TNull]
  | TrBool b => [if b then TTrue else TFalse]
  | TrNum lit => [TNum lit]
  | TrStr raw => [TStr raw]
  | TrArr l =>
      TLBracket ::
      (fix elements (l : list tree) : list token :=
         match l with
         | [] => [TRBracket]
         | [x] => tokens_of x ++ [TRBracket]
         | x :: r => tokens_of x ++ TComma :: elements r
         end) l
  | TrObj ms =>
      TLBrace ::
      (fix members (ms : list (string * tree)) : list token :=
         match ms with
         | [] => [TRBrace]
         | [(k, x)] => TStr k :: TColon :: tokens_of x ++ [TRBrace]
         | (k, x) :: r => TStr k :: TColon :: tokens_of x ++ TComma :: members r
         end) ms
  end%list.

(** The number of arrays and objects nested in a tree. *)
Fixpoint tree_depth (t : tree) : Z :=
  match t with
  | TrArr l => 1 + fold_right (fun x d => Z.max (tree_depth x) d) 0 l
  | TrObj ms => 1 + fold_right (fun kv d => Z.max (tree_depth (snd kv)) d) 0 ms
  | _ => 0
  end.

Fixpoint value_depth (v : value) : Z :=
  match v with
  | JArray l => 1 + fold_right (fun x d => Z.max (value_depth x) d) 0 l
  | JObject m => 1 + fold_right (fun kv d => Z.max (value_depth (snd kv)) d) 0 m
  | _ => 0
  end.

(** The scanner inside a string, without the bookkeeping: the state
    after [c], or [None] at the closing quote or at a byte that the
    scanner refuses. *)
Definition str_next (st : strstate) (c : ascii) : option strstate :=
  match st with
  | SIn =>
      if Ascii.eqb c dquote then None
      else if Ascii.eqb c "\" then Some SEsc
      else if byte_val c <? 32 then None
      else Some SIn
  | SEsc =>
      if is_simple_escape c then Some SIn
      else if Ascii.eqb c "u" then Some (SU 0)
      else None
  | SU k =>
      if is_hex c then Some (if Nat.eqb k 3 then SIn else SU (S k))
      else None
  end.

Fixpoint str_run (st : strstate) (s : string) : option strstate :=
  match s with
  | EmptyString => Some st
  | String c r =>
      match str_next st c with
      | Some st' => str_run st' r
      | None => None
      end
  end.

(** Every rune of [s] is validly encoded. *)
Fixpoint utf8_valid_from (skip : nat) (s : string) : bool :=
  match s with
  | EmptyString => true
  | String _ r =>
      match skip with
      | S k => utf8_valid_from k r
      | O =>
          let '(rr, n) := DecodeRuneInString s in
          negb ((rr =? RuneError) && Nat.eqb n 1)
          && utf8_valid_from (n - 1) r
      end
  end.

Definition utf8_valid (s : string) : bool := utf8_valid_from 0 s.

(** [rune_at s r n]: [s] starts with a valid encoding, [n >= 2] bytes
    long, of the rune [r]. *)
Inductive rune_at : string -> rune -> nat -> Prop :=
| rune_at2 (c0 c1 : ascii) (t : string) :
    194 <= byte_val c0 < 224 -> 128 <= byte_val c1 <= 191 ->
    rune_at (String c0 (String c1 t))
      ((byte_val c0 - 192) * 64 + (byte_val c1 - 128)) 2
| rune_at3 (c0 c1 c2 : ascii) (t : string) :
    224 <= byte_val c0 < 240 -> 128 <= byte_val c1 <= 191 ->
    (byte_val c0 = 224 -> 160 <= byte_val c1) ->
    (byte_val c0 = 237 -> byte_val c1 <= 159) ->
    128 <= byte_val c2 <= 191 ->
    rune_at (String c0 (String c1 (String c2 t)))
      ((byte_val c0 - 224) * 4096 + (byte_val c1 - 128) * 64
       + (byte_val c2 - 128)) 3
| rune_at4 (c0 c1 c2 c3 : ascii) (t : string) :
    240 <= byte_val c0 < 245 -> 128 <= byte_val c1 <= 191 ->
    (byte_val c0 = 240 -> 144 <= byte_val c1) ->
    (byte_val c0 = 244 -> byte_val c1 <= 143) ->
    128 <= byte_val c2 <= 191 -> 128 <= byte_val c3 <= 191 ->
    rune_at (String c0 (String c1 (String c2 (String c3 t))))
      ((byte_val c0 - 240) * 262144 + (byte_val c1 - 128) * 4096
       + (byte_val c2 - 128) * 64 + (byte_val c3 - 128)) 4.

(** The loops inside [tokens_of], by name. *)
Definition tokens_elements : list tree -> list token :=
  fix elements (l : list tree) : list token :=
    match l with
    | [] => [TRBracket]
    | [x] => tokens_of x ++ [TRBracket]
    | x :: r => tokens_of x ++ TComma :: elements r
    end%list.

Definition tokens_members : list (string * tree) -> list token :=
  fix members (ms : list (string * tree)) : list token :=
    match ms with
    | [] => [TRBrace]
    | [(k, x)] => TStr k :: TColon :: tokens_of x ++ [TRBrace]
    | (k, x) :: r => TStr k :: TColon :: tokens_of x ++ TComma :: members r
    end%list.

(** A float64 in its one representation: the mantissa below 2^53, the
    exponent from -1074 to 971, and the mantissa at least 2^52 unless
    the exponent is the smallest (the subnormal numbers). *)
Definition canonical_float (f : float64) : bool :=
  match f with
  | S754_zero _ => true
  | S754_finite _ m e =>
      (Z.pos m <? 2 ^ 53) && (-1074 <=? e) && (e <=? 971)
      && ((2 ^ 52 <=? Z.pos m) || (e =? -1074))
  | _ => false
  end.

(** The keys of [m] increase strictly. *)
Fixpoint sorted_keys (m : list (string * value)) : Prop :=
  match m with
  | [] => True
  | (k, _) :: r =>
      Forall (fun kv => String.compare k (fst kv) = Lt) r /\ sorted_keys r
  end.

(** What [Unmarshal] produces: canonical floats, strings and keys in
    valid UTF-8, maps sorted by key. *)
Fixpoint wf_value (v : value) : Prop :=
  match v with
  | JNumber f => canonical_float f = true
  | JString s => utf8_valid s = true
  | JArray l =>
      (fix all (l : list value) : Prop :=
         match l with
         | [] => True
         | x :: r => wf_value x /\ all r
         end) l
  | JObject m =>
      sorted_keys m
      /\ (fix all (m : list (string * value)) : Prop :=
            match m with
            | [] => True
            | (k, x) :: r => (utf8_valid k = true /\ wf_value x) /\ all r
            end) m
  | _ => True
  end.

Definition wf_elements : list value -> Prop :=
  fix all (l : list value) : Prop :=
    match l with
    | [] => True
    | x :: r => wf_value x /\ all r
    end.

Definition wf_members : list (string * value) -> Prop :=
  fix all (m : list (string * value)) : Prop :=
    match m with
    | [] => True
    | (k, x) :: r => (utf8_valid k = true /\ wf_value x) /\ all r
    end.

(** The first token of a value is not a closing bracket. *)
Definition value_start (tk : token) : bool :=
  match tk with
  | TRBrace | TRBracket | TComma | TColon => false
  | _ => true
  end.

(** The parser reads back the tokens of [t], at any depth that leaves
    room for the nesting of [t] and with fuel beyond their number. *)
Definition parses (t : tree) : Prop :=
  forall d rest fuel,
    d + tree_depth t <= maxNestingDepth ->
    (List.length (tokens_of t) < fuel)%nat ->
    parse_value fuel d (tokens_of t ++ rest)%list = Some (t, rest).

(** The first digit is not a zero. *)
Definition leading_nonzero (d : string) : bool :=
  match d with
  | EmptyString => false
  | String c _ => negb (Ascii.eqb c "0")
  end.

(* ================================================================= *)
(** ** Fragments as tokens *)

(** The tokens of the members of an object and of the elements of an
    array, without the brackets around them. *)
Fixpoint body_tokens (ms : list (string * tree)) : list token :=
  match ms with
  | [] => []
  | (k, x) :: r =>
      TStr k :: TColon :: tokens_of x
      ++ match r with [] => [] | _ :: _ => TComma :: body_tokens r end
  end%list.

Fixpoint item_tokens (l : list tree) : list token :=
  match l with
  | [] => []
  | x :: r =>
      tokens_of x
      ++ match r with [] => [] | _ :: _ => TComma :: item_tokens r end
  end%list.

(** A text that may follow a value: its first byte ends a number. *)
Definition delimited (tail : string) : bool :=
  match tail with
  | String c _ => negb (number_char c)
  | EmptyString => false
  end.

(** [s] is scanned as the tokens [ts], whatever delimited text
    follows. *)
Definition scans (s : string) (ts : list token) : Prop :=
  forall tail, delimited tail = true ->
    lex_run LStart (s ++ tail) = prepend ts (lex_run LStart tail).

(** The float64 [f] is the integer [n]. *)
Definition float_is_integer (f : float64) (n : Z) : Prop :=
  match f with
  | S754_zero _ => n = 0
  | S754_finite s m e =>
      e <= 0 /\ (if s then - Z.pos m else Z.pos m) = n * 2 ^ (- e)
  | _ => False
  end.

(** The states that the scanner reaches: while it reads [true],
    [false] or [null] the letters still expected are lower-case
    letters. *)
Fixpoint lowercase (s : string) : bool :=
  match s with
  | EmptyString => true
  | String c r => in_range 97 122 (byte_val c) && lowercase r
  end.

Definition steady (st : lstate) : bool :=
  match st with
  | LLit rest _ => lowercase rest
  | _ => true
  end.

(* ===== es package ===== *)

(* ================================================================= *)
(** ** The package [es] *)

Section Es.

(** The host environment: the Unicode table behind [unicode.IsPrint] for
    runes above U+00FF, the time-zone database behind
    [time.LoadLocation], and the process's local zone. *)
Variable isPrintTable : rune -> bool.
Variable LoadLocation : string -> option Location.
Variable Local : Location.

(** A lemma depends on the environment only through its statement. *)
#[local] Set Default Proof Using "Type".

(** [strconv.IsPrint]. *)
Definition IsPrint (r : rune) : bool :=
  if r <=? 255 then
    if in_range 32 126 r then true
    else if in_range 161 255 r then negb (r =? 173)
    else false
  else isPrintTable r.

(** [strconv.appendEscapedRune] for the double-quoted, non-ASCII-only
    case. *)
Definition appendEscapedRune (r : rune) : string :=
  if (r =? 34) || (r =? 92) then String "\" (String (byte_of r) "")
  else if IsPrint r then EncodeRune r
  else if r =? 7 then "\a"
  else if r =? 8 then "\b"
  else if r =? 12 then "\f"
  else if r =? 10 then "\n"
  else if r =? 13 then "\r"
  else if r =? 9 then "\t"
  else if r =? 11 then "\v"
  else if (r <? 32) || (r =? 127) then "\x" ++ hex2 r
  else if (r <? 0) || (MaxRune <? r) || is_surrogate r then "\u" ++ hex4 RuneError
  else if r <? 65536 then "\u" ++ hex4 r
  else "\U" ++ hex8 r.

(** The loop of [strconv.appendQuotedWith]; [skip] counts the bytes of
    the current rune still to pass over. *)
Fixpoint quote_body (skip : nat) (s : string) : string :=
  match s with
  | EmptyString => ""
  | String c rest =>
      match skip with
      | S k => quote_body k rest
      | O =>
          let '(r, width) := DecodeRuneInString s in
          (if Nat.eqb width 1 && (r =? RuneError)
           then "\x" ++ hex2 (byte_val c)
           else appendEscapedRune r)
          ++ quote_body (width - 1) rest
      end
  end.

(** [strconv.Quote]: a double-quoted Go string literal. *)
Definition Quote (s : string) : string :=
  String dquote (quote_body 0 s ++ String dquote "").

(** *** fmt.Sprintf *)

(** One verb applied to one operand.  The formats of es.go only pair
    [%s] and [%q] with strings, [%d] with ints and [%f] with float64s;
    any other pairing prints Go's bad-verb marker, abbreviated here. *)
Definition format_verb (prec : option nat) (verb : ascii) (a : any) : string :=
  match verb, a with
  | "s"%char, VString s => s
  | "s"%char, VDirection s => s
  | "q"%char, VString s => Quote s
  | "q"%char, VDirection s => Quote s
  | "d"%char, VInt n => itoa n
  | "d"%char, VInt64 n => itoa n
  | "f"%char, VFloat64 f =>
      fmt_f (match prec with Some p => p | None => 6%nat end) f
  | _, _ => String "%" (String "!" (String verb "(BADVERB)"))
  end.

Inductive fstate : Type :=
| FLit                 (* copying literal text *)
| FFlags               (* after the percent sign, reading flags *)
| FPrec (n : nat).     (* after the point, reading the precision *)

(** The format interpreter: literal text is copied, [%%] is a percent
    sign, and a directive is an optional [0] flag, an optional [.N]
    precision and a verb, which consumes the next operand. *)
Fixpoint Sprintf_from (st : fstate) (format : string) (a : list any) : string :=
  match format with
  | EmptyString =>
      match st with FLit => "" | _ => "%!(NOVERB)" end
  | String c r =>
      match st with
      | FLit =>
          if Ascii.eqb c "%" then Sprintf_from FFlags r a
          else String c (Sprintf_from FLit r a)
      | FFlags =>
          if Ascii.eqb c "%" then String c (Sprintf_from FLit r a)
          else if Ascii.eqb c "0" then Sprintf_from FFlags r a
          else if Ascii.eqb c "." then Sprintf_from (FPrec 0) r a
          else
            match a with
            | x :: a' => format_verb None c x ++ Sprintf_from FLit r a'
            | [] => String "%" (String "!" (String c "(MISSING)"))
                      ++ Sprintf_from FLit r []
            end
      | FPrec n =>
          if is_digit c
          then Sprintf_from (FPrec (10 * n + Z.to_nat (byte_val c - 48))) r a
          else
            match a with
            | x :: a' => format_verb (Some n) c x ++ Sprintf_from FLit r a'
            | [] => String "%" (String "!" (String c "(MISSING)"))
                      ++ Sprintf_from FLit r []
            end
      end
  end.

Definition Sprintf (format : string) (a : list any) : string :=
  Sprintf_from FLit format a.

(** *** es.go *)

(** Clean empty strings which may be present from When(). *)
Fixpoint clean (s : list string) : list string :=
  match s with
  | [] => []
  | v :: s' => if String.eqb v "" then clean s' else v :: clean s'
  end.

(** Join returns strings joined by a comma. *)
Definition join (s : list string) : string :=
  strings_Join (clean s) ",
".

(** JoinFloats returns floats joined by a comma. *)
Definition joinFloats (vals : list float64) : string :=
  strings_Join (map (fun v => Sprintf "%0.2f" [VFloat64 v]) vals) ", ".

(** offset returns the offset of [t]. *)
Definition offset (t : Time) : string := Format_offset t.

(** When returns [children] only when [cond] is met. *)
Definition When (cond : bool) (children : list string) : string :=
  if cond then join children else "".

(** Filter applies the given filters. *)
Definition Filter (filters : list string) : list string -> string :=
  fun children =>
    Sprintf (golit "
			'filter': {
				'bool': {
					'filter': [
						%s
					]
				}
			},
			%s
		") [VString (join filters); VString (join children)].

(** Range for filtering. *)
Definition Range (gte lte : string) : string :=
  Sprintf (golit "{
		'range': {
			'timestamp': {
				'gte': %q,
				'lte': %q
			}
		}
	}") [VString gte; VString lte].

(** Term returns a term reference for filtering. *)
Definition Term (field value : string) : string :=
  Sprintf (golit "{
		'term': {
			%q: %q
		}
	}") [VString field; VString value].

(** Aggs with one or more agg. *)
Definition Aggs (children : list string) : string :=
  Sprintf (golit "
  'aggs': {
    %s
  }") [VString (join children)].

(** Agg with the given name. *)
Definition Agg (name : string) (children : list string) : string :=
  Sprintf (golit "
  %q: {
    %s
  }") [VString name; VString (join children)].

(** Terms agg of the given field. *)
Definition Terms (field : string) (size : Z) : string :=
  Sprintf (golit "
    'terms': {
      'field': %q,
      'size': %d
    }
  ") [VString field; VInt size].

(** Sum agg of the given field. *)
Definition Sum (field : string) : string :=
  Sprintf (golit "
    'sum': {
      'field': %q
    }
  ") [VString field].

(** Avg agg of the given field. *)
Definition Avg (field : string) : string :=
  Sprintf (golit "
    'avg': {
      'field': %q
    }
  ") [VString field].

(** Min agg of the given field. *)
Definition Min (field : string) : string :=
  Sprintf (golit "
    'min': {
      'field': %q
    }
  ") [VString field].

(** Max agg of the given field. *)
Definition Max (field : string) : string :=
  Sprintf (golit "
    'max': {
      'field': %q
    }
  ") [VString field].

(** Stats agg of the given field. *)
Definition Stats (field : string) : string :=
  Sprintf (golit "
    'stats': {
      'field': %q
    }
  ") [VString field].

(** Percentiles agg of the given field, optionally specifying which
    [percents] to include. *)
Definition Percentiles (field : string) (percents : list float64) : string :=
  if (0 <? List.length percents)%nat then
    Sprintf (golit "
      'stats': {
        'field': %q,
        'percents': [%s]
      }
    ") [VString field; VString (joinFloats percents)]
  else
    Sprintf (golit "
    'stats': {
      'field': %q
    }
  ") [VString field].

(** DateHistogram agg of the given field. *)
Definition DateHistogram (field : string) (options : list string) : string :=
  Sprintf (golit "
		'date_histogram': {
			'field': %q,
			%s
		}
	") [VString field; VString (join options)].

(** Histogram agg of the given field. *)
Definition Histogram (field : string) (options : list string) : string :=
  Sprintf (golit "
    'histogram': {
      'field': %q,
      %s
    }
  ") [VString field; VString (join options)].

(** [time.Now()] when the clock reads [now]. *)
Definition Now (now : Z) : Time := {| unix := now; location := Local |}.

(** TimeZone offset such as -08:00 or America/Los_Angeles.  The clock
    read by [time.Now()] is the explicit argument [now]. *)
Definition TimeZone (now : Z) (s : list string) : string :=
  match s with
  | [] =>
      (* current location *)
      Sprintf (golit "'time_zone': %q") [VString (offset (Now now))]
  | s0 :: _ =>
      match LoadLocation s0 with
      | Some loc =>
          (* location name *)
          Sprintf (golit "'time_zone': %q") [VString (offset (Time_In (Now now) loc))]
      | None =>
          (* offset string *)
          Sprintf (golit "'time_zone': %q") [VString s0]
      end
  end.

(** Interval int or string. *)
Definition Interval (v : any) : outcome string :=
  match v with
  | VString _ => Returns (Sprintf (golit "'interval': %q") [v])
  | VInt _ => Returns (Sprintf (golit "'interval': %d") [v])
  | _ => Panics "invalid interval, must be an int or string"
  end.

(** MinDocCount of [n]. *)
Definition MinDocCount (n : Z) : string :=
  Sprintf (golit "'min_doc_count': %d") [VInt n].

(** Missing value of [n]. *)
Definition Missing (n : Z) : string :=
  Sprintf (golit "'missing': %d") [VInt n].

(** ExtendedBounds of [min] / [max]. *)
Definition ExtendedBounds (min max : Z) : string :=
  Sprintf (golit "'extended_bounds': {
    'min': %d,
    'max': %d
  }") [VInt min; VInt max].

(** Direction for sorting. *)
Definition Direction := string.

(** Directions available. *)
Definition Ascending : Direction := "asc".
Definition Descending : Direction := "desc".

(** Order [field] by [direction]. *)
Definition Order (field : string) (dir : Direction) : string :=
  Sprintf (golit "'order': {
    %q: %q
  }") [VString field; VDirection dir].



(** *** Predicates used to state the properties of [join] *)

Definition nonempty (v : string) : bool := negb (String.eqb v "").

(** A line is empty when its line break stands at the start of the
    text or directly after another line break; [at_start] tells that
    the scan is at the start of a line.  The empty text has no line. *)
Definition newline : ascii := byte_of 10.

Fixpoint empty_line_from (at_start : bool) (s : string) : bool :=
  match s with
  | EmptyString => false
  | String c r =>
      if Ascii.eqb c newline then at_start || empty_line_from true r
      else empty_line_from false r
  end.

Definition has_empty_line (s : string) : bool := empty_line_from true s.

(** *** Predicates used to state the properties of the constructors *)

(** Printable ASCII other than the double quote and the backslash:
    the bytes that [%q] copies unchanged. *)
Definition plain_byte (c : ascii) : bool :=
  let b := byte_val c in
  in_range 32 126 b && negb (b =? 34) && negb (b =? 92).

Fixpoint plain (s : string) : bool :=
  match s with
  | EmptyString => true
  | String c r => plain_byte c && plain r
  end.

(** The runes that [%q] writes in a form that JSON reads back: a
    printable rune, which it copies (with a backslash before the double
    quote and the backslash); backspace, tab, newline, form feed and
    carriage return, which it writes as [\b], [\t], [\n], [\f] and
    [\r]; and an unprintable rune from U+0080 to U+FFFF, which it
    writes as [\uXXXX].  The other runes it writes as [\a], [\v],
    [\xXX] or [\UXXXXXXXX], escapes that JSON does not have. *)
Definition quotable_rune (r : rune) : bool :=
  IsPrint r
  || (r =? 8) || (r =? 9) || (r =? 10) || (r =? 12) || (r =? 13)
  || in_range 128 65535 r.

(** Every rune of [s] is validly encoded (an invalid byte is written
    as [\xXX]) and quotable; [skip] counts the bytes of the current
    rune still to pass over. *)
Fixpoint quotable_from (skip : nat) (s : string) : bool :=
  match s with
  | EmptyString => true
  | String _ rest =>
      match skip with
      | S k => quotable_from k rest
      | O =>
          let '(r, width) := DecodeRuneInString s in
          negb (Nat.eqb width 1 && (r =? RuneError))
          && quotable_rune r
          && quotable_from (width - 1) rest
      end
  end.

Definition quotable (s : string) : bool := quotable_from 0 s.

Fixpoint all_digits (s : string) : bool :=
  match s with
  | EmptyString => true
  | String c r => is_digit c && all_digits r
  end.

(** An optional minus sign, one or more digits, a point, two digits. *)
Definition two_decimals (s : string) : Prop :=
  exists (neg : bool) (ip fp : string),
    s = (if neg then "-" else "") ++ ip ++ String "." fp
    /\ ip <> "" /\ all_digits ip = true
    /\ all_digits fp = true /\ String.length fp = 2%nat.

(** compress JSON. *)
Definition compress (s : string) : outcome string :=
  match Unmarshal s with
  | Err e => Panics (error_text e)
  | Ok v =>
      match Marshal v with
      | Err e => Panics (error_text e)
      | Ok b => Returns b
      end
  end.

(** Pretty JSON. *)
Definition Pretty (s : string) : outcome string :=
  match Unmarshal s with
  | Err e => Panics (error_text e)
  | Ok v =>
      match MarshalIndent v with
      | Err e => Panics (error_text e)
      | Ok b => Returns b
      end
  end.

(** Query is the root of a query. *)
Definition Query (children : list string) : outcome string :=
  compress (Sprintf (golit "{
    'size': 0,
    %s
  }") [VString (join children)]).

(** *** Calls of the package at an instant

    One value per exported function with its arguments; [run now c] is
    the call [c] made when the clock reads [now].  The clock is handed
    to [TimeZone], the one function that calls [time.Now()]. *)
Inductive call : Type :=
| CWhen (cond : bool) (children : list string)
| CPretty (s : string)
| CQuery (children : list string)
| CFilter (filters children : list string)
| CRange (gte lte : string)
| CTerm (field value : string)
| CAggs (children : list string)
| CAgg (name : string) (children : list string)
| CTerms (field : string) (size : Z)
| CSum (field : string)
| CAvg (field : string)
| CMin (field : string)
| CMax (field : string)
| CStats (field : string)
| CPercentiles (field : string) (percents : list float64)
| CDateHistogram (field : string) (options : list string)
| CHistogram (field : string) (options : list string)
| CTimeZone (s : list string)
| CInterval (v : any)
| CMinDocCount (n : Z)
| CMissing (n : Z)
| CExtendedBounds (min max : Z)
| COrder (field : string) (dir : Direction).

Definition run (now : Z) (c : call) : outcome string :=
  match c with
  | CWhen cond children => Returns (When cond children)
  | CPretty s => Pretty s
  | CQuery children => Query children
  | CFilter filters children => Returns (Filter filters children)
  | CRange gte lte => Returns (Range gte lte)
  | CTerm field value => Returns (Term field value)
  | CAggs children => Returns (Aggs children)
  | CAgg name children => Returns (Agg name children)
  | CTerms field size => Returns (Terms field size)
  | CSum field => Returns (Sum field)
  | CAvg field => Returns (Avg field)
  | CMin field => Returns (Min field)
  | CMax field => Returns (Max field)
  | CStats field => Returns (Stats field)
  | CPercentiles field percents => Returns (Percentiles field percents)
  | CDateHistogram field options => Returns (DateHistogram field options)
  | CHistogram field options => Returns (Histogram field options)
  | CTimeZone s => Returns (TimeZone now s)
  | CInterval v => Interval v
  | CMinDocCount n => Returns (MinDocCount n)
  | CMissing n => Returns (Missing n)
  | CExtendedBounds min max => Returns (ExtendedBounds min max)
  | COrder field dir => Returns (Order field dir)
  end.

(** The zone whose offset a call prints: the local zone for [TimeZone]
    without an argument, the zone of the region for [TimeZone] with a
    name that [time.LoadLocation] resolves; no other call prints one. *)
Definition zone_read (c : call) : option Location :=
  match c with
  | CTimeZone [] => Some Local
  | CTimeZone (s0 :: _) => LoadLocation s0
  | _ => None
  end.

(** *** Fragments that compose

    The ways of building a fragment whose text fits where it is put: a
    [Value_fragment] stands for one element of an array (a filter
    clause), a [Member_fragment] for one or more members of an object.
    Strings written with [%q] are quotable, break-points finite, and a
    slot that a template separates from a neighbour by a comma holds at
    least one member.  A string stands in the tree as the text of its
    token, which is what [%q] wrote between the quotes.  [F_value] and
    [F_member] admit any text that is scanned as the tokens of a value
    or of members. *)
Inductive Value_fragment : string -> tree -> Prop :=
| F_value (s : string) (t : tree) :
    scans s (tokens_of t) -> Value_fragment s t
| F_Range (gte lte : string) :
    quotable gte = true -> quotable lte = true ->
    Value_fragment (Range gte lte)
      (TrObj [("range",
               TrObj [("timestamp",
                       TrObj [("gte", TrStr (quote_body 0 gte));
                              ("lte", TrStr (quote_body 0 lte))])])])
| F_Term (field value : string) :
    quotable field = true -> quotable value = true ->
    Value_fragment (Term field value)
      (TrObj [("term",
               TrObj [(quote_body 0 field, TrStr (quote_body 0 value))])]).

(** The fragments handed to [join] and the elements they stand for;
    [join] drops the empty ones. *)
Inductive Value_fragments : list string -> list tree -> Prop :=
| Vs_nil : Value_fragments [] []
| Vs_skip (filters : list string) (l : list tree) :
    Value_fragments filters l -> Value_fragments ("" :: filters) l
| Vs_cons (s : string) (t : tree) (filters : list string) (l : list tree) :
    Value_fragment s t -> Value_fragments filters l ->
    Value_fragments (s :: filters) (t :: l).

Inductive Member_fragment : string -> list (string * tree) -> Prop :=
| F_member (s : string) (ms : list (string * tree)) :
    ms <> [] -> scans s (body_tokens ms) -> Member_fragment s ms
| F_When (children : list string) (ms : list (string * tree)) :
    Member_fragments children ms -> ms <> [] ->
    Member_fragment (When true children) ms
| F_Filter (filters children : list string) (l : list tree)
    (ms : list (string * tree)) :
    Value_fragments filters l -> Member_fragments children ms -> ms <> [] ->
    Member_fragment (Filter filters children)
      (("filter", TrObj [("bool", TrObj [("filter", TrArr l)])]) :: ms)
| F_Aggs (children : list string) (ms : list (string * tree)) :
    Member_fragments children ms ->
    Member_fragment (Aggs children) [("aggs", TrObj ms)]
| F_Agg (name : string) (children : list string) (ms : list (string * tree)) :
    quotable name = true -> Member_fragments children ms ->
    Member_fragment (Agg name children) [(quote_body 0 name, TrObj ms)]
| F_Terms (field : string) (size : Z) :
    quotable field = true ->
    Member_fragment (Terms field size)
      [("terms", TrObj [("field", TrStr (quote_body 0 field));
                        ("size", TrNum (itoa size))])]
| F_Sum (field : string) :
    quotable field = true ->
    Member_fragment (Sum field)
      [("sum", TrObj [("field", TrStr (quote_body 0 field))])]
| F_Avg (field : string) :
    quotable field = true ->
    Member_fragment (Avg field)
      [("avg", TrObj [("field", TrStr (quote_body 0 field))])]
| F_Min (field : string) :
    quotable field = true ->
    Member_fragment (Min field)
      [("min", TrObj [("field", TrStr (quote_body 0 field))])]
| F_Max (field : string) :
    quotable field = true ->
    Member_fragment (Max field)
      [("max", TrObj [("field", TrStr (quote_body 0 field))])]
| F_Stats (field : string) :
    quotable field = true ->
    Member_fragment (Stats field)
      [("stats", TrObj [("field", TrStr (quote_body 0 field))])]
| F_Percentiles_none (field : string) :
    quotable field = true ->
    Member_fragment (Percentiles field [])
      [("stats", TrObj [("field", TrStr (quote_body 0 field))])]
| F_Percentiles (field : string) (p : float64) (ps : list float64) :
    quotable field = true -> forallb is_finite (p :: ps) = true ->
    Member_fragment (Percentiles field (p :: ps))
      [("stats",
        TrObj [("field", TrStr (quote_body 0 field));
               ("percents",
                TrArr (map (fun x => TrNum (fmt_f 2 x)) (p :: ps)))])]
| F_DateHistogram (field : string) (options : list string)
    (ms : list (string * tree)) :
    quotable field = true -> Member_fragments options ms -> ms <> [] ->
    Member_fragment (DateHistogram field options)
      [("date_histogram",
        TrObj (("field", TrStr (quote_body 0 field)) :: ms))]
| F_Histogram (field : string) (options : list string)
    (ms : list (string * tree)) :
    quotable field = true -> Member_fragments options ms -> ms <> [] ->
    Member_fragment (Histogram field options)
      [("histogram", TrObj (("field", TrStr (quote_body 0 field)) :: ms))]
| F_TimeZone (now : Z) (s : list string) :
    (forall s0 r, s = s0 :: r -> LoadLocation s0 = None -> quotable s0 = true) ->
    Member_fragment (TimeZone now s)
      [("time_zone",
        TrStr (quote_body 0
                 match s with
                 | [] => offset (Now now)
                 | s0 :: _ =>
                     match LoadLocation s0 with
                     | Some loc => offset (Time_In (Now now) loc)
                     | None => s0
                     end
                 end))]
| F_Interval (v : any) (s : string) :
    Interval v = Returns s ->
    (forall x, v = VString x -> quotable x = true) ->
    Member_fragment s
      [("interval",
        match v with
        | VString x => TrStr (quote_body 0 x)
        | VInt n => TrNum (itoa n)
        | _ => TrNull
        end)]
| F_MinDocCount (n : Z) :
    Member_fragment (MinDocCount n) [("min_doc_count", TrNum (itoa n))]
| F_Missing (n : Z) :
    Member_fragment (Missing n) [("missing", TrNum (itoa n))]
| F_ExtendedBounds (min max : Z) :
    Member_fragment (ExtendedBounds min max)
      [("extended_bounds",
        TrObj [("min", TrNum (itoa min)); ("max", TrNum (itoa max))])]
| F_Order (field : string) (dir : Direction) :
    quotable field = true -> quotable dir = true ->
    Member_fragment (Order field dir)
      [("order", TrObj [(quote_body 0 field, TrStr (quote_body 0 dir))])]
with Member_fragments : list string -> list (string * tree) -> Prop :=
| Ms_nil : Member_fragments [] []
| Ms_skip (children : list string) (ms : list (string * tree)) :
    Member_fragments children ms -> Member_fragments ("" :: children) ms
| Ms_cons (s : string) (ms1 : list (string * tree)) (children : list string)
    (ms : list (string * tree)) :
    Member_fragment s ms1 -> Member_fragments children ms ->
    Member_fragments (s :: children) (ms1 ++ ms).

Scheme Member_fragment_mut := Minimality for Member_fragment Sort Prop
  with Member_fragments_mut := Minimality for Member_fragments Sort Prop.

Combined Scheme Member_fragment_mutind
  from Member_fragment_mut, Member_fragments_mut.

(** The ASCII bytes that [%q] writes in a form that JSON reads back:
    printable ASCII, which it copies (with a backslash before the
    double quote and the backslash), and backspace, tab, newline, form
    feed and carriage return, which it writes as [\b], [\t], [\n],
    [\f] and [\r]. *)
Definition accepted_byte (c : ascii) : bool :=
  let b := byte_val c in
  in_range 32 126 b
  || (b =? 8) || (b =? 9) || (b =? 10) || (b =? 12) || (b =? 13).

Fixpoint accepted (s : string) : bool :=
  match s with
  | EmptyString => true
  | String c r => accepted_byte c && accepted r
  end.

(** The control bytes that [%q] writes as [\a], [\v] or [\xNN]:
    escapes that JSON does not have. *)
Definition refused_byte (c : ascii) : bool :=
  let b := byte_val c in
  ((b <? 32) || (b =? 127))
  && negb ((b =? 8) || (b =? 9) || (b =? 10) || (b =? 12) || (b =? 13)).

(* ===== Theorems ===== *)

Example utoa_examples :
  utoa 0 = "0" /\ utoa 7 = "7" /\ utoa 10 = "10" /\ utoa 1024 = "1024"
  /\ itoa (-305) = "-305" /\ utoa 9223372036854775807 = "9223372036854775807".
Proof. repeat split; reflexivity. Qed.

(* ----------------------------------------------------------------- *)
(** *** strings.Join, clean and join *)

Lemma clean_filter (s : list string) : clean s = filter nonempty s.
Proof.
  induction s as [|v s IH]; simpl; [reflexivity|].
  unfold nonempty at 1. destruct (String.eqb v ""); simpl; congruence.
Qed.

Lemma clean_idempotent (s : list string) : clean (clean s) = clean s.
Proof.
  induction s as [|v s IH]; simpl; [reflexivity|].
  destruct (String.eqb v "") eqn:E; [assumption|].
  simpl. rewrite E, IH. reflexivity.
Qed.

Lemma clean_all_empty (s : list string) :
  Forall (fun v => v = "") s -> clean s = [].
Proof.
  induction 1 as [|v s Hv _ IH]; simpl; [reflexivity|].
  subst v. simpl. exact IH.
Qed.

Lemma clean_In (s : list string) (v : string) :
  In v (clean s) <-> In v s /\ v <> "".
Proof.
  clear LoadLocation.
  rewrite clean_filter, filter_In. unfold nonempty.
  destruct (String.eqb_spec v ""); simpl; intuition congruence.
Qed.

Lemma strings_Join_cons (x y : string) (l : list string) (sep : string) :
  strings_Join (x :: y :: l) sep = x ++ sep ++ strings_Join (y :: l) sep.
Proof. reflexivity. Qed.

Lemma append_assoc (a b c : string) : (a ++ b) ++ c = a ++ (b ++ c).
Proof. induction a; simpl; congruence. Qed.

Lemma append_nil_r (a : string) : a ++ "" = a.
Proof. induction a; simpl; congruence. Qed.

(** The first and the last element of a joined list frame the result. *)
Lemma strings_Join_starts (x : string) (l : list string) (sep : string) :
  exists rest, strings_Join (x :: l) sep = x ++ rest.
Proof.
  destruct l as [|y l].
  - exists "". simpl. now rewrite append_nil_r.
  - eexists. apply strings_Join_cons.
Qed.

Lemma strings_Join_ends (l : list string) (z : string) (sep : string) :
  exists rest, strings_Join (l ++ [z])%list sep = rest ++ z.
Proof.
  induction l as [|x l [rest IH]].
  - exists "". reflexivity.
  - destruct l as [|y l].
    + exists (x ++ sep). simpl. now rewrite append_assoc.
    + exists (x ++ sep ++ rest).
      change ((x :: y :: l) ++ [z])%list with (x :: y :: (l ++ [z]))%list.
      rewrite strings_Join_cons.
      change (y :: l ++ [z])%list with ((y :: l) ++ [z])%list. rewrite IH.
      now rewrite !append_assoc.
Qed.

(** A fragment followed by the separator: the separator ends the
    last line of the fragment with its comma and starts a new line. *)
Lemma empty_line_from_app (b : bool) (a rest : string) :
  empty_line_from b (a ++ ",
" ++ rest) = empty_line_from b a || empty_line_from true rest.
Proof.
  revert b. induction a as [|c a IH]; intros b; [reflexivity|].
  cbn [append empty_line_from].
  destruct (Ascii.eqb c newline); rewrite IH; [|reflexivity].
  now rewrite orb_assoc.
Qed.

Lemma strings_Join_empty_line (l : list string) :
  has_empty_line (strings_Join l ",
") = existsb has_empty_line l.
Proof.
  unfold has_empty_line. induction l as [|x l IH]; [reflexivity|].
  destruct l as [|y l].
  - cbn [strings_Join existsb]. now rewrite orb_false_r.
  - rewrite strings_Join_cons, empty_line_from_app, IH. reflexivity.
Qed.

Lemma existsb_nonempty (s : list string) :
  existsb has_empty_line (filter nonempty s) = existsb has_empty_line s.
Proof.
  induction s as [|v s IH]; [reflexivity|]. cbn [filter existsb].
  unfold nonempty at 1. destruct (String.eqb_spec v "") as [->|_];
    cbn [negb existsb]; now rewrite IH.
Qed.

Lemma join_filter (s : list string) :
  join s = strings_Join (filter nonempty s) ",
".
Proof. unfold join. now rewrite clean_filter. Qed.

Example join_examples :
  join [] = "" /\ join [""; ""] = "" /\ join ["a"] = "a"
  /\ join [""; "a"; ""; ""; "b"; ""] = "a,
b"
  /\ join ["b"; "a"; "b"] = "b,
a,
b".
Proof. repeat split; reflexivity. Qed.

(** C3 (amended).  [join] discards exactly the fragments equal to the
    empty string and joins the others, in their input order, with a
    comma and a line break.  An empty or all-empty sequence gives the
    empty string.  The result is, character for character, the join of
    the non-empty fragments alone: it starts with the first and ends
    with the last of them (no comma of its own at either end).  The
    join adds no empty line: the result has one exactly when one of
    the fragments has one. *)
Theorem join_drops_empty_fragments (s : list string) :
  clean s = filter nonempty s
  /\ join s = strings_Join (filter nonempty s) ",
"
  /\ join s = join (filter nonempty s)
  /\ (Forall (fun v => v = "") s -> join s = "")
  /\ (forall a l, filter nonempty s = a :: l -> exists rest, join s = a ++ rest)
  /\ (forall l z, filter nonempty s = (l ++ [z])%list ->
      exists rest, join s = rest ++ z)
  /\ has_empty_line (join s) = existsb has_empty_line s.
Proof.
  split; [apply clean_filter|].
  split; [apply join_filter|].
  split.
  { unfold join. rewrite <- clean_filter, clean_idempotent. reflexivity. }
  split.
  { intros H. unfold join. now rewrite clean_all_empty. }
  split.
  { intros a l E. rewrite join_filter, E. apply strings_Join_starts. }
  split.
  { intros l z E. rewrite join_filter, E. apply strings_Join_ends. }
  rewrite join_filter, strings_Join_empty_line. apply existsb_nonempty.
Qed.

(* ----------------------------------------------------------------- *)
(** *** Evaluating a format on symbolic operands *)

Ltac sprintf_eval :=
  unfold Sprintf;
  cbn [golit Sprintf_from Ascii.eqb Bool.eqb format_verb append
       length Nat.ltb Nat.leb].

(* ----------------------------------------------------------------- *)
(** *** Interval *)

(** C5 (amended).  [Interval] returns an [interval] fragment exactly
    for a value whose dynamic type is [string] or [int]; for a value of
    any other dynamic type it panics: a float64, but also an integer of
    another type such as [int64] and a string of a named type such as
    [Direction]. *)
Theorem Interval_type_switch (v : any) :
  match v with
  | VString s => Interval v = Returns (golit "'interval': " ++ Quote s)
  | VInt n => Interval v = Returns (golit "'interval': " ++ itoa n)
  | _ => Interval v = Panics "invalid interval, must be an int or string"
  end
  /\ (returns (Interval v) = true
      <-> (exists s, v = VString s) \/ (exists n, v = VInt n)).
Proof.
  split.
  - destruct v; unfold Interval; try reflexivity;
      sprintf_eval; rewrite append_nil_r; reflexivity.
  - destruct v; cbn [Interval returns]; split;
      try discriminate; eauto;
      intros [[? E]|[? E]]; discriminate E.
Qed.

Example Interval_examples :
  Interval (VInt 5) = Returns (golit "'interval': 5")
  /\ Interval (VString "1d") = Returns (golit "'interval': '1d'")
  /\ returns (Interval (VFloat64 (float_of 3 (-1)))) = false
  /\ returns (Interval (VInt64 5)) = false
  /\ returns (Interval (VDirection "1d")) = false.
Proof. repeat split; vm_compute; reflexivity. Qed.

(* ----------------------------------------------------------------- *)
(** *** Bytes *)

Lemma byte_val_range (c : ascii) : 0 <= byte_val c < 256.
Proof.
  unfold byte_val. pose proof (N_ascii_bounded c) as H. lia.
Qed.

Lemma byte_of_val (c : ascii) : byte_of (byte_val c) = c.
Proof.
  unfold byte_of, byte_val. rewrite N2Z.id. apply ascii_N_embedding.
Qed.

Lemma byte_val_of (z : Z) : 0 <= z < 256 -> byte_val (byte_of z) = z.
Proof.
  intros H. unfold byte_of, byte_val.
  rewrite N_ascii_embedding by lia. lia.
Qed.

(* ----------------------------------------------------------------- *)
(** *** Quote on plain strings *)

Lemma plain_byte_range (c : ascii) :
  plain_byte c = true ->
  32 <= byte_val c <= 126 /\ byte_val c <> 34 /\ byte_val c <> 92.
Proof.
  unfold plain_byte, in_range. intros H.
  repeat (apply andb_true_iff in H as [H ?]).
  destruct (Z.eqb_spec (byte_val c) 34); [discriminate|].
  destruct (Z.eqb_spec (byte_val c) 92); [discriminate|]. lia.
Qed.

Lemma appendEscapedRune_plain (c : ascii) :
  plain_byte c = true -> appendEscapedRune (byte_val c) = String c "".
Proof.
  intros H. apply plain_byte_range in H as (Hr & H34 & H92).
  unfold appendEscapedRune.
  destruct (Z.eqb_spec (byte_val c) 34); [contradiction|].
  destruct (Z.eqb_spec (byte_val c) 92); [contradiction|]. simpl orb. cbv iota.
  unfold IsPrint, in_range.
  replace (byte_val c <=? 255) with true by (symmetry; apply Z.leb_le; lia).
  replace (32 <=? byte_val c) with true by (symmetry; apply Z.leb_le; lia).
  replace (byte_val c <=? 126) with true by (symmetry; apply Z.leb_le; lia).
  simpl. unfold EncodeRune, in_range.
  replace (0 <=? byte_val c) with true by (symmetry; apply Z.leb_le; lia).
  replace (byte_val c <=? 127) with true by (symmetry; apply Z.leb_le; lia).
  simpl. now rewrite byte_of_val.
Qed.

Lemma quote_body_plain (s : string) : plain s = true -> quote_body 0 s = s.
Proof.
  induction s as [|c s IH]; [reflexivity|]. simpl plain.
  intros H. apply andb_true_iff in H as [Hc Hs].
  pose proof (plain_byte_range c Hc) as (Hr & _ & _).
  cbn [quote_body]. unfold DecodeRuneInString.
  replace (byte_val c <? 128) with true by (symmetry; apply Z.ltb_lt; lia).
  replace (byte_val c =? RuneError) with false
    by (symmetry; apply Z.eqb_neq; unfold RuneError; lia).
  rewrite andb_false_r. rewrite appendEscapedRune_plain by assumption.
  simpl. now rewrite IH.
Qed.

Lemma Quote_plain (s : string) :
  plain s = true -> Quote s = String dquote (s ++ String dquote "").
Proof. intros H. unfold Quote. now rewrite quote_body_plain. Qed.

(* ----------------------------------------------------------------- *)
(** *** TimeZone *)

Lemma TimeZone_unresolved_text (now : Z) (s : string) (rest : list string) :
  LoadLocation s = None ->
  TimeZone now (s :: rest) = golit "'time_zone': " ++ Quote s.
Proof.
  intros H. unfold TimeZone. rewrite H. sprintf_eval.
  now rewrite append_nil_r.
Qed.

(* ----------------------------------------------------------------- *)
(** *** Decimal digits *)

Lemma is_digit_digit_char (d : Z) : 0 <= d < 10 -> is_digit (digit_char d) = true.
Proof.
  intros H. unfold is_digit, digit_char, in_range.
  rewrite byte_val_of by lia.
  apply andb_true_iff; split; apply Z.leb_le; lia.
Qed.

Lemma all_digits_app (a b : string) :
  all_digits (a ++ b) = all_digits a && all_digits b.
Proof.
  induction a as [|c a IH]; [reflexivity|]. simpl. rewrite IH.
  now rewrite andb_assoc.
Qed.

Lemma length_append (a b : string) :
  String.length (a ++ b) = (String.length a + String.length b)%nat.
Proof. induction a; simpl; congruence. Qed.

Lemma utoa_fuel_S (fuel : nat) (n : Z) (acc : string) :
  utoa_fuel (S fuel) n acc =
  if n <? 10 then String (digit_char (n mod 10)) acc
  else utoa_fuel fuel (n / 10) (String (digit_char (n mod 10)) acc).
Proof. reflexivity. Qed.

(** [utoa_fuel] puts a non-empty run of digits in front of [acc]. *)
Lemma utoa_fuel_digits (fuel : nat) (n : Z) (acc : string) :
  0 <= n ->
  exists d, utoa_fuel (S fuel) n acc = d ++ acc
            /\ d <> "" /\ all_digits d = true.
Proof.
  revert n acc. induction fuel as [|fuel IH]; intros n acc Hn.
  - exists (String (digit_char (n mod 10)) ""). simpl.
    rewrite is_digit_digit_char by (apply Z.mod_pos_bound; lia).
    destruct (n <? 10); repeat split; discriminate.
  - rewrite utoa_fuel_S. destruct (n <? 10).
    + exists (String (digit_char (n mod 10)) ""). simpl.
      rewrite is_digit_digit_char by (apply Z.mod_pos_bound; lia).
      repeat split; discriminate.
    + destruct (IH (n / 10) (String (digit_char (n mod 10)) acc))
        as (d & E & Hd & Ha); [apply Z.div_pos; lia|].
      exists (d ++ String (digit_char (n mod 10)) "").
      rewrite E, append_assoc. simpl. split; [reflexivity|]. split.
      * destruct d; [congruence|discriminate].
      * rewrite all_digits_app, Ha. simpl.
        now rewrite is_digit_digit_char by (apply Z.mod_pos_bound; lia).
Qed.

Lemma utoa_digits (n : Z) :
  0 <= n -> utoa n <> "" /\ all_digits (utoa n) = true.
Proof.
  intros Hn. unfold utoa.
  destruct (utoa_fuel_digits (Z.to_nat (Z.log2 n)) n "" Hn) as (d & E & Hd & Ha).
  rewrite E, append_nil_r. auto.
Qed.

Lemma utoa_small (n : Z) :
  0 <= n < 10 -> utoa n = String (digit_char n) "".
Proof.
  intros H. unfold utoa. rewrite utoa_fuel_S.
  replace (n <? 10) with true by (symmetry; apply Z.ltb_lt; lia).
  now rewrite Z.mod_small by lia.
Qed.

Lemma utoa_two (n : Z) :
  10 <= n < 100 ->
  utoa n = String (digit_char (n / 10)) (String (digit_char (n mod 10)) "").
Proof.
  intros H. unfold utoa.
  assert (1 <= Z.log2 n) as Hl by (apply Z.log2_le_pow2; simpl; lia).
  destruct (Z.to_nat (Z.log2 n)) as [|f] eqn:E; [lia|].
  rewrite !utoa_fuel_S.
  replace (n <? 10) with false by (symmetry; apply Z.ltb_ge; lia).
  replace (n / 10 <? 10) with true
    by (symmetry; apply Z.ltb_lt; apply Z.div_lt_upper_bound; lia).
  rewrite (Z.mod_small (n / 10)); [reflexivity|].
  split; [apply Z.div_pos; lia|apply Z.div_lt_upper_bound; lia].
Qed.

Lemma pad2_digits (n : Z) :
  0 <= n < 100 ->
  all_digits (pad_left0 2 (utoa n)) = true
  /\ String.length (pad_left0 2 (utoa n)) = 2%nat.
Proof.
  intros H. destruct (Z.lt_ge_cases n 10).
  - rewrite utoa_small by lia. cbn.
    rewrite is_digit_digit_char by lia. auto.
  - rewrite utoa_two by lia. cbn.
    rewrite !is_digit_digit_char; auto.
    + apply Z.mod_pos_bound; lia.
    + split; [apply Z.div_pos; lia|apply Z.div_lt_upper_bound; lia].
Qed.

(* ----------------------------------------------------------------- *)
(** *** joinFloats and Percentiles *)

Lemma round_half_even_nonneg (num den : Z) :
  0 <= num -> 0 < den -> 0 <= round_half_even num den.
Proof.
  intros Hn Hd. unfold round_half_even.
  assert (0 <= num / den) by (apply Z.div_pos; lia).
  destruct (2 * (num mod den) <? den); [assumption|].
  destruct (den <? 2 * (num mod den)); [lia|].
  destruct (Z.even (num / den)); lia.
Qed.

Lemma scaled_round_nonneg (m : positive) (e : Z) (prec : nat) :
  0 <= scaled_round m e prec.
Proof.
  unfold scaled_round.
  assert (0 < 10 ^ Z.of_nat prec) by (apply Z.pow_pos_nonneg; lia).
  destruct (0 <=? e) eqn:E.
  - apply Z.leb_le in E.
    assert (0 < 2 ^ e) by (apply Z.pow_pos_nonneg; lia). nia.
  - apply Z.leb_gt in E. apply round_half_even_nonneg; [nia|].
    apply Z.pow_pos_nonneg; lia.
Qed.

Lemma format_fixed_two_decimals (neg : bool) (n : Z) :
  0 <= n -> two_decimals (format_fixed 2 neg n).
Proof.
  intros Hn. unfold format_fixed. change (10 ^ Z.of_nat 2) with 100.
  exists neg, (utoa (n / 100)), (pad_left0 2 (utoa (n mod 100))).
  destruct (utoa_digits (n / 100)) as [Hne Hd]; [apply Z.div_pos; lia|].
  destruct (pad2_digits (n mod 100)) as [Hf Hl]; [apply Z.mod_pos_bound; lia|].
  auto.
Qed.

Lemma fmt_f_two_decimals (f : float64) :
  is_finite f = true -> two_decimals (fmt_f 2 f).
Proof.
  destruct f as [s|s| |s m e]; simpl; try discriminate; intros _.
  - apply format_fixed_two_decimals. lia.
  - apply format_fixed_two_decimals, scaled_round_nonneg.
Qed.

Lemma Sprintf_02f (v : float64) : Sprintf "%0.2f" [VFloat64 v] = fmt_f 2 v.
Proof.
  unfold Sprintf. cbn [Sprintf_from Ascii.eqb Bool.eqb].
  change (is_digit "2") with true. cbv iota.
  change (10 * 0 + Z.to_nat (byte_val "2" - 48))%nat with 2%nat.
  cbn [Sprintf_from Ascii.eqb Bool.eqb format_verb].
  change (is_digit "f") with false. cbv iota.
  cbn [Sprintf_from format_verb]. apply append_nil_r.
Qed.

Lemma joinFloats_map (vals : list float64) :
  joinFloats vals = strings_Join (map (fmt_f 2) vals) ", ".
Proof.
  unfold joinFloats. f_equal. apply map_ext. intros v. apply Sprintf_02f.
Qed.

Lemma Percentiles_cons_text (field : string) (p : float64) (ps : list float64) :
  Percentiles field (p :: ps) =
  golit "
      'stats': {
        'field': " ++ Quote field ++ golit ",
        'percents': [" ++ joinFloats (p :: ps) ++ "]
      }
    ".
Proof. unfold Percentiles. sprintf_eval. reflexivity. Qed.

(** C8 (amended).  For finite break-points, [Percentiles] lists them
    under [percents] in the caller's order, one rendering per
    break-point (nothing sorted, nothing dropped), separated by a comma
    and a space, each with exactly two decimal digits. *)
Theorem Percentiles_renders_two_decimals
  (field : string) (p : float64) (ps : list float64) :
  forallb is_finite (p :: ps) = true ->
  Percentiles field (p :: ps) =
    golit "
      'stats': {
        'field': " ++ Quote field ++ golit ",
        'percents': [" ++ strings_Join (map (fmt_f 2) (p :: ps)) ", " ++ "]
      }
    "
  /\ Forall two_decimals (map (fmt_f 2) (p :: ps)).
Proof.
  intros H. split.
  - rewrite Percentiles_cons_text, joinFloats_map. reflexivity.
  - apply Forall_map, Forall_forall. intros f Hin.
    apply fmt_f_two_decimals.
    rewrite forallb_forall in H. now apply H.
Qed.

(* ----------------------------------------------------------------- *)
(** *** The normalizers fail exactly when Unmarshal fails *)

Lemma convert_arr (l : list tree) :
  convert (TrArr l) =
  match convert_elements l with Some vs => Some (JArray vs) | None => None end.
Proof. reflexivity. Qed.

Lemma convert_obj (ms : list (string * tree)) :
  convert (TrObj ms) =
  match convert_members ms [] with Some m => Some (JObject m) | None => None end.
Proof. reflexivity. Qed.

Lemma encode_arr (l : list value) :
  encode (JArray l) =
  match encode_elements l with
  | Some ss => Some ("[" ++ strings_Join ss "," ++ "]")
  | None => None
  end.
Proof. reflexivity. Qed.

Lemma encode_obj (m : list (string * value)) :
  encode (JObject m) =
  match encode_members m with
  | Some ss => Some ("{" ++ strings_Join ss "," ++ "}")
  | None => None
  end.
Proof. reflexivity. Qed.

Lemma round_binary64_finite (neg : bool) (p q : Z) (f : float64) :
  round_binary64 neg p q = Some f -> is_finite f = true.
Proof.
  unfold round_binary64.
  destruct (round_half_even _ _ =? 2 ^ 53).
  - destruct (2 ^ 52); try destruct (_ <=? 971); intros [= <-]; reflexivity.
  - destruct (round_half_even _ _); try destruct (_ <=? 971);
      intros [= <-]; reflexivity.
Qed.

Lemma ParseFloat_finite (lit : string) (f : float64) :
  ParseFloat lit = Some f -> is_finite f = true.
Proof.
  unfold ParseFloat. destruct (decode_number lit) as [[neg M] e10].
  destruct (M =? 0); [intros [= <-]; reflexivity|].
  destruct (0 <=? e10); apply round_binary64_finite.
Qed.

Lemma forallb_map_set (p : value -> bool) (k : string) (v : value)
    (m : list (string * value)) :
  p v = true -> forallb (fun kv => p (snd kv)) m = true ->
  forallb (fun kv => p (snd kv)) (map_set k v m) = true.
Proof.
  intros Hv. induction m as [|[k' v'] m IH]; simpl; intros Hm.
  - now rewrite Hv.
  - apply andb_true_iff in Hm as [H1 H2].
    destruct (String.compare k k'); simpl; rewrite ?Hv, ?H1, ?H2; auto.
Qed.

Lemma convert_finite (t : tree) :
  forall v, convert t = Some v -> finite_value v = true.
Proof.
  induction t as [|b|lit|raw|l IH|ms IH] using tree_induction; intros v.
  - intros [= <-]; reflexivity.
  - intros [= <-]; reflexivity.
  - simpl. destruct (ParseFloat lit) eqn:E; intros [= <-].
    simpl. eapply ParseFloat_finite; eauto.
  - intros [= <-]; reflexivity.
  - rewrite convert_arr.
    destruct (convert_elements l) as [vs|] eqn:E; intros [= <-]. simpl.
    revert vs E. induction IH as [|x r Hx _ IHr]; intros vs E.
    + injection E as <-. reflexivity.
    + simpl in E. destruct (convert x) as [v|]; [|discriminate].
      fold convert_elements in E.
      destruct (convert_elements r) as [vs'|]; [|discriminate].
      injection E as <-. simpl. rewrite (Hx v eq_refl). now apply IHr.
  - rewrite convert_obj.
    destruct (convert_members ms []) as [m|] eqn:E; intros [= <-]. simpl.
    assert (forall acc m,
               forallb (fun kv => finite_value (snd kv)) acc = true ->
               convert_members ms acc = Some m ->
               forallb (fun kv => finite_value (snd kv)) m = true) as G.
    { clear E m. induction IH as [|[k x] r Hx _ IHr]; intros acc m Hacc E.
      - injection E as <-. exact Hacc.
      - simpl in E. simpl in Hx. destruct (convert x) as [v|]; [|discriminate].
        fold convert_members in E.
        eapply IHr; [|exact E]. apply forallb_map_set; auto. }
    eapply G; [|exact E]. reflexivity.
Qed.

Lemma convert_members_none_acc (ms : list (string * tree))
    (acc acc' : list (string * value)) :
  convert_members ms acc = None -> convert_members ms acc' = None.
Proof.
  revert acc acc'. induction ms as [|[k x] r IH]; intros acc acc'; simpl.
  - discriminate.
  - destruct (convert x); [|reflexivity]. fold convert_members. apply IH.
Qed.

Lemma convert_in_range (t : tree) :
  numbers_in_range t = true <-> exists v, convert t = Some v.
Proof.
  induction t as [|b|lit|raw|l IH|ms IH] using tree_induction.
  - simpl. split; [eexists|]; reflexivity.
  - simpl. split; [eexists|]; reflexivity.
  - simpl. destruct (ParseFloat lit); split; eauto; try discriminate.
    intros [v [=]].
  - simpl. split; [eexists|]; reflexivity.
  - rewrite convert_arr. simpl numbers_in_range.
    assert (forallb numbers_in_range l = true
            <-> exists vs, convert_elements l = Some vs) as G.
    { induction IH as [|x r Hx _ IHr]; simpl.
      - split; eauto.
      - fold convert_elements. rewrite andb_true_iff, Hx, IHr. split.
        + intros [[v ->] [vs ->]]. eauto.
        + destruct (convert x); [|intros [? [=]]].
          destruct (convert_elements r); [|intros [? [=]]]. eauto. }
    rewrite G. split.
    + intros [vs ->]. eauto.
    + destruct (convert_elements l); [eauto|intros [? [=]]].
  - rewrite convert_obj. simpl numbers_in_range.
    assert (forall acc,
               forallb (fun kv => numbers_in_range (snd kv)) ms = true
               <-> exists m, convert_members ms acc = Some m) as G.
    { induction IH as [|[k x] r Hx _ IHr]; intros acc; simpl.
      - split; eauto.
      - fold convert_members. simpl in Hx. rewrite andb_true_iff, Hx. split.
        + intros [[v ->] Hr]. now apply IHr.
        + destruct (convert x) as [v|]; [|intros [? [=]]].
          intros H. split; [eauto|]. eapply IHr; eauto. }
    rewrite (G []). split.
    + intros [m ->]. eauto.
    + destruct (convert_members ms []); [eauto|intros [? [=]]].
Qed.

Lemma encode_finite (v : value) :
  finite_value v = true -> exists s, encode v = Some s.
Proof.
  induction v as [|b|f|s|l IH|m IH] using value_induction; simpl finite_value.
  - intros _. simpl. eauto.
  - intros _. simpl. eauto.
  - intros H. simpl. rewrite H. eauto.
  - intros _. simpl. eauto.
  - intros H. rewrite encode_arr.
    assert (exists ss, encode_elements l = Some ss) as [ss ->]; [|eauto].
    induction IH as [|x r Hx _ IHr]; simpl; [eauto|].
    simpl in H. apply andb_true_iff in H as [H1 H2].
    fold encode_elements. destruct (Hx H1) as [s ->].
    destruct (IHr H2) as [ss ->]. eauto.
  - intros H. rewrite encode_obj.
    assert (exists ss, encode_members m = Some ss) as [ss ->]; [|eauto].
    induction IH as [|[k x] r Hx _ IHr]; simpl; [eauto|].
    simpl in H, Hx. apply andb_true_iff in H as [H1 H2].
    fold encode_members. destruct (Hx H1) as [s ->].
    destruct (IHr H2) as [ss ->]. eauto.
Qed.

Lemma encode_indent_arr (depth : nat) (x : value) (r : list value) :
  encode_indent depth (JArray (x :: r)) =
  match indent_elements depth (x :: r) with
  | Some ss =>
      Some ("[" ++ newline_indent (S depth)
            ++ strings_Join ss ("," ++ newline_indent (S depth))
            ++ newline_indent depth ++ "]")
  | None => None
  end.
Proof. reflexivity. Qed.

Lemma encode_indent_obj (depth : nat) (kv : string * value)
    (r : list (string * value)) :
  encode_indent depth (JObject (kv :: r)) =
  match indent_members depth (kv :: r) with
  | Some ss =>
      Some ("{" ++ newline_indent (S depth)
            ++ strings_Join ss ("," ++ newline_indent (S depth))
            ++ newline_indent depth ++ "}")
  | None => None
  end.
Proof. reflexivity. Qed.

Lemma encode_indent_finite (v : value) :
  finite_value v = true -> forall depth, exists s, encode_indent depth v = Some s.
Proof.
  induction v as [|b|f|s|l IH|m IH] using value_induction;
    simpl finite_value; intros H depth.
  - simpl; eauto.
  - simpl; eauto.
  - simpl. rewrite H. eauto.
  - simpl; eauto.
  - assert (exists ss, indent_elements depth l = Some ss) as [ss E].
    { clear -IH H. induction IH as [|x r Hx _ IHr]; simpl; [eauto|].
      simpl in H. apply andb_true_iff in H as [H1 H2].
      fold (indent_elements depth). destruct (Hx H1 (S depth)) as [s ->].
      destruct (IHr H2) as [ss ->]. eauto. }
    destruct l as [|x r]; [simpl; eauto|].
    rewrite encode_indent_arr, E. eauto.
  - assert (exists ss, indent_members depth m = Some ss) as [ss E].
    { clear -IH H. induction IH as [|[k x] r Hx _ IHr]; simpl; [eauto|].
      simpl in H, Hx. apply andb_true_iff in H as [H1 H2].
      fold (indent_members depth). destruct (Hx H1 (S depth)) as [s ->].
      destruct (IHr H2) as [ss ->]. eauto. }
    destruct m as [|kv r]; [simpl; eauto|].
    rewrite encode_indent_obj, E. eauto.
Qed.

(** Neither normalizer can fail once Unmarshal has succeeded. *)
Lemma compress_returns_iff (s : string) :
  returns (compress s) = match Unmarshal s with Ok _ => true | Err _ => false end.
Proof.
  unfold compress, Unmarshal. destruct (scan s) as [t|]; [|reflexivity].
  destruct (convert t) as [v|] eqn:E; [|reflexivity].
  unfold Marshal.
  destruct (encode_finite v (convert_finite t v E)) as [out ->]. reflexivity.
Qed.

Lemma Pretty_returns_iff (s : string) :
  returns (Pretty s) = match Unmarshal s with Ok _ => true | Err _ => false end.
Proof.
  unfold Pretty, Unmarshal. destruct (scan s) as [t|]; [|reflexivity].
  destruct (convert t) as [v|] eqn:E; [|reflexivity].
  unfold MarshalIndent.
  destruct (encode_indent_finite v (convert_finite t v E) 0%nat) as [out ->].
  reflexivity.
Qed.

(** C6 (amended).  On a text that is not well formed both normalizers
    panic.  On a well-formed text they return when every number literal
    fits a float64, and panic as well when one does not. *)
Theorem normalizers_panic_on_malformed_text (s : string) :
  (checkValid s = false ->
   compress s = Panics (error_text SyntaxError)
   /\ Pretty s = Panics (error_text SyntaxError))
  /\ (forall t, scan s = Some t -> numbers_in_range t = true ->
      returns (compress s) = true /\ returns (Pretty s) = true)
  /\ (forall t, scan s = Some t -> numbers_in_range t = false ->
      compress s = Panics (error_text UnmarshalTypeError)
      /\ Pretty s = Panics (error_text UnmarshalTypeError)).
Proof.
  split; [|split].
  - unfold checkValid, compress, Pretty, Unmarshal.
    destruct (scan s); [discriminate|auto].
  - intros t Ht Hr. rewrite compress_returns_iff, Pretty_returns_iff.
    unfold Unmarshal. rewrite Ht.
    apply convert_in_range in Hr as [v ->]. auto.
  - intros t Ht Hr. unfold compress, Pretty, Unmarshal. rewrite Ht.
    destruct (convert t) as [v|] eqn:E; [|auto].
    assert (numbers_in_range t = true) as Hr'
      by (apply convert_in_range; eauto).
    congruence.
Qed.

(* ----------------------------------------------------------------- *)
(** *** The scanner on a concatenation *)

Lemma prepend_nil (r : option (list token * lstate)) : prepend [] r = r.
Proof. destruct r as [[ts st]|]; reflexivity. Qed.

Lemma prepend_app (a b : list token) (r : option (list token * lstate)) :
  prepend (a ++ b)%list r = prepend a (prepend b r).
Proof. destruct r as [[ts st]|]; simpl; [now rewrite app_assoc|reflexivity]. Qed.

Lemma lex_run_cons (st : lstate) (c : ascii) (r : string) :
  lex_run st (String c r) =
  match lstep st c with
  | Some (ts, st') => prepend ts (lex_run st' r)
  | None => None
  end.
Proof. reflexivity. Qed.

Lemma lex_run_app (st : lstate) (a b : string) :
  lex_run st (a ++ b) =
  match lex_run st a with
  | Some (ta, st') => prepend ta (lex_run st' b)
  | None => None
  end.
Proof.
  revert st. induction a as [|c a IH]; intros st.
  - simpl. now rewrite prepend_nil.
  - cbn [append]. rewrite !lex_run_cons.
    destruct (lstep st c) as [[ts st']|]; [|reflexivity].
    rewrite IH. destruct (lex_run st' a) as [[ta st'']|]; [|reflexivity].
    cbn [prepend]. now rewrite prepend_app.
Qed.

Lemma num_next_not_number_char (ns : numstate) (c : ascii) :
  number_char c = false -> num_next ns c = None.
Proof.
  unfold number_char. intros H.
  repeat (apply orb_false_iff in H as [H ?]).
  destruct ns; simpl;
    repeat match goal with
           | E : ?x = false |- context [?x] => rewrite E
           end; simpl; try reflexivity.
  - destruct (Ascii.eqb c "0") eqn:E0; [|reflexivity].
    apply Ascii.eqb_eq in E0. subst c. discriminate.
Qed.

(** A byte that cannot continue a number ends the token in progress. *)
Lemma lstep_delimiter (st : lstate) (pend : list token) (c : ascii) :
  lex_finish st = Some pend -> number_char c = false ->
  lstep st c = prepend pend (lstart c).
Proof.
  intros Hf Hc. destruct st as [|ss acc|ns acc|rest tok]; simpl in Hf.
  - injection Hf as <-. simpl. now rewrite prepend_nil.
  - discriminate.
  - destruct (num_complete ns) eqn:E; [|discriminate]. injection Hf as <-.
    simpl. rewrite (num_next_not_number_char ns c Hc), E.
    destruct (lstart c) as [[ts st']|]; reflexivity.
  - discriminate.
Qed.

Lemma lex_spec (s : string) (ts : list token) :
  lex s = Some ts <->
  exists t0 st pend,
    lex_run LStart s = Some (t0, st) /\ lex_finish st = Some pend
    /\ ts = (t0 ++ pend)%list.
Proof.
  unfold lex. split.
  - destruct (lex_run LStart s) as [[t0 st]|]; [|discriminate].
    destruct (lex_finish st) as [pend|] eqn:E; [|discriminate].
    intros [= <-]. eauto 6.
  - intros (t0 & st & pend & -> & -> & ->). reflexivity.
Qed.

(** A text that scans to [ta], followed by a byte that cannot continue
    a number, contributes exactly the tokens [ta]. *)
Lemma lex_run_value_delimiter (a : string) (ta : list token) (c : ascii)
    (b : string) :
  lex a = Some ta -> number_char c = false ->
  lex_run LStart (a ++ String c b) = prepend ta (lex_run LStart (String c b)).
Proof.
  intros Ha Hc. apply lex_spec in Ha as (t0 & st & pend & Hr & Hf & ->).
  rewrite lex_run_app, Hr. cbn [prepend].
  rewrite !lex_run_cons, (lstep_delimiter st pend c Hf Hc).
  change (lstep LStart c) with (lstart c).
  destruct (lstart c) as [[ts st']|]; cbn [prepend]; [|reflexivity].
  destruct (lex_run st' b) as [[tb st'']|]; cbn [prepend]; [|reflexivity].
  now rewrite !app_assoc.
Qed.

(** The same at the end of the text. *)
Lemma lex_run_value_end (a : string) (ta : list token) :
  lex a = Some ta -> lex (a ++ "") = Some ta.
Proof. now rewrite append_nil_r. Qed.

(* ----------------------------------------------------------------- *)
(** *** The scanner on a number literal *)

Ltac by_cases_on_byte c :=
  destruct c as [[] [] [] [] [] [] [] []]; try discriminate; reflexivity.

Lemma lstart_digit (c : ascii) :
  is_digit c = true -> Ascii.eqb c "0" = false ->
  lstart c = Some ([], LNum N1 (String c "")).
Proof. by_cases_on_byte c. Qed.

Lemma lex_run_num (s : string) :
  forall ns acc ns',
    num_run ns s = Some ns' ->
    lex_run (LNum ns acc) s = Some ([], LNum ns' (acc ++ s)).
Proof.
  induction s as [|c r IH]; intros ns acc ns'; simpl num_run.
  - intros [= <-]. simpl. now rewrite append_nil_r.
  - destruct (num_next ns c) as [ns1|] eqn:E; [|discriminate]. intros H.
    rewrite lex_run_cons. cbn [lstep]. rewrite E.
    rewrite (IH ns1 (snoc acc c) ns' H). cbn [prepend app].
    unfold snoc. now rewrite append_assoc.
Qed.

Lemma lex_number (s : string) :
  number_syntax s = true -> lex s = Some [TNum s].
Proof.
  destruct s as [|c r]; [discriminate|]. unfold number_syntax.
  unfold lex. rewrite lex_run_cons. change (lstep LStart c) with (lstart c).
  destruct (Ascii.eqb c "-") eqn:Em.
  { apply Ascii.eqb_eq in Em. subst c.
    destruct (num_run NNeg r) as [ns'|] eqn:E; [|discriminate]. intros Hc.
    change (lstart "-") with (Some (@nil token, LNum NNeg "-")).
    cbv beta iota. rewrite (lex_run_num r _ _ _ E). cbn. now rewrite Hc. }
  destruct (Ascii.eqb c "0") eqn:E0.
  { apply Ascii.eqb_eq in E0. subst c.
    destruct (num_run N0 r) as [ns'|] eqn:E; [|discriminate]. intros Hc.
    change (lstart "0") with (Some (@nil token, LNum N0 "0")).
    cbv beta iota. rewrite (lex_run_num r _ _ _ E). cbn. now rewrite Hc. }
  destruct (is_digit c) eqn:Ed; [|discriminate].
  destruct (num_run N1 r) as [ns'|] eqn:E; [|discriminate]. intros Hc.
  rewrite (lstart_digit c Ed E0). cbv beta iota.
  rewrite (lex_run_num r _ _ _ E). cbn.
  now rewrite Hc.
Qed.

(* ----------------------------------------------------------------- *)
(** *** The scanner inside a string *)

Lemma lstep_str (st st' : strstate) (acc : string) (c : ascii) :
  str_next st c = Some st' ->
  lstep (LStr st acc) c = Some ([], LStr st' (snoc acc c)).
Proof.
  destruct st as [| |k]; simpl.
  - destruct (Ascii.eqb c dquote); [discriminate|].
    destruct (Ascii.eqb c "\"); [intros [= <-]; reflexivity|].
    destruct (byte_val c <? 32); [discriminate|]. intros [= <-]; reflexivity.
  - destruct (is_simple_escape c); [intros [= <-]; reflexivity|].
    destruct (Ascii.eqb c "u"); [intros [= <-]; reflexivity|discriminate].
  - destruct (is_hex c); [intros [= <-]; reflexivity|discriminate].
Qed.

Lemma lex_run_str (s : string) :
  forall st st' acc tail,
    str_run st s = Some st' ->
    lex_run (LStr st acc) (s ++ tail) = lex_run (LStr st' (acc ++ s)) tail.
Proof.
  induction s as [|c r IH]; intros st st' acc tail; simpl str_run.
  - intros [= <-]. simpl. now rewrite append_nil_r.
  - destruct (str_next st c) as [st1|] eqn:E; [|discriminate]. intros H.
    cbn [append]. rewrite lex_run_cons, (lstep_str _ _ acc _ E).
    rewrite prepend_nil, (IH _ _ _ _ H). unfold snoc.
    now rewrite append_assoc.
Qed.

Lemma str_run_app (a b : string) (st : strstate) :
  str_run st (a ++ b) =
  match str_run st a with Some st' => str_run st' b | None => None end.
Proof.
  revert st. induction a as [|c a IH]; intros st; simpl; [reflexivity|].
  destruct (str_next st c); [apply IH|reflexivity].
Qed.

(** A string token: the text between the quotes, then the quote. *)
Lemma lex_run_string (raw tail : string) :
  str_run SIn raw = Some SIn ->
  lex_run LStart (String dquote (raw ++ String dquote tail)) =
  prepend [TStr raw] (lex_run LStart tail).
Proof.
  intros H. rewrite lex_run_cons.
  change (lstep LStart dquote) with (Some (@nil token, LStr SIn "")).
  cbv beta iota. rewrite prepend_nil, (lex_run_str raw _ _ "" _ H).
  rewrite lex_run_cons. reflexivity.
Qed.

(* ----------------------------------------------------------------- *)
(** *** Bit operations as arithmetic *)

Lemma land_low_zero (hi lo k : Z) :
  0 <= k -> 0 <= lo < 2 ^ k -> Z.land (hi * 2 ^ k) lo = 0.
Proof.
  intros Hk Hlo. apply Z.bits_inj'. intros n Hn.
  rewrite Z.land_spec, Z.bits_0.
  destruct (Z.lt_ge_cases n k).
  - rewrite Z.mul_pow2_bits_low by lia. reflexivity.
  - destruct (Z.eq_dec lo 0) as [->|Hz].
    + rewrite Z.bits_0. apply andb_false_r.
    + assert (Z.log2 lo < k) by (apply Z.log2_lt_pow2; lia).
      rewrite (Z.bits_above_log2 lo n); [apply andb_false_r|lia|lia].
Qed.

Lemma lor_disjoint (hi lo k : Z) :
  0 <= k -> 0 <= lo < 2 ^ k -> Z.lor (hi * 2 ^ k) lo = hi * 2 ^ k + lo.
Proof.
  intros Hk Hlo. pose proof (Z.add_lor_land (hi * 2 ^ k) lo) as H.
  rewrite land_low_zero in H by assumption. lia.
Qed.

Lemma land_63 (x : Z) : Z.land x 63 = x mod 64.
Proof. change 63 with (Z.ones 6). now rewrite Z.land_ones by lia. Qed.

Lemma land_31 (x : Z) : Z.land x 31 = x mod 32.
Proof. change 31 with (Z.ones 5). now rewrite Z.land_ones by lia. Qed.

Lemma land_15 (x : Z) : Z.land x 15 = x mod 16.
Proof. change 15 with (Z.ones 4). now rewrite Z.land_ones by lia. Qed.

Lemma land_7 (x : Z) : Z.land x 7 = x mod 8.
Proof. change 7 with (Z.ones 3). now rewrite Z.land_ones by lia. Qed.

Lemma shiftr_6 (x : Z) : Z.shiftr x 6 = x / 64.
Proof. now rewrite Z.shiftr_div_pow2 by lia. Qed.

Lemma shiftr_12 (x : Z) : Z.shiftr x 12 = x / 4096.
Proof. now rewrite Z.shiftr_div_pow2 by lia. Qed.

Lemma shiftr_18 (x : Z) : Z.shiftr x 18 = x / 262144.
Proof. now rewrite Z.shiftr_div_pow2 by lia. Qed.

Lemma shiftl_6 (x : Z) : Z.shiftl x 6 = x * 64.
Proof. now rewrite Z.shiftl_mul_pow2 by lia. Qed.

Lemma shiftl_12 (x : Z) : Z.shiftl x 12 = x * 4096.
Proof. now rewrite Z.shiftl_mul_pow2 by lia. Qed.

Lemma shiftl_18 (x : Z) : Z.shiftl x 18 = x * 262144.
Proof. now rewrite Z.shiftl_mul_pow2 by lia. Qed.

Lemma lor_add (hi lo p k : Z) :
  p = 2 ^ k -> 0 <= k -> 0 <= lo < p -> Z.lor (hi * p) lo = hi * p + lo.
Proof. intros -> Hk Hlo. now apply lor_disjoint. Qed.

Ltac side := first [reflexivity | lia].

(** The rune of a two-, three- and four-byte sequence. *)
Lemma rune2_arith (b0 b1 : Z) :
  Z.lor (Z.shiftl (Z.land b0 31) 6) (Z.land b1 63)
  = (b0 mod 32) * 64 + b1 mod 64.
Proof.
  rewrite land_31, land_63, shiftl_6.
  pose proof (Z.mod_pos_bound b1 64 ltac:(lia)).
  now rewrite (lor_add _ _ 64 6) by side.
Qed.

Lemma rune3_arith (b0 b1 b2 : Z) :
  Z.lor (Z.lor (Z.shiftl (Z.land b0 15) 12) (Z.shiftl (Z.land b1 63) 6))
        (Z.land b2 63)
  = (b0 mod 16) * 4096 + (b1 mod 64) * 64 + b2 mod 64.
Proof.
  rewrite land_15, !land_63, shiftl_6, shiftl_12.
  pose proof (Z.mod_pos_bound b1 64 ltac:(lia)).
  pose proof (Z.mod_pos_bound b2 64 ltac:(lia)).
  rewrite (lor_add _ (b1 mod 64 * 64) 4096 12) by side.
  replace (b0 mod 16 * 4096 + b1 mod 64 * 64)
    with ((b0 mod 16 * 64 + b1 mod 64) * 64) by lia.
  rewrite (lor_add _ _ 64 6) by side. lia.
Qed.

Lemma rune4_arith (b0 b1 b2 b3 : Z) :
  Z.lor (Z.lor (Z.lor (Z.shiftl (Z.land b0 7) 18)
                      (Z.shiftl (Z.land b1 63) 12))
               (Z.shiftl (Z.land b2 63) 6))
        (Z.land b3 63)
  = (b0 mod 8) * 262144 + (b1 mod 64) * 4096 + (b2 mod 64) * 64 + b3 mod 64.
Proof.
  rewrite land_7, !land_63, shiftl_6, shiftl_12, shiftl_18.
  pose proof (Z.mod_pos_bound b1 64 ltac:(lia)).
  pose proof (Z.mod_pos_bound b2 64 ltac:(lia)).
  pose proof (Z.mod_pos_bound b3 64 ltac:(lia)).
  rewrite (lor_add _ (b1 mod 64 * 4096) 262144 18) by side.
  replace (b0 mod 8 * 262144 + b1 mod 64 * 4096)
    with ((b0 mod 8 * 64 + b1 mod 64) * 4096) by lia.
  rewrite (lor_add _ (b2 mod 64 * 64) 4096 12) by side.
  replace ((b0 mod 8 * 64 + b1 mod 64) * 4096 + b2 mod 64 * 64)
    with ((b0 mod 8 * 4096 + b1 mod 64 * 64 + b2 mod 64) * 64) by lia.
  rewrite (lor_add _ _ 64 6) by side. lia.
Qed.

(** The bytes of an encoding: a tag in the high bits, payload below. *)
Lemma cont_arith (x : Z) : Z.lor 128 (Z.land x 63) = 128 + x mod 64.
Proof.
  rewrite land_63. pose proof (Z.mod_pos_bound x 64 ltac:(lia)).
  change 128 with (2 * 64) at 1. now rewrite (lor_add _ _ 64 6) by side.
Qed.

Lemma lead2_arith (x : Z) : 0 <= x < 32 -> Z.lor 192 x = 192 + x.
Proof.
  intros H. change 192 with (6 * 32) at 1.
  now rewrite (lor_add _ _ 32 5) by side.
Qed.

Lemma lead3_arith (x : Z) : 0 <= x < 16 -> Z.lor 224 x = 224 + x.
Proof.
  intros H. change 224 with (14 * 16) at 1.
  now rewrite (lor_add _ _ 16 4) by side.
Qed.

Lemma lead4_arith (x : Z) : 0 <= x < 8 -> Z.lor 240 x = 240 + x.
Proof.
  intros H. change 240 with (30 * 8) at 1.
  now rewrite (lor_add _ _ 8 3) by side.
Qed.

(* ----------------------------------------------------------------- *)
(** *** UTF-8: decoding and encoding in arithmetic *)

Lemma in_range_spec (lo hi b : Z) : in_range lo hi b = true <-> lo <= b <= hi.
Proof.
  clear isPrintTable.
  unfold in_range. rewrite andb_true_iff, !Z.leb_le. tauto.
Qed.

Lemma in_range_false (lo hi b : Z) :
  in_range lo hi b = false <-> b < lo \/ hi < b.
Proof.
  clear isPrintTable.
  unfold in_range. rewrite andb_false_iff, !Z.leb_gt. tauto.
Qed.

Ltac zbool :=
  repeat match goal with
    | |- context [?a <? ?b] =>
        first [ replace (a <? b) with true by (symmetry; apply Z.ltb_lt; lia)
              | replace (a <? b) with false by (symmetry; apply Z.ltb_ge; lia) ]
    | |- context [?a <=? ?b] =>
        first [ replace (a <=? b) with true by (symmetry; apply Z.leb_le; lia)
              | replace (a <=? b) with false by (symmetry; apply Z.leb_gt; lia) ]
    | |- context [?a =? ?b] =>
        first [ replace (a =? b) with true by (symmetry; apply Z.eqb_eq; lia)
              | replace (a =? b) with false by (symmetry; apply Z.eqb_neq; lia) ]
    end.

Lemma Decode2 (c0 c1 : ascii) (r : string) :
  194 <= byte_val c0 < 224 -> 128 <= byte_val c1 <= 191 ->
  DecodeRuneInString (String c0 (String c1 r))
  = ((byte_val c0 - 192) * 64 + (byte_val c1 - 128), 2%nat).
Proof.
  intros H0 H1. unfold DecodeRuneInString, is_cont, in_range.
  rewrite rune2_arith. zbool. cbn [andb].
  f_equal.
  pose proof (Z.div_mod (byte_val c0) 32 ltac:(lia)).
  pose proof (Z.mod_pos_bound (byte_val c0) 32 ltac:(lia)).
  pose proof (Z.div_mod (byte_val c1) 64 ltac:(lia)).
  pose proof (Z.mod_pos_bound (byte_val c1) 64 ltac:(lia)).
  lia.
Qed.

Lemma Decode3 (c0 c1 c2 : ascii) (r : string) :
  224 <= byte_val c0 < 240 -> 128 <= byte_val c1 <= 191 ->
  (byte_val c0 = 224 -> 160 <= byte_val c1) ->
  (byte_val c0 = 237 -> byte_val c1 <= 159) ->
  128 <= byte_val c2 <= 191 ->
  DecodeRuneInString (String c0 (String c1 (String c2 r)))
  = ((byte_val c0 - 224) * 4096 + (byte_val c1 - 128) * 64
     + (byte_val c2 - 128), 3%nat).
Proof.
  intros H0 H1 Hlo Hhi H2. unfold DecodeRuneInString, is_cont, in_range.
  rewrite rune3_arith.
  replace (byte_val c0 <? 128) with false by (symmetry; apply Z.ltb_ge; lia).
  replace (byte_val c0 <? 194) with false by (symmetry; apply Z.ltb_ge; lia).
  replace (byte_val c0 <? 224) with false by (symmetry; apply Z.ltb_ge; lia).
  replace (byte_val c0 <? 240) with true by (symmetry; apply Z.ltb_lt; lia).
  assert (((if byte_val c0 =? 224 then 160 else 128) <=? byte_val c1) = true) as ->.
  { destruct (Z.eqb_spec (byte_val c0) 224); apply Z.leb_le; [auto|lia]. }
  assert ((byte_val c1 <=? (if byte_val c0 =? 237 then 159 else 191)) = true) as ->.
  { destruct (Z.eqb_spec (byte_val c0) 237); apply Z.leb_le; [auto|lia]. }
  zbool. cbn [andb]. f_equal.
  pose proof (Z.div_mod (byte_val c0) 16 ltac:(lia)).
  pose proof (Z.mod_pos_bound (byte_val c0) 16 ltac:(lia)).
  pose proof (Z.div_mod (byte_val c1) 64 ltac:(lia)).
  pose proof (Z.mod_pos_bound (byte_val c1) 64 ltac:(lia)).
  pose proof (Z.div_mod (byte_val c2) 64 ltac:(lia)).
  pose proof (Z.mod_pos_bound (byte_val c2) 64 ltac:(lia)).
  lia.
Qed.

Lemma Decode4 (c0 c1 c2 c3 : ascii) (r : string) :
  240 <= byte_val c0 < 245 -> 128 <= byte_val c1 <= 191 ->
  (byte_val c0 = 240 -> 144 <= byte_val c1) ->
  (byte_val c0 = 244 -> byte_val c1 <= 143) ->
  128 <= byte_val c2 <= 191 -> 128 <= byte_val c3 <= 191 ->
  DecodeRuneInString (String c0 (String c1 (String c2 (String c3 r))))
  = ((byte_val c0 - 240) * 262144 + (byte_val c1 - 128) * 4096
     + (byte_val c2 - 128) * 64 + (byte_val c3 - 128), 4%nat).
Proof.
  intros H0 H1 Hlo Hhi H2 H3. unfold DecodeRuneInString, is_cont, in_range.
  rewrite rune4_arith.
  replace (byte_val c0 <? 128) with false by (symmetry; apply Z.ltb_ge; lia).
  replace (byte_val c0 <? 194) with false by (symmetry; apply Z.ltb_ge; lia).
  replace (byte_val c0 <? 224) with false by (symmetry; apply Z.ltb_ge; lia).
  replace (byte_val c0 <? 240) with false by (symmetry; apply Z.ltb_ge; lia).
  replace (byte_val c0 <? 245) with true by (symmetry; apply Z.ltb_lt; lia).
  assert (((if byte_val c0 =? 240 then 144 else 128) <=? byte_val c1) = true) as ->.
  { destruct (Z.eqb_spec (byte_val c0) 240); apply Z.leb_le; [auto|lia]. }
  assert ((byte_val c1 <=? (if byte_val c0 =? 244 then 143 else 191)) = true) as ->.
  { destruct (Z.eqb_spec (byte_val c0) 244); apply Z.leb_le; [auto|lia]. }
  zbool. cbn [andb]. f_equal.
  pose proof (Z.div_mod (byte_val c0) 8 ltac:(lia)).
  pose proof (Z.mod_pos_bound (byte_val c0) 8 ltac:(lia)).
  pose proof (Z.div_mod (byte_val c1) 64 ltac:(lia)).
  pose proof (Z.mod_pos_bound (byte_val c1) 64 ltac:(lia)).
  pose proof (Z.div_mod (byte_val c2) 64 ltac:(lia)).
  pose proof (Z.mod_pos_bound (byte_val c2) 64 ltac:(lia)).
  pose proof (Z.div_mod (byte_val c3) 64 ltac:(lia)).
  pose proof (Z.mod_pos_bound (byte_val c3) 64 ltac:(lia)).
  lia.
Qed.

Lemma rune_at_Decode (s : string) (r : rune) (n : nat) :
  rune_at s r n -> DecodeRuneInString s = (r, n).
Proof.
  intros H. destruct H.
  - now apply Decode2.
  - now apply Decode3.
  - now apply Decode4.
Qed.

Ltac divmod x d :=
  pose proof (Z.div_mod x d ltac:(lia));
  pose proof (Z.mod_pos_bound x d ltac:(lia)).

(** What [DecodeRuneInString] accepts beyond ASCII is a [rune_at]. *)
Lemma Decode_inv (c0 : ascii) (r0 : string) (r : rune) (n : nat) :
  DecodeRuneInString (String c0 r0) = (r, n) ->
  128 <= byte_val c0 ->
  (r =? RuneError) && Nat.eqb n 1 = false ->
  rune_at (String c0 r0) r n.
Proof.
  intros HD H0 Hv.
  assert (forall x, (RuneError, 1%nat) = (r, n) -> x) as Bad.
  { intros x [= <- <-]. discriminate. }
  unfold DecodeRuneInString in HD.
  destruct (Z.ltb_spec (byte_val c0) 128) as [|_]; [lia|].
  destruct (Z.ltb_spec (byte_val c0) 194) as [|G0]; [now apply Bad|].
  destruct (Z.ltb_spec (byte_val c0) 224) as [L0|G1].
  { destruct r0 as [|c1 t]; [now apply Bad|].
    destruct (is_cont (byte_val c1)) eqn:E1; [|now apply Bad].
    apply in_range_spec in E1.
    rewrite rune2_arith in HD. injection HD as <- <-.
    replace (byte_val c0 mod 32 * 64 + byte_val c1 mod 64)
      with ((byte_val c0 - 192) * 64 + (byte_val c1 - 128)).
    - constructor; lia.
    - divmod (byte_val c0) 32. divmod (byte_val c1) 64. lia. }
  destruct (Z.ltb_spec (byte_val c0) 240) as [L1|G2].
  { destruct r0 as [|c1 [|c2 t]]; [now apply Bad|now apply Bad|].
    destruct (in_range _ _ (byte_val c1)) eqn:E1; [|now apply Bad].
    destruct (is_cont (byte_val c2)) eqn:E2; [|now apply Bad].
    apply in_range_spec in E1, E2. cbn [andb] in HD.
    assert (128 <= byte_val c1 <= 191
            /\ (byte_val c0 = 224 -> 160 <= byte_val c1)
            /\ (byte_val c0 = 237 -> byte_val c1 <= 159)) as (A & B & C).
    { destruct (Z.eqb_spec (byte_val c0) 224);
        destruct (Z.eqb_spec (byte_val c0) 237); lia. }
    rewrite rune3_arith in HD. injection HD as <- <-.
    replace (byte_val c0 mod 16 * 4096 + byte_val c1 mod 64 * 64
             + byte_val c2 mod 64)
      with ((byte_val c0 - 224) * 4096 + (byte_val c1 - 128) * 64
            + (byte_val c2 - 128)).
    - constructor; lia.
    - divmod (byte_val c0) 16. divmod (byte_val c1) 64.
      divmod (byte_val c2) 64. lia. }
  destruct (Z.ltb_spec (byte_val c0) 245) as [L2|G3]; [|now apply Bad].
  destruct r0 as [|c1 [|c2 [|c3 t]]]; [now apply Bad..|].
  destruct (in_range _ _ (byte_val c1)) eqn:E1; [|now apply Bad].
  destruct (is_cont (byte_val c2)) eqn:E2; [|now apply Bad].
  destruct (is_cont (byte_val c3)) eqn:E3; [|now apply Bad].
  apply in_range_spec in E1, E2, E3. cbn [andb] in HD.
  assert (128 <= byte_val c1 <= 191
          /\ (byte_val c0 = 240 -> 144 <= byte_val c1)
          /\ (byte_val c0 = 244 -> byte_val c1 <= 143)) as (A & B & C).
  { destruct (Z.eqb_spec (byte_val c0) 240);
      destruct (Z.eqb_spec (byte_val c0) 244); lia. }
  rewrite rune4_arith in HD. injection HD as <- <-.
  replace (byte_val c0 mod 8 * 262144 + byte_val c1 mod 64 * 4096
           + byte_val c2 mod 64 * 64 + byte_val c3 mod 64)
    with ((byte_val c0 - 240) * 262144 + (byte_val c1 - 128) * 4096
          + (byte_val c2 - 128) * 64 + (byte_val c3 - 128)).
  - constructor; lia.
  - divmod (byte_val c0) 8. divmod (byte_val c1) 64.
    divmod (byte_val c2) 64. divmod (byte_val c3) 64. lia.
Qed.

Lemma rune_at_valid (s : string) (r : rune) (n : nat) :
  rune_at s r n -> 128 <= r <= MaxRune /\ is_surrogate r = false.
Proof.
  unfold MaxRune. intros H. destruct H; (split; [lia|]);
    apply in_range_false; lia.
Qed.

Lemma EncodeRune2 (r : rune) :
  128 <= r <= 2047 ->
  EncodeRune r = String (byte_of (192 + r / 64))
                   (String (byte_of (128 + r mod 64)) "").
Proof.
  intros H. unfold EncodeRune, in_range. zbool. cbn [andb].
  rewrite shiftr_6, cont_arith, lead2_arith; [reflexivity|].
  divmod r 64. lia.
Qed.

Lemma EncodeRune3 (r : rune) :
  2048 <= r <= 65535 -> is_surrogate r = false ->
  EncodeRune r = String (byte_of (224 + r / 4096))
                   (String (byte_of (128 + (r / 64) mod 64))
                      (String (byte_of (128 + r mod 64)) "")).
Proof.
  intros H Hs. unfold EncodeRune, MaxRune. rewrite Hs. unfold in_range.
  zbool. cbn [andb orb].
  rewrite shiftr_12, !cont_arith, shiftr_6, lead3_arith; [reflexivity|].
  divmod r 4096. lia.
Qed.

Lemma EncodeRune4 (r : rune) :
  65536 <= r <= MaxRune ->
  EncodeRune r = String (byte_of (240 + r / 262144))
                   (String (byte_of (128 + (r / 4096) mod 64))
                      (String (byte_of (128 + (r / 64) mod 64))
                         (String (byte_of (128 + r mod 64)) ""))).
Proof.
  unfold MaxRune. intros H. unfold EncodeRune, MaxRune, is_surrogate, in_range.
  zbool. cbn [andb orb].
  rewrite shiftr_18, !cont_arith, shiftr_12, shiftr_6, lead4_arith;
    [reflexivity|].
  divmod r 262144. lia.
Qed.

Lemma EncodeRune_invalid (r : rune) :
  r < 0 \/ MaxRune < r \/ is_surrogate r = true ->
  EncodeRune r = EncodeRune RuneError.
Proof.
  unfold MaxRune. intros H. unfold EncodeRune at 1.
  assert (in_range 0 127 r = false) as ->.
  { apply in_range_false. destruct H as [|[|H]]; try lia.
    apply in_range_spec in H. lia. }
  assert (in_range 0 2047 r = false) as ->.
  { apply in_range_false. destruct H as [|[|H]]; try lia.
    apply in_range_spec in H. lia. }
  assert ((r <? 0) || (MaxRune <? r) || is_surrogate r = true) as ->.
  { unfold MaxRune. destruct H as [|[|H]].
    - replace (r <? 0) with true by (symmetry; apply Z.ltb_lt; lia).
      reflexivity.
    - replace (1114111 <? r) with true by (symmetry; apply Z.ltb_lt; lia).
      apply orb_true_iff. left. apply orb_true_r.
    - rewrite H. apply orb_true_r. }
  reflexivity.
Qed.

(** Decoding then encoding gives back the bytes. *)
Lemma rune_at_Encode (s : string) (r : rune) (n : nat) :
  rune_at s r n -> EncodeRune r = take n s.
Proof.
  intros H. destruct H.
  - rewrite EncodeRune2 by lia. cbn [take].
    set (r := (byte_val c0 - 192) * 64 + (byte_val c1 - 128)).
    divmod r 64.
    replace (192 + r / 64) with (byte_val c0) by (subst r; lia).
    replace (128 + r mod 64) with (byte_val c1) by (subst r; lia).
    now rewrite !byte_of_val.
  - set (r := (byte_val c0 - 224) * 4096 + (byte_val c1 - 128) * 64
              + (byte_val c2 - 128)).
    rewrite EncodeRune3; [|subst r; lia|apply in_range_false; subst r; lia].
    cbn [take]. divmod r 4096. divmod r 64. divmod (r / 64) 64.
    replace (224 + r / 4096) with (byte_val c0) by (subst r; lia).
    replace (128 + (r / 64) mod 64) with (byte_val c1) by (subst r; lia).
    replace (128 + r mod 64) with (byte_val c2) by (subst r; lia).
    now rewrite !byte_of_val.
  - set (r := (byte_val c0 - 240) * 262144 + (byte_val c1 - 128) * 4096
              + (byte_val c2 - 128) * 64 + (byte_val c3 - 128)).
    rewrite EncodeRune4 by (unfold MaxRune; subst r; lia).
    cbn [take]. divmod r 262144. divmod r 4096. divmod (r / 4096) 64.
    divmod r 64. divmod (r / 64) 64.
    replace (240 + r / 262144) with (byte_val c0) by (subst r; lia).
    replace (128 + (r / 4096) mod 64) with (byte_val c1) by (subst r; lia).
    replace (128 + (r / 64) mod 64) with (byte_val c2) by (subst r; lia).
    replace (128 + r mod 64) with (byte_val c3) by (subst r; lia).
    now rewrite !byte_of_val.
Qed.

(** Encoding then decoding gives back the rune. *)
Lemma Encode_rune_at (r : rune) (tail : string) :
  128 <= r <= MaxRune -> is_surrogate r = false ->
  rune_at (EncodeRune r ++ tail) r (String.length (EncodeRune r)).
Proof.
  unfold MaxRune. intros H Hs. apply in_range_false in Hs.
  destruct (Z.le_gt_cases r 2047); [|destruct (Z.le_gt_cases r 65535)].
  - rewrite EncodeRune2 by lia. cbn [append String.length].
    divmod r 64.
    pose proof (rune_at2 (byte_of (192 + r / 64)) (byte_of (128 + r mod 64))
                  tail) as G.
    rewrite !byte_val_of in G by lia.
    replace ((192 + r / 64 - 192) * 64 + (128 + r mod 64 - 128)) with r in G
      by lia.
    apply G; lia.
  - rewrite EncodeRune3; [|lia|apply in_range_false; lia].
    cbn [append String.length].
    divmod r 4096. divmod r 64. divmod (r / 64) 64.
    pose proof (rune_at3 (byte_of (224 + r / 4096))
                  (byte_of (128 + (r / 64) mod 64))
                  (byte_of (128 + r mod 64)) tail) as G.
    rewrite !byte_val_of in G by lia.
    replace ((224 + r / 4096 - 224) * 4096 + (128 + (r / 64) mod 64 - 128) * 64
             + (128 + r mod 64 - 128)) with r in G by lia.
    apply G; lia.
  - rewrite EncodeRune4 by (unfold MaxRune; lia).
    cbn [append String.length].
    divmod r 262144. divmod r 4096. divmod (r / 4096) 64.
    divmod r 64. divmod (r / 64) 64.
    pose proof (rune_at4 (byte_of (240 + r / 262144))
                  (byte_of (128 + (r / 4096) mod 64))
                  (byte_of (128 + (r / 64) mod 64))
                  (byte_of (128 + r mod 64)) tail) as G.
    rewrite !byte_val_of in G by lia.
    replace ((240 + r / 262144 - 240) * 262144
             + (128 + (r / 4096) mod 64 - 128) * 4096
             + (128 + (r / 64) mod 64 - 128) * 64
             + (128 + r mod 64 - 128)) with r in G by lia.
    apply G; lia.
Qed.

Lemma rune_at_prefix (s : string) (r : rune) (n : nat) (tail : string) :
  rune_at s r n -> rune_at (take n s ++ tail) r n.
Proof. intros H. destruct H; cbn [take append]; now constructor. Qed.

Lemma rune_at_length (s : string) (r : rune) (n : nat) :
  rune_at s r n ->
  (2 <= n)%nat /\ String.length (take n s) = n /\ s = take n s ++ drop n s.
Proof. intros H. destruct H; cbn; repeat split; lia. Qed.

Lemma str_next_high (c : ascii) :
  128 <= byte_val c -> str_next SIn c = Some SIn.
Proof.
  intros H. unfold str_next.
  destruct (Ascii.eqb_spec c dquote) as [->|_];
    [change (byte_val dquote) with 34 in H; lia|].
  destruct (Ascii.eqb_spec c "\") as [->|_];
    [change (byte_val "\") with 92 in H; lia|].
  now replace (byte_val c <? 32) with false by (symmetry; apply Z.ltb_ge; lia).
Qed.

(** The scanner passes over the bytes of a multi-byte rune. *)
Lemma rune_at_str_run (s : string) (r : rune) (n : nat) :
  rune_at s r n -> str_run SIn (take n s) = Some SIn.
Proof.
  intros H. destruct H; cbn [take str_run];
    rewrite !str_next_high by lia; reflexivity.
Qed.

(* ----------------------------------------------------------------- *)
(** *** Loops that pass over the bytes of the current rune *)

Lemma drop_nil (k : nat) : drop k "" = "".
Proof. destruct k; reflexivity. Qed.

Lemma drop_length (k : nat) (s : string) :
  (String.length (drop k s) <= String.length s)%nat.
Proof.
  revert s. induction k as [|k IH]; intros s; [apply Nat.le_refl|].
  destruct s as [|c r]; [apply Nat.le_refl|]. simpl.
  specialize (IH r). lia.
Qed.

Lemma drop_app_length (a b : string) : drop (String.length a) (a ++ b) = b.
Proof. induction a; simpl; auto. Qed.

Lemma encode_from_drop (k : nat) (s : string) :
  encode_from k s = encode_from 0 (drop k s).
Proof.
  revert k. induction s as [|c r IH]; intros k.
  - now rewrite drop_nil.
  - destruct k; [reflexivity|]. simpl. apply IH.
Qed.

Lemma encode_from_step (c : ascii) (r : string) :
  encode_from 0 (String c r) =
  fst (encode_step (String c r))
  ++ encode_from 0 (drop (snd (encode_step (String c r)) - 1) r).
Proof.
  cbn [encode_from]. destruct (encode_step (String c r)) as [out n].
  cbn [fst snd]. now rewrite encode_from_drop.
Qed.

Lemma unquote_from_drop (k : nat) (s : string) :
  unquote_from k s = unquote_from 0 (drop k s).
Proof.
  revert k. induction s as [|c r IH]; intros k.
  - now rewrite drop_nil.
  - destruct k; [reflexivity|]. simpl. apply IH.
Qed.

Lemma unquote_from_step (c : ascii) (r : string) :
  unquote_from 0 (String c r) =
  fst (unquote_step (String c r))
  ++ unquote_from 0 (drop (snd (unquote_step (String c r)) - 1) r).
Proof.
  cbn [unquote_from]. destruct (unquote_step (String c r)) as [out n].
  cbn [fst snd]. now rewrite unquote_from_drop.
Qed.

Lemma utf8_valid_from_drop (k : nat) (s : string) :
  utf8_valid_from k s = utf8_valid_from 0 (drop k s).
Proof.
  revert k. induction s as [|c r IH]; intros k.
  - now rewrite drop_nil.
  - destruct k; [reflexivity|]. simpl. apply IH.
Qed.

Lemma utf8_valid_step (c : ascii) (r : string) :
  utf8_valid (String c r) =
  negb ((fst (DecodeRuneInString (String c r)) =? RuneError)
        && Nat.eqb (snd (DecodeRuneInString (String c r))) 1)
  && utf8_valid (drop (snd (DecodeRuneInString (String c r)) - 1) r).
Proof.
  unfold utf8_valid. cbn [utf8_valid_from].
  destruct (DecodeRuneInString (String c r)) as [rr n]. cbn [fst snd].
  now rewrite utf8_valid_from_drop.
Qed.

(** Induction on the length of a string. *)
Lemma string_length_induction (P : string -> Prop) :
  (forall s, (forall t, (String.length t < String.length s)%nat -> P t) -> P s) ->
  forall s, P s.
Proof.
  intros H s. remember (String.length s) as n eqn:E.
  revert s E. induction n as [n IH] using lt_wf_ind. intros s ->.
  apply H. intros t Ht. exact (IH _ Ht t eq_refl).
Qed.

Lemma Decode_ascii (c : ascii) (r : string) :
  byte_val c < 128 -> DecodeRuneInString (String c r) = (byte_val c, 1%nat).
Proof.
  intros H. unfold DecodeRuneInString.
  now replace (byte_val c <? 128) with true by (symmetry; apply Z.ltb_lt; lia).
Qed.

(** The first rune of a string: an ASCII byte, a multi-byte rune, or an
    invalid byte. *)
Lemma first_rune (c : ascii) (r : string) :
  (byte_val c < 128 /\ DecodeRuneInString (String c r) = (byte_val c, 1%nat))
  \/ (128 <= byte_val c
      /\ exists rr n, DecodeRuneInString (String c r) = (rr, n)
                      /\ rune_at (String c r) rr n)
  \/ (128 <= byte_val c
      /\ DecodeRuneInString (String c r) = (RuneError, 1%nat)).
Proof.
  destruct (Z.lt_ge_cases (byte_val c) 128) as [L|G].
  - left. split; [assumption|now apply Decode_ascii].
  - right. destruct (DecodeRuneInString (String c r)) as [rr n] eqn:E.
    destruct ((rr =? RuneError) && Nat.eqb n 1) eqn:V.
    + right. apply andb_true_iff in V as [V1 V2].
      apply Z.eqb_eq in V1. apply Nat.eqb_eq in V2. subst. auto.
    + left. split; [lia|]. exists rr, n. split; [reflexivity|].
      now apply Decode_inv.
Qed.

(* ----------------------------------------------------------------- *)
(** *** Encoded strings are string tokens, and unquoting inverts encoding *)

(** The encoder on an ASCII byte: it consumes the byte, writes text
    the scanner accepts inside a string, and [unquote] reads the byte
    back from it. *)
Lemma encode_step_ascii (c : ascii) (r : string) :
  (byte_val c <? 128) = true ->
  snd (encode_step (String c r)) = 1%nat
  /\ str_run SIn (fst (encode_step (String c r))) = Some SIn
  /\ forall rest,
      unquote_from 0 (fst (encode_step (String c r)) ++ rest)
      = String c (unquote_from 0 rest).
Proof.
  destruct c as [[] [] [] [] [] [] [] []]; try discriminate; intros _;
    (split; [reflexivity|split; [reflexivity|intros rest; reflexivity]]).
Qed.

Lemma unquote_step_high (c : ascii) (x : string) :
  (byte_val c <? 128) = false ->
  unquote_step (String c x) =
  let '(rr, size) := DecodeRuneInString (String c x) in (EncodeRune rr, size).
Proof.
  destruct c as [[] [] [] [] [] [] [] []]; try discriminate; intros _;
    reflexivity.
Qed.

Lemma take_cons (n : nat) (c : ascii) (r : string) :
  (1 <= n)%nat -> take n (String c r) = String c (take (n - 1) r).
Proof. destruct n; [lia|]. intros _. simpl. now rewrite Nat.sub_0_r. Qed.

(** The encoder on a multi-byte rune. *)
Lemma encode_step_rune (c : ascii) (r : string) (rr : rune) (n : nat) :
  rune_at (String c r) rr n ->
  snd (encode_step (String c r)) = n
  /\ str_run SIn (fst (encode_step (String c r))) = Some SIn
  /\ forall rest,
      unquote_from 0 (fst (encode_step (String c r)) ++ rest)
      = take n (String c r) ++ unquote_from 0 rest.
Proof.
  intros H.
  pose proof (rune_at_Decode _ _ _ H) as HD.
  pose proof (rune_at_length _ _ _ H) as (Hn & Hl & _).
  pose proof (rune_at_Encode _ _ _ H) as HE.
  assert (128 <= byte_val c) as Hc by (inversion H; lia).
  unfold encode_step.
  replace (byte_val c <? 128) with false by (symmetry; apply Z.ltb_ge; lia).
  rewrite HD.
  replace (Nat.eqb n 1) with false by (symmetry; apply Nat.eqb_neq; lia).
  rewrite andb_false_r.
  destruct (Z.eqb_spec rr 8232) as [->|N1].
  { cbn [orb fst snd]. split; [reflexivity|]. split; [reflexivity|].
    intros rest. rewrite <- HE. reflexivity. }
  destruct (Z.eqb_spec rr 8233) as [->|N2].
  { cbn [orb fst snd]. split; [reflexivity|]. split; [reflexivity|].
    intros rest. rewrite <- HE. reflexivity. }
  cbn [orb fst snd]. split; [reflexivity|].
  split; [now apply (rune_at_str_run _ rr)|].
  intros rest. rewrite take_cons by lia. cbn [append].
  rewrite unquote_from_step, unquote_step_high
    by (apply Z.ltb_ge; lia).
  assert (rune_at (String c (take (n - 1) r ++ rest)) rr n) as H'.
  { pose proof (rune_at_prefix _ _ _ rest H) as G.
    rewrite take_cons in G by lia. exact G. }
  rewrite (rune_at_Decode _ _ _ H'). cbn [fst snd]. rewrite HE.
  rewrite take_cons by lia. cbn [append]. do 2 f_equal.
  assert (String.length (take (n - 1) r) = (n - 1)%nat) as Hl'.
  { rewrite take_cons in Hl by lia. simpl in Hl. lia. }
  rewrite <- Hl' at 1. now rewrite drop_app_length.
Qed.

Lemma encode_step_invalid (c : ascii) (r : string) :
  128 <= byte_val c ->
  DecodeRuneInString (String c r) = (RuneError, 1%nat) ->
  encode_step (String c r) = ("\ufffd", 1%nat).
Proof.
  intros Hc HD. unfold encode_step.
  replace (byte_val c <? 128) with false by (symmetry; apply Z.ltb_ge; lia).
  now rewrite HD.
Qed.

(** The encoder's text is accepted by the scanner inside a string. *)
Lemma encode_from_scans (s : string) :
  str_run SIn (encode_from 0 s) = Some SIn.
Proof.
  induction s as [s IH] using string_length_induction.
  destruct s as [|c r]; [reflexivity|].
  rewrite encode_from_step, str_run_app.
  assert (str_run SIn (fst (encode_step (String c r))) = Some SIn) as ->.
  { destruct (first_rune c r) as [[L _]|[[G (rr & n & _ & H)]|[G HD]]].
    - apply encode_step_ascii. now apply Z.ltb_lt.
    - now apply (encode_step_rune c r rr n).
    - now rewrite encode_step_invalid. }
  apply IH. pose proof (drop_length (snd (encode_step (String c r)) - 1) r).
  cbn [String.length]. lia.
Qed.

(** On valid UTF-8, unquoting the encoder's text gives the string back. *)
Lemma unquote_encode (s : string) :
  utf8_valid s = true -> unquote (encode_from 0 s) = s.
Proof.
  unfold unquote.
  induction s as [s IH] using string_length_induction.
  destruct s as [|c r]; [reflexivity|]. intros Hv.
  rewrite utf8_valid_step in Hv. apply andb_true_iff in Hv as [V1 V2].
  rewrite encode_from_step.
  destruct (first_rune c r) as [[L HD]|[[G (rr & n & HD & H)]|[G HD]]].
  - destruct (encode_step_ascii c r) as (E1 & _ & E3); [now apply Z.ltb_lt|].
    rewrite E3, E1. rewrite HD in V2. cbn [snd] in V2.
    f_equal. apply IH; [cbn [String.length drop Nat.sub]; lia|exact V2].
  - destruct (encode_step_rune c r rr n H) as (E1 & _ & E3).
    rewrite E3, E1. rewrite HD in V2. cbn [snd] in V2.
    rewrite IH; [| |exact V2].
    + pose proof (rune_at_length _ _ _ H) as (Hn & _ & Hs).
      rewrite Hs at 2. f_equal.
      destruct n; [lia|]. simpl. now rewrite Nat.sub_0_r.
    + pose proof (drop_length (n - 1) r). cbn [String.length]. lia.
  - rewrite HD in V1. discriminate.
Qed.

(* ----------------------------------------------------------------- *)
(** *** Unquoted strings are valid UTF-8 *)

Lemma utf8_valid_ascii (c : ascii) (x : string) :
  byte_val c < 128 -> utf8_valid (String c x) = utf8_valid x.
Proof.
  intros H. rewrite utf8_valid_step, Decode_ascii by assumption.
  cbn [fst snd Nat.sub drop].
  now replace (byte_val c =? RuneError) with false
    by (symmetry; apply Z.eqb_neq; unfold RuneError; lia).
Qed.

Lemma utf8_valid_rune (u x : string) (r : rune) :
  rune_at (u ++ x) r (String.length u) -> utf8_valid (u ++ x) = utf8_valid x.
Proof.
  intros H. pose proof (rune_at_length _ _ _ H) as (Hn & _ & _).
  destruct u as [|c u]; [simpl in Hn; lia|]. cbn [append] in *.
  rewrite utf8_valid_step, (rune_at_Decode _ _ _ H). cbn [fst snd].
  replace (Nat.eqb (String.length (String c u)) 1) with false
    by (symmetry; apply Nat.eqb_neq; lia).
  rewrite andb_false_r. cbn [negb andb String.length Nat.sub].
  now rewrite Nat.sub_0_r, drop_app_length.
Qed.

Lemma utf8_valid_EncodeRune (r : rune) (x : string) :
  utf8_valid (EncodeRune r ++ x) = utf8_valid x.
Proof.
  assert (forall r, 128 <= r <= MaxRune -> is_surrogate r = false ->
                    utf8_valid (EncodeRune r ++ x) = utf8_valid x) as Valid.
  { intros r' H Hs. apply (utf8_valid_rune _ _ r'). now apply Encode_rune_at. }
  destruct (Z.lt_ge_cases r 0) as [Neg|Pos].
  { rewrite EncodeRune_invalid by auto. now apply Valid. }
  destruct (Z.lt_ge_cases r 128) as [Low|High].
  { unfold EncodeRune, in_range. zbool. cbn [andb append].
    apply utf8_valid_ascii. rewrite byte_val_of; lia. }
  destruct (Z.lt_ge_cases MaxRune r) as [Big|Small].
  { rewrite EncodeRune_invalid by auto. now apply Valid. }
  destruct (is_surrogate r) eqn:Hs.
  { rewrite EncodeRune_invalid by auto. now apply Valid. }
  apply Valid; [lia|assumption].
Qed.

Ltac unit_case :=
  cbn [fst append];
  first [ reflexivity
        | apply utf8_valid_ascii; reflexivity
        | apply utf8_valid_EncodeRune ].

(** Whatever one step of [unquote] writes is whole runes. *)
Lemma unquote_step_unit (s x : string) :
  utf8_valid (fst (unquote_step s) ++ x) = utf8_valid x.
Proof.
  destruct s as [|c r]; [reflexivity|].
  destruct (Ascii.eqb_spec c "\") as [->|Hc].
  - destruct r as [|c' r']; [unit_case|].
    destruct (Ascii.eqb_spec c' "u") as [->|Hu].
    + cbn [unquote_step].
      destruct (is_surrogate (getu4 r')); [|unit_case].
      destruct (_ =? RuneError); unit_case.
    + destruct c' as [[] [] [] [] [] [] [] []]; try congruence; unit_case.
  - destruct (Z.ltb_spec (byte_val c) 128) as [L|G].
    + assert (unquote_step (String c r) = (String c "", 1%nat)) as ->.
      { destruct c as [[] [] [] [] [] [] [] []]; try congruence;
          first [reflexivity | exfalso; revert L; clear; intros L;
                 apply (Z.lt_irrefl 128); eapply Z.le_lt_trans; [|exact L];
                 discriminate ]. }
      cbn [fst append]. now apply utf8_valid_ascii.
    + rewrite unquote_step_high by (apply Z.ltb_ge; lia).
      destruct (DecodeRuneInString (String c r)). unit_case.
Qed.

Lemma unquote_valid (raw : string) : utf8_valid (unquote raw) = true.
Proof.
  unfold unquote.
  induction raw as [s IH] using string_length_induction.
  destruct s as [|c r]; [reflexivity|].
  rewrite unquote_from_step, unquote_step_unit. apply IH.
  pose proof (drop_length (snd (unquote_step (String c r)) - 1) r).
  cbn [String.length]. lia.
Qed.

(* ----------------------------------------------------------------- *)
(** *** The parser on the tokens of a tree *)

Lemma tokens_of_arr (l : list tree) :
  tokens_of (TrArr l) = TLBracket :: tokens_elements l.
Proof. reflexivity. Qed.

Lemma tokens_of_obj (ms : list (string * tree)) :
  tokens_of (TrObj ms) = TLBrace :: tokens_members ms.
Proof. reflexivity. Qed.

Lemma tokens_elements_cons (x y : tree) (r : list tree) :
  tokens_elements (x :: y :: r)
  = (tokens_of x ++ TComma :: tokens_elements (y :: r))%list.
Proof. reflexivity. Qed.

Lemma tokens_members_cons (k : string) (x : tree) (kv : string * tree)
    (r : list (string * tree)) :
  tokens_members ((k, x) :: kv :: r)
  = (TStr k :: TColon :: tokens_of x ++ TComma :: tokens_members (kv :: r))%list.
Proof. reflexivity. Qed.

Lemma tokens_of_head (t : tree) :
  exists tk r, tokens_of t = tk :: r /\ value_start tk = true.
Proof.
  destruct t; try (eexists; eexists; split; [reflexivity|reflexivity]).
  destruct b; eexists; eexists; split; reflexivity.
Qed.

Lemma tree_depth_arr (x : tree) (l : list tree) :
  tree_depth x <= tree_depth (TrArr (x :: l)) - 1
  /\ tree_depth (TrArr l) <= tree_depth (TrArr (x :: l)).
Proof. cbn [tree_depth fold_right]. lia. Qed.

Lemma tree_depth_obj (k : string) (x : tree) (ms : list (string * tree)) :
  tree_depth x <= tree_depth (TrObj ((k, x) :: ms)) - 1
  /\ tree_depth (TrObj ms) <= tree_depth (TrObj ((k, x) :: ms)).
Proof. cbn [tree_depth fold_right snd]. lia. Qed.

Lemma tree_depth_pos_arr (l : list tree) : 1 <= tree_depth (TrArr l).
Proof.
  induction l as [|x l IH]; [cbn [tree_depth fold_right]; lia|].
  pose proof (tree_depth_arr x l). lia.
Qed.

Lemma tree_depth_pos_obj (ms : list (string * tree)) : 1 <= tree_depth (TrObj ms).
Proof.
  induction ms as [|[k x] ms IH]; [cbn [tree_depth fold_right]; lia|].
  pose proof (tree_depth_obj k x ms). lia.
Qed.

Lemma parse_elements_complete (l : list tree) :
  l <> [] -> Forall parses l ->
  forall d rest fuel,
    d + tree_depth (TrArr l) - 1 <= maxNestingDepth ->
    (List.length (tokens_elements l) < fuel)%nat ->
    parse_elements fuel d (tokens_elements l ++ rest)%list = Some (l, rest).
Proof.
  intros Hne HF. induction HF as [|x l Hx HF IH]; [congruence|].
  intros d rest fuel Hd Hf. destruct fuel as [|f]; [lia|].
  pose proof (tree_depth_arr x l) as [D1 D2].
  destruct l as [|y r].
  - cbn [tokens_elements] in *. rewrite <- app_assoc. cbn [parse_elements].
    rewrite Hx; [reflexivity|lia|].
    rewrite length_app in Hf. simpl in Hf. lia.
  - rewrite tokens_elements_cons in *. rewrite <- app_assoc.
    cbn [parse_elements]. rewrite length_app in Hf. cbn [List.length] in Hf.
    rewrite Hx; [|lia|lia]. cbn [app].
    rewrite IH; [reflexivity|discriminate|lia|lia].
Qed.

Lemma parse_members_complete (ms : list (string * tree)) :
  ms <> [] -> Forall (fun kv => parses (snd kv)) ms ->
  forall d rest fuel,
    d + tree_depth (TrObj ms) - 1 <= maxNestingDepth ->
    (List.length (tokens_members ms) < fuel)%nat ->
    parse_members fuel d (tokens_members ms ++ rest)%list = Some (ms, rest).
Proof.
  intros Hne HF. induction HF as [|[k x] ms Hx HF IH]; [congruence|].
  intros d rest fuel Hd Hf. destruct fuel as [|f]; [lia|].
  pose proof (tree_depth_obj k x ms) as [D1 D2]. cbn [snd] in Hx.
  destruct ms as [|kv r].
  - cbn [tokens_members] in *. cbn [app]. rewrite <- app_assoc.
    cbn [parse_members]. cbn [List.length] in Hf. rewrite length_app in Hf.
    rewrite Hx; [reflexivity|lia|]. simpl in Hf. lia.
  - rewrite tokens_members_cons in *. cbn [app]. rewrite <- app_assoc.
    cbn [parse_members]. cbn [List.length] in Hf. rewrite length_app in Hf.
    cbn [List.length] in Hf.
    rewrite Hx; [|lia|lia]. cbn [app].
    rewrite IH; [reflexivity|discriminate|lia|lia].
Qed.

Lemma parse_complete (t : tree) : parses t.
Proof.
  induction t as [|b|lit|raw|l IH|ms IH] using tree_induction;
    intros d rest fuel Hd Hf; (destruct fuel as [|f]; [simpl in Hf; lia|]).
  - reflexivity.
  - destruct b; reflexivity.
  - reflexivity.
  - reflexivity.
  - rewrite tokens_of_arr in *. cbn [app parse_value].
    pose proof (tree_depth_pos_arr l).
    replace (maxNestingDepth <=? d) with false
      by (symmetry; apply Z.leb_gt; lia).
    destruct l as [|x r]; [reflexivity|].
    assert (parse_elements f (d + 1)
              (tokens_elements (x :: r) ++ rest)%list = Some (x :: r, rest)) as E.
    { apply parse_elements_complete; [discriminate|assumption|lia|].
      cbn [List.length] in Hf. lia. }
    rewrite E.
    assert (exists tk r0, (tokens_elements (x :: r) ++ rest)%list = tk :: r0
                          /\ value_start tk = true) as (tk & r0 & -> & Hs).
    { destruct (tokens_of_head x) as (tk & r0 & Hx & Hs).
      destruct r as [|y r].
      - cbn [tokens_elements]. rewrite Hx. cbn [app]. eauto.
      - rewrite tokens_elements_cons, Hx. cbn [app]. eauto. }
    destruct tk; try discriminate; reflexivity.
  - rewrite tokens_of_obj in *. cbn [app parse_value].
    pose proof (tree_depth_pos_obj ms).
    replace (maxNestingDepth <=? d) with false
      by (symmetry; apply Z.leb_gt; lia).
    destruct ms as [|[k x] r]; [reflexivity|].
    assert (parse_members f (d + 1)
              (tokens_members ((k, x) :: r) ++ rest)%list
            = Some ((k, x) :: r, rest)) as E.
    { apply parse_members_complete; [discriminate|assumption|lia|].
      cbn [List.length] in Hf. lia. }
    rewrite E.
    destruct r as [|kv r]; reflexivity.
Qed.

Lemma parse_tokens_of (t : tree) :
  tree_depth t <= maxNestingDepth -> parse (tokens_of t) = Some t.
Proof.
  intros H. unfold parse.
  rewrite <- (app_nil_r (tokens_of t)) at 2.
  rewrite parse_complete; [reflexivity|lia|lia].
Qed.

(* ----------------------------------------------------------------- *)
(** *** Maps as sorted association lists *)

Lemma ascii_compare_lt_trans (a b c : ascii) :
  Ascii.compare a b = Lt -> Ascii.compare b c = Lt -> Ascii.compare a c = Lt.
Proof.
  unfold Ascii.compare. rewrite !N.compare_lt_iff. lia.
Qed.

Lemma string_compare_refl (a : string) : String.compare a a = Eq.
Proof.
  induction a as [|c a IH]; [reflexivity|]. simpl.
  unfold Ascii.compare. now rewrite N.compare_refl.
Qed.

Lemma string_compare_lt_trans (a b c : string) :
  String.compare a b = Lt -> String.compare b c = Lt ->
  String.compare a c = Lt.
Proof.
  revert b c. induction a as [|x a IH]; intros [|y b] [|z c]; simpl;
    try discriminate; try reflexivity.
  destruct (Ascii.compare x y) eqn:Exy; try discriminate;
    destruct (Ascii.compare y z) eqn:Eyz; try discriminate; intros H1 H2.
  - apply Ascii.compare_eq_iff in Exy, Eyz. subst.
    unfold Ascii.compare. rewrite N.compare_refl. eapply IH; eauto.
  - apply Ascii.compare_eq_iff in Exy. subst. now rewrite Eyz.
  - apply Ascii.compare_eq_iff in Eyz. subst. now rewrite Exy.
  - now rewrite (ascii_compare_lt_trans x y z).
Qed.

Lemma string_compare_gt_lt (a b : string) :
  String.compare a b = Gt -> String.compare b a = Lt.
Proof. intros H. rewrite String.compare_antisym, H. reflexivity. Qed.

Lemma map_set_Forall (P : string * value -> Prop) (k : string) (v : value)
    (m : list (string * value)) :
  P (k, v) -> Forall P m -> Forall P (map_set k v m).
Proof.
  intros Hk. induction 1 as [|[k' v'] m Hkv HF IH]; simpl.
  - auto.
  - destruct (String.compare k k'); auto.
Qed.

Lemma map_set_sorted (k : string) (v : value) (m : list (string * value)) :
  sorted_keys m -> sorted_keys (map_set k v m).
Proof.
  induction m as [|[k' v'] m IH]; simpl; [auto|]. intros [Hk' Hm].
  destruct (String.compare k k') eqn:E.
  - apply String.compare_eq_iff in E. subst. simpl. auto.
  - simpl. split; [|auto]. constructor; [exact E|].
    eapply Forall_impl; [|exact Hk']. intros kv H.
    eapply string_compare_lt_trans; eauto.
  - simpl. split; [|auto]. apply map_set_Forall; [|assumption].
    now apply string_compare_gt_lt.
Qed.

(** Setting a key above all the keys of the map appends it. *)
Lemma map_set_above (k : string) (v : value) (m : list (string * value)) :
  Forall (fun kv => String.compare (fst kv) k = Lt) m ->
  map_set k v m = (m ++ [(k, v)])%list.
Proof.
  induction 1 as [|[k' v'] m Hk HF IH]; simpl; [reflexivity|].
  simpl in Hk. rewrite String.compare_antisym, Hk. simpl. now rewrite IH.
Qed.

Lemma sorted_keys_app (a b : list (string * value)) :
  sorted_keys (a ++ b)%list ->
  sorted_keys a /\ sorted_keys b
  /\ Forall (fun x => Forall (fun y => String.compare (fst x) (fst y) = Lt) b) a.
Proof.
  induction a as [|[k v] a IH]; simpl.
  - auto.
  - intros [H1 H2]. apply Forall_app in H1 as [H1a H1b].
    destruct (IH H2) as (Sa & Sb & Hab). auto.
Qed.

(* ----------------------------------------------------------------- *)
(** *** Decimal digits and their value *)

Lemma digits_val_app (a : Z) (s t : string) :
  digits_val a (s ++ t) = digits_val (digits_val a s) t.
Proof. revert a. induction s as [|c s IH]; intros a; simpl; auto. Qed.

Lemma digit_char_val (d : Z) : 0 <= d < 10 -> byte_val (digit_char d) - 48 = d.
Proof. intros H. unfold digit_char. rewrite byte_val_of; lia. Qed.

Lemma digit_char_nonzero (d : Z) :
  0 < d < 10 -> Ascii.eqb (digit_char d) "0" = false.
Proof.
  intros H. apply Ascii.eqb_neq. intros E.
  pose proof (digit_char_val d ltac:(lia)) as V. rewrite E in V.
  change (byte_val "0") with 48 in V. lia.
Qed.

Lemma leading_nonzero_app (a b : string) :
  a <> "" -> leading_nonzero (a ++ b) = leading_nonzero a.
Proof. destruct a; [congruence|reflexivity]. Qed.

(** With enough fuel, [utoa_fuel] writes the digits of [n]. *)
Lemma utoa_fuel_val (fuel : nat) :
  forall n acc,
    0 <= n < 10 ^ Z.of_nat (S fuel) ->
    exists d, utoa_fuel (S fuel) n acc = d ++ acc
              /\ d <> "" /\ all_digits d = true
              /\ digits_val 0 d = n
              /\ (0 < n -> leading_nonzero d = true).
Proof.
  induction fuel as [|fuel IH]; intros n acc Hn.
  - change (10 ^ Z.of_nat 1) with 10 in Hn.
    exists (String (digit_char n) ""). rewrite utoa_fuel_S.
    replace (n <? 10) with true by (symmetry; apply Z.ltb_lt; lia).
    rewrite Z.mod_small by lia. cbn [append all_digits digits_val].
    rewrite is_digit_digit_char, digit_char_val by lia.
    repeat split; try discriminate; try lia.
    intros Hp. cbn [leading_nonzero]. now rewrite digit_char_nonzero by lia.
  - rewrite utoa_fuel_S. destruct (Z.ltb_spec n 10) as [L|G].
    + exists (String (digit_char n) ""). rewrite Z.mod_small by lia.
      cbn [append all_digits digits_val].
      rewrite is_digit_digit_char, digit_char_val by lia.
      repeat split; try discriminate; try lia.
      intros Hp. cbn [leading_nonzero]. now rewrite digit_char_nonzero by lia.
    + assert (0 <= n / 10 < 10 ^ Z.of_nat (S fuel)) as Hq.
      { split; [apply Z.div_pos; lia|].
        apply Z.div_lt_upper_bound; [lia|].
        replace (Z.of_nat (S (S fuel))) with (Z.succ (Z.of_nat (S fuel))) in Hn
          by lia.
        rewrite Z.pow_succ_r in Hn by lia. lia. }
      destruct (IH (n / 10) (String (digit_char (n mod 10)) acc) Hq)
        as (d & E & Hne & Hd & Hv & Hl).
      exists (d ++ String (digit_char (n mod 10)) "").
      rewrite E, append_assoc. cbn [append]. split; [reflexivity|].
      pose proof (Z.mod_pos_bound n 10 ltac:(lia)) as Hm.
      split; [destruct d; [congruence|discriminate]|].
      split; [rewrite all_digits_app, Hd; cbn;
              now rewrite is_digit_digit_char by lia|].
      split.
      * rewrite digits_val_app, Hv. cbn [digits_val].
        rewrite digit_char_val by lia.
        pose proof (Z.div_mod n 10 ltac:(lia)). lia.
      * intros Hp. rewrite leading_nonzero_app by assumption.
        apply Hl. apply Z.div_str_pos. lia.
Qed.

Lemma utoa_val (n : Z) :
  0 <= n ->
  utoa n <> "" /\ all_digits (utoa n) = true
  /\ digits_val 0 (utoa n) = n
  /\ (0 < n -> leading_nonzero (utoa n) = true).
Proof.
  intros Hn. unfold utoa.
  assert (0 <= n < 10 ^ Z.of_nat (S (Z.to_nat (Z.log2 n)))) as Hb.
  { split; [assumption|].
    destruct (Z.eq_dec n 0) as [->|Hz]; [reflexivity|].
    pose proof (Z.log2_nonneg n).
    pose proof (Z.log2_spec n ltac:(lia)) as [_ Hu].
    replace (Z.of_nat (S (Z.to_nat (Z.log2 n)))) with (Z.succ (Z.log2 n))
      by lia.
    eapply Z.lt_le_trans; [exact Hu|].
    apply Z.pow_le_mono_l. lia. }
  destruct (utoa_fuel_val _ n "" Hb) as (d & E & H1 & H2 & H3 & H4).
  rewrite E, append_nil_r. auto.
Qed.

(* ----------------------------------------------------------------- *)
(** *** Rounding to float64 *)

Lemma round_half_even_bounds (num den : Z) :
  0 < den -> num / den <= round_half_even num den <= num / den + 1.
Proof.
  intros Hd. unfold round_half_even.
  destruct (2 * (num mod den) <? den); [lia|].
  destruct (den <? 2 * (num mod den)); [lia|].
  destruct (Z.even (num / den)); lia.
Qed.

Lemma round_half_even_exact (m den : Z) :
  0 < den -> round_half_even (m * den) den = m.
Proof.
  intros Hd. unfold round_half_even.
  rewrite Z.div_mul, Z.mod_mul by lia.
  now replace (2 * 0 <? den) with true by (symmetry; apply Z.ltb_lt; lia).
Qed.

Lemma canonical_finite (neg : bool) (m : positive) (e : Z) :
  canonical_float (S754_finite neg m e) = true <->
  Z.pos m < 2 ^ 53 /\ -1074 <= e <= 971 /\ (2 ^ 52 <= Z.pos m \/ e = -1074).
Proof.
  clear isPrintTable.
  unfold canonical_float.
  rewrite !andb_true_iff, orb_true_iff, Z.ltb_lt, !Z.leb_le, Z.eqb_eq. tauto.
Qed.

(** A float64 value is rounded to itself. *)
Lemma round_binary64_exact (neg : bool) (m : positive) (e p q : Z) :
  canonical_float (S754_finite neg m e) = true ->
  0 < q -> p * 2 ^ 1074 = Z.pos m * 2 ^ (e + 1074) * q ->
  round_binary64 neg p q = Some (S754_finite neg m e).
Proof.
  intros Hc Hq Hx. apply canonical_finite in Hc as (Hm & He & Hn).
  unfold round_binary64. rewrite Hx.
  rewrite Z.div_mul by lia.
  rewrite Z.log2_mul_pow2 by lia.
  assert (Z.log2 (Z.pos m) <= 52) as Hl.
  { assert (Z.log2 (Z.pos m) < 53) by (apply Z.log2_lt_pow2; lia). lia. }
  assert (Z.max 0 (e + 1074 + Z.log2 (Z.pos m) - 52) = e + 1074) as ->.
  { destruct Hn as [Hn| ->].
    - assert (52 <= Z.log2 (Z.pos m)) by (apply Z.log2_le_pow2; lia). lia.
    - lia. }
  replace (Z.pos m * 2 ^ (e + 1074) * q)
    with (Z.pos m * (q * 2 ^ (e + 1074))) by lia.
  assert (0 < 2 ^ (e + 1074)) by (apply Z.pow_pos_nonneg; lia).
  rewrite round_half_even_exact by nia.
  replace (Z.pos m =? 2 ^ 53) with false by (symmetry; apply Z.eqb_neq; lia).
  replace (e + 1074 - 1074) with e by lia.
  now replace (e <=? 971) with true by (symmetry; apply Z.leb_le; lia).
Qed.

(** Whatever [round_binary64] returns is a float64. *)
Lemma round_binary64_canonical (neg : bool) (p q : Z) (f : float64) :
  0 < p -> 0 < q -> round_binary64 neg p q = Some f ->
  canonical_float f = true.
Proof.
  intros Hp Hq. unfold round_binary64.
  set (x := p * 2 ^ 1074).
  set (shift := Z.max 0 (Z.log2 (x / q) - 52)).
  assert (0 < 2 ^ 1074) as H1074 by (apply Z.pow_pos_nonneg; lia).
  assert (0 < x) as Hx by (subst x; nia).
  assert (0 <= x / q) as Hi by (apply Z.div_pos; lia).
  assert (0 <= shift) as Hs by (subst shift; lia).
  assert (0 < 2 ^ shift) as H2s by (apply Z.pow_pos_nonneg; lia).
  assert (x / (q * 2 ^ shift) = x / q / 2 ^ shift) as HQ
    by (rewrite Z.div_div; [reflexivity|lia|lia]).
  pose proof (round_half_even_bounds x (q * 2 ^ shift) ltac:(nia)) as [Lo Hi'].
  rewrite HQ in Lo, Hi'.
  assert (x / q / 2 ^ shift < 2 ^ 53) as Hlt.
  { destruct (Z.eq_dec (x / q) 0) as [E|NE].
    - rewrite E. rewrite Z.div_0_l by lia. reflexivity.
    - pose proof (Z.log2_spec (x / q) ltac:(lia)) as [_ Hu].
      apply Z.div_lt_upper_bound; [lia|].
      eapply Z.lt_le_trans; [exact Hu|].
      rewrite <- Z.pow_add_r by lia.
      apply Z.pow_le_mono_r; [lia|]. subst shift. lia. }
  assert (0 < shift -> 2 ^ 52 <= x / q / 2 ^ shift) as Hge.
  { intros Hpos.
    assert (x / q <> 0) as NE.
    { intros E. subst shift. rewrite E in Hpos. simpl in Hpos. lia. }
    pose proof (Z.log2_spec (x / q) ltac:(lia)) as [Hl _].
    apply Z.div_le_lower_bound; [lia|].
    eapply Z.le_trans; [|exact Hl].
    rewrite <- Z.pow_add_r by lia.
    apply Z.pow_le_mono_r; [lia|]. subst shift. lia. }
  set (n := round_half_even x (q * 2 ^ shift)) in *.
  destruct (Z.eqb_spec n (2 ^ 53)) as [E|NE].
  - change (2 ^ 52) with 4503599627370496 at 1.
    destruct (Z.leb_spec (shift - 1073) 971); [|discriminate].
    intros [= <-]. apply canonical_finite. 
    change (Z.pos 4503599627370496) with (2 ^ 52).
    repeat split; lia.
  - destruct n as [|m|m] eqn:En; [intros [= <-]; reflexivity| |intros [= <-]; reflexivity].
    destruct (Z.leb_spec (shift - 1074) 971); [|discriminate].
    intros [= <-]. apply canonical_finite.
    destruct (Z.eq_dec shift 0) as [Z0|NZ].
    + repeat split; lia.
    + specialize (Hge ltac:(lia)). repeat split; lia.
Qed.

(* ----------------------------------------------------------------- *)
(** *** Number literals *)

Lemma span_digits_digits (s : string) :
  all_digits (fst (span_digits s)) = true.
Proof.
  induction s as [|c r IH]; [reflexivity|]. simpl.
  destruct (is_digit c) eqn:E; [|reflexivity].
  destruct (span_digits r) as [d t]. simpl in *. now rewrite E.
Qed.

Lemma span_digits_app (d t : string) :
  all_digits d = true ->
  match t with String c _ => is_digit c = false | EmptyString => True end ->
  span_digits (d ++ t) = (d, t).
Proof.
  intros Hd Ht. induction d as [|c d IH]; simpl in *.
  - destruct t as [|c r]; [reflexivity|]. simpl. now rewrite Ht.
  - apply andb_true_iff in Hd as [Hc Hd]. rewrite Hc, (IH Hd). reflexivity.
Qed.

Lemma span_digits_all (d : string) :
  all_digits d = true -> span_digits d = (d, "").
Proof.
  intros Hd. rewrite <- (append_nil_r d) at 1. now apply span_digits_app.
Qed.

Lemma digits_val_nonneg (s : string) :
  forall acc, all_digits s = true -> 0 <= acc -> 0 <= digits_val acc s.
Proof.
  induction s as [|c r IH]; intros acc Hd Ha;
    cbn [digits_val all_digits] in *; [assumption|].
  apply andb_true_iff in Hd as [Hc Hd]. apply IH; [assumption|].
  unfold is_digit in Hc. apply andb_true_iff in Hc as [Hlo _].
  apply Z.leb_le in Hlo. lia.
Qed.

Lemma decode_number_nonneg (lit : string) :
  0 <= snd (fst (decode_number lit)).
Proof.
  unfold decode_number.
  set (p := match lit with String "-" r => (true, r) | _ => (false, lit) end).
  destruct p as [neg s1].
  pose proof (span_digits_digits s1) as H1.
  destruct (span_digits s1) as [ip s2]. simpl in H1.
  set (p := match s2 with String "." r => span_digits r | _ => ("", s2) end).
  assert (all_digits (fst p) = true) as H2.
  { subst p. destruct s2 as [|c r]; [reflexivity|].
    destruct (Ascii.eqb_spec c "."); [subst c; apply span_digits_digits|].
    destruct c as [[] [] [] [] [] [] [] []]; try reflexivity. congruence. }
  destruct p as [fp s3]. simpl in *.
  apply digits_val_nonneg; [|lia]. now rewrite all_digits_app, H1, H2.
Qed.

(** Every float64 that [ParseFloat] returns is one. *)
Lemma ParseFloat_canonical (lit : string) (f : float64) :
  ParseFloat lit = Some f -> canonical_float f = true.
Proof.
  unfold ParseFloat. pose proof (decode_number_nonneg lit) as HM.
  destruct (decode_number lit) as [[neg M] e10]. simpl in HM.
  destruct (Z.eqb_spec M 0) as [|NZ]; [now intros [= <-]|].
  destruct (Z.leb_spec 0 e10) as [He|He].
  - apply round_binary64_canonical; [|lia].
    assert (0 < 10 ^ e10) by (apply Z.pow_pos_nonneg; lia). nia.
  - apply round_binary64_canonical; [lia|]. apply Z.pow_pos_nonneg; lia.
Qed.

(* ----------------------------------------------------------------- *)
(** *** The shortest decimal converts back *)

Lemma float_eqb_eq (f g : float64) : float_eqb f g = true <-> f = g.
Proof.
  split.
  - destruct f as [s|s| |s m e], g as [t|t| |t n d]; simpl; try discriminate;
      try reflexivity.
    + intros H. apply eqb_prop in H. now subst.
    + intros H. apply eqb_prop in H. now subst.
    + rewrite !andb_true_iff. intros [[H1 H2] H3].
      apply eqb_prop in H1. apply Pos.eqb_eq in H2. apply Z.eqb_eq in H3.
      now subst.
  - intros <-. destruct f as [s|s| |s m e]; simpl; try reflexivity.
    + apply eqb_reflx.
    + apply eqb_reflx.
    + now rewrite eqb_reflx, Pos.eqb_refl, Z.eqb_refl.
Qed.

Lemma digit_head (d : string) :
  d <> "" -> all_digits d = true ->
  exists c r, d = String c r /\ is_digit c = true.
Proof.
  destruct d as [|c r]; [congruence|]. intros _ H. simpl in H.
  apply andb_true_iff in H as [H _]. eauto.
Qed.

(** The digits [ds] with the exponent [k] read as [ds * 10^k]. *)
Lemma decode_number_exp (neg : bool) (ds : string) (k : Z) :
  ds <> "" -> all_digits ds = true ->
  decode_number (sign_text neg ++ ds ++ String "e" (itoa k))
  = (neg, digits_val 0 ds, k).
Proof.
  intros Hne Hd.
  assert (decode_number (ds ++ String "e" (itoa k))
          = (false, digits_val 0 ds, k)) as Hpos.
  { destruct (digit_head ds Hne Hd) as (c & r & E & Hc).
    unfold decode_number.
    assert (match ds ++ String "e" (itoa k) with
            | String "-" r' => (true, r')
            | _ => (false, ds ++ String "e" (itoa k))
            end = (false, ds ++ String "e" (itoa k))) as ->.
    { rewrite E. cbn [append].
      destruct c as [[] [] [] [] [] [] [] []]; try reflexivity.
      discriminate Hc. }
    rewrite (span_digits_app ds (String "e" (itoa k)) Hd) by reflexivity.
    cbv beta iota. cbn [String.length Z.of_nat].
    rewrite append_nil_r. f_equal.
    unfold itoa. destruct (Z.ltb_spec k 0) as [L|G].
    - destruct (utoa_val (- k) ltac:(lia)) as (_ & Ha & Hv & _).
      rewrite (span_digits_all _ Ha). cbn [fst]. lia.
    - destruct (utoa_val k G) as (Hn & Ha & Hv & _).
      destruct (digit_head _ Hn Ha) as (c' & r' & E' & Hc').
      rewrite E'. 
      assert (digits_val 0 (fst (span_digits (String c' r'))) = k) as Hk
        by (now rewrite <- E', (span_digits_all _ Ha)).
      destruct c' as [[] [] [] [] [] [] [] []]; try discriminate Hc';
        rewrite Z.sub_0_r; exact Hk. }
  destruct neg; [|exact Hpos]. cbn [sign_text append].
  unfold decode_number in *. cbv beta iota.
  destruct (digit_head ds Hne Hd) as (c & r & E & Hc).
  assert (match ds ++ String "e" (itoa k) with
          | String "-" r' => (true, r')
          | _ => (false, ds ++ String "e" (itoa k))
          end = (false, ds ++ String "e" (itoa k))) as Hm.
  { rewrite E. cbn [append].
    destruct c as [[] [] [] [] [] [] [] []]; try reflexivity.
    discriminate Hc. }
  rewrite Hm in Hpos.
  destruct (span_digits (ds ++ String "e" (itoa k))) as [ip s2].
  destruct (match s2 with String "." r' => span_digits r' | _ => ("", s2) end)
    as [fp s3].
  now injection Hpos as -> ->.
Qed.

(** The exact expansion of a float64 converts back to it. *)
Lemma exact_decimal_ok (neg : bool) (m : positive) (e : Z) :
  canonical_float (S754_finite neg m e) = true ->
  let '(N, k) := exact_decimal m e in
  0 < N /\
  number_ok (S754_finite neg m e)
    (sign_text neg ++ utoa N ++ String "e" (itoa k)) = true.
Proof.
  intros Hc. pose proof Hc as Hc'.
  apply canonical_finite in Hc' as (Hm & He & Hn).
  unfold exact_decimal.
  destruct (Z.leb_spec 0 e) as [P|L].
  - assert (0 < 2 ^ e) by (apply Z.pow_pos_nonneg; lia).
    assert (0 < Z.pos m * 2 ^ e) as HN by nia.
    split; [assumption|].
    destruct (utoa_val (Z.pos m * 2 ^ e) ltac:(lia)) as (Hne & Ha & Hv & _).
    unfold number_ok, ParseFloat.
    rewrite (decode_number_exp neg _ 0 Hne Ha), Hv.
    replace (Z.pos m * 2 ^ e =? 0) with false
      by (symmetry; apply Z.eqb_neq; lia).
    cbn [Z.leb Z.compare Z.pow Z.pow_pos]. 
    rewrite (round_binary64_exact neg m e _ 1 Hc); [apply float_eqb_eq; reflexivity|lia|].
    change (10 ^ 0) with 1. rewrite (Z.pow_add_r 2 e 1074) by lia. lia.
  - assert (0 < 5 ^ (- e)) by (apply Z.pow_pos_nonneg; lia).
    assert (0 < Z.pos m * 5 ^ (- e)) as HN by nia.
    split; [assumption|].
    destruct (utoa_val (Z.pos m * 5 ^ (- e)) ltac:(lia)) as (Hne & Ha & Hv & _).
    unfold number_ok, ParseFloat.
    rewrite (decode_number_exp neg _ e Hne Ha), Hv.
    replace (Z.pos m * 5 ^ (- e) =? 0) with false
      by (symmetry; apply Z.eqb_neq; lia).
    replace (0 <=? e) with false by (symmetry; apply Z.leb_gt; lia).
    rewrite (round_binary64_exact neg m e _ (10 ^ (- e)) Hc);
      [apply float_eqb_eq; reflexivity|apply Z.pow_pos_nonneg; lia|].
    change 10 with (2 * 5). rewrite Z.pow_mul_l.
    replace 1074 with (e + 1074 + - e) at 1 by lia.
    rewrite (Z.pow_add_r 2 (e + 1074) (- e)) by lia. ring.
Qed.

(** [shortest] returns a decimal that converts back to [f], provided
    the exact expansion does. *)
Lemma shortest_ok (f : float64) (neg use_e : bool) (N k len : Z) (fuel : nat) :
  forall kept,
    number_ok f (sign_text neg ++ utoa N ++ String "e" (itoa k)) = true ->
    number_ok f (shortest fuel kept f neg use_e N k len) = true.
Proof.
  induction fuel as [|fuel IH]; intros kept Hx; [exact Hx|].
  cbn [shortest]. cbv zeta.
  set (cd := candidate neg use_e (N / 10 ^ Z.max 0 (len - kept))
               (k + Z.max 0 (len - kept))).
  set (cu := candidate neg use_e (N / 10 ^ Z.max 0 (len - kept) + 1)
               (k + Z.max 0 (len - kept))).
  destruct (number_ok f cd) eqn:Ed, (number_ok f cu) eqn:Eu; cbn [andb].
  - destruct (_ <? _); [assumption|].
    destruct (_ <? _); [assumption|].
    destruct (Z.even _); assumption.
  - assumption.
  - assumption.
  - now apply IH.
Qed.

(** The text of a float64 converts back to it. *)
Lemma FormatFloat_ok (f : float64) :
  canonical_float f = true -> number_ok f (FormatFloat f) = true.
Proof.
  destruct f as [s|s| |s m e]; try discriminate; intros Hc.
  - destruct s; reflexivity.
  - unfold FormatFloat. pose proof (exact_decimal_ok s m e Hc) as Hx.
    destruct (exact_decimal m e) as [N k].
    apply shortest_ok, Hx.
Qed.

(* ----------------------------------------------------------------- *)
(** *** The text of a float64 is a number literal *)

Lemma digit_not_special (c : ascii) :
  is_digit c = true ->
  Ascii.eqb c "." = false /\ is_e c = false
  /\ Ascii.eqb c "+" = false /\ Ascii.eqb c "-" = false.
Proof.
  intros H. unfold is_e.
  assert (forall x, is_digit x = false -> Ascii.eqb c x = false) as K.
  { intros x Hx. apply Ascii.eqb_neq. intros ->. congruence. }
  rewrite !K by reflexivity. auto.
Qed.

Lemma num_run_app (a b : string) :
  forall ns,
    num_run ns (a ++ b) =
    match num_run ns a with Some ns' => num_run ns' b | None => None end.
Proof.
  induction a as [|c a IH]; intros ns; [reflexivity|].
  cbn [append num_run]. destruct (num_next ns c); [apply IH|reflexivity].
Qed.

(** More digits keep the scanner where it is in the states that follow
    a digit. *)
Lemma num_run_digits (ns : numstate) (d : string) :
  ns = N1 \/ ns = NDot0 \/ ns = NE0 ->
  all_digits d = true -> num_run ns d = Some ns.
Proof.
  intros Hs. induction d as [|c d IH]; [reflexivity|].
  cbn [all_digits num_run]. intros H. apply andb_true_iff in H as [Hc Hd].
  destruct Hs as [->|[->| ->]]; cbn [num_next]; rewrite Hc; auto.
Qed.

(** A first digit. *)
Lemma num_run_first (ns ns' : numstate) (d : string) :
  (ns = NDot /\ ns' = NDot0) \/ (ns = NE /\ ns' = NE0)
  \/ (ns = NESign /\ ns' = NE0) ->
  d <> "" -> all_digits d = true -> num_run ns d = Some ns'.
Proof.
  intros Hs Hne Hd. destruct (digit_head d Hne Hd) as (c & r & -> & Hc).
  cbn [all_digits] in Hd. rewrite Hc in Hd. cbn [andb] in Hd.
  destruct (digit_not_special c Hc) as (_ & _ & Hp & Hm).
  cbn [num_run].
  destruct Hs as [[-> ->]|[[-> ->]|[-> ->]]]; cbn [num_next];
    rewrite ?Hp, ?Hm, Hc; cbn [orb]; apply num_run_digits; auto.
Qed.

Lemma number_syntax_signed (neg : bool) (c : ascii) (r : string) :
  is_digit c = true ->
  number_syntax (sign_text neg ++ String c r) = number_syntax (String c r).
Proof.
  intros Hc. destruct neg; [|reflexivity].
  destruct (digit_not_special c Hc) as (_ & _ & _ & Hm).
  cbn [sign_text append number_syntax num_run num_next Ascii.eqb Bool.eqb].
  rewrite Hm, Hc. destruct (Ascii.eqb c "0"); reflexivity.
Qed.

Lemma number_syntax_nonzero (c : ascii) (r : string) :
  is_digit c = true -> Ascii.eqb c "0" = false ->
  number_syntax (String c r) =
  match num_run N1 r with Some ns => num_complete ns | None => false end.
Proof.
  intros Hc H0. destruct (digit_not_special c Hc) as (_ & _ & _ & Hm).
  cbn [number_syntax]. now rewrite Hm, H0, Hc.
Qed.

(** An exponent after the integer part or the fraction. *)
Lemma num_run_exponent (ns : numstate) (sg : ascii) (u : string) :
  ns = N0 \/ ns = N1 \/ ns = NDot0 ->
  sg = "+"%char \/ sg = "-"%char ->
  u <> "" -> all_digits u = true ->
  num_run ns (String "e" (String sg u)) = Some NE0.
Proof.
  intros Hs Hsg Hne Hd.
  assert (num_run NESign u = Some NE0) as K by (apply num_run_first; auto).
  destruct Hs as [->|[->| ->]], Hsg as [->| ->]; exact K.
Qed.

Lemma num_run_itoa (ns : numstate) (k : Z) :
  ns = N0 \/ ns = N1 \/ ns = NDot0 ->
  num_run ns (String "e" (itoa k)) = Some NE0.
Proof.
  intros Hs. unfold itoa. destruct (Z.ltb_spec k 0) as [L|G].
  - destruct (utoa_digits (- k) ltac:(lia)) as [Hne Hd].
    apply num_run_exponent; auto.
  - destruct (utoa_digits k G) as [Hne Hd].
    assert (num_run NE (utoa k) = Some NE0) as K by (apply num_run_first; auto).
    destruct Hs as [->|[->| ->]]; exact K.
Qed.

Lemma all_digits_take (n : nat) :
  forall s, all_digits s = true -> all_digits (take n s) = true.
Proof.
  induction n as [|n IH]; intros [|c r]; try reflexivity.
  cbn [all_digits take]. intros H. apply andb_true_iff in H as [Hc Hr].
  now rewrite Hc, IH.
Qed.

Lemma all_digits_drop (n : nat) :
  forall s, all_digits s = true -> all_digits (drop n s) = true.
Proof.
  induction n as [|n IH]; intros [|c r]; try reflexivity; [auto|].
  cbn [all_digits drop]. intros H. apply andb_true_iff in H as [Hc Hr]. auto.
Qed.

Lemma all_digits_zeros (n : nat) : all_digits (zeros n) = true.
Proof. induction n; [reflexivity|exact IHn]. Qed.

Lemma drop_nonempty (n : nat) :
  forall s, (n < String.length s)%nat -> drop n s <> "".
Proof.
  induction n as [|n IH]; intros [|c r]; simpl; try lia; try discriminate.
  intros H. apply IH. lia.
Qed.

(** A fraction after the integer part. *)
Lemma num_run_fraction (ns : numstate) (d : string) :
  ns = N0 \/ ns = N1 ->
  d <> "" -> all_digits d = true ->
  num_run ns (String "." d) = Some NDot0.
Proof.
  intros Hs Hne Hd.
  assert (num_run NDot d = Some NDot0) as K by (apply num_run_first; auto).
  destruct Hs as [->| ->]; exact K.
Qed.

Lemma fmt_e_syntax (neg : bool) (ds : string) (dp : Z) :
  ds <> "" -> all_digits ds = true -> leading_nonzero ds = true ->
  number_syntax (fmt_e neg ds dp) = true.
Proof.
  intros Hne Hd Hl. destruct (digit_head ds Hne Hd) as (c & r & -> & Hc).
  cbn [leading_nonzero] in Hl. apply negb_true_iff in Hl.
  cbn [all_digits] in Hd. rewrite Hc in Hd. cbn [andb] in Hd.
  unfold fmt_e. cbn [take drop append].
  rewrite number_syntax_signed, number_syntax_nonzero by assumption.
  destruct (utoa_digits (Z.abs (dp - 1)) ltac:(lia)) as [Une Ud].
  set (sg := if dp - 1 <? 0 then "-"%char else "+"%char).
  assert (sg = "+"%char \/ sg = "-"%char) as Hsg
    by (subst sg; destruct (dp - 1 <? 0); auto).
  destruct r as [|c1 r1].
  - cbn [append]. rewrite num_run_exponent; auto.
  - rewrite num_run_app.
    rewrite (num_run_fraction N1) by (auto; discriminate).
    rewrite num_run_exponent; auto.
Qed.

Lemma fmt_fshort_syntax (neg : bool) (ds : string) (dp : Z) :
  ds <> "" -> all_digits ds = true -> leading_nonzero ds = true ->
  number_syntax (fmt_fshort neg ds dp) = true.
Proof.
  intros Hne Hd Hl. unfold fmt_fshort.
  set (nd := Z.of_nat (String.length ds)).
  assert (0 < nd) as Hnd by (subst nd; destruct ds; [congruence|simpl; lia]).
  assert (dp < nd ->
          zeros (Z.to_nat (- dp)) ++ drop (Z.to_nat dp) ds <> ""
          /\ all_digits (zeros (Z.to_nat (- dp)) ++ drop (Z.to_nat dp) ds)
             = true) as Hfrac.
  { intros L. split.
    - assert (drop (Z.to_nat dp) ds <> "") as K
        by (apply drop_nonempty; subst nd; lia).
      destruct (zeros (Z.to_nat (- dp))); [exact K|discriminate].
    - now rewrite all_digits_app, all_digits_zeros, all_digits_drop. }
  destruct (Z.ltb_spec 0 dp) as [P|NP].
  - destruct (digit_head ds Hne Hd) as (c & r & E & Hc).
    destruct (Z.to_nat dp) as [|j] eqn:Ej; [lia|].
    rewrite E at 1. cbn [take append].
    cbn [all_digits] in Hd. rewrite E in Hl, Hd.
    cbn [leading_nonzero all_digits] in Hl, Hd. apply negb_true_iff in Hl.
    rewrite Hc in Hd. cbn [andb] in Hd.
    rewrite number_syntax_signed, number_syntax_nonzero by assumption.
    rewrite !num_run_app.
    rewrite (num_run_digits N1) by (auto using all_digits_take).
    rewrite (num_run_digits N1) by (auto using all_digits_zeros).
    destruct (Z.ltb_spec dp nd) as [L|G]; [|reflexivity].
    destruct (Hfrac L) as (Fne & Fd).
    now rewrite (num_run_fraction N1) by auto.
  - cbn [append]. rewrite number_syntax_signed by reflexivity.
    replace (dp <? nd) with true by (symmetry; apply Z.ltb_lt; lia).
    destruct (Hfrac ltac:(lia)) as (Fne & Fd).
    cbn [number_syntax Ascii.eqb Bool.eqb].
    now rewrite (num_run_fraction N0) by auto.
Qed.

Lemma exact_text_syntax (neg : bool) (N k : Z) :
  0 < N ->
  number_syntax (sign_text neg ++ utoa N ++ String "e" (itoa k)) = true.
Proof.
  intros HN. destruct (utoa_val N ltac:(lia)) as (Hne & Hd & _ & Hl).
  specialize (Hl HN). destruct (digit_head _ Hne Hd) as (c & r & E & Hc).
  rewrite E in *. cbn [leading_nonzero all_digits] in Hl, Hd.
  apply negb_true_iff in Hl. rewrite Hc in Hd. cbn [andb] in Hd.
  cbn [append].
  rewrite number_syntax_signed, number_syntax_nonzero by assumption.
  rewrite num_run_app, (num_run_digits N1) by auto.
  now rewrite num_run_itoa by auto.
Qed.

Lemma strip_zeros_pos (fuel : nat) :
  forall n k, 0 < n -> 0 < fst (strip_zeros fuel n k).
Proof.
  induction fuel as [|fuel IH]; intros n k Hn; [exact Hn|].
  cbn [strip_zeros].
  destruct (Z.eqb_spec (n mod 10) 0) as [E|NE]; [|exact Hn].
  destruct (Z.eqb_spec n 0) as [Z0|NZ]; [exact Hn|]. cbn [negb andb].
  apply IH. pose proof (Z.div_mod n 10 ltac:(lia)). lia.
Qed.

Lemma candidate_syntax (neg use_e : bool) (n k : Z) :
  0 < n -> number_syntax (candidate neg use_e n k) = true.
Proof.
  intros Hn. unfold candidate.
  pose proof (strip_zeros_pos (String.length (utoa n)) n k Hn) as Hp.
  destruct (strip_zeros (String.length (utoa n)) n k) as [n' k'].
  cbn [fst] in Hp.
  destruct (utoa_val n' ltac:(lia)) as (Hne & Hd & _ & Hl).
  destruct use_e; [apply fmt_e_syntax|apply fmt_fshort_syntax]; auto.
Qed.

(** A decimal of [len] digits is at least [10^(len-1)]. *)
Lemma digits_val_lower (s : string) :
  forall acc, 0 <= acc -> all_digits s = true ->
    acc * 10 ^ Z.of_nat (String.length s) <= digits_val acc s.
Proof.
  induction s as [|c r IH]; intros acc Ha Hd.
  - cbn [String.length digits_val]. change (10 ^ Z.of_nat 0) with 1. lia.
  - cbn [all_digits] in Hd. apply andb_true_iff in Hd as [Hc Hd].
    cbn [String.length digits_val].
    unfold is_digit in Hc. apply andb_true_iff in Hc as [Hlo _].
    apply Z.leb_le in Hlo.
    specialize (IH (10 * acc + (byte_val c - 48)) ltac:(lia) Hd).
    replace (Z.of_nat (S (String.length r)))
      with (Z.succ (Z.of_nat (String.length r))) by lia.
    rewrite Z.pow_succ_r by lia.
    assert (0 < 10 ^ Z.of_nat (String.length r))
      by (apply Z.pow_pos_nonneg; lia).
    nia.
Qed.

Lemma utoa_lower (n : Z) :
  0 < n -> 10 ^ (Z.of_nat (String.length (utoa n)) - 1) <= n.
Proof.
  intros Hn. destruct (utoa_val n ltac:(lia)) as (Hne & Hd & Hv & Hl).
  specialize (Hl Hn). destruct (digit_head _ Hne Hd) as (c & r & E & Hc).
  rewrite E in *. cbn [leading_nonzero all_digits] in Hl, Hd.
  apply negb_true_iff in Hl. rewrite Hc in Hd. cbn [andb] in Hd.
  cbn [digits_val String.length] in *.
  replace (Z.of_nat (S (String.length r)) - 1)
    with (Z.of_nat (String.length r)) by lia.
  assert (1 <= byte_val c - 48) as H1.
  { unfold is_digit in Hc. apply andb_true_iff in Hc as [Hlo _].
    apply Z.leb_le in Hlo.
    destruct (Z.eq_dec (byte_val c) 48) as [E48|]; [|lia].
    apply Ascii.eqb_neq in Hl. exfalso. apply Hl.
    rewrite <- (byte_of_val c), E48. reflexivity. }
  pose proof (digits_val_lower r (10 * 0 + (byte_val c - 48)) ltac:(lia) Hd) as K.
  rewrite Hv in K.
  assert (0 < 10 ^ Z.of_nat (String.length r))
    by (apply Z.pow_pos_nonneg; lia).
  nia.
Qed.

Lemma shortest_syntax (f : float64) (neg use_e : bool) (N k len : Z)
    (fuel : nat) :
  forall kept,
    0 < N -> 1 <= len -> 10 ^ (len - 1) <= N -> 1 <= kept ->
    number_syntax (shortest fuel kept f neg use_e N k len) = true.
Proof.
  induction fuel as [|fuel IH]; intros kept HN Hlen Hlo Hk.
  - now apply exact_text_syntax.
  - cbn [shortest]. cbv zeta.
    set (cut := 10 ^ Z.max 0 (len - kept)).
    assert (0 < cut) as Hcut by (apply Z.pow_pos_nonneg; lia).
    assert (cut <= N) as HcN.
    { eapply Z.le_trans; [|exact Hlo]. apply Z.pow_le_mono_r; lia. }
    assert (1 <= N / cut) as Hd by (apply Z.div_le_lower_bound; lia).
    pose proof (candidate_syntax neg use_e (N / cut)
                  (k + Z.max 0 (len - kept)) ltac:(lia)) as Sd.
    pose proof (candidate_syntax neg use_e (N / cut + 1)
                  (k + Z.max 0 (len - kept)) ltac:(lia)) as Su.
    destruct (number_ok f _ && number_ok f _).
    + destruct (_ <? _); [assumption|].
      destruct (_ <? _); [assumption|].
      destruct (Z.even _); assumption.
    + destruct (number_ok f _); [assumption|].
      destruct (number_ok f _); [assumption|].
      apply IH; auto; lia.
Qed.

(** The text of a float64 is a number literal. *)
Lemma FormatFloat_syntax (f : float64) :
  canonical_float f = true -> number_syntax (FormatFloat f) = true.
Proof.
  destruct f as [s|s| |s m e]; try discriminate; intros Hc.
  - destruct s; reflexivity.
  - unfold FormatFloat. pose proof (exact_decimal_ok s m e Hc) as Hx.
    destruct (exact_decimal m e) as [N k]. destruct Hx as [HN _].
    destruct (utoa_digits N ltac:(lia)) as [Hne _].
    apply shortest_syntax; auto; try lia.
    + destruct (utoa N); [congruence|simpl; lia].
    + now apply utoa_lower.
Qed.

Lemma float_round_trips_canonical (f : float64) :
  canonical_float f = true -> float_round_trips f = true.
Proof.
  intros Hc. unfold float_round_trips.
  now rewrite FormatFloat_syntax, FormatFloat_ok.
Qed.

(* ----------------------------------------------------------------- *)
(** *** Decoding what the encoder wrote *)

Lemma ParseFloat_FormatFloat (f : float64) :
  canonical_float f = true -> ParseFloat (FormatFloat f) = Some f.
Proof.
  intros Hc. pose proof (FormatFloat_ok f Hc) as H. unfold number_ok in H.
  destruct (ParseFloat (FormatFloat f)) as [g|]; [|discriminate].
  apply float_eqb_eq in H. now subst.
Qed.

Lemma wf_value_arr (l : list value) : wf_value (JArray l) = wf_elements l.
Proof. reflexivity. Qed.

Lemma wf_value_obj (m : list (string * value)) :
  wf_value (JObject m) = (sorted_keys m /\ wf_members m).
Proof. reflexivity. Qed.

Lemma wf_elements_Forall (l : list value) :
  wf_elements l <-> Forall wf_value l.
Proof.
  induction l as [|x r IH]; simpl.
  - split; auto.
  - rewrite IH. split.
    + intros [H1 H2]. now constructor.
    + intros H. inversion H. auto.
Qed.

Lemma wf_members_Forall (m : list (string * value)) :
  wf_members m <->
  Forall (fun kv => utf8_valid (fst kv) = true /\ wf_value (snd kv)) m.
Proof.
  induction m as [|[k x] r IH]; simpl.
  - split; auto.
  - rewrite IH. split.
    + intros [H1 H2]. now constructor.
    + intros H. inversion H. auto.
Qed.

Lemma convert_elements_tree_of (l : list value) :
  Forall (fun v => wf_value v -> convert (tree_of v) = Some v) l ->
  wf_elements l -> convert_elements (map tree_of l) = Some l.
Proof.
  induction 1 as [|x r Hx _ IH]; [reflexivity|].
  intros [Wx Wr]. cbn [map convert_elements].
  now rewrite (Hx Wx), (IH Wr).
Qed.

Lemma convert_members_tree_of (m : list (string * value)) :
  Forall (fun kv => wf_value (snd kv) -> convert (tree_of (snd kv)) = Some (snd kv)) m ->
  forall acc,
    sorted_keys (acc ++ m)%list -> wf_members m ->
    convert_members
      (map (fun kv => (encode_from 0 (fst kv), tree_of (snd kv))) m) acc
    = Some (acc ++ m)%list.
Proof.
  induction 1 as [|[k x] r Hx _ IH]; intros acc Hs Hw.
  - cbn. now rewrite app_nil_r.
  - destruct Hw as [[Wk Wx] Wr]. cbn [map convert_members fst snd] in *.
    rewrite (Hx Wx), (unquote_encode k Wk).
    destruct (sorted_keys_app _ _ Hs) as (_ & _ & Hlt).
    rewrite map_set_above.
    + rewrite IH; [now rewrite <- app_assoc| |assumption].
      now rewrite <- app_assoc.
    + eapply Forall_impl; [|exact Hlt]. intros kv H. now inversion H.
Qed.

(** Decoding the tree of an encoded value gives the value back. *)
Lemma convert_tree_of (v : value) :
  wf_value v -> convert (tree_of v) = Some v.
Proof.
  induction v as [| | f | s | l IH | m IH] using value_induction; intros W.
  - reflexivity.
  - reflexivity.
  - cbn [tree_of convert]. now rewrite ParseFloat_FormatFloat.
  - cbn [tree_of convert]. now rewrite unquote_encode.
  - cbn [tree_of]. rewrite convert_arr.
    now rewrite (convert_elements_tree_of l IH W).
  - cbn [tree_of]. rewrite convert_obj. destruct W as [Ws Wm].
    now rewrite (convert_members_tree_of m IH [] Ws Wm).
Qed.

(* ----------------------------------------------------------------- *)
(** *** What the decoder produces *)

Lemma convert_elements_wf (l : list tree) :
  Forall (fun t => forall v, convert t = Some v -> wf_value v) l ->
  forall vs, convert_elements l = Some vs -> wf_elements vs.
Proof.
  induction 1 as [|x r Hx _ IH]; intros vs.
  - intros [= <-]. exact I.
  - cbn [convert_elements].
    destruct (convert x) as [v|] eqn:Ex; [|discriminate].
    destruct (convert_elements r) as [vr|] eqn:Er; [|discriminate].
    intros [= <-]. split; auto.
Qed.

Lemma convert_members_wf (ms : list (string * tree)) :
  Forall (fun kt => forall v, convert (snd kt) = Some v -> wf_value v) ms ->
  forall acc m,
    sorted_keys acc -> wf_members acc ->
    convert_members ms acc = Some m -> sorted_keys m /\ wf_members m.
Proof.
  induction 1 as [|[k x] r Hx _ IH]; intros acc m Hs Hw.
  - intros [= <-]. auto.
  - cbn [convert_members snd] in *.
    destruct (convert x) as [v|] eqn:Ex; [|discriminate].
    apply IH.
    + now apply map_set_sorted.
    + apply wf_members_Forall. apply map_set_Forall.
      * split; [apply unquote_valid|auto].
      * now apply wf_members_Forall.
Qed.

(** [Unmarshal] stores canonical floats, valid UTF-8 and sorted maps. *)
Lemma convert_wf (t : tree) :
  forall v, convert t = Some v -> wf_value v.
Proof.
  induction t as [| b | lit | raw | l IH | ms IH] using tree_induction;
    intros v.
  - intros [= <-]. exact I.
  - intros [= <-]. exact I.
  - cbn [convert]. destruct (ParseFloat lit) as [f|] eqn:E; [|discriminate].
    intros [= <-]. exact (ParseFloat_canonical lit f E).
  - intros [= <-]. apply unquote_valid.
  - rewrite convert_arr.
    destruct (convert_elements l) as [vs|] eqn:E; [|discriminate].
    intros [= <-]. rewrite wf_value_arr. exact (convert_elements_wf l IH vs E).
  - rewrite convert_obj.
    destruct (convert_members ms []) as [m|] eqn:E; [|discriminate].
    intros [= <-]. rewrite wf_value_obj.
    exact (convert_members_wf ms IH [] m I I E).
Qed.

(* ----------------------------------------------------------------- *)
(** *** Nesting depth *)

Lemma fold_max_le {A : Type} (f : A -> Z) (D : Z) (l : list A) :
  0 <= D -> Forall (fun x => f x <= D) l ->
  fold_right (fun x d => Z.max (f x) d) 0 l <= D.
Proof. intros HD. induction 1; simpl; lia. Qed.

Lemma fold_max_ge {A : Type} (f : A -> Z) (l : list A) :
  0 <= fold_right (fun x d => Z.max (f x) d) 0 l
  /\ Forall (fun x => f x <= fold_right (fun x d => Z.max (f x) d) 0 l) l.
Proof.
  induction l as [|x r [IH0 IH]]; simpl.
  - split; [lia|constructor].
  - split; [lia|].
    constructor; [lia|]. eapply Forall_impl; [|exact IH]. simpl. intros; lia.
Qed.

(** What the parser accepts is nested within the limit. *)
Lemma parse_depth (fuel : nat) :
  (forall d ts t r,
     parse_value fuel d ts = Some (t, r) -> d <= maxNestingDepth ->
     d + tree_depth t <= maxNestingDepth)
  /\ (forall d ts l r,
        parse_elements fuel d ts = Some (l, r) -> d <= maxNestingDepth ->
        Forall (fun x => d + tree_depth x <= maxNestingDepth) l)
  /\ (forall d ts ms r,
        parse_members fuel d ts = Some (ms, r) -> d <= maxNestingDepth ->
        Forall (fun kv => d + tree_depth (snd kv) <= maxNestingDepth) ms).
Proof.
  induction fuel as [|fuel (IHv & IHe & IHm)];
    [repeat split; intros; discriminate|].
  split; [|split].
  - intros d ts t r H Hd. cbn [parse_value] in H.
    destruct ts as [|tk ts]; [discriminate|].
    destruct tk; try discriminate;
      try (injection H as <- <-; cbn [tree_depth]; lia).
    + destruct (Z.leb_spec maxNestingDepth d) as [|Hlt]; [discriminate|].
      assert (forall ms, Forall (fun kv => d + 1 + tree_depth (snd kv)
                                          <= maxNestingDepth) ms ->
                           d + tree_depth (TrObj ms) <= maxNestingDepth) as K.
        { intros ms F. cbn [tree_depth].
          pose proof (fold_max_le (fun kv : string * tree => tree_depth (snd kv))
                        (maxNestingDepth - d - 1) ms ltac:(lia)) as B.
          cbv beta in B. 
          assert (Forall (fun x : string * tree =>
                            tree_depth (snd x) <= maxNestingDepth - d - 1) ms)
            as F' by (eapply Forall_impl; [|exact F]; cbv beta; intros; lia).
          specialize (B F'). lia. }
      destruct ts as [|tk ts]; [|destruct tk];
        try (destruct (parse_members fuel (d + 1) _) as [[ms r']|] eqn:E;
             [|discriminate]; injection H as <- <-;
             apply K; eapply IHm; [exact E|lia]).
      injection H as <- <-. cbn. lia.
    + destruct (Z.leb_spec maxNestingDepth d) as [|Hlt]; [discriminate|].
      assert (forall l, Forall (fun x => d + 1 + tree_depth x
                                          <= maxNestingDepth) l ->
                          d + tree_depth (TrArr l) <= maxNestingDepth) as K.
        { intros l F. cbn [tree_depth].
          pose proof (fold_max_le tree_depth
                        (maxNestingDepth - d - 1) l ltac:(lia)) as B.
          assert (Forall (fun x => tree_depth x <= maxNestingDepth - d - 1) l)
            as F' by (eapply Forall_impl; [|exact F]; cbv beta; intros; lia).
          specialize (B F'). lia. }
      destruct ts as [|tk ts]; [|destruct tk];
        try (destruct (parse_elements fuel (d + 1) _) as [[l r']|] eqn:E;
             [|discriminate]; injection H as <- <-;
             apply K; eapply IHe; [exact E|lia]).
      injection H as <- <-. cbn. lia.
  - intros d ts l r H Hd. cbn [parse_elements] in H.
    destruct (parse_value fuel d ts) as [[v [|tk r1]]|] eqn:Ev;
      try discriminate.
    destruct tk; try discriminate.
    + injection H as <- <-. constructor; [|constructor]. eapply IHv; eauto.
    + destruct (parse_elements fuel d r1) as [[l' r']|] eqn:E; [|discriminate].
      injection H as <- <-. constructor; [eapply IHv; eauto|eapply IHe; eauto].
  - intros d ts ms r H Hd. cbn [parse_members] in H.
    destruct ts as [|tk ts]; [discriminate|].
    destruct tk; try discriminate.
    destruct ts as [|tk ts]; [discriminate|].
    destruct tk; try discriminate.
    destruct (parse_value fuel d ts) as [[v [|tk r1]]|] eqn:Ev;
      try discriminate.
    destruct tk; try discriminate.
    + injection H as <- <-. constructor; [|constructor]. eapply IHv; eauto.
    + destruct (parse_members fuel d r1) as [[ms' r']|] eqn:E; [|discriminate].
      injection H as <- <-. constructor; [eapply IHv; eauto|eapply IHm; eauto].
Qed.

Lemma parse_tree_depth (ts : list token) (t : tree) :
  parse ts = Some t -> tree_depth t <= maxNestingDepth.
Proof.
  unfold parse.
  destruct (parse_value (S (List.length ts)) 0 ts) as [[t' [|]]|] eqn:E;
    try discriminate.
  intros [= <-].
  destruct (parse_depth (S (List.length ts))) as (Hv & _ & _).
  specialize (Hv 0 ts t' [] E). unfold maxNestingDepth in *. lia.
Qed.

Lemma convert_elements_depth (l : list tree) (D : Z) :
  Forall (fun t => forall v, convert t = Some v -> value_depth v <= tree_depth t) l ->
  Forall (fun t => tree_depth t <= D) l ->
  forall vs, convert_elements l = Some vs ->
    Forall (fun v => value_depth v <= D) vs.
Proof.
  induction 1 as [|x r Hx _ IH]; intros HD vs.
  - intros [= <-]. constructor.
  - cbn [convert_elements]. inversion HD as [|? ? Dx Dr]; subst.
    destruct (convert x) as [v|] eqn:Ex; [|discriminate].
    destruct (convert_elements r) as [vr|] eqn:Er; [|discriminate].
    intros [= <-]. constructor; [specialize (Hx v eq_refl); lia|].
    exact (IH Dr vr eq_refl).
Qed.

Lemma convert_members_depth (ms : list (string * tree)) (D : Z) :
  Forall (fun kt => forall v, convert (snd kt) = Some v ->
                      value_depth v <= tree_depth (snd kt)) ms ->
  Forall (fun kt => tree_depth (snd kt) <= D) ms ->
  forall acc m,
    Forall (fun kv => value_depth (snd kv) <= D) acc ->
    convert_members ms acc = Some m ->
    Forall (fun kv => value_depth (snd kv) <= D) m.
Proof.
  induction 1 as [|[k x] r Hx _ IH]; intros HD acc m Ha.
  - now intros [= <-].
  - cbn [convert_members snd] in *. inversion HD as [|? ? Dx Dr]; subst.
    destruct (convert x) as [v|] eqn:Ex; [|discriminate].
    apply IH; [assumption|]. apply map_set_Forall; [|assumption].
    cbn [snd] in *. specialize (Hx v eq_refl). lia.
Qed.

(** Decoding does not nest deeper than the text. *)
Lemma convert_depth (t : tree) :
  forall v, convert t = Some v -> value_depth v <= tree_depth t.
Proof.
  induction t as [| b | lit | raw | l IH | ms IH] using tree_induction;
    intros v.
  - intros [= <-]. reflexivity.
  - intros [= <-]. reflexivity.
  - cbn [convert]. destruct (ParseFloat lit); [|discriminate].
    intros [= <-]. reflexivity.
  - intros [= <-]. reflexivity.
  - rewrite convert_arr.
    destruct (convert_elements l) as [vs|] eqn:E; [|discriminate].
    intros [= <-]. cbn [value_depth tree_depth].
    destruct (fold_max_ge tree_depth l) as [H0 HF].
    pose proof (convert_elements_depth l _ IH HF vs E) as K.
    pose proof (fold_max_le value_depth _ vs H0 K). lia.
  - rewrite convert_obj.
    destruct (convert_members ms []) as [m|] eqn:E; [|discriminate].
    intros [= <-]. cbn [value_depth tree_depth].
    destruct (fold_max_ge (fun kt : string * tree => tree_depth (snd kt)) ms)
      as [H0 HF].
    pose proof (convert_members_depth ms _ IH HF [] m (Forall_nil _) E) as K.
    pose proof (fold_max_le (fun kv : string * value => value_depth (snd kv))
                  _ m H0 K) as K'.
    cbv beta in *. lia.
Qed.

Lemma tree_of_depth (v : value) : tree_depth (tree_of v) = value_depth v.
Proof.
  induction v as [| | f | s | l IH | m IH] using value_induction;
    try reflexivity.
  - cbn [tree_of tree_depth value_depth]. f_equal.
    induction IH as [|x r Hx _ IHr]; [reflexivity|].
    cbn [map fold_right]. now rewrite Hx, IHr.
  - cbn [tree_of tree_depth value_depth]. f_equal.
    induction IH as [|[k x] r Hx _ IHr]; [reflexivity|].
    cbn [map fold_right snd] in *. now rewrite Hx, IHr.
Qed.

(** The encoding of a decoded text parses again. *)
Lemma scan_convert_depth (s : string) (t : tree) (v : value) :
  scan s = Some t -> convert t = Some v ->
  tree_depth (tree_of v) <= maxNestingDepth.
Proof.
  unfold scan. destruct (lex s) as [ts|]; [|discriminate]. intros Hp Hc.
  rewrite tree_of_depth.
  pose proof (parse_tree_depth ts t Hp). pose proof (convert_depth t v Hc).
  lia.
Qed.

(* ----------------------------------------------------------------- *)
(** *** Scanning what the encoder wrote *)

Lemma lex_run_punct (c : ascii) (tk : token) (tail : string) :
  lstart c = Some ([tk], LStart) ->
  lex_run LStart (String c tail) = prepend [tk] (lex_run LStart tail).
Proof.
  intros H. rewrite lex_run_cons. change (lstep LStart c) with (lstart c).
  now rewrite H.
Qed.

Lemma lex_of_run (s : string) (ts : list token) :
  lex_run LStart s = Some (ts, LStart) -> lex s = Some ts.
Proof. intros H. unfold lex. rewrite H. cbn. now rewrite app_nil_r. Qed.

Lemma canonical_finite_float (f : float64) :
  canonical_float f = true -> is_finite f = true.
Proof. destruct f; auto. Qed.

(** The property of a value that the next lemmas establish. *)
Lemma lex_encode_elements (l : list value) :
  Forall (fun v => wf_value v ->
            exists s, encode v = Some s
                      /\ lex s = Some (tokens_of (tree_of v))) l ->
  wf_elements l ->
  exists ss, encode_elements l = Some ss
    /\ forall tail,
         lex_run LStart (strings_Join ss "," ++ String "]" tail)
         = prepend (tokens_elements (map tree_of l)) (lex_run LStart tail).
Proof.
  induction 1 as [|x r Hx _ IH]; intros W.
  - exists []. split; [reflexivity|]. intros tail. cbn [strings_Join append map].
    now rewrite (lex_run_punct "]" TRBracket).
  - destruct W as [Wx Wr]. destruct (Hx Wx) as (s & Es & Ls).
    destruct (IH Wr) as (ss & Ess & Lss).
    exists (s :: ss). cbn [encode_elements]. rewrite Es, Ess.
    split; [reflexivity|]. intros tail.
    destruct r as [|y r'].
    + injection Ess as <-. cbn [strings_Join map tokens_elements].
      rewrite (lex_run_value_delimiter s _ "]" tail Ls) by reflexivity.
      rewrite (lex_run_punct "]" TRBracket) by reflexivity.
      now rewrite prepend_app.
    + destruct ss as [|s' ss'].
      { cbn [encode_elements] in Ess.
        destruct (encode y), (encode_elements r'); discriminate. }
      rewrite strings_Join_cons, !append_assoc. cbn [map].
      rewrite tokens_elements_cons.
      change ("," ++ strings_Join (s' :: ss') "," ++ String "]" tail)
        with (String "," (strings_Join (s' :: ss') "," ++ String "]" tail)).
      rewrite (lex_run_value_delimiter s _ "," _ Ls) by reflexivity.
      rewrite (lex_run_punct "," TComma) by reflexivity.
      rewrite Lss. cbn [map].
      now rewrite <- !prepend_app, <- app_assoc.
Qed.

Lemma lex_run_member (k s : string) (ts : list token) (c : ascii)
    (b : string) :
  lex s = Some ts -> number_char c = false ->
  lex_run LStart ((encode_string k ++ String ":" s) ++ String c b)
  = prepend (TStr (encode_from 0 k) :: TColon :: ts)
      (lex_run LStart (String c b)).
Proof.
  intros Ls Hc. unfold encode_string. cbn [append].
  rewrite !append_assoc. cbn [append].
  rewrite lex_run_string by apply encode_from_scans.
  rewrite (lex_run_punct ":" TColon) by reflexivity.
  rewrite (lex_run_value_delimiter s ts c b Ls Hc).
  now rewrite <- !prepend_app.
Qed.

Lemma lex_encode_members (m : list (string * value)) :
  Forall (fun kv => wf_value (snd kv) ->
            exists s, encode (snd kv) = Some s
                      /\ lex s = Some (tokens_of (tree_of (snd kv)))) m ->
  wf_members m ->
  exists ss, encode_members m = Some ss
    /\ forall tail,
         lex_run LStart (strings_Join ss "," ++ String "}" tail)
         = prepend
             (tokens_members
                (map (fun kv => (encode_from 0 (fst kv), tree_of (snd kv))) m))
             (lex_run LStart tail).
Proof.
  induction 1 as [|[k x] r Hx _ IH]; intros W.
  - exists []. split; [reflexivity|]. intros tail. cbn [strings_Join append map].
    now rewrite (lex_run_punct "}" TRBrace).
  - destruct W as [[_ Wx] Wr]. cbn [snd] in Hx.
    destruct (Hx Wx) as (s & Es & Ls).
    destruct (IH Wr) as (ss & Ess & Lss).
    exists ((encode_string k ++ String ":" s) :: ss).
    cbn [encode_members]. rewrite Es, Ess.
    split; [reflexivity|]. intros tail.
    destruct r as [|[k' y] r'].
    + injection Ess as <-. cbn [strings_Join map tokens_members fst snd].
      rewrite (lex_run_member k s _ "}" tail Ls) by reflexivity.
      rewrite (lex_run_punct "}" TRBrace) by reflexivity.
      now rewrite <- prepend_app.
    + destruct ss as [|s' ss'].
      { cbn [encode_members] in Ess.
        destruct (encode y), (encode_members r'); discriminate. }
      rewrite strings_Join_cons. 
      rewrite (append_assoc _ ("," ++ strings_Join (s' :: ss') ",")).
      rewrite (append_assoc ","). 
      change ("," ++ strings_Join (s' :: ss') "," ++ String "}" tail)
        with (String "," (strings_Join (s' :: ss') "," ++ String "}" tail)).
      rewrite (lex_run_member k s _ "," _ Ls) by reflexivity.
      rewrite (lex_run_punct "," TComma) by reflexivity.
      rewrite Lss. cbn [map fst snd].
      rewrite tokens_members_cons.
      rewrite <- !prepend_app. f_equal.
      cbn [app]. now rewrite <- app_assoc.
Qed.

(** The scanner reads the tokens of [tree_of v] in the encoding of [v]. *)
Lemma lex_encode (v : value) :
  wf_value v ->
  exists s, encode v = Some s /\ lex s = Some (tokens_of (tree_of v)).
Proof.
  induction v as [| b | f | s | l IH | m IH] using value_induction; intros W.
  - exists "null". split; reflexivity.
  - exists (if b then "true" else "false"). destruct b; split; reflexivity.
  - exists (FormatFloat f). cbn [encode tree_of tokens_of].
    rewrite (canonical_finite_float f W). split; [reflexivity|].
    apply lex_number. now apply FormatFloat_syntax.
  - exists (encode_string s). split; [reflexivity|].
    apply lex_of_run. unfold encode_string.
    rewrite lex_run_string by apply encode_from_scans. reflexivity.
  - destruct (lex_encode_elements l IH W) as (ss & Ess & Lss).
    rewrite encode_arr, Ess. eexists. split; [reflexivity|].
    apply lex_of_run. cbn [append tree_of].
    rewrite (lex_run_punct "[" TLBracket) by reflexivity.
    rewrite Lss, tokens_of_arr. cbn. now rewrite app_nil_r.
  - destruct W as [_ W]. destruct (lex_encode_members m IH W) as (ss & Ess & Lss).
    rewrite encode_obj, Ess. eexists. split; [reflexivity|].
    apply lex_of_run. cbn [append tree_of].
    rewrite (lex_run_punct "{" TLBrace) by reflexivity.
    rewrite Lss, tokens_of_obj. cbn. now rewrite app_nil_r.
Qed.

(* ----------------------------------------------------------------- *)
(** *** The compacting normalizer keeps the parsed value *)

Lemma compress_returns (T out : string) :
  compress T = Returns out ->
  exists t v, scan T = Some t /\ convert t = Some v /\ encode v = Some out.
Proof.
  unfold compress, Unmarshal, Marshal.
  destruct (scan T) as [t|]; [|discriminate].
  destruct (convert t) as [v|] eqn:Ec; [|discriminate].
  destruct (encode v) as [s|] eqn:Ee; [|discriminate].
  intros [= <-]. eauto.
Qed.

(** What [Marshal] writes for a decoded value decodes to that value. *)
Lemma Unmarshal_encode (T : string) (t : tree) (v : value) (out : string) :
  scan T = Some t -> convert t = Some v -> encode v = Some out ->
  Unmarshal out = Ok v.
Proof.
  intros Es Ec Eo. pose proof (convert_wf t v Ec) as W.
  destruct (lex_encode v W) as (out' & Eo' & Lo).
  assert (out' = out) as -> by congruence.
  unfold Unmarshal, scan. rewrite Lo.
  rewrite parse_tokens_of by exact (scan_convert_depth T t v Es Ec).
  now rewrite convert_tree_of.
Qed.

(** C7 (amended).  For every well-formed text [T] whose number
    literals all fit a float64, the compacting normalizer [compress]
    returns a text, and parsing that text gives the very value that
    parsing [T] gives: normalization changes the formatting only, never
    the parsed value.  A well-formed text with a number literal out of
    that range has no parsed value, and [compress] panics on it.
    Values are compared as terms (maps by their sorted association
    lists), which is finer than Go's deep equality. *)
Theorem compress_keeps_parsed_value (T : string) :
  checkValid T = true ->
  exists t,
    scan T = Some t
    /\ (numbers_in_range t = true ->
        exists out v,
          compress T = Returns out
          /\ Unmarshal T = Ok v /\ Unmarshal out = Ok v)
    /\ (numbers_in_range t = false ->
        Unmarshal T = Err UnmarshalTypeError
        /\ compress T = Panics (error_text UnmarshalTypeError)).
Proof.
  unfold checkValid. destruct (scan T) as [t|] eqn:Es; [|discriminate].
  intros _. exists t. split; [reflexivity|]. split.
  - intros Hr. apply convert_in_range in Hr as [v Ec].
    destruct (lex_encode v (convert_wf t v Ec)) as (out & Eo & _).
    exists out, v. unfold compress, Unmarshal at 1 2. rewrite Es, Ec.
    unfold Marshal. rewrite Eo. split; [reflexivity|].
    split; [reflexivity|].
    exact (Unmarshal_encode T t v out Es Ec Eo).
  - intros Hr. unfold compress, Unmarshal. rewrite Es.
    destruct (convert t) as [v|] eqn:Ec; [|split; reflexivity].
    assert (numbers_in_range t = true) as Hr'
      by (apply convert_in_range; eauto).
    congruence.
Qed.

(* ----------------------------------------------------------------- *)
(** *** The root of a query *)

Lemma string_compare_gt_neq (a b : string) :
  String.compare a b = Gt -> String.eqb a b = false.
Proof.
  intros H. destruct (String.eqb_spec a b) as [->|]; [|reflexivity].
  rewrite string_compare_refl in H. discriminate.
Qed.

Lemma map_get_map_set (k : string) (v : value) (m : list (string * value)) :
  map_get k (map_set k v m) = Some v.
Proof.
  induction m as [|[k1 v1] m IH]; cbn [map_set map_get].
  - now rewrite String.eqb_refl.
  - destruct (String.compare k k1) eqn:E; cbn [map_get].
    + now rewrite String.eqb_refl.
    + now rewrite String.eqb_refl.
    + now rewrite (string_compare_gt_neq k k1 E).
Qed.

(** A later key does not remove an earlier one. *)
Lemma map_get_map_set_keeps (k k' : string) (v : value)
    (m : list (string * value)) :
  (exists x, map_get k m = Some x) ->
  exists x, map_get k (map_set k' v m) = Some x.
Proof.
  intros [x Hx]. destruct (String.eqb_spec k k') as [->|Hne].
  { rewrite map_get_map_set. eauto. }
  induction m as [|[k1 v1] m IH]; [discriminate|].
  cbn [map_set map_get] in *.
  destruct (String.compare k' k1) eqn:E; cbn [map_get].
  - apply String.compare_eq_iff in E. subst k1.
    destruct (String.eqb_spec k k'); [congruence|]. eauto.
  - destruct (String.eqb_spec k k'); [congruence|].
    destruct (String.eqb k k1); eauto.
  - destruct (String.eqb k k1); eauto.
Qed.

Lemma convert_members_keeps (ms : list (string * tree)) (k : string) :
  forall acc m,
    convert_members ms acc = Some m ->
    (exists x, map_get k acc = Some x) -> exists x, map_get k m = Some x.
Proof.
  induction ms as [|[k1 x1] ms IH]; intros acc m.
  - now intros [= <-].
  - cbn [convert_members]. destruct (convert x1) as [v1|]; [|discriminate].
    intros H Hk. apply (IH _ _ H). now apply map_get_map_set_keeps.
Qed.

(** An object that starts with a number member. *)
Lemma parse_object_first (k lit : string) (ts : list token) (t : tree) :
  parse (TLBrace :: TStr k :: TColon :: TNum lit :: TComma :: ts) = Some t ->
  exists ms, t = TrObj ((k, TrNum lit) :: ms).
Proof.
  unfold parse. cbn [List.length].
  set (fuel := List.length ts).
  change (parse_value (S (S (S (S (S (S fuel)))))) 0
            (TLBrace :: TStr k :: TColon :: TNum lit :: TComma :: ts))
    with (match
            match parse_members (S (S (S (S fuel)))) 1 ts with
            | Some (ms, r'') => Some ((k, TrNum lit) :: ms, r'')
            | None => None
            end
          with
          | Some (ms, r') => Some (TrObj ms, r')
          | None => None
          end).
  destruct (parse_members _ 1 ts) as [[ms [|]]|]; try discriminate.
  intros [= <-]. eauto.
Qed.

Lemma Query_text (children : list string) :
  Query children
  = compress (golit "{
    'size': 0,
    " ++ join children ++ "
  }").
Proof. unfold Query. sprintf_eval. reflexivity. Qed.

(* ----------------------------------------------------------------- *)
(** *** The text of each constructor

    What [fmt.Sprintf] makes of each template: the literal pieces of the
    template around the formatted operands. *)

Lemma Filter_text (filters : list string) (children : list string) :
  Filter filters children
  = golit "
			'filter': {
				'bool': {
					'filter': [
						"
    ++ join filters
    ++ golit "
					]
				}
			},
			"
    ++ join children
    ++ golit "
		".
Proof. unfold Filter. sprintf_eval. reflexivity. Qed.

Lemma Range_text (gte lte : string) :
  Range gte lte
  = golit "{
		'range': {
			'timestamp': {
				'gte': "
    ++ Quote gte
    ++ golit ",
				'lte': "
    ++ Quote lte
    ++ golit "
			}
		}
	}".
Proof. unfold Range. sprintf_eval. reflexivity. Qed.

Lemma Term_text (field value : string) :
  Term field value
  = golit "{
		'term': {
			"
    ++ Quote field
    ++ golit ": "
    ++ Quote value
    ++ golit "
		}
	}".
Proof. unfold Term. sprintf_eval. reflexivity. Qed.

Lemma Aggs_text (children : list string) :
  Aggs children
  = golit "
  'aggs': {
    "
    ++ join children
    ++ golit "
  }".
Proof. unfold Aggs. sprintf_eval. reflexivity. Qed.

Lemma Agg_text (name : string) (children : list string) :
  Agg name children
  = golit "
  "
    ++ Quote name
    ++ golit ": {
    "
    ++ join children
    ++ golit "
  }".
Proof. unfold Agg. sprintf_eval. reflexivity. Qed.

Lemma Terms_text (field : string) (size : Z) :
  Terms field size
  = golit "
    'terms': {
      'field': "
    ++ Quote field
    ++ golit ",
      'size': "
    ++ itoa size
    ++ golit "
    }
  ".
Proof. unfold Terms. sprintf_eval. reflexivity. Qed.

Lemma Sum_text (field : string) :
  Sum field
  = golit "
    'sum': {
      'field': "
    ++ Quote field
    ++ golit "
    }
  ".
Proof. unfold Sum. sprintf_eval. reflexivity. Qed.

Lemma Avg_text (field : string) :
  Avg field
  = golit "
    'avg': {
      'field': "
    ++ Quote field
    ++ golit "
    }
  ".
Proof. unfold Avg. sprintf_eval. reflexivity. Qed.

Lemma Min_text (field : string) :
  Min field
  = golit "
    'min': {
      'field': "
    ++ Quote field
    ++ golit "
    }
  ".
Proof. unfold Min. sprintf_eval. reflexivity. Qed.

Lemma Max_text (field : string) :
  Max field
  = golit "
    'max': {
      'field': "
    ++ Quote field
    ++ golit "
    }
  ".
Proof. unfold Max. sprintf_eval. reflexivity. Qed.

Lemma Stats_text (field : string) :
  Stats field
  = golit "
    'stats': {
      'field': "
    ++ Quote field
    ++ golit "
    }
  ".
Proof. unfold Stats. sprintf_eval. reflexivity. Qed.

Lemma DateHistogram_text (field : string) (options : list string) :
  DateHistogram field options
  = golit "
		'date_histogram': {
			'field': "
    ++ Quote field
    ++ golit ",
			"
    ++ join options
    ++ golit "
		}
	".
Proof. unfold DateHistogram. sprintf_eval. reflexivity. Qed.

Lemma Histogram_text (field : string) (options : list string) :
  Histogram field options
  = golit "
    'histogram': {
      'field': "
    ++ Quote field
    ++ golit ",
      "
    ++ join options
    ++ golit "
    }
  ".
Proof. unfold Histogram. sprintf_eval. reflexivity. Qed.

Lemma MinDocCount_text (n : Z) :
  MinDocCount n
  = golit "'min_doc_count': "
    ++ itoa n.
Proof. unfold MinDocCount. sprintf_eval. now rewrite append_nil_r. Qed.

Lemma Missing_text (n : Z) :
  Missing n
  = golit "'missing': "
    ++ itoa n.
Proof. unfold Missing. sprintf_eval. now rewrite append_nil_r. Qed.

Lemma ExtendedBounds_text (min max : Z) :
  ExtendedBounds min max
  = golit "'extended_bounds': {
    'min': "
    ++ itoa min
    ++ golit ",
    'max': "
    ++ itoa max
    ++ golit "
  }".
Proof. unfold ExtendedBounds. sprintf_eval. reflexivity. Qed.

Lemma Order_text (field : string) (dir : Direction) :
  Order field dir
  = golit "'order': {
    "
    ++ Quote field
    ++ golit ": "
    ++ Quote dir
    ++ golit "
  }".
Proof. unfold Order. sprintf_eval. reflexivity. Qed.

Lemma Percentiles_nil_text (field : string) :
  Percentiles field [] = Stats field.
Proof. unfold Percentiles, Stats. sprintf_eval. reflexivity. Qed.

Lemma TimeZone_text (now : Z) (s : list string) :
  TimeZone now s
  = golit "'time_zone': "
    ++ Quote match s with
             | [] => offset (Now now)
             | s0 :: _ =>
                 match LoadLocation s0 with
                 | Some loc => offset (Time_In (Now now) loc)
                 | None => s0
                 end
             end.
Proof.
  unfold TimeZone. destruct s as [|s0 r]; [|destruct (LoadLocation s0)];
    sprintf_eval; now rewrite append_nil_r.
Qed.

Lemma Interval_text (v : any) (s : string) :
  Interval v = Returns s ->
  s = golit "'interval': "
      ++ match v with VString x => Quote x | VInt n => itoa n | _ => "" end.
Proof.
  destruct v; try discriminate; unfold Interval; sprintf_eval;
    intros [= <-]; now rewrite append_nil_r.
Qed.

(* ----------------------------------------------------------------- *)
(** *** Scanning fragments *)

Lemma tokens_members_body (ms : list (string * tree)) :
  tokens_members ms = (body_tokens ms ++ [TRBrace])%list.
Proof.
  induction ms as [|[k x] r IH]; [reflexivity|].
  destruct r as [|kv r'].
  - cbn [tokens_members body_tokens]. now rewrite app_nil_r.
  - rewrite tokens_members_cons, IH.
    change (body_tokens ((k, x) :: kv :: r'))
      with (TStr k :: TColon
            :: tokens_of x ++ TComma :: body_tokens (kv :: r'))%list.
    cbn [app]. f_equal. f_equal. now rewrite <- app_assoc.
Qed.

Lemma tokens_elements_items (l : list tree) :
  tokens_elements l = (item_tokens l ++ [TRBracket])%list.
Proof.
  induction l as [|x r IH]; [reflexivity|].
  destruct r as [|y r'].
  - cbn [tokens_elements item_tokens]. now rewrite app_nil_r.
  - rewrite tokens_elements_cons, IH.
    change (item_tokens (x :: y :: r'))
      with (tokens_of x ++ TComma :: item_tokens (y :: r'))%list.
    now rewrite <- app_assoc.
Qed.

Lemma body_tokens_app (a b : list (string * tree)) :
  a <> [] -> b <> [] ->
  body_tokens (a ++ b) = (body_tokens a ++ TComma :: body_tokens b)%list.
Proof.
  intros Ha Hb. induction a as [|[k x] r IH]; [congruence|].
  destruct r as [|kv r'].
  - destruct b as [|kv b']; [congruence|].
    cbn [app body_tokens]. rewrite app_nil_r. reflexivity.
  - change (body_tokens (((k, x) :: kv :: r') ++ b))
      with (TStr k :: TColon
            :: tokens_of x ++ TComma :: body_tokens ((kv :: r') ++ b))%list.
    rewrite IH by discriminate.
    change (body_tokens ((k, x) :: kv :: r'))
      with (TStr k :: TColon
            :: tokens_of x ++ TComma :: body_tokens (kv :: r'))%list.
    cbn [app]. f_equal. f_equal. now rewrite <- app_assoc.
Qed.

Lemma body_tokens_nonempty (ms : list (string * tree)) :
  ms <> [] -> body_tokens ms <> [].
Proof. destruct ms as [|[k x] r]; [congruence|discriminate]. Qed.

Lemma tokens_of_nonempty (t : tree) : tokens_of t <> [].
Proof. destruct (tokens_of_head t) as (tk & r & -> & _). discriminate. Qed.

Lemma scans_nil : scans "" [].
Proof. intros tail _. cbn [append]. now rewrite prepend_nil. Qed.

(** Only the empty list of tokens is scanned in the empty text. *)
Lemma scans_empty (ts : list token) : scans "" ts -> ts = [].
Proof.
  intros H. specialize (H " " eq_refl). cbn in H.
  injection H as H. destruct ts; [reflexivity|discriminate].
Qed.

Lemma lex_run_space (c : ascii) (tail : string) :
  is_space c = true -> lex_run LStart (String c tail) = lex_run LStart tail.
Proof.
  intros H. rewrite lex_run_cons. change (lstep LStart c) with (lstart c).
  unfold lstart. rewrite H. apply prepend_nil.
Qed.

(** A literal piece of a template that leaves the scanner between two
    tokens. *)
Lemma lex_run_literal (lit : string) (ts : list token) (rest : string) :
  lex_run LStart lit = Some (ts, LStart) ->
  lex_run LStart (lit ++ rest) = prepend ts (lex_run LStart rest).
Proof. intros H. now rewrite lex_run_app, H. Qed.

Lemma plain_str_run (s : string) : plain s = true -> str_run SIn s = Some SIn.
Proof.
  induction s as [|c s IH]; [reflexivity|]. cbn [plain str_run].
  intros H. apply andb_true_iff in H as [Hc Hs].
  pose proof (plain_byte_range c Hc) as (Hr & Hq & Hb).
  unfold str_next.
  replace (Ascii.eqb c dquote) with false.
  2: { symmetry. apply Ascii.eqb_neq. intros ->. now apply Hq. }
  replace (Ascii.eqb c "\") with false.
  2: { symmetry. apply Ascii.eqb_neq. intros ->. now apply Hb. }
  replace (byte_val c <? 32) with false by (symmetry; apply Z.ltb_ge; lia).
  now apply IH.
Qed.

(** What [%q] writes for a plain string is one string token. *)
Lemma lex_run_quote (s tail : string) :
  plain s = true ->
  lex_run LStart (Quote s ++ tail) = prepend [TStr s] (lex_run LStart tail).
Proof.
  intros H. rewrite (Quote_plain s H). cbn [append]. rewrite append_assoc.
  cbn [append]. now rewrite lex_run_string by now apply plain_str_run.
Qed.

(* ----------------------------------------------------------------- *)
(** *** Quote on quotable strings *)

Lemma quote_body_drop (k : nat) (s : string) :
  quote_body k s = quote_body 0 (drop k s).
Proof.
  revert k. induction s as [|c r IH]; intros k.
  - now rewrite drop_nil.
  - destruct k; [reflexivity|]. simpl. apply IH.
Qed.

Lemma quotable_from_drop (k : nat) (s : string) :
  quotable_from k s = quotable_from 0 (drop k s).
Proof.
  revert k. induction s as [|c r IH]; intros k.
  - now rewrite drop_nil.
  - destruct k; [reflexivity|]. simpl. apply IH.
Qed.

(** The loops of [Quote] and of [quotable] at an ASCII byte, at a
    multi-byte rune and at an invalid byte. *)
Lemma quote_body_ascii (c : ascii) (s : string) :
  byte_val c < 128 ->
  quote_body 0 (String c s) = appendEscapedRune (byte_val c) ++ quote_body 0 s.
Proof.
  intros H. cbn [quote_body]. rewrite (Decode_ascii c s H).
  replace (byte_val c =? RuneError) with false
    by (symmetry; apply Z.eqb_neq; unfold RuneError; lia).
  rewrite andb_false_r. reflexivity.
Qed.

Lemma quotable_ascii (c : ascii) (s : string) :
  byte_val c < 128 ->
  quotable (String c s) = quotable_rune (byte_val c) && quotable s.
Proof.
  intros H. unfold quotable. cbn [quotable_from]. rewrite (Decode_ascii c s H).
  replace (byte_val c =? RuneError) with false
    by (symmetry; apply Z.eqb_neq; unfold RuneError; lia).
  rewrite andb_false_r. reflexivity.
Qed.

Lemma quote_body_rune (c : ascii) (s : string) (rr : rune) (n : nat) :
  rune_at (String c s) rr n ->
  quote_body 0 (String c s)
  = appendEscapedRune rr ++ quote_body 0 (drop (n - 1) s).
Proof.
  intros H. pose proof (rune_at_length _ _ _ H) as (Hn & _ & _).
  cbn [quote_body]. rewrite (rune_at_Decode _ _ _ H).
  replace (Nat.eqb n 1) with false by (symmetry; apply Nat.eqb_neq; lia).
  cbn [andb]. now rewrite quote_body_drop.
Qed.

Lemma quotable_rune_at (c : ascii) (s : string) (rr : rune) (n : nat) :
  rune_at (String c s) rr n ->
  quotable (String c s) = quotable_rune rr && quotable (drop (n - 1) s).
Proof.
  intros H. pose proof (rune_at_length _ _ _ H) as (Hn & _ & _).
  unfold quotable. cbn [quotable_from]. rewrite (rune_at_Decode _ _ _ H).
  replace (Nat.eqb n 1) with false by (symmetry; apply Nat.eqb_neq; lia).
  cbn [andb negb]. now rewrite quotable_from_drop.
Qed.

Lemma quote_body_invalid (c : ascii) (s : string) :
  DecodeRuneInString (String c s) = (RuneError, 1%nat) ->
  quote_body 0 (String c s) = "\x" ++ hex2 (byte_val c) ++ quote_body 0 s.
Proof. intros H. cbn [quote_body]. rewrite H. reflexivity. Qed.

Lemma quotable_invalid (c : ascii) (s : string) :
  DecodeRuneInString (String c s) = (RuneError, 1%nat) ->
  quotable (String c s) = false.
Proof. intros H. unfold quotable. cbn [quotable_from]. now rewrite H. Qed.

(** An ASCII byte that is quotable: what [%q] writes stays inside the
    string and stands for the byte. *)
Lemma quote_ascii_reads (c : ascii) :
  (byte_val c <? 128) = true -> quotable_rune (byte_val c) = true ->
  str_run SIn (appendEscapedRune (byte_val c)) = Some SIn
  /\ forall rest,
      unquote_from 0 (appendEscapedRune (byte_val c) ++ rest)
      = String c (unquote_from 0 rest).
Proof.
  intros H1 H2.
  destruct c as [[] [] [] [] [] [] [] []];
    try discriminate H1; try discriminate H2;
    (split; [reflexivity|intros rest; reflexivity]).
Qed.

(** The hexadecimal digits that [%q] writes. *)
Lemma hex_char_reads (d : Z) :
  0 <= d < 16 -> is_hex (hex_char d) = true /\ hex_val (hex_char d) = d.
Proof.
  intros H.
  assert (d = 0 \/ d = 1 \/ d = 2 \/ d = 3 \/ d = 4 \/ d = 5 \/ d = 6
          \/ d = 7 \/ d = 8 \/ d = 9 \/ d = 10 \/ d = 11 \/ d = 12
          \/ d = 13 \/ d = 14 \/ d = 15) as E by lia.
  repeat (destruct E as [->|E]; [split; reflexivity|]).
  subst d. split; reflexivity.
Qed.

Lemma hex4_reads (r : rune) (rest : string) :
  0 <= r < 65536 ->
  str_run (SU 0) (hex4 r) = Some SIn /\ getu4 (hex4 r ++ rest) = r.
Proof.
  intros H. unfold hex4.
  rewrite !Z.shiftr_div_pow2 by lia.
  change 15 with (Z.ones 4). rewrite !Z.land_ones by lia.
  change (2 ^ 12) with 4096. change (2 ^ 8) with 256.
  change (2 ^ 4) with 16.
  set (a := (r / 4096) mod 16). set (b := (r / 256) mod 16).
  set (c := (r / 16) mod 16). set (d := r mod 16).
  assert (0 <= a < 16) as Ha by (apply Z.mod_pos_bound; lia).
  assert (0 <= b < 16) as Hb by (apply Z.mod_pos_bound; lia).
  assert (0 <= c < 16) as Hc by (apply Z.mod_pos_bound; lia).
  assert (0 <= d < 16) as Hd by (apply Z.mod_pos_bound; lia).
  destruct (hex_char_reads a Ha) as [Xa Va].
  destruct (hex_char_reads b Hb) as [Xb Vb].
  destruct (hex_char_reads c Hc) as [Xc Vc].
  destruct (hex_char_reads d Hd) as [Xd Vd].
  split.
  - repeat (cbn [str_run str_next Nat.eqb];
            first [rewrite Xa | rewrite Xb | rewrite Xc | rewrite Xd]).
    reflexivity.
  - cbn [append getu4]. rewrite Xa, Xb, Xc, Xd, Va, Vb, Vc, Vd.
    cbn [andb]. subst a b c d.
    pose proof (Z.div_mod r 16 ltac:(lia)).
    pose proof (Z.div_mod (r / 16) 16 ltac:(lia)).
    pose proof (Z.div_mod (r / 256) 16 ltac:(lia)).
    assert (r / 256 = r / 16 / 16) as E1
      by (rewrite Z.div_div by lia; reflexivity).
    assert (r / 4096 = r / 256 / 16) as E2
      by (rewrite Z.div_div by lia; reflexivity).
    assert (r / 4096 < 16) by (apply Z.div_lt_upper_bound; lia).
    assert (0 <= r / 4096) by (apply Z.div_pos; lia).
    rewrite (Z.mod_small (r / 4096) 16) by lia. lia.
Qed.

(** Unquoting passes over a multi-byte rune. *)
Lemma unquote_rune_at (s : string) (rr : rune) (n : nat) (rest : string) :
  rune_at s rr n ->
  unquote_from 0 (take n s ++ rest) = take n s ++ unquote_from 0 rest.
Proof.
  intros H. pose proof (rune_at_length _ _ _ H) as (Hn & Hl & _).
  pose proof (rune_at_Encode _ _ _ H) as HE.
  destruct s as [|c r]; [inversion H|].
  assert (128 <= byte_val c) as Hc by (inversion H; lia).
  rewrite take_cons in * by lia. cbn [append].
  rewrite unquote_from_step, unquote_step_high by (apply Z.ltb_ge; lia).
  assert (rune_at (String c (take (n - 1) r ++ rest)) rr n) as H'.
  { pose proof (rune_at_prefix _ _ _ rest H) as G.
    rewrite take_cons in G by lia. exact G. }
  rewrite (rune_at_Decode _ _ _ H'). cbn [fst snd]. rewrite HE.
  cbn [append]. do 2 f_equal.
  assert (String.length (take (n - 1) r) = (n - 1)%nat) as Hl'
    by (simpl in Hl; lia).
  rewrite <- Hl' at 1. now rewrite drop_app_length.
Qed.

(** A multi-byte rune that is quotable: [%q] copies it, or writes it
    as [\uXXXX]; either way the text stays inside the string and
    stands for the bytes of the rune. *)
Lemma quote_rune_reads (s : string) (rr : rune) (n : nat) :
  rune_at s rr n -> quotable_rune rr = true ->
  str_run SIn (appendEscapedRune rr) = Some SIn
  /\ forall rest,
      unquote_from 0 (appendEscapedRune rr ++ rest)
      = take n s ++ unquote_from 0 rest.
Proof.
  intros H Hq. pose proof (rune_at_valid _ _ _ H) as [[Hlo Hhi] Hs].
  pose proof (rune_at_Encode _ _ _ H) as HE. unfold MaxRune in Hhi.
  unfold appendEscapedRune.
  replace (rr =? 34) with false by (symmetry; apply Z.eqb_neq; lia).
  replace (rr =? 92) with false by (symmetry; apply Z.eqb_neq; lia).
  cbn [orb]. destruct (IsPrint rr) eqn:Ep.
  { rewrite HE. split; [now apply (rune_at_str_run _ rr)|].
    intros rest. now apply (unquote_rune_at _ rr). }
  unfold quotable_rune in Hq. rewrite Ep in Hq.
  replace (rr =? 7) with false by (symmetry; apply Z.eqb_neq; lia).
  replace (rr =? 8) with false in * by (symmetry; apply Z.eqb_neq; lia).
  replace (rr =? 12) with false in * by (symmetry; apply Z.eqb_neq; lia).
  replace (rr =? 10) with false in * by (symmetry; apply Z.eqb_neq; lia).
  replace (rr =? 13) with false in * by (symmetry; apply Z.eqb_neq; lia).
  replace (rr =? 9) with false in * by (symmetry; apply Z.eqb_neq; lia).
  replace (rr =? 11) with false by (symmetry; apply Z.eqb_neq; lia).
  replace (rr <? 32) with false by (symmetry; apply Z.ltb_ge; lia).
  replace (rr =? 127) with false by (symmetry; apply Z.eqb_neq; lia).
  replace (rr <? 0) with false by (symmetry; apply Z.ltb_ge; lia).
  replace (MaxRune <? rr) with false
    by (symmetry; apply Z.ltb_ge; unfold MaxRune; lia).
  rewrite Hs. cbn [orb] in *. apply in_range_spec in Hq.
  replace (rr <? 65536) with true by (symmetry; apply Z.ltb_lt; lia).
  split.
  - cbn [append str_run str_next is_simple_escape Ascii.eqb Bool.eqb orb].
    apply (hex4_reads rr ""). lia.
  - intros rest. cbn [append]. rewrite unquote_from_step.
    assert (unquote_step (String "\" (String "u" (hex4 rr ++ rest)))
            = (EncodeRune rr, 6%nat)) as ->.
    { cbn [unquote_step].
      rewrite (proj2 (hex4_reads rr rest ltac:(lia))). now rewrite Hs. }
    cbn [fst snd Nat.sub]. rewrite HE. f_equal.
Qed.

(** What [%q] writes for a quotable string is accepted by the scanner
    inside a string, and unquoting it gives the string back. *)
Lemma quotable_reads (s : string) :
  quotable s = true ->
  str_run SIn (quote_body 0 s) = Some SIn /\ unquote (quote_body 0 s) = s.
Proof.
  unfold unquote.
  induction s as [s IH] using string_length_induction.
  destruct s as [|c r]; [split; reflexivity|]. intros Hq.
  destruct (first_rune c r) as [[L HD]|[[G (rr & n & HD & H)]|[G HD]]].
  - rewrite quotable_ascii in Hq by assumption.
    apply andb_true_iff in Hq as [Q1 Q2].
    destruct (quote_ascii_reads c) as [E1 E2];
      [now apply Z.ltb_lt|assumption|].
    destruct (IH r) as [I1 I2]; [cbn [String.length]; lia|assumption|].
    rewrite quote_body_ascii by assumption.
    split; [now rewrite str_run_app, E1|].
    now rewrite E2, I2.
  - rewrite (quotable_rune_at c r rr n H) in Hq.
    apply andb_true_iff in Hq as [Q1 Q2].
    destruct (quote_rune_reads _ rr n H Q1) as [E1 E2].
    pose proof (rune_at_length _ _ _ H) as (Hn & _ & Hs).
    destruct (IH (drop (n - 1) r)) as [I1 I2]; [|assumption|].
    { pose proof (drop_length (n - 1) r). cbn [String.length]. lia. }
    rewrite (quote_body_rune c r rr n H).
    split; [now rewrite str_run_app, E1|].
    rewrite E2, I2. rewrite Hs at 2. f_equal.
    destruct n; [lia|]. simpl. now rewrite Nat.sub_0_r.
  - now rewrite quotable_invalid in Hq.
Qed.

(** What [%q] writes for a quotable string is one string token. *)
Lemma lex_run_quoted (s tail : string) :
  quotable s = true ->
  lex_run LStart (Quote s ++ tail)
  = prepend [TStr (quote_body 0 s)] (lex_run LStart tail).
Proof.
  intros H. unfold Quote. cbn [append]. rewrite append_assoc.
  cbn [append].
  now rewrite lex_run_string by now apply quotable_reads.
Qed.

Lemma unquote_quoted (s : string) :
  quotable s = true -> unquote (quote_body 0 s) = s.
Proof. intros H. now apply quotable_reads. Qed.

Lemma plain_quotable (s : string) : plain s = true -> quotable s = true.
Proof.
  induction s as [|c s IH]; [reflexivity|]. cbn [plain].
  intros H. apply andb_true_iff in H as [Hc Hs].
  pose proof (plain_byte_range c Hc) as (Hr & _ & _).
  rewrite quotable_ascii by lia. rewrite (IH Hs), andb_true_r.
  unfold quotable_rune, IsPrint, in_range.
  replace (byte_val c <=? 255) with true by (symmetry; apply Z.leb_le; lia).
  replace (32 <=? byte_val c) with true by (symmetry; apply Z.leb_le; lia).
  replace (byte_val c <=? 126) with true by (symmetry; apply Z.leb_le; lia).
  reflexivity.
Qed.

(* ----------------------------------------------------------------- *)
(** *** Quote on the other strings *)

Lemma lstep_backslash (acc : string) :
  lstep (LStr SIn acc) "\" = Some ([], LStr SEsc (snoc acc "\")).
Proof. reflexivity. Qed.

Lemma lstep_not_escape (acc : string) (e : ascii) :
  str_next SEsc e = None -> lstep (LStr SEsc acc) e = None.
Proof.
  cbn [lstep str_next]. destruct (is_simple_escape e); [discriminate|].
  destruct (Ascii.eqb e "u"); [discriminate|reflexivity].
Qed.

(** The scanner stops at a backslash followed by a byte that is no
    escape of JSON. *)
Lemma lex_run_bad_escape (acc : string) (e : ascii) (rest : string) :
  str_next SEsc e = None ->
  lex_run (LStr SIn acc) (String "\" (String e rest)) = None.
Proof.
  intros H. rewrite lex_run_cons, lstep_backslash, prepend_nil.
  now rewrite lex_run_cons, (lstep_not_escape _ e H).
Qed.

(** An ASCII byte that is not quotable is written with such an
    escape. *)
Lemma quote_ascii_refused (c : ascii) :
  (byte_val c <? 128) = true -> quotable_rune (byte_val c) = false ->
  exists e rest,
    appendEscapedRune (byte_val c) = String "\" (String e rest)
    /\ str_next SEsc e = None.
Proof.
  intros H1 H2.
  destruct c as [[] [] [] [] [] [] [] []];
    try discriminate H1; try discriminate H2;
    eexists _, _; split; reflexivity.
Qed.

(** So is a multi-byte rune that is not quotable. *)
Lemma quote_rune_refused (s : string) (rr : rune) (n : nat) :
  rune_at s rr n -> quotable_rune rr = false ->
  exists rest,
    appendEscapedRune rr = String "\" (String "U" rest).
Proof.
  intros H Hq. pose proof (rune_at_valid _ _ _ H) as [[Hlo Hhi] Hs].
  unfold MaxRune in Hhi. unfold quotable_rune in Hq.
  apply orb_false_iff in Hq as [Hq Hr].
  repeat (apply orb_false_iff in Hq as [Hq _]).
  apply in_range_false in Hr.
  unfold appendEscapedRune.
  replace (rr =? 34) with false by (symmetry; apply Z.eqb_neq; lia).
  replace (rr =? 92) with false by (symmetry; apply Z.eqb_neq; lia).
  cbn [orb]. rewrite Hq.
  replace (rr =? 7) with false by (symmetry; apply Z.eqb_neq; lia).
  replace (rr =? 8) with false by (symmetry; apply Z.eqb_neq; lia).
  replace (rr =? 12) with false by (symmetry; apply Z.eqb_neq; lia).
  replace (rr =? 10) with false by (symmetry; apply Z.eqb_neq; lia).
  replace (rr =? 13) with false by (symmetry; apply Z.eqb_neq; lia).
  replace (rr =? 9) with false by (symmetry; apply Z.eqb_neq; lia).
  replace (rr =? 11) with false by (symmetry; apply Z.eqb_neq; lia).
  replace (rr <? 32) with false by (symmetry; apply Z.ltb_ge; lia).
  replace (rr =? 127) with false by (symmetry; apply Z.eqb_neq; lia).
  replace (rr <? 0) with false by (symmetry; apply Z.ltb_ge; lia).
  replace (MaxRune <? rr) with false
    by (symmetry; apply Z.ltb_ge; unfold MaxRune; lia).
  rewrite Hs. cbn [orb].
  replace (rr <? 65536) with false by (symmetry; apply Z.ltb_ge; lia).
  eexists. reflexivity.
Qed.

(** The scanner stops inside what [%q] writes for a string that is
    not quotable. *)
Lemma quote_refused (s : string) :
  quotable s = false ->
  forall acc tail,
    lex_run (LStr SIn acc) (quote_body 0 s ++ String dquote tail) = None.
Proof.
  induction s as [s IH] using string_length_induction.
  destruct s as [|c r]; [discriminate|]. intros Hq acc tail.
  destruct (first_rune c r) as [[L HD]|[[G (rr & n & HD & H)]|[G HD]]].
  - rewrite quotable_ascii in Hq by assumption.
    rewrite quote_body_ascii by assumption. rewrite append_assoc.
    destruct (quotable_rune (byte_val c)) eqn:Q1.
    + destruct (quote_ascii_reads c) as [E1 _];
        [now apply Z.ltb_lt|assumption|].
      rewrite (lex_run_str _ _ _ acc _ E1).
      apply IH; [cbn [String.length]; lia|exact Hq].
    + destruct (quote_ascii_refused c) as (e & rest & -> & He);
        [now apply Z.ltb_lt|assumption|].
      cbn [append]. now apply lex_run_bad_escape.
  - rewrite (quotable_rune_at c r rr n H) in Hq.
    rewrite (quote_body_rune c r rr n H), append_assoc.
    destruct (quotable_rune rr) eqn:Q1.
    + destruct (quote_rune_reads _ rr n H Q1) as [E1 _].
      rewrite (lex_run_str _ _ _ acc _ E1).
      apply IH; [|exact Hq].
      pose proof (rune_at_length _ _ _ H) as (Hn & _ & _).
      pose proof (drop_length (n - 1) r). cbn [String.length]. lia.
    + destruct (quote_rune_refused _ rr n H Q1) as (rest & ->).
      cbn [append]. now apply lex_run_bad_escape.
  - rewrite (quote_body_invalid c r HD). cbn [append].
    now apply lex_run_bad_escape.
Qed.

Lemma lex_run_quote_refused_any (s tail : string) :
  quotable s = false -> lex_run LStart (Quote s ++ tail) = None.
Proof.
  intros H. unfold Quote. cbn [append]. rewrite append_assoc.
  cbn [append]. rewrite lex_run_cons.
  change (lstep LStart dquote) with (Some (@nil token, LStr SIn "")).
  cbv beta iota. now rewrite prepend_nil, quote_refused.
Qed.

Lemma scans_of_lex (s : string) (ts : list token) :
  lex s = Some ts -> scans s ts.
Proof.
  intros H [|c b] Hd; [discriminate|].
  apply lex_run_value_delimiter; [assumption|].
  now apply negb_true_iff in Hd.
Qed.

Lemma number_syntax_utoa (n : Z) : 0 <= n -> number_syntax (utoa n) = true.
Proof.
  intros Hn. destruct (Z.eq_dec n 0) as [->|Hz]; [reflexivity|].
  destruct (utoa_val n Hn) as (Hne & Hd & _ & Hl).
  specialize (Hl ltac:(lia)).
  destruct (digit_head _ Hne Hd) as (c & r & E & Hc). rewrite E in *.
  cbn [leading_nonzero all_digits] in Hl, Hd. apply negb_true_iff in Hl.
  rewrite Hc in Hd. cbn [andb] in Hd.
  rewrite number_syntax_nonzero by assumption.
  now rewrite (num_run_digits N1) by auto.
Qed.

Lemma number_syntax_itoa (n : Z) : number_syntax (itoa n) = true.
Proof.
  unfold itoa. destruct (Z.ltb_spec n 0) as [L|G].
  - destruct (utoa_val (- n) ltac:(lia)) as (Hne & Hd & _ & _).
    destruct (digit_head _ Hne Hd) as (c & r & E & Hc).
    pose proof (number_syntax_utoa (- n) ltac:(lia)) as K.
    rewrite E in *.
    change (String "-" (String c r)) with (sign_text true ++ String c r).
    now rewrite number_syntax_signed.
  - now apply number_syntax_utoa.
Qed.

(** What [%d] writes is one number token. *)
Lemma scans_itoa (n : Z) : scans (itoa n) [TNum (itoa n)].
Proof. apply scans_of_lex, lex_number, number_syntax_itoa. Qed.

(** The steps of scanning the text of a constructor: an operand written
    by [%q], one written by [%d], joined children, a literal piece. *)
Ltac scan_piece :=
  first
    [ rewrite lex_run_quote by assumption
    | rewrite lex_run_quoted by assumption
    | rewrite (scans_itoa _ _) by (first [reflexivity | assumption])
    | match goal with
      | H : scans ?s _ |- context [lex_run LStart (?s ++ ?tail)] =>
          rewrite (H tail) by (first [reflexivity | assumption])
      end
    | erewrite lex_run_literal by (vm_compute; reflexivity) ].

Ltac scan_text := rewrite ?append_assoc; repeat scan_piece;
                  rewrite <- ?prepend_app.

Lemma Sum_scans (field : string) :
  plain field = true ->
  scans (Sum field) (body_tokens [("sum", TrObj [("field", TrStr field)])]).
Proof.
  intros Hf tail Ht. rewrite Sum_text. scan_text. reflexivity.
Qed.

Lemma Avg_scans (field : string) :
  plain field = true ->
  scans (Avg field) (body_tokens [("avg", TrObj [("field", TrStr field)])]).
Proof.
  intros Hf tail Ht. rewrite Avg_text. scan_text. reflexivity.
Qed.

Lemma Min_scans (field : string) :
  plain field = true ->
  scans (Min field) (body_tokens [("min", TrObj [("field", TrStr field)])]).
Proof.
  intros Hf tail Ht. rewrite Min_text. scan_text. reflexivity.
Qed.

Lemma Max_scans (field : string) :
  plain field = true ->
  scans (Max field) (body_tokens [("max", TrObj [("field", TrStr field)])]).
Proof.
  intros Hf tail Ht. rewrite Max_text. scan_text. reflexivity.
Qed.

Lemma Stats_scans (field : string) :
  plain field = true ->
  scans (Stats field) (body_tokens [("stats", TrObj [("field", TrStr field)])]).
Proof.
  intros Hf tail Ht. rewrite Stats_text. scan_text. reflexivity.
Qed.

Lemma Terms_scans (field : string) (size : Z) :
  plain field = true ->
  scans (Terms field size)
    (body_tokens
       [("terms", TrObj [("field", TrStr field);
                         ("size", TrNum (itoa size))])]).
Proof.
  intros Hf tail Ht. rewrite Terms_text. scan_text. reflexivity.
Qed.

Lemma MinDocCount_scans (n : Z) :
  scans (MinDocCount n) (body_tokens [("min_doc_count", TrNum (itoa n))]).
Proof.
  intros tail Ht. rewrite MinDocCount_text. scan_text. reflexivity.
Qed.

Lemma Missing_scans (n : Z) :
  scans (Missing n) (body_tokens [("missing", TrNum (itoa n))]).
Proof.
  intros tail Ht. rewrite Missing_text. scan_text. reflexivity.
Qed.

Lemma ExtendedBounds_scans (min max : Z) :
  scans (ExtendedBounds min max)
    (body_tokens
       [("extended_bounds", TrObj [("min", TrNum (itoa min));
                                   ("max", TrNum (itoa max))])]).
Proof.
  intros tail Ht. rewrite ExtendedBounds_text. scan_text. reflexivity.
Qed.

Lemma Order_scans (field : string) (dir : Direction) :
  plain field = true -> plain dir = true ->
  scans (Order field dir) (body_tokens [("order", TrObj [(field, TrStr dir)])]).
Proof.
  intros Hf Hd tail Ht. rewrite Order_text. scan_text. reflexivity.
Qed.

Lemma Range_scans (gte lte : string) :
  plain gte = true -> plain lte = true ->
  scans (Range gte lte)
    (tokens_of
       (TrObj [("range",
                TrObj [("timestamp",
                        TrObj [("gte", TrStr gte); ("lte", TrStr lte)])])])).
Proof.
  intros Hg Hl tail Ht. rewrite Range_text. scan_text. reflexivity.
Qed.

Lemma Term_scans (field value : string) :
  plain field = true -> plain value = true ->
  scans (Term field value)
    (tokens_of (TrObj [("term", TrObj [(field, TrStr value)])])).
Proof.
  intros Hf Hv tail Ht. rewrite Term_text. scan_text. reflexivity.
Qed.

Lemma all_digits_plain (s : string) : all_digits s = true -> plain s = true.
Proof.
  induction s as [|c s IH]; [reflexivity|]. cbn [all_digits plain].
  intros H. apply andb_true_iff in H as [Hc Hs]. rewrite (IH Hs), andb_true_r.
  unfold is_digit in Hc. apply andb_true_iff in Hc as [Hlo Hhi].
  apply Z.leb_le in Hlo, Hhi. unfold plain_byte, in_range.
  replace (32 <=? byte_val c) with true by (symmetry; apply Z.leb_le; lia).
  replace (byte_val c <=? 126) with true by (symmetry; apply Z.leb_le; lia).
  replace (byte_val c =? 34) with false by (symmetry; apply Z.eqb_neq; lia).
  replace (byte_val c =? 92) with false by (symmetry; apply Z.eqb_neq; lia).
  reflexivity.
Qed.

Lemma plain_app (a b : string) : plain (a ++ b) = plain a && plain b.
Proof.
  induction a as [|c a IH]; [reflexivity|]. cbn [append plain].
  now rewrite IH, andb_assoc.
Qed.

Lemma pad2_plain (n : Z) : 0 <= n -> plain (pad2 n) = true.
Proof.
  intros Hn. apply all_digits_plain. unfold pad2, pad_left0.
  rewrite all_digits_app, all_digits_zeros.
  now destruct (utoa_digits n Hn) as [_ ->].
Qed.

(** The layout [-07:00] gives a sign, digits and a colon. *)
Lemma offset_plain (t : Time) : plain (offset t) = true.
Proof.
  unfold offset, Format_offset.
  set (zone := Z.quot (location t (unix t)) 60).
  assert (0 <= Z.quot (Z.abs zone) 60) as Hh by (apply Z.quot_pos; lia).
  assert (0 <= Z.rem (Z.abs zone) 60) as Hm by (apply Z.rem_nonneg; lia).
  cbn [plain]. rewrite !plain_app, (pad2_plain _ Hh), (pad2_plain _ Hm).
  destruct (zone <? 0); reflexivity.
Qed.

Lemma TimeZone_scans (now : Z) (s : list string) :
  (forall s0 r, s = s0 :: r -> LoadLocation s0 = None -> plain s0 = true) ->
  scans (TimeZone now s)
    (body_tokens
       [("time_zone",
         TrStr match s with
               | [] => offset (Now now)
               | s0 :: _ =>
                   match LoadLocation s0 with
                   | Some loc => offset (Time_In (Now now) loc)
                   | None => s0
                   end
               end)]).
Proof.
  intros Hs tail Ht. rewrite TimeZone_text.
  match goal with |- context [Quote ?z] => assert (plain z = true) as Hz end.
  { destruct s as [|s0 r]; [apply offset_plain|].
    specialize (Hs s0 r eq_refl).
    destruct (LoadLocation s0); [apply offset_plain|now apply Hs]. }
  scan_text. reflexivity.
Qed.

Lemma Interval_scans (v : any) (s : string) :
  Interval v = Returns s ->
  (forall x, v = VString x -> plain x = true) ->
  scans s
    (body_tokens
       [("interval",
         match v with
         | VString x => TrStr x
         | VInt n => TrNum (itoa n)
         | _ => TrNull
         end)]).
Proof.
  intros Hv Hp tail Ht. rewrite (Interval_text v s Hv).
  destruct v; try discriminate.
  - specialize (Hp _ eq_refl). scan_text. reflexivity.
  - scan_text. reflexivity.
Qed.

Lemma number_syntax_fixed (neg : bool) (n : Z) :
  0 <= n -> number_syntax (format_fixed 2 neg n) = true.
Proof.
  intros Hn. unfold format_fixed. change (10 ^ Z.of_nat 2) with 100.
  change (if neg then "-" else "") with (sign_text neg).
  destruct (pad2_digits (n mod 100)) as [Fd Fl];
    [apply Z.mod_pos_bound; lia|].
  assert (pad_left0 2 (utoa (n mod 100)) <> "") as Fne
    by (intros E; rewrite E in Fl; discriminate).
  assert (0 <= n / 100) as Hq by (apply Z.div_pos; lia).
  destruct (Z.eq_dec (n / 100) 0) as [->|Hz].
  - change (utoa 0) with "0". cbn [append].
    rewrite number_syntax_signed by reflexivity.
    cbn [number_syntax Ascii.eqb Bool.eqb].
    now rewrite (num_run_fraction N0) by auto.
  - destruct (utoa_val (n / 100) Hq) as (Hne & Hd & _ & Hl).
    specialize (Hl ltac:(lia)).
    destruct (digit_head _ Hne Hd) as (c & r & E & Hc). rewrite E in *.
    cbn [leading_nonzero all_digits] in Hl, Hd. apply negb_true_iff in Hl.
    rewrite Hc in Hd. cbn [andb] in Hd. cbn [append].
    rewrite number_syntax_signed, number_syntax_nonzero by assumption.
    rewrite num_run_app, (num_run_digits N1) by auto.
    now rewrite (num_run_fraction N1) by auto.
Qed.

Lemma number_syntax_fmt_f (f : float64) :
  is_finite f = true -> number_syntax (fmt_f 2 f) = true.
Proof.
  destruct f as [s|s| |s m e]; try discriminate; intros _; cbn [fmt_f].
  - apply number_syntax_fixed. lia.
  - apply number_syntax_fixed, scaled_round_nonneg.
Qed.

(** What [joinFloats] writes for finite numbers is a list of number
    tokens. *)
Lemma joinFloats_scans (p : float64) (ps : list float64) :
  forallb is_finite (p :: ps) = true ->
  scans (joinFloats (p :: ps))
    (item_tokens (map (fun x => TrNum (fmt_f 2 x)) (p :: ps))).
Proof.
  rewrite joinFloats_map. revert p.
  induction ps as [|q ps IH]; intros p Hf tail Ht;
    cbn [forallb] in Hf; apply andb_true_iff in Hf as [Hp Hps].
  - cbn [map strings_Join item_tokens tokens_of app].
    apply scans_of_lex; [|assumption].
    now apply lex_number, number_syntax_fmt_f.
  - cbn [map]. rewrite strings_Join_cons, !append_assoc.
    rewrite (scans_of_lex (fmt_f 2 p) [TNum (fmt_f 2 p)]);
      [|now apply lex_number, number_syntax_fmt_f|reflexivity].
    erewrite lex_run_literal by (vm_compute; reflexivity).
    specialize (IH q Hps tail Ht). cbn [map] in IH. rewrite IH.
    now rewrite <- !prepend_app.
Qed.

Lemma Percentiles_scans (field : string) (p : float64) (ps : list float64) :
  plain field = true -> forallb is_finite (p :: ps) = true ->
  scans (Percentiles field (p :: ps))
    (body_tokens
       [("stats",
         TrObj [("field", TrStr field);
                ("percents",
                 TrArr (map (fun x => TrNum (fmt_f 2 x)) (p :: ps)))])]).
Proof.
  intros Hf Hp tail Ht. rewrite Percentiles_cons_text.
  pose proof (joinFloats_scans p ps Hp) as Hj.
  scan_text.
  f_equal.
  change (body_tokens
            [("stats",
              TrObj [("field", TrStr field);
                     ("percents",
                      TrArr (map (fun x => TrNum (fmt_f 2 x)) (p :: ps)))])])
    with ([TStr "stats"; TColon; TLBrace; TStr "field"; TColon; TStr field;
           TComma; TStr "percents"; TColon]
          ++ (tokens_of (TrArr (map (fun x => TrNum (fmt_f 2 x)) (p :: ps)))
              ++ [TRBrace]) ++ [])%list.
  rewrite tokens_of_arr, tokens_elements_items, app_nil_r.
  cbn [app]. now rewrite <- !app_assoc.
Qed.

Lemma tokens_of_object (ms : list (string * tree)) :
  tokens_of (TrObj ms) = (TLBrace :: body_tokens ms ++ [TRBrace])%list.
Proof. now rewrite tokens_of_obj, tokens_members_body. Qed.

Lemma tokens_of_array (l : list tree) :
  tokens_of (TrArr l) = (TLBracket :: item_tokens l ++ [TRBracket])%list.
Proof. now rewrite tokens_of_arr, tokens_elements_items. Qed.

Lemma body_tokens_one (k : string) (x : tree) :
  body_tokens [(k, x)] = (TStr k :: TColon :: tokens_of x)%list.
Proof. cbn [body_tokens]. now rewrite app_nil_r. Qed.

Lemma body_tokens_cons (k : string) (x : tree) (ms : list (string * tree)) :
  ms <> [] ->
  body_tokens ((k, x) :: ms)
  = (TStr k :: TColon :: tokens_of x ++ TComma :: body_tokens ms)%list.
Proof. destruct ms; [congruence|reflexivity]. Qed.

Ltac tokens_eq :=
  rewrite ?app_nil_r;
  repeat (progress (cbn [app]; rewrite <- ?app_assoc));
  reflexivity.

Lemma Aggs_scans (children : list string) (ms : list (string * tree)) :
  scans (join children) (body_tokens ms) ->
  scans (Aggs children) (body_tokens [("aggs", TrObj ms)]).
Proof.
  intros Hc tail Ht. rewrite Aggs_text. scan_text. f_equal.
  rewrite body_tokens_one, tokens_of_object. reflexivity.
Qed.

Lemma Agg_scans (name : string) (children : list string)
    (ms : list (string * tree)) :
  plain name = true ->
  scans (join children) (body_tokens ms) ->
  scans (Agg name children) (body_tokens [(name, TrObj ms)]).
Proof.
  intros Hn Hc tail Ht. rewrite Agg_text. scan_text. f_equal.
  rewrite body_tokens_one, tokens_of_object. reflexivity.
Qed.

Lemma DateHistogram_scans (field : string) (options : list string)
    (ms : list (string * tree)) :
  plain field = true -> ms <> [] ->
  scans (join options) (body_tokens ms) ->
  scans (DateHistogram field options)
    (body_tokens [("date_histogram", TrObj (("field", TrStr field) :: ms))]).
Proof.
  intros Hf Hne Hc tail Ht. rewrite DateHistogram_text. scan_text. f_equal.
  rewrite body_tokens_one, tokens_of_object, (body_tokens_cons _ _ ms Hne).
  cbn [tokens_of]. tokens_eq.
Qed.

Lemma Histogram_scans (field : string) (options : list string)
    (ms : list (string * tree)) :
  plain field = true -> ms <> [] ->
  scans (join options) (body_tokens ms) ->
  scans (Histogram field options)
    (body_tokens [("histogram", TrObj (("field", TrStr field) :: ms))]).
Proof.
  intros Hf Hne Hc tail Ht. rewrite Histogram_text. scan_text. f_equal.
  rewrite body_tokens_one, tokens_of_object, (body_tokens_cons _ _ ms Hne).
  cbn [tokens_of]. tokens_eq.
Qed.

Lemma Filter_scans (filters children : list string) (l : list tree)
    (ms : list (string * tree)) :
  scans (join filters) (item_tokens l) ->
  scans (join children) (body_tokens ms) -> ms <> [] ->
  scans (Filter filters children)
    (body_tokens
       (("filter", TrObj [("bool", TrObj [("filter", TrArr l)])]) :: ms)).
Proof.
  intros Hfs Hc Hne tail Ht. rewrite Filter_text. scan_text. f_equal.
  rewrite (body_tokens_cons _ _ ms Hne).
  rewrite !tokens_of_object, !body_tokens_one, !tokens_of_object,
    !body_tokens_one, tokens_of_array.
  tokens_eq.
Qed.

(* ----------------------------------------------------------------- *)
(** *** Joined fragments *)

Lemma join_skip (children : list string) : join ("" :: children) = join children.
Proof. reflexivity. Qed.

Lemma join_cons (s : string) (children : list string) :
  s <> "" ->
  join (s :: children)
  = match clean children with
    | [] => s
    | _ :: _ => s ++ ",
" ++ join children
    end.
Proof.
  intros Hs. unfold join. cbn [clean].
  destruct (String.eqb_spec s ""); [congruence|].
  replace (negb false) with true by reflexivity.
  destruct (clean children); reflexivity.
Qed.

Lemma clean_nil_join (children : list string) :
  clean children = [] -> join children = "".
Proof. unfold join. now intros ->. Qed.

(** Two scanned fragments joined by the separator. *)
Lemma scans_joined (a b : string) (ta tb : list token) :
  scans a ta -> scans b tb ->
  scans (a ++ ",
" ++ b) (ta ++ TComma :: tb).
Proof.
  intros Ha Hb tail Ht. rewrite !append_assoc.
  rewrite Ha by reflexivity. cbn [append].
  rewrite (lex_run_punct "," TComma) by reflexivity.
  rewrite (lex_run_space "010" (b ++ tail) eq_refl).
  rewrite (Hb tail Ht), <- !prepend_app. f_equal. now rewrite <- app_assoc.
Qed.

(* ----------------------------------------------------------------- *)
(** *** Composed fragments scan as the members they stand for *)

Lemma scans_nonempty (s : string) (ts : list token) :
  scans s ts -> ts <> [] -> s <> "".
Proof. intros H Hne ->. now apply Hne, scans_empty. Qed.

Lemma item_tokens_cons (t : tree) (l : list tree) :
  l <> [] ->
  item_tokens (t :: l) = (tokens_of t ++ TComma :: item_tokens l)%list.
Proof. destruct l; [congruence|reflexivity]. Qed.

(* ----------------------------------------------------------------- *)
(** *** Scanning fragments whose strings are quotable *)

Lemma Range_quoted_scans (gte lte : string) :
  quotable gte = true -> quotable lte = true ->
  scans (Range gte lte)
    (tokens_of
       (TrObj [("range",
                TrObj [("timestamp",
                        TrObj [("gte", TrStr (quote_body 0 gte));
                               ("lte", TrStr (quote_body 0 lte))])])])).
Proof.
  intros Hg Hl tail Ht. rewrite Range_text. scan_text. reflexivity.
Qed.

Lemma Term_quoted_scans (field value : string) :
  quotable field = true -> quotable value = true ->
  scans (Term field value)
    (tokens_of
       (TrObj [("term",
                TrObj [(quote_body 0 field, TrStr (quote_body 0 value))])])).
Proof.
  intros Hf Hv tail Ht. rewrite Term_text. scan_text. reflexivity.
Qed.

Lemma Agg_quoted_scans (name : string) (children : list string)
    (ms : list (string * tree)) :
  quotable name = true ->
  scans (join children) (body_tokens ms) ->
  scans (Agg name children) (body_tokens [(quote_body 0 name, TrObj ms)]).
Proof.
  intros Hn Hc tail Ht. rewrite Agg_text. scan_text. f_equal.
  rewrite body_tokens_one, tokens_of_object. reflexivity.
Qed.

Lemma Terms_quoted_scans (field : string) (size : Z) :
  quotable field = true ->
  scans (Terms field size)
    (body_tokens
       [("terms", TrObj [("field", TrStr (quote_body 0 field));
                         ("size", TrNum (itoa size))])]).
Proof.
  intros Hf tail Ht. rewrite Terms_text. scan_text. reflexivity.
Qed.

Lemma Sum_quoted_scans (field : string) :
  quotable field = true ->
  scans (Sum field)
    (body_tokens [("sum", TrObj [("field", TrStr (quote_body 0 field))])]).
Proof.
  intros Hf tail Ht. rewrite Sum_text. scan_text. reflexivity.
Qed.

Lemma Avg_quoted_scans (field : string) :
  quotable field = true ->
  scans (Avg field)
    (body_tokens [("avg", TrObj [("field", TrStr (quote_body 0 field))])]).
Proof.
  intros Hf tail Ht. rewrite Avg_text. scan_text. reflexivity.
Qed.

Lemma Min_quoted_scans (field : string) :
  quotable field = true ->
  scans (Min field)
    (body_tokens [("min", TrObj [("field", TrStr (quote_body 0 field))])]).
Proof.
  intros Hf tail Ht. rewrite Min_text. scan_text. reflexivity.
Qed.

Lemma Max_quoted_scans (field : string) :
  quotable field = true ->
  scans (Max field)
    (body_tokens [("max", TrObj [("field", TrStr (quote_body 0 field))])]).
Proof.
  intros Hf tail Ht. rewrite Max_text. scan_text. reflexivity.
Qed.

Lemma Stats_quoted_scans (field : string) :
  quotable field = true ->
  scans (Stats field)
    (body_tokens [("stats", TrObj [("field", TrStr (quote_body 0 field))])]).
Proof.
  intros Hf tail Ht. rewrite Stats_text. scan_text. reflexivity.
Qed.

Lemma Percentiles_quoted_scans (field : string) (p : float64)
    (ps : list float64) :
  quotable field = true -> forallb is_finite (p :: ps) = true ->
  scans (Percentiles field (p :: ps))
    (body_tokens
       [("stats",
         TrObj [("field", TrStr (quote_body 0 field));
                ("percents",
                 TrArr (map (fun x => TrNum (fmt_f 2 x)) (p :: ps)))])]).
Proof.
  intros Hf Hp tail Ht. rewrite Percentiles_cons_text.
  pose proof (joinFloats_scans p ps Hp) as Hj.
  scan_text.
  f_equal.
  change (body_tokens
            [("stats",
              TrObj [("field", TrStr (quote_body 0 field));
                     ("percents",
                      TrArr (map (fun x => TrNum (fmt_f 2 x)) (p :: ps)))])])
    with ([TStr "stats"; TColon; TLBrace; TStr "field"; TColon;
           TStr (quote_body 0 field); TComma; TStr "percents"; TColon]
          ++ (tokens_of (TrArr (map (fun x => TrNum (fmt_f 2 x)) (p :: ps)))
              ++ [TRBrace]) ++ [])%list.
  rewrite tokens_of_arr, tokens_elements_items, app_nil_r.
  cbn [app]. now rewrite <- !app_assoc.
Qed.

Lemma DateHistogram_quoted_scans (field : string) (options : list string)
    (ms : list (string * tree)) :
  quotable field = true -> ms <> [] ->
  scans (join options) (body_tokens ms) ->
  scans (DateHistogram field options)
    (body_tokens
       [("date_histogram",
         TrObj (("field", TrStr (quote_body 0 field)) :: ms))]).
Proof.
  intros Hf Hne Hc tail Ht. rewrite DateHistogram_text. scan_text. f_equal.
  rewrite body_tokens_one, tokens_of_object, (body_tokens_cons _ _ ms Hne).
  cbn [tokens_of]. tokens_eq.
Qed.

Lemma Histogram_quoted_scans (field : string) (options : list string)
    (ms : list (string * tree)) :
  quotable field = true -> ms <> [] ->
  scans (join options) (body_tokens ms) ->
  scans (Histogram field options)
    (body_tokens
       [("histogram", TrObj (("field", TrStr (quote_body 0 field)) :: ms))]).
Proof.
  intros Hf Hne Hc tail Ht. rewrite Histogram_text. scan_text. f_equal.
  rewrite body_tokens_one, tokens_of_object, (body_tokens_cons _ _ ms Hne).
  cbn [tokens_of]. tokens_eq.
Qed.

Lemma TimeZone_quoted_scans (now : Z) (s : list string) :
  (forall s0 r, s = s0 :: r -> LoadLocation s0 = None -> quotable s0 = true) ->
  scans (TimeZone now s)
    (body_tokens
       [("time_zone",
         TrStr (quote_body 0
                  match s with
                  | [] => offset (Now now)
                  | s0 :: _ =>
                      match LoadLocation s0 with
                      | Some loc => offset (Time_In (Now now) loc)
                      | None => s0
                      end
                  end))]).
Proof.
  intros Hs tail Ht. rewrite TimeZone_text.
  match goal with |- context [Quote ?z] => assert (quotable z = true) as Hz end.
  { destruct s as [|s0 r]; [apply plain_quotable, offset_plain|].
    specialize (Hs s0 r eq_refl).
    destruct (LoadLocation s0);
      [apply plain_quotable, offset_plain|now apply Hs]. }
  scan_text. reflexivity.
Qed.

Lemma Interval_quoted_scans (v : any) (s : string) :
  Interval v = Returns s ->
  (forall x, v = VString x -> quotable x = true) ->
  scans s
    (body_tokens
       [("interval",
         match v with
         | VString x => TrStr (quote_body 0 x)
         | VInt n => TrNum (itoa n)
         | _ => TrNull
         end)]).
Proof.
  intros Hv Hp tail Ht. rewrite (Interval_text v s Hv).
  destruct v; try discriminate.
  - specialize (Hp _ eq_refl). scan_text. reflexivity.
  - scan_text. reflexivity.
Qed.

Lemma Order_quoted_scans (field : string) (dir : Direction) :
  quotable field = true -> quotable dir = true ->
  scans (Order field dir)
    (body_tokens
       [("order", TrObj [(quote_body 0 field, TrStr (quote_body 0 dir))])]).
Proof.
  intros Hf Hd tail Ht. rewrite Order_text. scan_text. reflexivity.
Qed.

Lemma Value_fragment_scans (s : string) (t : tree) :
  Value_fragment s t -> scans s (tokens_of t).
Proof.
  destruct 1 as [s t H|gte lte Hg Hl|field value Hf Hv].
  - exact H.
  - now apply Range_quoted_scans.
  - now apply Term_quoted_scans.
Qed.

Lemma Value_fragments_scans (filters : list string) (l : list tree) :
  Value_fragments filters l ->
  scans (join filters) (item_tokens l) /\ (clean filters = [] <-> l = []).
Proof.
  induction 1 as [|filters l _ IH|s t filters l Hs _ [IH Hcl]].
  - split; [apply scans_nil|tauto].
  - exact IH.
  - apply Value_fragment_scans in Hs.
    pose proof (scans_nonempty s _ Hs (tokens_of_nonempty t)) as Hne.
    split.
    + rewrite (join_cons s filters Hne).
      destruct (clean filters) as [|x r] eqn:Ec.
      * rewrite (proj1 Hcl eq_refl). cbn [item_tokens].
        now rewrite app_nil_r.
      * assert (l <> []) as Hl by (intros E; apply Hcl in E; discriminate).
        rewrite (item_tokens_cons t l Hl). now apply scans_joined.
    + cbn [clean]. destruct (String.eqb_spec s ""); [congruence|].
      cbn [negb]. split; discriminate.
Qed.

Lemma Member_fragment_scans :
  (forall s ms, Member_fragment s ms ->
                ms <> [] /\ scans s (body_tokens ms))
  /\ (forall children ms, Member_fragments children ms ->
        scans (join children) (body_tokens ms)
        /\ (clean children = [] <-> ms = [])).
Proof.
  apply Member_fragment_mutind.
  - (* F_member *) auto.
  - (* F_When *) intros children ms _ [IH _] Hne. now split.
  - (* F_Filter *)
    intros filters children l ms Hfs _ [IH _] Hne.
    apply Value_fragments_scans in Hfs as [Hfs _].
    split; [discriminate|now apply Filter_scans].
  - (* F_Aggs *)
    intros children ms _ [IH _]. split; [discriminate|now apply Aggs_scans].
  - (* F_Agg *)
    intros name children ms Hn _ [IH _].
    split; [discriminate|now apply Agg_quoted_scans].
  - intros field size Hf.
    split; [discriminate|now apply Terms_quoted_scans].
  - intros field Hf. split; [discriminate|now apply Sum_quoted_scans].
  - intros field Hf. split; [discriminate|now apply Avg_quoted_scans].
  - intros field Hf. split; [discriminate|now apply Min_quoted_scans].
  - intros field Hf. split; [discriminate|now apply Max_quoted_scans].
  - intros field Hf.
    split; [discriminate|now apply Stats_quoted_scans].
  - intros field Hf. split; [discriminate|].
    rewrite Percentiles_nil_text. now apply Stats_quoted_scans.
  - intros field p ps Hf Hp.
    split; [discriminate|now apply Percentiles_quoted_scans].
  - (* F_DateHistogram *)
    intros field options ms Hf _ [IH _] Hne.
    split; [discriminate|now apply DateHistogram_quoted_scans].
  - (* F_Histogram *)
    intros field options ms Hf _ [IH _] Hne.
    split; [discriminate|now apply Histogram_quoted_scans].
  - intros now s Hs.
    split; [discriminate|now apply TimeZone_quoted_scans].
  - intros v s Hv Hp.
    split; [discriminate|now apply Interval_quoted_scans].
  - intros n. split; [discriminate|apply MinDocCount_scans].
  - intros n. split; [discriminate|apply Missing_scans].
  - intros lo hi. split; [discriminate|apply ExtendedBounds_scans].
  - intros field dir Hf Hd.
    split; [discriminate|now apply Order_quoted_scans].
  - (* Ms_nil *) split; [apply scans_nil|tauto].
  - (* Ms_skip *) intros children ms _ IH. exact IH.
  - (* Ms_cons *)
    intros s ms1 children ms _ [Hne1 Hs] _ [IH Hcl].
    pose proof (scans_nonempty s _ Hs (body_tokens_nonempty ms1 Hne1)) as Hne.
    split.
    + rewrite (join_cons s children Hne).
      destruct (clean children) as [|x r] eqn:Ec.
      * rewrite (proj1 Hcl eq_refl), app_nil_r. exact Hs.
      * assert (ms <> []) as Hm by (intros E; apply Hcl in E; discriminate).
        rewrite (body_tokens_app ms1 ms Hne1 Hm). now apply scans_joined.
    + cbn [clean]. destruct (String.eqb_spec s ""); [congruence|].
      cbn [negb]. split; [discriminate|].
      intros E. apply app_eq_nil in E as [E _]. congruence.
Qed.

(** The rule of [Agg] for a plain name, which is its own token. *)
Lemma Agg_fragment_plain (name : string) (children : list string)
    (ms : list (string * tree)) :
  plain name = true -> Member_fragments children ms ->
  Member_fragment (Agg name children) [(name, TrObj ms)].
Proof.
  intros Hn Hm.
  pose proof (F_Agg name children ms (plain_quotable name Hn) Hm) as H.
  now rewrite (quote_body_plain name Hn) in H.
Qed.

(** C2 (amended).  Fragments built from quotable strings (every rune
    validly encoded and written by [%q] in a form that JSON has) and
    finite break-points, with at least one member in every slot that a
    template separates by a comma, compose: the text that [Query]
    assembles from them is well formed, and it parses to the object
    whose members are the marker followed by the members the fragments
    stand for (nesting within the limit of the scanner). *)
Theorem composed_fragments_make_valid_document (children : list string)
    (ms : list (string * tree)) :
  Member_fragments children ms -> ms <> [] ->
  tree_depth (TrObj ms) <= maxNestingDepth ->
  scan (golit "{
    'size': 0,
    " ++ join children ++ "
  }") = Some (TrObj (("size", TrNum "0") :: ms))
  /\ checkValid (golit "{
    'size': 0,
    " ++ join children ++ "
  }") = true.
Proof.
  intros Hm Hne Hd.
  destruct Member_fragment_scans as [_ H].
  destruct (H children ms Hm) as [Hs _]. clear H.
  assert (scan (golit "{
    'size': 0,
    " ++ join children ++ "
  }") = Some (TrObj (("size", TrNum "0") :: ms))) as E.
  { unfold scan.
    assert (lex (golit "{
    'size': 0,
    " ++ join children ++ "
  }") = Some (tokens_of (TrObj (("size", TrNum "0") :: ms)))) as ->.
    { apply lex_of_run.
      erewrite lex_run_literal by (vm_compute; reflexivity).
      rewrite Hs by reflexivity.
      replace (lex_run LStart "
  }") with (Some ([TRBrace], LStart)) by (vm_compute; reflexivity).
      cbn [prepend]. f_equal. f_equal.
      rewrite tokens_of_object, (body_tokens_cons _ _ ms Hne).
      cbn [tokens_of]. tokens_eq. }
    apply parse_tokens_of.
    cbn [tree_depth fold_right snd] in *.
    destruct (fold_max_ge (fun kv : string * tree => tree_depth (snd kv)) ms)
      as [H0 _].
    cbv beta in H0. lia. }
  split; [exact E|]. unfold checkValid. now rewrite E.
Qed.

(* ================================================================= *)
(** ** Further properties of the package *)

(* ----------------------------------------------------------------- *)
(** *** Joining joined fragments *)

Lemma clean_app (a b : list string) :
  clean (a ++ b) = (clean a ++ clean b)%list.
Proof.
  induction a as [|v a IH]; [reflexivity|]. cbn [app clean].
  destruct (String.eqb v ""); cbn [negb]; [exact IH|].
  cbn [app]. now rewrite IH.
Qed.

Lemma clean_nonempty (s : list string) : Forall (fun v => v <> "") (clean s).
Proof.
  induction s as [|v s IH]; [constructor|]. cbn [clean].
  destruct (String.eqb_spec v ""); cbn [negb]; [exact IH|].
  now constructor.
Qed.

Lemma strings_Join_app (a b : list string) (sep : string) :
  a <> [] -> b <> [] ->
  strings_Join (a ++ b) sep
  = strings_Join a sep ++ sep ++ strings_Join b sep.
Proof.
  intros Ha Hb. induction a as [|x a IH]; [congruence|].
  destruct a as [|y a].
  - destruct b as [|z b]; [congruence|]. reflexivity.
  - change ((x :: y :: a) ++ b)%list with (x :: y :: (a ++ b))%list.
    rewrite !strings_Join_cons.
    change (y :: (a ++ b))%list with ((y :: a) ++ b)%list.
    rewrite IH by discriminate. now rewrite !append_assoc.
Qed.

Lemma join_nonempty (s : list string) : clean s <> [] -> join s <> "".
Proof.
  intros H. unfold join. pose proof (clean_nonempty s) as F.
  destruct (clean s) as [|x l]; [congruence|].
  inversion F as [|? ? Hx _]; subst.
  destruct (strings_Join_starts x l ",
") as [rest ->].
  destruct x; [congruence|discriminate].
Qed.

(** [join] sees a fragment made by [join] as the fragments it was made
    of. *)
Lemma join_join_cons (a b : list string) :
  join (join a :: b) = join (a ++ b).
Proof.
  destruct (clean a) as [|x l] eqn:Ea.
  - rewrite (clean_nil_join a Ea), join_skip.
    unfold join. now rewrite clean_app, Ea.
  - assert (clean a <> []) as Hne by (rewrite Ea; discriminate).
    rewrite (join_cons _ b (join_nonempty a Hne)).
    unfold join at 4. rewrite clean_app.
    destruct (clean b) as [|y r] eqn:Eb.
    + now rewrite app_nil_r.
    + rewrite strings_Join_app by (try discriminate; assumption).
      unfold join. now rewrite Eb.
Qed.

Lemma join_single (x : string) : join [x] = x.
Proof.
  unfold join. cbn [clean]. destruct (String.eqb_spec x ""); now subst.
Qed.

Lemma join_app (a b : list string) : join (a ++ b) = join [join a; join b].
Proof.
  destruct (clean a) as [|x l] eqn:Ea.
  - rewrite (clean_nil_join a Ea), join_skip, join_single.
    unfold join. now rewrite clean_app, Ea.
  - assert (clean a <> []) as Ha by (rewrite Ea; discriminate).
    rewrite (join_cons _ [join b] (join_nonempty a Ha)).
    destruct (clean b) as [|y r] eqn:Eb.
    + rewrite (clean_nil_join b Eb). cbn [clean String.eqb negb].
      unfold join. now rewrite clean_app, Eb, app_nil_r.
    + assert (clean b <> []) as Hb by (rewrite Eb; discriminate).
      pose proof (join_nonempty b Hb) as Hj. cbn [clean].
      destruct (String.eqb_spec (join b) ""); [congruence|]. cbn [negb].
      rewrite join_single. unfold join. rewrite clean_app.
      now rewrite strings_Join_app by assumption.
Qed.

(** X1.  [join] is associative: joining fragments that were themselves
    produced by [join] gives the same text as joining all the
    underlying fragments at once, empty ones included. *)
Theorem join_flattens (ls : list (list string)) :
  join (map join ls) = join (concat ls).
Proof.
  induction ls as [|a ls IH]; [reflexivity|].
  cbn [map concat]. rewrite join_join_cons.
  now rewrite (join_app a (map join ls)), IH, <- join_app.
Qed.

(** X2.  [When] splices its children into the enclosing [join]: with
    a true condition the children count as if written in place, with a
    false one the fragment vanishes. *)
Theorem When_splices_into_join (cond : bool) (children rest : list string) :
  join (When cond children :: rest)
  = join ((if cond then children else []) ++ rest).
Proof.
  unfold When. destruct cond.
  - apply join_join_cons.
  - apply join_skip.
Qed.

(* ----------------------------------------------------------------- *)
(** *** The normalizers together *)

Lemma lex_run_spaces (n : nat) (tail : string) :
  lex_run LStart (spaces n ++ tail) = lex_run LStart tail.
Proof.
  induction n as [|n IH]; [reflexivity|]. cbn [spaces append].
  now rewrite (lex_run_space " " _ eq_refl).
Qed.

Lemma lex_run_newline_indent (depth : nat) (tail : string) :
  lex_run LStart (newline_indent depth ++ tail) = lex_run LStart tail.
Proof.
  unfold newline_indent. cbn [append].
  rewrite (lex_run_space (byte_of 10) _ eq_refl). apply lex_run_spaces.
Qed.

Lemma lex_run_value_newline (s : string) (ts : list token) (depth : nat)
    (tail : string) :
  lex s = Some ts ->
  lex_run LStart (s ++ newline_indent depth ++ tail)
  = prepend ts (lex_run LStart tail).
Proof.
  intros H. unfold newline_indent. cbn [append].
  rewrite (lex_run_value_delimiter s ts (byte_of 10) _ H eq_refl).
  rewrite (lex_run_space (byte_of 10) _ eq_refl). now rewrite lex_run_spaces.
Qed.

Lemma lex_run_value_comma (s : string) (ts : list token) (depth : nat)
    (tail : string) :
  lex s = Some ts ->
  lex_run LStart (s ++ "," ++ newline_indent depth ++ tail)
  = prepend (ts ++ [TComma]) (lex_run LStart tail).
Proof.
  intros H. unfold newline_indent. cbn [append].
  rewrite (lex_run_value_delimiter s ts "," _ H eq_refl).
  rewrite (lex_run_punct "," TComma) by reflexivity.
  change (String (byte_of 10) (spaces (2 * depth) ++ tail))
    with (newline_indent depth ++ tail).
  now rewrite lex_run_newline_indent, prepend_app.
Qed.

Lemma lex_indent_elements (depth : nat) (l : list value) :
  Forall (fun v => wf_value v -> forall d,
            exists s, encode_indent d v = Some s
                      /\ lex s = Some (tokens_of (tree_of v))) l ->
  wf_elements l -> l <> [] ->
  exists ss, indent_elements depth l = Some ss
    /\ forall tail,
         lex_run LStart
           (strings_Join ss ("," ++ newline_indent (S depth))
            ++ newline_indent depth ++ String "]" tail)
         = prepend (tokens_elements (map tree_of l)) (lex_run LStart tail).
Proof.
  induction 1 as [|x r Hx _ IH]; intros W Hne; [congruence|].
  destruct W as [Wx Wr]. destruct (Hx Wx (S depth)) as (s & Es & Ls).
  destruct r as [|y r'].
  - exists [s]. cbn [indent_elements]. rewrite Es. split; [reflexivity|].
    intros tail. cbn [strings_Join map tokens_elements].
    rewrite (lex_run_value_newline s _ depth _ Ls).
    rewrite (lex_run_punct "]" TRBracket) by reflexivity.
    now rewrite prepend_app.
  - destruct (IH Wr ltac:(discriminate)) as (ss & Ess & Lss).
    exists (s :: ss). cbn [indent_elements] in *. rewrite Es, Ess.
    split; [reflexivity|]. intros tail.
    destruct ss as [|s' ss'].
    { destruct (encode_indent (S depth) y), (indent_elements depth r');
        discriminate. }
    rewrite strings_Join_cons, !append_assoc. cbn [map].
    rewrite tokens_elements_cons.
    rewrite (lex_run_value_comma s _ (S depth) _ Ls).
    rewrite Lss. cbn [map].
    rewrite <- !prepend_app. f_equal. now rewrite <- !app_assoc.
Qed.

Lemma lex_run_indent_member (k s : string) (ts : list token) (tail : string) :
  lex s = Some ts -> delimited tail = true ->
  lex_run LStart ((encode_string k ++ String ":" (String " " s)) ++ tail)
  = prepend (TStr (encode_from 0 k) :: TColon :: ts) (lex_run LStart tail).
Proof.
  intros Ls Ht. unfold encode_string. cbn [append].
  rewrite !append_assoc. cbn [append].
  rewrite lex_run_string by apply encode_from_scans.
  rewrite (lex_run_punct ":" TColon) by reflexivity.
  rewrite (lex_run_space " " _ eq_refl).
  rewrite (scans_of_lex s ts Ls tail Ht).
  now rewrite <- !prepend_app.
Qed.

Lemma lex_indent_members (depth : nat) (m : list (string * value)) :
  Forall (fun kv => wf_value (snd kv) -> forall d,
            exists s, encode_indent d (snd kv) = Some s
                      /\ lex s = Some (tokens_of (tree_of (snd kv)))) m ->
  wf_members m -> m <> [] ->
  exists ss, indent_members depth m = Some ss
    /\ forall tail,
         lex_run LStart
           (strings_Join ss ("," ++ newline_indent (S depth))
            ++ newline_indent depth ++ String "}" tail)
         = prepend
             (tokens_members
                (map (fun kv => (encode_from 0 (fst kv), tree_of (snd kv))) m))
             (lex_run LStart tail).
Proof.
  induction 1 as [|[k x] r Hx _ IH]; intros W Hne; [congruence|].
  destruct W as [[_ Wx] Wr]. cbn [snd] in Hx.
  destruct (Hx Wx (S depth)) as (s & Es & Ls).
  destruct r as [|[k' y] r'].
  - exists [encode_string k ++ String ":" (String " " s)].
    cbn [indent_members]. rewrite Es. split; [reflexivity|].
    intros tail. cbn [strings_Join map tokens_members fst snd].
    rewrite (lex_run_indent_member k s _ _ Ls) by reflexivity.
    rewrite lex_run_newline_indent.
    rewrite (lex_run_punct "}" TRBrace) by reflexivity.
    now rewrite <- prepend_app.
  - destruct (IH Wr ltac:(discriminate)) as (ss & Ess & Lss).
    exists ((encode_string k ++ String ":" (String " " s)) :: ss).
    cbn [indent_members] in *. rewrite Es, Ess.
    split; [reflexivity|]. intros tail.
    destruct ss as [|s' ss'].
    { destruct (encode_indent (S depth) y), (indent_members depth r');
        discriminate. }
    rewrite strings_Join_cons.
    rewrite (append_assoc (encode_string k ++ String ":" (String " " s))).
    rewrite (lex_run_indent_member k s _ _ Ls) by reflexivity.
    rewrite !append_assoc. cbn [append].
    rewrite (lex_run_punct "," TComma) by reflexivity.
    change (String (byte_of 10)
              (spaces (2 * S depth)
               ++ strings_Join (s' :: ss') (String "," (newline_indent (S depth)))
               ++ newline_indent depth ++ String "}" tail))
      with (newline_indent (S depth)
            ++ strings_Join (s' :: ss') ("," ++ newline_indent (S depth))
            ++ newline_indent depth ++ String "}" tail).
    rewrite lex_run_newline_indent, Lss. cbn [map fst snd].
    rewrite tokens_members_cons.
    rewrite <- !prepend_app. f_equal.
    cbn [app]. now rewrite <- app_assoc.
Qed.

(** The scanner reads the tokens of [tree_of v] in the indented
    encoding of [v] as well. *)
Lemma lex_encode_indent (v : value) :
  wf_value v ->
  forall depth,
    exists s, encode_indent depth v = Some s
              /\ lex s = Some (tokens_of (tree_of v)).
Proof.
  induction v as [| b | f | s | l IH | m IH] using value_induction;
    intros W depth.
  - exact (lex_encode JNull W).
  - exact (lex_encode (JBool b) W).
  - exact (lex_encode (JNumber f) W).
  - exact (lex_encode (JString s) W).
  - destruct l as [|x r]; [exact (lex_encode (JArray []) W)|].
    destruct (lex_indent_elements depth (x :: r) IH W ltac:(discriminate))
      as (ss & Ess & Lss).
    rewrite encode_indent_arr, Ess. eexists. split; [reflexivity|].
    apply lex_of_run. cbn [append tree_of].
    rewrite (lex_run_punct "[" TLBracket) by reflexivity.
    unfold newline_indent at 1. cbn [append].
    rewrite (lex_run_space (byte_of 10) _ eq_refl), lex_run_spaces.
    rewrite Lss, tokens_of_arr. cbn. now rewrite app_nil_r.
  - destruct m as [|kv r]; [exact (lex_encode (JObject []) W)|].
    destruct W as [_ W].
    destruct (lex_indent_members depth (kv :: r) IH W ltac:(discriminate))
      as (ss & Ess & Lss).
    rewrite encode_indent_obj, Ess. eexists. split; [reflexivity|].
    apply lex_of_run. cbn [append tree_of].
    rewrite (lex_run_punct "{" TLBrace) by reflexivity.
    unfold newline_indent at 1. cbn [append].
    rewrite (lex_run_space (byte_of 10) _ eq_refl), lex_run_spaces.
    rewrite Lss, tokens_of_obj. cbn. now rewrite app_nil_r.
Qed.

Lemma Unmarshal_encode_indent (T : string) (t : tree) (v : value)
    (out : string) :
  scan T = Some t -> convert t = Some v -> encode_indent 0 v = Some out ->
  Unmarshal out = Ok v.
Proof.
  intros Es Ec Eo. pose proof (convert_wf t v Ec) as W.
  destruct (lex_encode_indent v W 0%nat) as (out' & Eo' & Lo).
  assert (out' = out) as -> by congruence.
  unfold Unmarshal, scan. rewrite Lo.
  rewrite parse_tokens_of by exact (scan_convert_depth T t v Es Ec).
  now rewrite convert_tree_of.
Qed.

Lemma Pretty_returns (T out : string) :
  Pretty T = Returns out ->
  exists t v, scan T = Some t /\ convert t = Some v
              /\ encode_indent 0 v = Some out.
Proof.
  unfold Pretty, Unmarshal, MarshalIndent.
  destruct (scan T) as [t|]; [|discriminate].
  destruct (convert t) as [v|] eqn:Ec; [|discriminate].
  destruct (encode_indent 0 v) as [s|] eqn:Ee; [|discriminate].
  intros [= <-]. eauto.
Qed.

Lemma Unmarshal_scanned (T : string) (t : tree) (v : value) :
  scan T = Some t -> convert t = Some v -> Unmarshal T = Ok v.
Proof. intros Es Ec. unfold Unmarshal. now rewrite Es, Ec. Qed.

(** X3.  The compacting normalizer is idempotent: its result is a
    text that it leaves unchanged. *)
Theorem compress_is_idempotent (T out : string) :
  compress T = Returns out -> compress out = Returns out.
Proof.
  intros H. destruct (compress_returns T out H) as (t & v & Es & Ec & Eo).
  unfold compress. rewrite (Unmarshal_encode T t v out Es Ec Eo).
  unfold Marshal. now rewrite Eo.
Qed.

(** X4.  The indented normalizer keeps the parsed value: what [Pretty]
    returns parses to the value that the input parses to. *)
Theorem Pretty_keeps_parsed_value (T out : string) :
  Pretty T = Returns out ->
  exists v, Unmarshal T = Ok v /\ Unmarshal out = Ok v.
Proof.
  intros H. destruct (Pretty_returns T out H) as (t & v & Es & Ec & Eo).
  exists v. split.
  - exact (Unmarshal_scanned T t v Es Ec).
  - exact (Unmarshal_encode_indent T t v out Es Ec Eo).
Qed.

(** X5.  Compacting the indented text gives the compact text of the
    input. *)
Theorem compress_after_Pretty (T out : string) :
  Pretty T = Returns out -> compress out = compress T.
Proof.
  intros H. destruct (Pretty_returns T out H) as (t & v & Es & Ec & Eo).
  unfold compress.
  now rewrite (Unmarshal_encode_indent T t v out Es Ec Eo),
    (Unmarshal_scanned T t v Es Ec).
Qed.

(** X6.  Indenting the compact text gives the indented text of the
    input. *)
Theorem Pretty_after_compress (T out : string) :
  compress T = Returns out -> Pretty out = Pretty T.
Proof.
  intros H. destruct (compress_returns T out H) as (t & v & Es & Ec & Eo).
  unfold Pretty.
  now rewrite (Unmarshal_encode T t v out Es Ec Eo),
    (Unmarshal_scanned T t v Es Ec).
Qed.

(** X7.  The indented normalizer is idempotent. *)
Theorem Pretty_is_idempotent (T out : string) :
  Pretty T = Returns out -> Pretty out = Returns out.
Proof.
  intros H. destruct (Pretty_returns T out H) as (t & v & Es & Ec & Eo).
  unfold Pretty. rewrite (Unmarshal_encode_indent T t v out Es Ec Eo).
  unfold MarshalIndent. now rewrite Eo.
Qed.

(* ----------------------------------------------------------------- *)
(** *** Documents made of composed fragments *)

(** Members between braces. *)
Lemma members_scan (s : string) (ms : list (string * tree)) :
  scans s (body_tokens ms) ->
  tree_depth (TrObj ms) <= maxNestingDepth ->
  scan ("{" ++ s ++ "}") = Some (TrObj ms).
Proof.
  intros Hs Hd. unfold scan.
  assert (lex ("{" ++ s ++ "}") = Some (tokens_of (TrObj ms))) as ->.
  { apply lex_of_run. cbn [append].
    rewrite (lex_run_punct "{" TLBrace) by reflexivity.
    rewrite Hs by reflexivity.
    rewrite (lex_run_punct "}" TRBrace) by reflexivity.
    cbn [lex_run prepend]. now rewrite tokens_of_object, app_nil_r. }
  now apply parse_tokens_of.
Qed.

(** The text that [Query] assembles. *)
Lemma document_scan (children : list string) (ms : list (string * tree)) :
  scans (join children) (body_tokens ms) -> ms <> [] ->
  tree_depth (TrObj ms) <= maxNestingDepth ->
  scan (golit "{
    'size': 0,
    " ++ join children ++ "
  }") = Some (TrObj (("size", TrNum "0") :: ms)).
Proof.
  intros Hs Hne Hd. unfold scan.
  assert (lex (golit "{
    'size': 0,
    " ++ join children ++ "
  }") = Some (tokens_of (TrObj (("size", TrNum "0") :: ms)))) as ->.
  { apply lex_of_run.
    erewrite lex_run_literal by (vm_compute; reflexivity).
    rewrite Hs by reflexivity.
    replace (lex_run LStart "
  }") with (Some ([TRBrace], LStart)) by (vm_compute; reflexivity).
    cbn [prepend]. f_equal. f_equal.
    rewrite tokens_of_object, (body_tokens_cons _ _ ms Hne).
    cbn [tokens_of]. tokens_eq. }
  apply parse_tokens_of.
  cbn [tree_depth fold_right snd] in *.
  destruct (fold_max_ge (fun kv : string * tree => tree_depth (snd kv)) ms)
    as [H0 _].
  cbv beta in H0. lia.
Qed.

Lemma encode_decoded (t : tree) (v : value) :
  convert t = Some v -> exists out, encode v = Some out.
Proof.
  intros Ec. destruct (lex_encode v (convert_wf t v Ec)) as (out & Eo & _).
  eauto.
Qed.

(** X8.  [Query] on composed fragments never panics when their numbers
    fit a float64: it returns a text that parses to the value of the
    object made of the marker and of the members the fragments stand
    for. *)
Theorem Query_of_composed_fragments_returns (children : list string)
    (ms : list (string * tree)) :
  Member_fragments children ms -> ms <> [] ->
  tree_depth (TrObj ms) <= maxNestingDepth ->
  numbers_in_range (TrObj ms) = true ->
  exists out v,
    Query children = Returns out
    /\ convert (TrObj (("size", TrNum "0") :: ms)) = Some v
    /\ Unmarshal out = Ok v.
Proof.
  intros Hm Hne Hd Hr.
  destruct Member_fragment_scans as [_ H].
  destruct (H children ms Hm) as [Hs _]. clear H.
  pose proof (document_scan children ms Hs Hne Hd) as Es.
  assert (numbers_in_range (TrObj (("size", TrNum "0") :: ms)) = true) as Hr'
    by exact Hr.
  apply convert_in_range in Hr' as [v Ec].
  destruct (encode_decoded _ v Ec) as [out Eo].
  exists out, v. rewrite Query_text. unfold compress.
  rewrite (Unmarshal_scanned _ _ v Es Ec). unfold Marshal. rewrite Eo.
  split; [reflexivity|]. split; [exact Ec|].
  exact (Unmarshal_encode _ _ v out Es Ec Eo).
Qed.

(* ----------------------------------------------------------------- *)
(** *** A fragment that ends in a comma *)

Lemma parse_object_first_none (k lit : string) (ts : list token) :
  parse_members (S (S (S (S (List.length ts))))) 1 ts = None ->
  parse (TLBrace :: TStr k :: TColon :: TNum lit :: TComma :: ts) = None.
Proof.
  intros H. unfold parse. cbn [List.length].
  change (parse_value (S (S (S (S (S (S (List.length ts))))))) 0
            (TLBrace :: TStr k :: TColon :: TNum lit :: TComma :: ts))
    with (match
            match parse_members (S (S (S (S (List.length ts))))) 1 ts with
            | Some (ms, r'') => Some ((k, TrNum lit) :: ms, r'')
            | None => None
            end
          with
          | Some (ms, r') => Some (TrObj ms, r')
          | None => None
          end).
  now rewrite H.
Qed.

(** No member follows the comma. *)
Lemma parse_members_trailing_comma (fuel : nat) (d : Z) (k : string)
    (x : tree) :
  d + tree_depth x <= maxNestingDepth ->
  (List.length (tokens_of x) < fuel)%nat ->
  parse_members (S fuel) d
    (TStr k :: TColon :: tokens_of x ++ [TComma; TRBrace]) = None.
Proof.
  intros Hd Hf. cbn [parse_members].
  rewrite (parse_complete x d [TComma; TRBrace] fuel Hd Hf).
  destruct fuel; reflexivity.
Qed.

(** X9.  The fragment that the function returned by [Filter] gives
    without children ends in a comma: a query made of it alone panics,
    whatever the filters. *)
Theorem Filter_without_children_panics (filters : list string)
    (l : list tree) :
  Value_fragments filters l ->
  3 + tree_depth (TrArr l) <= maxNestingDepth ->
  Query [Filter filters []] = Panics (error_text SyntaxError).
Proof.
  intros Hv Hd. apply Value_fragments_scans in Hv as [Hfs _].
  rewrite Query_text.
  rewrite join_single, Filter_text.
  change (join []) with "".
  set (F := TrObj [("bool", TrObj [("filter", TrArr l)])]).
  assert (lex (golit "{
    'size': 0,
    " ++ (golit "
			'filter': {
				'bool': {
					'filter': [
						"
    ++ join filters
    ++ golit "
					]
				}
			},
			"
    ++ ""
    ++ golit "
		") ++ "
  }")
          = Some (TLBrace :: TStr "size" :: TColon :: TNum "0" :: TComma
                  :: TStr "filter" :: TColon
                  :: tokens_of F ++ [TComma; TRBrace])) as El.
  { apply lex_of_run. scan_text.
    replace (lex_run LStart "
  }") with (Some ([TRBrace], LStart)) by (vm_compute; reflexivity).
    cbn [prepend]. f_equal. f_equal. subst F.
    rewrite !tokens_of_object, !body_tokens_one, !tokens_of_object,
      !body_tokens_one, tokens_of_array.
    tokens_eq. }
  unfold compress, Unmarshal, scan. rewrite El.
  rewrite parse_object_first_none; [reflexivity|].
  apply parse_members_trailing_comma.
  - pose proof (tree_depth_pos_arr l) as Hp. subst F.
    change (tree_depth (TrObj [("bool", TrObj [("filter", TrArr l)])]))
      with (1 + Z.max (1 + Z.max (tree_depth (TrArr l)) 0) 0).
    lia.
  - cbn [List.length]. rewrite length_app. cbn [List.length]. lia.
Qed.

(* ----------------------------------------------------------------- *)
(** *** Reading the operands back *)

(** A plain string is its own string token and stands for itself. *)
Lemma unquote_plain (s : string) : plain s = true -> unquote s = s.
Proof.
  unfold unquote. induction s as [|c s IH]; [reflexivity|].
  cbn [plain]. intros H. apply andb_true_iff in H as [Hc Hs].
  pose proof (plain_byte_range c Hc) as (Hr & _ & Hb).
  rewrite unquote_from_step.
  assert (unquote_step (String c s) = (String c "", 1%nat)) as ->.
  { unfold unquote_step.
    replace (byte_val c <? 128) with true by (symmetry; apply Z.ltb_lt; lia).
    destruct c as [[] [] [] [] [] [] [] []]; try reflexivity.
    exfalso. apply Hb. reflexivity. }
  cbn [fst snd Nat.sub drop append]. now rewrite IH.
Qed.

Lemma num_next_space (ns : numstate) (c : ascii) :
  is_space c = true -> num_next ns c = None.
Proof.
  intros H. apply num_next_not_number_char.
  unfold is_space in H. unfold number_char, is_digit, is_e.
  repeat (apply orb_true_iff in H as [H|H]); apply Z.eqb_eq in H;
    rewrite <- (byte_of_val c), H; reflexivity.
Qed.

(** A text that is scanned as [ts] before a delimiter is scanned as
    [ts] on its own. *)
Lemma scans_lex (s : string) (ts : list token) : scans s ts -> lex s = Some ts.
Proof.
  intros H.
  pose proof (H " " eq_refl) as H1.
  pose proof (H (String (byte_of 10) "") eq_refl) as H2.
  rewrite lex_run_app in H1, H2.
  unfold lex. destruct (lex_run LStart s) as [[ta st]|]; [|discriminate].
  cbn [lex_run] in H1, H2.
  destruct st as [|[| |k] acc|ns acc|rest tok].
  - cbn in H1. injection H1 as E. rewrite !app_nil_r in E. subst ts.
    cbn. now rewrite app_nil_r.
  - cbn in H1. discriminate.
  - cbn in H1. discriminate.
  - cbn in H1. discriminate.
  - cbn [lstep] in H1. rewrite (num_next_space ns " " eq_refl) in H1.
    cbn [lex_finish]. destruct (num_complete ns); [|discriminate].
    cbn in H1. injection H1 as E. rewrite app_nil_r in E. now subst ts.
  - destruct rest as [|e rest']; [discriminate|].
    cbn [lstep] in H1, H2.
    destruct (Ascii.eqb_spec " " e) as [<-|]; [|discriminate].
    cbn in H2. discriminate.
Qed.

Lemma value_scan (s : string) (t : tree) :
  scans s (tokens_of t) -> tree_depth t <= maxNestingDepth ->
  scan s = Some t.
Proof.
  intros Hs Hd. unfold scan. rewrite (scans_lex s _ Hs).
  now apply parse_tokens_of.
Qed.

(** X10.  A range clause reads back as its bounds: for plain bounds,
    the text of [Range] is a well-formed value that parses to the
    nested maps range / timestamp / gte, lte holding the two strings. *)
Theorem Range_decodes (gte lte : string) :
  plain gte = true -> plain lte = true ->
  Unmarshal (Range gte lte)
  = Ok (JObject
          [("range",
            JObject
              [("timestamp",
                JObject [("gte", JString gte); ("lte", JString lte)])])]).
Proof.
  intros Hg Hl.
  apply (Unmarshal_scanned _
           (TrObj [("range",
                    TrObj [("timestamp",
                            TrObj [("gte", TrStr gte); ("lte", TrStr lte)])])])).
  - apply value_scan; [now apply Range_scans|].
    vm_compute. intros E. discriminate E.
  - cbn [convert]. rewrite (unquote_plain gte Hg), (unquote_plain lte Hl).
    reflexivity.
Qed.

(** X11.  A term clause reads back as its operands: for a plain field
    and a plain value, the text of [Term] parses to the map term /
    field holding the value. *)
Theorem Term_decodes (field value : string) :
  plain field = true -> plain value = true ->
  Unmarshal (Term field value)
  = Ok (JObject [("term", JObject [(field, JString value)])]).
Proof.
  intros Hf Hv.
  apply (Unmarshal_scanned _ (TrObj [("term", TrObj [(field, TrStr value)])])).
  - apply value_scan; [now apply Term_scans|].
    vm_compute. intros E. discriminate E.
  - cbn [convert]. rewrite (unquote_plain field Hf), (unquote_plain value Hv).
    reflexivity.
Qed.

(* ----------------------------------------------------------------- *)
(** *** Integer operands *)

Lemma decode_number_int (neg : bool) (ds : string) :
  ds <> "" -> all_digits ds = true ->
  decode_number (sign_text neg ++ ds) = (neg, digits_val 0 ds, 0).
Proof.
  intros Hne Hd.
  destruct (digit_head ds Hne Hd) as (c & r & E & Hc).
  assert (match ds with
          | String "-" r' => (true, r')
          | _ => (false, ds)
          end = (false, ds)) as Hm.
  { rewrite E. destruct c as [[] [] [] [] [] [] [] []]; try reflexivity.
    discriminate Hc. }
  assert (decode_number ds = (false, digits_val 0 ds, 0)) as Hpos.
  { unfold decode_number. rewrite Hm, (span_digits_all ds Hd).
    cbv beta iota. cbn [String.length Z.of_nat]. now rewrite append_nil_r. }
  destruct neg; [|exact Hpos]. cbn [sign_text append].
  unfold decode_number in *. cbv beta iota. rewrite Hm in Hpos.
  destruct (span_digits ds) as [ip s2].
  destruct (match s2 with String "." r' => span_digits r' | _ => ("", s2) end)
    as [fp s3].
  now injection Hpos as -> ->.
Qed.

(** A positive integer below 2^53 is a float64. *)
Lemma round_binary64_integer (neg : bool) (n : Z) :
  0 < n < 2 ^ 53 ->
  exists m e,
    round_binary64 neg (n * 10 ^ 0) 1 = Some (S754_finite neg m e)
    /\ e <= 0 /\ Z.pos m = n * 2 ^ (- e).
Proof.
  intros Hn. set (L := Z.log2 n).
  pose proof (Z.log2_spec n ltac:(lia)) as [Hlo Hhi]. fold L in Hlo, Hhi.
  pose proof (Z.log2_nonneg n) as H0. fold L in H0.
  assert (L <= 52) as HL.
  { assert (L < 53); [|lia]. apply Z.log2_lt_pow2; lia. }
  assert (0 < 2 ^ (52 - L)) as Hp by (apply Z.pow_pos_nonneg; lia).
  assert (2 ^ L * 2 ^ (52 - L) = 2 ^ 52) as E52
    by (rewrite <- Z.pow_add_r by lia; f_equal; lia).
  assert (2 ^ Z.succ L * 2 ^ (52 - L) = 2 ^ 53) as E53
    by (rewrite <- Z.pow_add_r by lia; f_equal; lia).
  destruct (n * 2 ^ (52 - L)) as [|m|m] eqn:Em; try nia.
  exists m, (L - 52).
  replace (- (L - 52)) with (52 - L) by lia.
  split; [|split; [lia|now rewrite Em]].
  apply round_binary64_exact; [|lia|].
  - apply canonical_finite. rewrite <- Em. repeat split; try lia; nia.
  - change (10 ^ 0) with 1. rewrite <- Em.
    replace 1074 with ((52 - L) + (L - 52 + 1074)) at 1 by lia.
    rewrite Z.pow_add_r by lia. ring.
Qed.

(** What [%d] writes for an integer below 2^53 in magnitude converts
    to that integer. *)
Lemma ParseFloat_itoa (n : Z) :
  Z.abs n < 2 ^ 53 ->
  exists f, ParseFloat (itoa n) = Some f /\ float_is_integer f n.
Proof.
  intros Hn. unfold itoa. destruct (Z.ltb_spec n 0) as [L|G].
  - destruct (utoa_val (- n) ltac:(lia)) as (Hne & Hd & Hv & _).
    unfold ParseFloat.
    change (String "-" (utoa (- n))) with (sign_text true ++ utoa (- n)).
    rewrite (decode_number_int true _ Hne Hd), Hv.
    replace (- n =? 0) with false by (symmetry; apply Z.eqb_neq; lia).
    cbn [Z.leb Z.compare].
    destruct (round_binary64_integer true (- n) ltac:(lia))
      as (m & e & E & He & Hm).
    rewrite E. eexists. split; [reflexivity|]. cbn. split; [assumption|lia].
  - destruct (Z.eq_dec n 0) as [->|Hz].
    { exists (S754_zero false). split; reflexivity. }
    destruct (utoa_val n G) as (Hne & Hd & Hv & _).
    unfold ParseFloat.
    change (utoa n) with (sign_text false ++ utoa n).
    rewrite (decode_number_int false _ Hne Hd), Hv.
    replace (n =? 0) with false by (symmetry; apply Z.eqb_neq; lia).
    cbn [Z.leb Z.compare].
    destruct (round_binary64_integer false n ltac:(lia))
      as (m & e & E & He & Hm).
    rewrite E. eexists. split; [reflexivity|]. cbn. split; assumption.
Qed.

(* ----------------------------------------------------------------- *)
(** *** What the constructors' fragments stand for *)

(** A fragment between braces parses to the value of its members. *)
Lemma fragment_decodes (s : string) (ms : list (string * tree)) (v : value) :
  scans s (body_tokens ms) ->
  tree_depth (TrObj ms) <= maxNestingDepth ->
  convert (TrObj ms) = Some v ->
  Unmarshal ("{" ++ s ++ "}") = Ok v.
Proof.
  intros Hs Hd Hc.
  exact (Unmarshal_scanned _ _ v (members_scan s ms Hs Hd) Hc).
Qed.

Ltac shallow := vm_compute; let H := fresh in intros H; discriminate H.

(** X12.  The metric aggregations read back as their field: for a
    plain field name, the fragments of [Sum], [Avg], [Min], [Max] and
    [Stats] between braces parse to a map with the one key sum, avg,
    min, max or stats, holding a map with the field name. *)
Theorem metric_aggregations_decode (field : string) :
  plain field = true ->
  Unmarshal ("{" ++ Sum field ++ "}")
  = Ok (JObject [("sum", JObject [("field", JString field)])])
  /\ Unmarshal ("{" ++ Avg field ++ "}")
     = Ok (JObject [("avg", JObject [("field", JString field)])])
  /\ Unmarshal ("{" ++ Min field ++ "}")
     = Ok (JObject [("min", JObject [("field", JString field)])])
  /\ Unmarshal ("{" ++ Max field ++ "}")
     = Ok (JObject [("max", JObject [("field", JString field)])])
  /\ Unmarshal ("{" ++ Stats field ++ "}")
     = Ok (JObject [("stats", JObject [("field", JString field)])]).
Proof.
  intros Hf.
  assert (forall key,
            convert (TrObj [(key, TrObj [("field", TrStr field)])])
            = Some (JObject [(unquote key,
                              JObject [("field", JString field)])])) as Hc.
  { intros key. cbn [convert]. now rewrite (unquote_plain field Hf). }
  repeat split.
  - apply (fragment_decodes _ _ _ (Sum_scans field Hf)); [shallow|apply Hc].
  - apply (fragment_decodes _ _ _ (Avg_scans field Hf)); [shallow|apply Hc].
  - apply (fragment_decodes _ _ _ (Min_scans field Hf)); [shallow|apply Hc].
  - apply (fragment_decodes _ _ _ (Max_scans field Hf)); [shallow|apply Hc].
  - apply (fragment_decodes _ _ _ (Stats_scans field Hf)); [shallow|apply Hc].
Qed.

(** X13.  A sort order reads back as its operands: for a plain field
    and a plain direction, the fragment of [Order] between braces
    parses to the map order / field holding the direction. *)
Theorem Order_decodes (field : string) (dir : Direction) :
  plain field = true -> plain dir = true ->
  Unmarshal ("{" ++ Order field dir ++ "}")
  = Ok (JObject [("order", JObject [(field, JString dir)])]).
Proof.
  intros Hf Hd.
  apply (fragment_decodes _ _ _ (Order_scans field dir Hf Hd)); [shallow|].
  cbn [convert]. rewrite (unquote_plain field Hf), (unquote_plain dir Hd).
  reflexivity.
Qed.

(** X14.  The counts read back exactly: for an integer below 2^53 in
    magnitude, the fragments of [MinDocCount] and [Missing] between
    braces parse to a map with the one key min_doc_count or missing,
    holding the float64 that is this integer. *)
Theorem MinDocCount_and_Missing_decode (n : Z) :
  Z.abs n < 2 ^ 53 ->
  exists f,
    float_is_integer f n
    /\ Unmarshal ("{" ++ MinDocCount n ++ "}")
       = Ok (JObject [("min_doc_count", JNumber f)])
    /\ Unmarshal ("{" ++ Missing n ++ "}")
       = Ok (JObject [("missing", JNumber f)]).
Proof.
  intros Hn. destruct (ParseFloat_itoa n Hn) as (f & E & Hf).
  exists f. split; [exact Hf|]. split.
  - apply (fragment_decodes _ _ _ (MinDocCount_scans n)); [shallow|].
    cbn [convert]. now rewrite E.
  - apply (fragment_decodes _ _ _ (Missing_scans n)); [shallow|].
    cbn [convert]. now rewrite E.
Qed.

(** X15.  Extended bounds read back exactly: for integers below 2^53
    in magnitude, the fragment of [ExtendedBounds] between braces
    parses to the map extended_bounds holding min and max. *)
Theorem ExtendedBounds_decodes (lo hi : Z) :
  Z.abs lo < 2 ^ 53 -> Z.abs hi < 2 ^ 53 ->
  exists flo fhi,
    float_is_integer flo lo /\ float_is_integer fhi hi
    /\ Unmarshal ("{" ++ ExtendedBounds lo hi ++ "}")
       = Ok (JObject
               [("extended_bounds",
                 JObject [("max", JNumber fhi); ("min", JNumber flo)])]).
Proof.
  intros Hlo Hhi.
  destruct (ParseFloat_itoa lo Hlo) as (flo & Elo & Flo).
  destruct (ParseFloat_itoa hi Hhi) as (fhi & Ehi & Fhi).
  exists flo, fhi. split; [exact Flo|]. split; [exact Fhi|].
  apply (fragment_decodes _ _ _ (ExtendedBounds_scans lo hi)); [shallow|].
  cbn [convert]. now rewrite Elo, Ehi.
Qed.

(** X16.  A terms aggregation reads back as its operands: for a plain
    field and a size below 2^53 in magnitude, the fragment of [Terms]
    between braces parses to the map terms holding the field and the
    size. *)
Theorem Terms_decodes (field : string) (size : Z) :
  plain field = true -> Z.abs size < 2 ^ 53 ->
  exists f,
    float_is_integer f size
    /\ Unmarshal ("{" ++ Terms field size ++ "}")
       = Ok (JObject
               [("terms",
                 JObject [("field", JString field); ("size", JNumber f)])]).
Proof.
  intros Hf Hn. destruct (ParseFloat_itoa size Hn) as (f & E & Ff).
  exists f. split; [exact Ff|].
  apply (fragment_decodes _ _ _ (Terms_scans field size Hf)); [shallow|].
  cbn [convert]. now rewrite E, (unquote_plain field Hf).
Qed.

(** X17.  An interval reads back as its operand: the fragment that
    [Interval] returns for a plain string or for an integer below 2^53
    in magnitude parses, between braces, to a map with the one key
    interval, holding that string or the float64 equal to that
    integer. *)
Theorem Interval_decodes (v : any) (s : string) :
  Interval v = Returns s ->
  (forall x, v = VString x -> plain x = true) ->
  (forall n, v = VInt n -> Z.abs n < 2 ^ 53) ->
  exists d,
    Unmarshal ("{" ++ s ++ "}") = Ok (JObject [("interval", d)])
    /\ match v with
       | VString x => d = JString x
       | VInt n => exists f, d = JNumber f /\ float_is_integer f n
       | _ => False
       end.
Proof.
  intros Hv Hp Hn. pose proof (Interval_scans v s Hv Hp) as Hs.
  destruct v as [x|n| | | | | |]; try discriminate.
  - exists (JString x). split; [|reflexivity].
    apply (fragment_decodes _ _ _ Hs); [shallow|].
    cbn [convert]. now rewrite (unquote_plain x (Hp x eq_refl)).
  - destruct (ParseFloat_itoa n (Hn n eq_refl)) as (f & E & Ff).
    exists (JNumber f). split; [|eauto].
    apply (fragment_decodes _ _ _ Hs); [shallow|].
    cbn [convert]. now rewrite E.
Qed.

(** X18.  A time zone reads back as the offset or as the argument:
    the fragment of [TimeZone] between braces parses to a map with the
    one key time_zone; it holds the offset of the local zone when
    there is no argument, the offset of the region when the database
    resolves the first argument, and the first argument itself, when
    plain, otherwise. *)
Theorem TimeZone_decodes (now : Z) (s : list string) :
  (forall s0 r, s = s0 :: r -> LoadLocation s0 = None -> plain s0 = true) ->
  Unmarshal ("{" ++ TimeZone now s ++ "}")
  = Ok (JObject
          [("time_zone",
            JString match s with
                    | [] => offset (Now now)
                    | s0 :: _ =>
                        match LoadLocation s0 with
                        | Some loc => offset (Time_In (Now now) loc)
                        | None => s0
                        end
                    end)]).
Proof.
  intros Hs.
  apply (fragment_decodes _ _ _ (TimeZone_scans now s Hs)); [shallow|].
  cbn [convert].
  match goal with
  | |- context [JString (unquote ?z)] => rewrite (unquote_plain z)
  end; [reflexivity|].
  destruct s as [|s0 r]; [apply offset_plain|].
  specialize (Hs s0 r eq_refl).
  destruct (LoadLocation s0); [apply offset_plain|now apply Hs].
Qed.

(* ----------------------------------------------------------------- *)
(** *** The offset of a time zone *)

Lemma pad2_value (n : Z) :
  0 <= n < 100 ->
  all_digits (pad2 n) = true /\ String.length (pad2 n) = 2%nat
  /\ digits_val 0 (pad2 n) = n.
Proof.
  intros H. destruct (pad2_digits n H) as [Hd Hl].
  split; [exact Hd|]. split; [exact Hl|].
  unfold pad2. destruct (Z.lt_ge_cases n 10).
  - rewrite utoa_small by lia.
    unfold pad_left0. cbn [String.length Nat.sub zeros append digits_val].
    change (byte_val "0") with 48. rewrite digit_char_val by lia. lia.
  - rewrite utoa_two by lia.
    unfold pad_left0. cbn [String.length Nat.sub zeros append digits_val].
    pose proof (Z.mod_pos_bound n 10 ltac:(lia)).
    assert (0 <= n / 10 < 10)
      by (split; [apply Z.div_pos; lia|apply Z.div_lt_upper_bound; lia]).
    rewrite !digit_char_val by lia.
    pose proof (Z.div_mod n 10 ltac:(lia)). lia.
Qed.

(** X19.  [TimeZone] without an argument, or with a region that the
    database resolves, writes the zone offset in force at the time of
    the call as a sign, two digits of hours, a colon and two digits of
    minutes (seconds are dropped; the sign is minus from one minute
    west on), for offsets below one hundred hours. *)
Theorem TimeZone_offset_format (now : Z) (s : list string) (loc : Location) :
  (s = [] /\ loc = Local)
  \/ (exists s0 r, s = s0 :: r /\ LoadLocation s0 = Some loc) ->
  Z.abs (Z.quot (loc now) 60) < 6000 ->
  exists hh mm,
    TimeZone now s
    = golit "'time_zone': "
      ++ String dquote
           (String (if Z.quot (loc now) 60 <? 0 then "-"%char else "+"%char)
              (hh ++ ":" ++ mm)
            ++ String dquote "")
    /\ all_digits hh = true /\ String.length hh = 2%nat
    /\ digits_val 0 hh = Z.quot (Z.abs (Z.quot (loc now) 60)) 60
    /\ all_digits mm = true /\ String.length mm = 2%nat
    /\ digits_val 0 mm = Z.rem (Z.abs (Z.quot (loc now) 60)) 60.
Proof.
  intros Hs Hz. set (zone := Z.quot (loc now) 60) in *.
  assert (0 <= Z.quot (Z.abs zone) 60 < 100) as Hh.
  { split; [apply Z.quot_pos; lia|].
    apply Z.quot_lt_upper_bound; lia. }
  assert (0 <= Z.rem (Z.abs zone) 60 < 100) as Hm.
  { pose proof (Z.rem_bound_pos (Z.abs zone) 60 ltac:(lia) ltac:(lia)). lia. }
  destruct (pad2_value _ Hh) as (Hd & Hl & Hv).
  destruct (pad2_value _ Hm) as (Md & Ml & Mv).
  exists (pad2 (Z.quot (Z.abs zone) 60)), (pad2 (Z.rem (Z.abs zone) 60)).
  split; [|auto 10].
  rewrite TimeZone_text.
  assert (match s with
          | [] => offset (Now now)
          | s0 :: _ =>
              match LoadLocation s0 with
              | Some loc0 => offset (Time_In (Now now) loc0)
              | None => s0
              end
          end
          = String (if zone <? 0 then "-"%char else "+"%char)
              (pad2 (Z.quot (Z.abs zone) 60) ++ ":"
               ++ pad2 (Z.rem (Z.abs zone) 60))) as E.
  { destruct Hs as [[-> ->]|(s0 & r & -> & ->)]; reflexivity. }
  rewrite E, Quote_plain; [reflexivity|].
  rewrite <- E.
  destruct Hs as [[-> ->]|(s0 & r & -> & ->)]; apply offset_plain.
Qed.

(* ----------------------------------------------------------------- *)
(** *** Named aggregations *)

Lemma convert_member (k : string) (x : tree) (v : value) :
  convert x = Some v ->
  convert (TrObj [(k, x)]) = Some (JObject [(unquote k, v)]).
Proof. intros H. rewrite convert_obj. cbn [convert_members]. now rewrite H. Qed.

Lemma tree_depth_member (k : string) (x : tree) :
  0 <= tree_depth x -> tree_depth (TrObj [(k, x)]) = 1 + tree_depth x.
Proof. intros H. cbn [tree_depth fold_right snd]. lia. Qed.

Lemma tree_depth_nonneg (t : tree) : 0 <= tree_depth t.
Proof.
  destruct t as [| | | |l|ms]; try (cbn; lia).
  - pose proof (tree_depth_pos_arr l). lia.
  - pose proof (tree_depth_pos_obj ms). lia.
Qed.

(** X20.  A named aggregation nests its children under its name: for
    a plain name and composed children that stand for the members
    [ms], the fragment of [Aggs] around [Agg name children] parses,
    between braces, to the map aggs / name holding the value of the
    object with the members [ms]. *)
Theorem Agg_nests_children (name : string) (children : list string)
    (ms : list (string * tree)) (v : value) :
  plain name = true -> Member_fragments children ms ->
  2 + tree_depth (TrObj ms) <= maxNestingDepth ->
  convert (TrObj ms) = Some v ->
  Unmarshal ("{" ++ Aggs [Agg name children] ++ "}")
  = Ok (JObject [("aggs", JObject [(name, v)])]).
Proof.
  intros Hn Hm Hd Hc.
  destruct Member_fragment_scans as [_ H].
  destruct (H children ms Hm) as [Hs _]. clear H.
  pose proof (Agg_scans name children ms Hn Hs) as Ha.
  rewrite <- (join_single (Agg name children)) in Ha.
  pose proof (Aggs_scans _ _ Ha) as Hs'.
  set (A := TrObj ms) in *.
  apply (fragment_decodes _ _ _ Hs').
  - pose proof (tree_depth_nonneg A).
    rewrite !tree_depth_member; rewrite ?tree_depth_member; lia.
  - rewrite (convert_member "aggs" _ (JObject [(name, v)])); [reflexivity|].
    rewrite (convert_member name A v Hc). now rewrite (unquote_plain name Hn).
Qed.

(* ----------------------------------------------------------------- *)
(** *** Histograms without options *)

Lemma DateHistogram_alone_scans (field : string) :
  plain field = true ->
  scans (DateHistogram field [])
    [TStr "date_histogram"; TColon; TLBrace; TStr "field"; TColon;
     TStr field; TComma; TRBrace].
Proof.
  intros Hf tail Ht. rewrite DateHistogram_text. change (join []) with "".
  scan_text. reflexivity.
Qed.

Lemma Histogram_alone_scans (field : string) :
  plain field = true ->
  scans (Histogram field [])
    [TStr "histogram"; TColon; TLBrace; TStr "field"; TColon;
     TStr field; TComma; TRBrace].
Proof.
  intros Hf tail Ht. rewrite Histogram_text. change (join []) with "".
  scan_text. reflexivity.
Qed.

(** A query with one named aggregation whose body is scanned as [ts]. *)
Lemma lex_query_of_aggregation (name body : string) (ts : list token) :
  plain name = true -> scans body ts ->
  lex (golit "{
    'size': 0,
    " ++ join [Aggs [Agg name [body]]] ++ "
  }")
  = Some ([TLBrace; TStr "size"; TColon; TNum "0"; TComma;
           TStr "aggs"; TColon; TLBrace; TStr name; TColon; TLBrace]
          ++ ts ++ [TRBrace; TRBrace; TRBrace])%list.
Proof.
  intros Hn Hb.
  rewrite !join_single, Aggs_text, !join_single, Agg_text, !join_single.
  apply lex_of_run. scan_text.
  replace (lex_run LStart "
  }") with (Some ([TRBrace], LStart)) by (vm_compute; reflexivity).
  cbn [prepend]. f_equal. f_equal. tokens_eq.
Qed.

(** X21.  A histogram without options breaks the query: the fragments
    of [DateHistogram] and [Histogram] called with a field alone end
    their object with a comma, so a query with such an aggregation
    panics. *)
Theorem histogram_without_options_panics (name field : string) :
  plain name = true -> plain field = true ->
  Query [Aggs [Agg name [DateHistogram field []]]]
  = Panics (error_text SyntaxError)
  /\ Query [Aggs [Agg name [Histogram field []]]]
     = Panics (error_text SyntaxError).
Proof.
  intros Hn Hf.
  split; rewrite Query_text; unfold compress, Unmarshal, scan.
  - rewrite (lex_query_of_aggregation name _ _ Hn
               (DateHistogram_alone_scans field Hf)).
    match goal with
    | |- context [parse ?ts] =>
        assert (parse ts = None) as -> by (vm_compute; reflexivity)
    end.
    reflexivity.
  - rewrite (lex_query_of_aggregation name _ _ Hn
               (Histogram_alone_scans field Hf)).
    match goal with
    | |- context [parse ?ts] =>
        assert (parse ts = None) as -> by (vm_compute; reflexivity)
    end.
    reflexivity.
Qed.

(* ----------------------------------------------------------------- *)
(** *** Histograms with options *)

Lemma tree_depth_field_first (k field : string) (ms : list (string * tree)) :
  tree_depth (TrObj [(k, TrObj (("field", TrStr field) :: ms))])
  = 1 + tree_depth (TrObj ms).
Proof.
  pose proof (tree_depth_pos_obj ms) as H. revert H.
  cbn [tree_depth fold_right snd]. lia.
Qed.

(** X22.  A histogram with options reads back as its field and its
    options: for a plain field and composed options that stand for the
    members [ms], not all empty, the fragments of [DateHistogram] and of
    [Histogram] parse, between braces, to the map date_histogram
    (histogram) holding the value of the object whose members are the
    field followed by [ms]. *)
Theorem histogram_with_options_decodes (field : string)
    (options : list string) (ms : list (string * tree)) (v : value) :
  plain field = true -> Member_fragments options ms -> ms <> [] ->
  1 + tree_depth (TrObj ms) <= maxNestingDepth ->
  convert (TrObj (("field", TrStr field) :: ms)) = Some v ->
  Unmarshal ("{" ++ DateHistogram field options ++ "}")
  = Ok (JObject [("date_histogram", v)])
  /\ Unmarshal ("{" ++ Histogram field options ++ "}")
     = Ok (JObject [("histogram", v)]).
Proof.
  intros Hf Hm Hne Hd Hc.
  destruct Member_fragment_scans as [_ H].
  destruct (H options ms Hm) as [Hs _]. clear H.
  split.
  - apply (fragment_decodes _ _ _ (DateHistogram_scans field options ms Hf Hne Hs)).
    + now rewrite tree_depth_field_first.
    + exact (convert_member "date_histogram" _ v Hc).
  - apply (fragment_decodes _ _ _ (Histogram_scans field options ms Hf Hne Hs)).
    + now rewrite tree_depth_field_first.
    + exact (convert_member "histogram" _ v Hc).
Qed.

(* ----------------------------------------------------------------- *)
(** *** Repeated keys *)

Lemma map_get_map_set_other (k k' : string) (v : value)
    (m : list (string * value)) :
  k <> k' -> map_get k (map_set k' v m) = map_get k m.
Proof.
  intros Hne. induction m as [|[k1 v1] m IH]; cbn [map_set map_get].
  - destruct (String.eqb_spec k k'); [contradiction|reflexivity].
  - destruct (String.compare k' k1) eqn:E; cbn [map_get].
    + apply String.compare_eq_iff in E. subst k1.
      destruct (String.eqb_spec k k'); [contradiction|reflexivity].
    + destruct (String.eqb_spec k k'); [contradiction|reflexivity].
    + now rewrite IH.
Qed.

(** Members with other keys leave the value of a key as it was. *)
Lemma convert_members_other (ms : list (string * tree)) (k : string) :
  forall acc m,
    convert_members ms acc = Some m ->
    Forall (fun kv => unquote (fst kv) <> k) ms ->
    map_get k m = map_get k acc.
Proof.
  induction ms as [|[k1 x1] ms IH]; intros acc m.
  - now intros [= <-].
  - cbn [convert_members]. destruct (convert x1) as [v1|]; [|discriminate].
    intros H F. inversion F as [|? ? Hk Hr]; subst.
    rewrite (IH _ _ H Hr). apply map_get_map_set_other.
    cbn [fst] in Hk. congruence.
Qed.

(** The last member with a key gives the key its value. *)
Lemma convert_members_last (ms1 ms2 : list (string * tree)) (k : string)
    (x : tree) (v : value) :
  forall acc m,
    convert_members (ms1 ++ (k, x) :: ms2) acc = Some m ->
    convert x = Some v ->
    Forall (fun kv => unquote (fst kv) <> unquote k) ms2 ->
    map_get (unquote k) m = Some v.
Proof.
  induction ms1 as [|[k1 x1] ms1 IH]; intros acc m.
  - cbn [app convert_members]. intros H Hx F. rewrite Hx in H.
    rewrite (convert_members_other ms2 (unquote k) _ m H F).
    apply map_get_map_set.
  - cbn [app convert_members]. destruct (convert x1) as [v1|]; [|discriminate].
    apply IH.
Qed.

(** X23.  The marker of [Query] survives unless a child replaces it:
    on composed children whose numbers fit a float64, the document that
    [Query] returns holds the number 0 under size when no member of the
    children is named size, and otherwise holds the value of the last
    member of that name. *)
Theorem Query_size_marker (children : list string)
    (ms : list (string * tree)) :
  Member_fragments children ms -> ms <> [] ->
  tree_depth (TrObj ms) <= maxNestingDepth ->
  numbers_in_range (TrObj ms) = true ->
  exists out m,
    Query children = Returns out
    /\ Unmarshal out = Ok (JObject m)
    /\ (Forall (fun kv => unquote (fst kv) <> "size") ms ->
        map_get "size" m = Some (JNumber (S754_zero false)))
    /\ (forall ms1 k x ms2 v,
          ms = (ms1 ++ (k, x) :: ms2)%list -> unquote k = "size" ->
          Forall (fun kv => unquote (fst kv) <> "size") ms2 ->
          convert x = Some v ->
          map_get "size" m = Some v).
Proof.
  intros Hm Hne Hd Hr.
  destruct Member_fragment_scans as [_ H].
  destruct (H children ms Hm) as [Hs _]. clear H.
  pose proof (document_scan children ms Hs Hne Hd) as Es.
  assert (numbers_in_range (TrObj (("size", TrNum "0") :: ms)) = true) as Hr'
    by exact Hr.
  apply convert_in_range in Hr' as [v Ec].
  destruct (encode_decoded _ v Ec) as [out Eo].
  pose proof Ec as Em. rewrite convert_obj in Em.
  destruct (convert_members (("size", TrNum "0") :: ms) []) as [m|] eqn:E;
    [|discriminate].
  injection Em as <-.
  exists out, m. rewrite Query_text. unfold compress.
  rewrite (Unmarshal_scanned _ _ _ Es Ec). unfold Marshal. rewrite Eo.
  split; [reflexivity|].
  split; [exact (Unmarshal_encode _ _ _ out Es Ec Eo)|].
  split.
  - intros F.
    exact (convert_members_last [] ms "size" (TrNum "0") _ [] m E eq_refl F).
  - intros ms1 k x ms2 w -> Hk F Hx. rewrite <- Hk in F |- *.
    exact (convert_members_last (("size", TrNum "0") :: ms1) ms2 k x w [] m
             E Hx F).
Qed.

Lemma convert_repeated (k : string) (a b : tree) (va : value) :
  convert a = Some va ->
  convert (TrObj [(k, a); (k, b)]) = convert (TrObj [(k, b)]).
Proof.
  intros Ha. rewrite !convert_obj. cbn [convert_members]. rewrite Ha.
  destruct (convert b); [|reflexivity].
  cbn [map_set]. now rewrite string_compare_refl.
Qed.

(** X24.  Of two aggregations with one name the first is dropped: when
    the children of the first hold no number outside the float64
    range, [Query] on [Aggs] with two [Agg] of the same plain name
    gives exactly what it gives on the second alone. *)
Theorem repeated_aggregation_name (name : string) (first second : list string)
    (ms1 ms2 : list (string * tree)) :
  plain name = true ->
  Member_fragments first ms1 -> Member_fragments second ms2 ->
  2 + tree_depth (TrObj ms1) <= maxNestingDepth ->
  2 + tree_depth (TrObj ms2) <= maxNestingDepth ->
  numbers_in_range (TrObj ms1) = true ->
  Query [Aggs [Agg name first; Agg name second]]
  = Query [Aggs [Agg name second]].
Proof.
  intros Hn H1 H2 D1 D2 R1.
  apply convert_in_range in R1 as [v1 E1].
  assert (Member_fragments [Aggs [Agg name first; Agg name second]]
            [("aggs", TrObj [(name, TrObj ms1); (name, TrObj ms2)])]) as Hboth.
  { apply (Ms_cons _ [("aggs", _)] [] []); [|apply Ms_nil].
    apply F_Aggs.
    apply (Ms_cons _ [(name, _)] [_] [(name, _)]); [now apply Agg_fragment_plain|].
    apply (Ms_cons _ [(name, _)] [] []); [now apply Agg_fragment_plain|apply Ms_nil]. }
  assert (Member_fragments [Aggs [Agg name second]]
            [("aggs", TrObj [(name, TrObj ms2)])]) as Hone.
  { apply (Ms_cons _ [("aggs", _)] [] []); [|apply Ms_nil].
    apply F_Aggs.
    apply (Ms_cons _ [(name, _)] [] []); [now apply Agg_fragment_plain|apply Ms_nil]. }
  destruct Member_fragment_scans as [_ H].
  destruct (H _ _ Hboth) as [Sboth _]. destruct (H _ _ Hone) as [Sone _].
  clear H.
  pose proof (tree_depth_pos_obj ms1) as P1.
  pose proof (tree_depth_pos_obj ms2) as P2.
  assert (scan (golit "{
    'size': 0,
    " ++ join [Aggs [Agg name first; Agg name second]] ++ "
  }") = Some (TrObj [("size", TrNum "0");
                     ("aggs", TrObj [(name, TrObj ms1); (name, TrObj ms2)])]))
    as Eboth.
  { apply (document_scan _ _ Sboth); [intros E; discriminate E|].
    revert D1 D2 P1 P2. cbn [tree_depth fold_right snd]. lia. }
  assert (scan (golit "{
    'size': 0,
    " ++ join [Aggs [Agg name second]] ++ "
  }") = Some (TrObj [("size", TrNum "0");
                     ("aggs", TrObj [(name, TrObj ms2)])])) as Eone.
  { apply (document_scan _ _ Sone); [intros E; discriminate E|].
    revert D2 P2. cbn [tree_depth fold_right snd]. lia. }
  rewrite !Query_text. unfold compress, Unmarshal. rewrite Eboth, Eone.
  rewrite (convert_obj (_ :: [("aggs", TrObj [_; _])])).
  rewrite (convert_obj (_ :: [("aggs", TrObj [_])])).
  cbn [convert_members].
  now rewrite (convert_repeated name _ _ v1 E1).
Qed.

(* ----------------------------------------------------------------- *)
(** *** Filters beside the children *)

(** Members read into two maps: a key ends with the same value in
    both, or with the value it had in each. *)
Lemma convert_members_two (ms : list (string * tree)) (k : string) :
  forall acc acc' m m',
    convert_members ms acc = Some m -> convert_members ms acc' = Some m' ->
    map_get k m = map_get k m'
    \/ (map_get k m = map_get k acc /\ map_get k m' = map_get k acc').
Proof.
  induction ms as [|[k1 x1] ms IH]; intros acc acc' m m'.
  - intros [= <-] [= <-]. now right.
  - cbn [convert_members]. destruct (convert x1) as [v1|]; [|discriminate].
    intros H H'. destruct (IH _ _ _ _ H H') as [E|[E E']]; [now left|].
    destruct (string_dec k (unquote k1)) as [->|Hne].
    + left. now rewrite E, E', !map_get_map_set.
    + right. now rewrite E, E', !map_get_map_set_other.
Qed.

Lemma tree_depth_filter (l : list tree) (ms : list (string * tree)) :
  tree_depth
    (TrObj (("filter", TrObj [("bool", TrObj [("filter", TrArr l)])]) :: ms))
  = Z.max (3 + tree_depth (TrArr l)) (tree_depth (TrObj ms)).
Proof.
  pose proof (tree_depth_pos_arr l) as H. pose proof (tree_depth_pos_obj ms) as H'.
  revert H H'. cbn [tree_depth fold_right snd]. lia.
Qed.

(** X25.  The function returned by [Filter] puts the filters beside
    the children: for composed filters that stand for the elements [l]
    and composed children, not all empty, none of whose members is
    named filter, the fragment parses, between braces, to a map that
    holds filter / bool / filter with the list of the filters' values,
    and under every other key what the children alone give. *)
Theorem Filter_decodes (filters children : list string) (l : list tree)
    (ms : list (string * tree)) (vs : list value)
    (m' : list (string * value)) :
  Value_fragments filters l -> Member_fragments children ms -> ms <> [] ->
  3 + tree_depth (TrArr l) <= maxNestingDepth ->
  tree_depth (TrObj ms) <= maxNestingDepth ->
  convert_elements l = Some vs ->
  convert (TrObj ms) = Some (JObject m') ->
  Forall (fun kv => unquote (fst kv) <> "filter") ms ->
  exists m,
    Unmarshal ("{" ++ Filter filters children ++ "}") = Ok (JObject m)
    /\ map_get "filter" m
       = Some (JObject [("bool", JObject [("filter", JArray vs)])])
    /\ forall k, k <> "filter" -> map_get k m = map_get k m'.
Proof.
  intros Hv Hm Hne Dl Dm El Em F.
  apply Value_fragments_scans in Hv as [Hfs _].
  destruct Member_fragment_scans as [_ H].
  destruct (H children ms Hm) as [Hs _]. clear H.
  pose proof (Filter_scans filters children l ms Hfs Hs Hne) as Sf.
  set (B := TrObj [("bool", TrObj [("filter", TrArr l)])]) in *.
  assert (convert B
          = Some (JObject [("bool", JObject [("filter", JArray vs)])])) as Eb.
  { unfold B. rewrite (convert_member "bool" (TrObj [("filter", TrArr l)])
                         (JObject [("filter", JArray vs)])); [reflexivity|].
    apply (convert_member "filter"). now rewrite convert_arr, El. }
  rewrite convert_obj in Em.
  destruct (convert_members ms []) as [m0|] eqn:E0; [|discriminate].
  injection Em as ->.
  destruct (convert_members (("filter", B) :: ms) []) as [m|] eqn:E.
  2:{ exfalso. cbn [convert_members] in E. rewrite Eb in E.
      now rewrite (convert_members_none_acc ms _ [] E) in E0. }
  exists m. split; [|split].
  - apply (fragment_decodes _ _ _ Sf).
    + unfold B. rewrite tree_depth_filter. lia.
    + now rewrite convert_obj, E.
  - exact (convert_members_last [] ms "filter" B _ [] m E Eb F).
  - intros k Hk. cbn [convert_members] in E. rewrite Eb in E.
    destruct (convert_members_two ms k _ _ _ _ E E0) as [G|[G G']];
      [exact G|].
    rewrite G, G'. cbn [map_set map_get unquote].
    change (unquote "filter") with "filter".
    destruct (String.eqb_spec k "filter"); [contradiction|reflexivity].
Qed.

(* ----------------------------------------------------------------- *)
(** *** Quotes, backslashes and control bytes in operands *)

Lemma accepted_byte_ascii (c : ascii) :
  accepted_byte c = true -> byte_val c < 128.
Proof.
  unfold accepted_byte, in_range. intros H.
  repeat (apply orb_true_iff in H as [H|H]);
    try (apply Z.eqb_eq in H; lia).
  apply andb_true_iff in H as [_ H]. apply Z.leb_le in H. lia.
Qed.

Lemma refused_byte_ascii (c : ascii) :
  refused_byte c = true -> byte_val c < 128.
Proof.
  unfold refused_byte. intros H. apply andb_true_iff in H as [H _].
  apply orb_true_iff in H as [H|H];
    [apply Z.ltb_lt in H|apply Z.eqb_eq in H]; lia.
Qed.

(** What [%q] writes for an accepted byte stays inside the string. *)
Lemma str_run_accepted_byte (c : ascii) :
  accepted_byte c = true ->
  str_run SIn (appendEscapedRune (byte_val c)) = Some SIn.
Proof.
  intros H.
  destruct c as [[] [] [] [] [] [] [] []]; try discriminate H;
    vm_compute; reflexivity.
Qed.

(** ... and stands for the byte. *)
Lemma unquote_accepted_byte (c : ascii) (r : string) :
  accepted_byte c = true ->
  unquote_from 0 (appendEscapedRune (byte_val c) ++ r)
  = String c (unquote_from 0 r).
Proof.
  intros H.
  destruct c as [[] [] [] [] [] [] [] []]; try discriminate H; reflexivity.
Qed.

Lemma accepted_str_run (s : string) :
  accepted s = true -> str_run SIn (quote_body 0 s) = Some SIn.
Proof.
  induction s as [|c s IH]; [reflexivity|]. cbn [accepted].
  intros H. apply andb_true_iff in H as [Hc Hs].
  rewrite (quote_body_ascii c s (accepted_byte_ascii c Hc)), str_run_app.
  rewrite (str_run_accepted_byte c Hc). now apply IH.
Qed.

Lemma unquote_quote_body (s : string) :
  accepted s = true -> unquote (quote_body 0 s) = s.
Proof.
  unfold unquote. induction s as [|c s IH]; [reflexivity|]. cbn [accepted].
  intros H. apply andb_true_iff in H as [Hc Hs].
  rewrite (quote_body_ascii c s (accepted_byte_ascii c Hc)).
  now rewrite (unquote_accepted_byte c _ Hc), IH.
Qed.

(** What [%q] writes for an accepted string is one string token. *)
Lemma lex_run_quote_accepted (s tail : string) :
  accepted s = true ->
  lex_run LStart (Quote s ++ tail)
  = prepend [TStr (quote_body 0 s)] (lex_run LStart tail).
Proof.
  intros H. unfold Quote. cbn [append]. rewrite append_assoc.
  cbn [append]. now rewrite lex_run_string by now apply accepted_str_run.
Qed.

Ltac scan_quoted :=
  rewrite ?append_assoc;
  repeat first
    [ rewrite lex_run_quote_accepted by assumption
    | erewrite lex_run_literal by (vm_compute; reflexivity) ];
  rewrite <- ?prepend_app.

(** X26.  Quotes, backslashes and the usual control bytes in an
    operand cannot break out of its string: for operands made of
    printable ASCII, double quote and backslash included, and of
    backspace, tab, newline, form feed and carriage return, the texts
    of [Term] and of [Range] are well formed and parse to maps that
    hold the operands exactly as they were given. *)
Theorem quoted_operands_read_back (a b : string) :
  accepted a = true -> accepted b = true ->
  Unmarshal (Term a b) = Ok (JObject [("term", JObject [(a, JString b)])])
  /\ Unmarshal (Range a b)
     = Ok (JObject
             [("range",
               JObject
                 [("timestamp",
                   JObject [("gte", JString a); ("lte", JString b)])])]).
Proof.
  intros Ha Hb. split.
  - apply (Unmarshal_scanned _
             (TrObj [("term",
                      TrObj [(quote_body 0 a, TrStr (quote_body 0 b))])])).
    + apply value_scan;
        [|unfold maxNestingDepth; cbn [tree_depth fold_right snd]; lia].
      intros tail Ht. rewrite Term_text. scan_quoted. reflexivity.
    + cbn [convert].
      rewrite (unquote_quote_body a Ha), (unquote_quote_body b Hb).
      reflexivity.
  - apply (Unmarshal_scanned _
             (TrObj [("range",
                      TrObj [("timestamp",
                              TrObj [("gte", TrStr (quote_body 0 a));
                                     ("lte", TrStr (quote_body 0 b))])])])).
    + apply value_scan;
        [|unfold maxNestingDepth; cbn [tree_depth fold_right snd]; lia].
      intros tail Ht. rewrite Range_text. scan_quoted. reflexivity.
    + cbn [convert].
      rewrite (unquote_quote_body a Ha), (unquote_quote_body b Hb).
      reflexivity.
Qed.

(* ----------------------------------------------------------------- *)
(** *** Refused control bytes in operands *)

Lemma appendEscapedRune_refused (c : ascii) :
  refused_byte c = true ->
  match appendEscapedRune (byte_val c) with
  | String "\" (String e _) => str_next SEsc e
  | _ => Some SIn
  end = None.
Proof.
  intros H.
  destruct c as [[] [] [] [] [] [] [] []]; try discriminate H;
    vm_compute; reflexivity.
Qed.

Lemma quote_body_app (pre s : string) :
  accepted pre = true ->
  quote_body 0 (pre ++ s) = quote_body 0 pre ++ quote_body 0 s.
Proof.
  induction pre as [|c pre IH]; [reflexivity|]. cbn [accepted append].
  intros H. apply andb_true_iff in H as [Hc Hp].
  rewrite !(quote_body_ascii c _ (accepted_byte_ascii c Hc)), (IH Hp).
  now rewrite append_assoc.
Qed.

(** The scanner stops inside the string that [%q] writes for an
    operand with a refused byte after an accepted prefix. *)
Lemma lex_run_quote_refused (pre post tail : string) (c : ascii) :
  accepted pre = true -> refused_byte c = true ->
  lex_run LStart (Quote (pre ++ String c post) ++ tail) = None.
Proof.
  intros Hp Hc. unfold Quote.
  rewrite (quote_body_app pre _ Hp),
    (quote_body_ascii c post (refused_byte_ascii c Hc)).
  pose proof (appendEscapedRune_refused c Hc) as He.
  destruct (appendEscapedRune (byte_val c)) as [|b q]; [discriminate He|].
  assert (b = "\"%char) as ->.
  { destruct (Ascii.eqb_spec b "\") as [Hb|Hb]; [exact Hb|]. exfalso.
    destruct b as [[] [] [] [] [] [] [] []]; try discriminate He.
    now apply Hb. }
  destruct q as [|e r]; [discriminate He|].
  cbn [append]. rewrite lex_run_cons.
  change (lstep LStart dquote) with (Some (@nil token, LStr SIn "")).
  cbv beta iota. rewrite prepend_nil, !append_assoc.
  rewrite (lex_run_str (quote_body 0 pre) SIn SIn "" _
             (accepted_str_run pre Hp)).
  cbn [append]. rewrite lex_run_cons, lstep_backslash, prepend_nil.
  now rewrite lex_run_cons, (lstep_not_escape _ e He).
Qed.

Lemma Unmarshal_not_scanned (T : string) :
  lex_run LStart T = None -> Unmarshal T = Err SyntaxError.
Proof. intros H. unfold Unmarshal, scan, lex. now rewrite H. Qed.

(** X27.  Any other control byte in a string operand breaks the
    document: when an operand holds, after accepted bytes, a byte
    below 0x20 other than backspace, tab, newline, form feed and
    carriage return, or the byte 0x7f, [%q] writes an escape that JSON
    does not have; the text of [Term] is then refused, and [Query]
    panics on an aggregation whose name is such a string, whatever its
    children. *)
Theorem control_bytes_are_refused (pre post other : string) (c : ascii)
    (children : list string) :
  accepted pre = true -> refused_byte c = true ->
  Unmarshal (Term (pre ++ String c post) other) = Err SyntaxError
  /\ (accepted other = true ->
      Unmarshal (Term other (pre ++ String c post)) = Err SyntaxError)
  /\ Query [Aggs [Agg (pre ++ String c post) children]]
     = Panics (error_text SyntaxError).
Proof.
  intros Hp Hc. split; [|split].
  - apply Unmarshal_not_scanned. rewrite Term_text.
    erewrite lex_run_literal by (vm_compute; reflexivity).
    now rewrite lex_run_quote_refused.
  - intros Ho. apply Unmarshal_not_scanned. rewrite Term_text.
    erewrite lex_run_literal by (vm_compute; reflexivity).
    rewrite lex_run_quote_accepted by assumption.
    erewrite lex_run_literal by (vm_compute; reflexivity).
    now rewrite lex_run_quote_refused.
  - rewrite Query_text, !join_single, Aggs_text, !join_single, Agg_text.
    unfold compress. rewrite Unmarshal_not_scanned; [reflexivity|].
    rewrite ?append_assoc.
    do 3 (erewrite lex_run_literal by (vm_compute; reflexivity)).
    now rewrite lex_run_quote_refused.
Qed.

(* ----------------------------------------------------------------- *)
(** *** Whole percents *)

Lemma round_half_even_scale (a b k : Z) :
  0 < b -> 0 < k -> round_half_even (a * k) (b * k) = round_half_even a b.
Proof.
  intros Hb Hk. unfold round_half_even.
  rewrite Z.div_mul_cancel_r by lia.
  rewrite Z.mul_mod_distr_r by lia.
  pose proof (Z.mod_pos_bound a b Hb) as Hr.
  destruct (Z.ltb_spec (2 * (a mod b)) b);
    destruct (Z.ltb_spec (2 * (a mod b * k)) (b * k)); try nia; try reflexivity.
  destruct (Z.ltb_spec b (2 * (a mod b)));
    destruct (Z.ltb_spec (b * k) (2 * (a mod b * k))); try nia; reflexivity.
Qed.

Lemma round_binary64_scale (neg : bool) (p q k : Z) :
  0 < q -> 0 < k ->
  round_binary64 neg (p * k) (q * k) = round_binary64 neg p q.
Proof.
  intros Hq Hk. unfold round_binary64.
  replace (p * k * 2 ^ 1074) with (p * 2 ^ 1074 * k) by ring.
  rewrite Z.div_mul_cancel_r by lia.
  set (shift := Z.max 0 (Z.log2 (p * 2 ^ 1074 / q) - 52)).
  assert (0 < 2 ^ shift) as Hs by (apply Z.pow_pos_nonneg; lia).
  replace (q * k * 2 ^ shift) with (q * 2 ^ shift * k) by ring.
  now rewrite round_half_even_scale by nia.
Qed.

(** The text [a.00], signed, converts to the integer [a]. *)
Lemma decode_number_fixed (neg : bool) (a : Z) :
  0 <= a ->
  decode_number (sign_text neg ++ utoa a ++ ".00") = (neg, a * 100, -2).
Proof.
  intros Ha. destruct (utoa_val a Ha) as (Hne & Hd & Hv & _).
  destruct (digit_head _ Hne Hd) as (c & r & E & Hc).
  assert (match utoa a ++ ".00" with
          | String "-" r' => (true, r')
          | _ => (false, utoa a ++ ".00")
          end = (false, utoa a ++ ".00")) as Hm.
  { rewrite E. cbn [append].
    destruct c as [[] [] [] [] [] [] [] []]; try reflexivity.
    discriminate Hc. }
  assert (decode_number (utoa a ++ ".00") = (false, a * 100, -2)) as Hpos.
  { unfold decode_number. rewrite Hm.
    rewrite (span_digits_app (utoa a) ".00" Hd eq_refl).
    cbv beta iota.
    change (span_digits "00") with ("00", "").
    cbv beta iota. rewrite digits_val_app, Hv.
    cbn [digits_val String.length Z.of_nat].
    f_equal. f_equal. change (byte_val "0") with 48. lia. }
  destruct neg; [|exact Hpos]. cbn [sign_text append].
  unfold decode_number in *. cbv beta iota. rewrite Hm in Hpos.
  destruct (span_digits (utoa a ++ ".00")) as [ip s2].
  destruct (match s2 with String "." r' => span_digits r' | _ => ("", s2) end)
    as [fp s3].
  now injection Hpos as -> ->.
Qed.

Lemma ParseFloat_fixed (neg : bool) (a : Z) :
  0 <= a < 2 ^ 53 ->
  exists f,
    ParseFloat (sign_text neg ++ utoa a ++ ".00") = Some f
    /\ float_is_integer f (if neg then - a else a).
Proof.
  intros Ha. unfold ParseFloat. rewrite decode_number_fixed by lia.
  destruct (Z.eq_dec a 0) as [->|Hz].
  { exists (S754_zero neg). split; [reflexivity|]. destruct neg; reflexivity. }
  replace (a * 100 =? 0) with false by (symmetry; apply Z.eqb_neq; lia).
  cbn [Z.leb Z.compare Z.opp]. change (10 ^ 2) with (1 * 100).
  rewrite round_binary64_scale by lia.
  destruct (round_binary64_integer neg a ltac:(lia)) as (m & e & E & He & Hm).
  change (10 ^ 0) with 1 in E. rewrite Z.mul_1_r in E. rewrite E.
  eexists. split; [reflexivity|]. cbn [float_is_integer]. split; [exact He|].
  destruct neg; lia.
Qed.

(** What [%0.2f] writes for a float64 that is an integer. *)
Lemma fmt_f_integer (f : float64) (n : Z) :
  float_is_integer f n ->
  exists (neg : bool) (a : Z),
    0 <= a /\ n = (if neg then - a else a)
    /\ fmt_f 2 f = sign_text neg ++ utoa a ++ ".00".
Proof.
  destruct f as [s|s| |s m e]; cbn [float_is_integer]; try contradiction.
  - intros ->. exists s, 0. split; [lia|]. split; [now destruct s|].
    destruct s; reflexivity.
  - intros [He Hm]. exists s, (Z.abs n).
    assert (0 < 2 ^ (- e)) as Hp by (apply Z.pow_pos_nonneg; lia).
    assert (Z.pos m = Z.abs n * 2 ^ (- e)) as Em by (destruct s; nia).
    split; [lia|]. split; [destruct s; nia|].
    assert (scaled_round m e 2 = Z.abs n * 100) as Es.
    { unfold scaled_round. change (10 ^ Z.of_nat 2) with 100.
      destruct (Z.leb_spec 0 e).
      - replace e with 0 in * by lia. change (2 ^ (- 0)) with 1 in Em.
        change (2 ^ 0) with 1. lia.
      - rewrite Em.
        replace (Z.abs n * 2 ^ (- e) * 100)
          with (Z.abs n * 100 * 2 ^ (- e)) by ring.
        now apply round_half_even_exact. }
    cbn [fmt_f]. rewrite Es. unfold format_fixed.
    change (10 ^ Z.of_nat 2) with 100.
    rewrite Z.div_mul, Z.mod_mul by lia.
    destruct s; reflexivity.
Qed.

Lemma convert_whole_percents (ps : list float64) (ns : list Z) :
  Forall2 float_is_integer ps ns ->
  Forall (fun n => Z.abs n < 2 ^ 53) ns ->
  exists vs,
    convert_elements (map (fun x => TrNum (fmt_f 2 x)) ps) = Some vs
    /\ Forall2 (fun v n => exists f, v = JNumber f /\ float_is_integer f n)
         vs ns.
Proof.
  induction 1 as [|p n ps ns Hp _ IH]; intros Hb.
  - exists []. split; [reflexivity|constructor].
  - inversion Hb as [|? ? Hn Hr]; subst.
    destruct (IH Hr) as (vs & E & Hvs).
    destruct (fmt_f_integer p n Hp) as (neg & a & Ha & En & Et).
    destruct (ParseFloat_fixed neg a) as (f & Ef & Hf);
      [split; [exact Ha|destruct neg; lia]|].
    exists (JNumber f :: vs). split.
    + cbn [map convert_elements]. fold convert_elements.
      cbn [convert]. now rewrite Et, Ef, E.
    + constructor; [|exact Hvs]. exists f. split; [reflexivity|].
      now rewrite En.
Qed.

Lemma whole_percents_finite (ps : list float64) (ns : list Z) :
  Forall2 float_is_integer ps ns -> forallb is_finite ps = true.
Proof.
  induction 1 as [|p n ps ns Hp _ IH]; [reflexivity|].
  cbn [forallb]. rewrite IH, andb_true_r.
  destruct p; try reflexivity; contradiction.
Qed.

(** X28.  Whole percents read back exactly: for a plain field and one
    or more percents that are integers below 2^53 in magnitude, the
    fragment of [Percentiles] parses, between braces, to the map stats
    holding the field and, under percents, the list of the float64s
    equal to those integers. *)
Theorem Percentiles_decodes (field : string) (percents : list float64)
    (ns : list Z) :
  plain field = true -> percents <> [] ->
  Forall2 float_is_integer percents ns ->
  Forall (fun n => Z.abs n < 2 ^ 53) ns ->
  exists vs,
    Unmarshal ("{" ++ Percentiles field percents ++ "}")
    = Ok (JObject
            [("stats",
              JObject [("field", JString field); ("percents", JArray vs)])])
    /\ Forall2 (fun v n => exists f, v = JNumber f /\ float_is_integer f n)
         vs ns.
Proof.
  intros Hf Hne Hp Hb.
  destruct (convert_whole_percents percents ns Hp Hb) as (vs & E & Hvs).
  exists vs. split; [|exact Hvs].
  pose proof (whole_percents_finite percents ns Hp) as Hfin.
  destruct percents as [|p ps]; [contradiction|].
  apply (fragment_decodes _ _ _ (Percentiles_scans field p ps Hf Hfin)).
  - assert (tree_depth (TrArr (map (fun x => TrNum (fmt_f 2 x)) (p :: ps)))
            = 1) as D.
    { generalize (p :: ps). intros l.
      induction l as [|x l IH]; [reflexivity|].
      revert IH. cbn [map tree_depth fold_right]. lia. }
    revert D. unfold maxNestingDepth. cbn [tree_depth fold_right snd]. lia.
  - apply (convert_member "stats").
    rewrite convert_obj. cbn [convert_members].
    rewrite convert_arr, E. cbn [convert].
    rewrite (unquote_plain field Hf). reflexivity.
Qed.

(* ----------------------------------------------------------------- *)
(** *** Percents that are not numbers *)

(** The scanner stops at the text that [%0.2f] writes for a NaN or an
    infinity, after any finite numbers. *)
Lemma lex_run_joinFloats_refused (pre post : list float64) (x : float64) :
  forallb is_finite pre = true -> is_finite x = false ->
  forall tail,
    lex_run LStart (joinFloats (pre ++ x :: post) ++ tail) = None.
Proof.
  intros Hpre Hx tail. rewrite joinFloats_map.
  induction pre as [|p pre IH]; cbn [app map].
  - destruct (map (fmt_f 2) post) as [|y l];
      [cbn [strings_Join]|rewrite strings_Join_cons];
      destruct x as [s|[]| |s m e]; try discriminate Hx;
      cbn [fmt_f append]; rewrite lex_run_cons; try reflexivity;
      cbn [lstep prepend]; rewrite lex_run_cons; reflexivity.
  - cbn [forallb] in Hpre. apply andb_true_iff in Hpre as [Hp Hpre].
    specialize (IH Hpre).
    destruct (map (fmt_f 2) (pre ++ x :: post)) as [|y l] eqn:El.
    { destruct pre; discriminate El. }
    rewrite strings_Join_cons, !append_assoc.
    rewrite (scans_of_lex (fmt_f 2 p) [TNum (fmt_f 2 p)]);
      [|now apply lex_number, number_syntax_fmt_f|reflexivity].
    erewrite lex_run_literal by (vm_compute; reflexivity).
    now rewrite IH.
Qed.

(** X29.  A percent that is not a number breaks the query: when the
    percents hold a NaN or an infinity after finite numbers,
    [joinFloats] writes a word that JSON does not have, and [Query]
    panics on an aggregation made of such [Percentiles]. *)
Theorem Percentiles_refuses_non_finite (name field : string)
    (pre post : list float64) (x : float64) :
  plain name = true -> plain field = true ->
  forallb is_finite pre = true -> is_finite x = false ->
  Query [Aggs [Agg name [Percentiles field (pre ++ x :: post)]]]
  = Panics (error_text SyntaxError).
Proof.
  intros Hn Hf Hpre Hx.
  pose proof (lex_run_joinFloats_refused pre post x Hpre Hx) as Hj.
  rewrite Query_text, !join_single, Aggs_text, !join_single, Agg_text,
    !join_single.
  assert (exists p ps, (pre ++ x :: post)%list = p :: ps) as (p & ps & E)
    by (destruct pre; cbn [app]; eauto).
  rewrite E in *. rewrite Percentiles_cons_text.
  unfold compress. rewrite Unmarshal_not_scanned; [reflexivity|].
  rewrite ?append_assoc.
  repeat first
    [ rewrite lex_run_quote by assumption
    | match goal with
      | |- context [lex_run LStart (golit ?l ++ _)] =>
          erewrite (lex_run_literal (golit l)) by (vm_compute; reflexivity)
      end ].
  now rewrite Hj.
Qed.

(* ----------------------------------------------------------------- *)
(** *** The parser reads nothing but the tokens of its result *)

Lemma parse_sound (fuel : nat) :
  (forall d ts t r,
     parse_value fuel d ts = Some (t, r) -> ts = (tokens_of t ++ r)%list)
  /\ (forall d ts l r,
        parse_elements fuel d ts = Some (l, r) ->
        l <> [] /\ ts = (tokens_elements l ++ r)%list)
  /\ (forall d ts ms r,
        parse_members fuel d ts = Some (ms, r) ->
        ms <> [] /\ ts = (tokens_members ms ++ r)%list).
Proof.
  induction fuel as [|fuel (IHv & IHe & IHm)];
    [repeat split; intros; discriminate|].
  split; [|split].
  - intros d ts t r H. cbn [parse_value] in H.
    destruct ts as [|tk ts]; [discriminate|].
    destruct tk; try discriminate;
      try (injection H as <- <-; reflexivity).
    + destruct (maxNestingDepth <=? d); [discriminate|].
      destruct ts as [|tk ts]; [|destruct tk];
        try (destruct (parse_members fuel (d + 1) _) as [[ms r']|] eqn:E;
             [|discriminate]; injection H as <- <-;
             destruct (IHm _ _ _ _ E) as [_ ->];
             rewrite tokens_of_obj; reflexivity).
      injection H as <- <-. reflexivity.
    + destruct (maxNestingDepth <=? d); [discriminate|].
      destruct ts as [|tk ts]; [|destruct tk];
        try (destruct (parse_elements fuel (d + 1) _) as [[l r']|] eqn:E;
             [|discriminate]; injection H as <- <-;
             destruct (IHe _ _ _ _ E) as [_ ->];
             rewrite tokens_of_arr; reflexivity).
      injection H as <- <-. reflexivity.
  - intros d ts l r H. cbn [parse_elements] in H.
    destruct (parse_value fuel d ts) as [[v [|tk r1]]|] eqn:Ev;
      try discriminate.
    apply IHv in Ev. subst ts.
    destruct tk; try discriminate.
    + injection H as <- <-. split; [discriminate|].
      cbn [tokens_elements]. now rewrite <- app_assoc.
    + destruct (parse_elements fuel d r1) as [[l' r']|] eqn:E; [|discriminate].
      injection H as <- <-. destruct (IHe _ _ _ _ E) as [Hne ->].
      split; [discriminate|].
      destruct l' as [|y l']; [congruence|].
      rewrite tokens_elements_cons. now rewrite <- app_assoc.
  - intros d ts ms r H. cbn [parse_members] in H.
    destruct ts as [|tk ts]; [discriminate|].
    destruct tk; try discriminate.
    destruct ts as [|tk ts]; [discriminate|].
    destruct tk; try discriminate.
    destruct (parse_value fuel d ts) as [[v [|tk r1]]|] eqn:Ev;
      try discriminate.
    apply IHv in Ev. subst ts.
    destruct tk; try discriminate.
    + injection H as <- <-. split; [discriminate|].
      cbn [tokens_members app]. now rewrite <- app_assoc.
    + destruct (parse_members fuel d r1) as [[ms' r']|] eqn:E; [|discriminate].
      injection H as <- <-. destruct (IHm _ _ _ _ E) as [Hne ->].
      split; [discriminate|].
      destruct ms' as [|kv ms']; [congruence|].
      rewrite tokens_members_cons. cbn [app]. now rewrite <- app_assoc.
Qed.

Lemma parse_tokens (ts : list token) (t : tree) :
  parse ts = Some t -> ts = tokens_of t.
Proof.
  unfold parse.
  destruct (parse_value (S (List.length ts)) 0 ts) as [[t' [|]]|] eqn:E;
    try discriminate.
  intros [= <-]. destruct (parse_sound (S (List.length ts))) as (Hv & _ & _).
  rewrite (Hv _ _ _ _ E). apply app_nil_r.
Qed.

(* ----------------------------------------------------------------- *)
(** *** The end of the text that Query assembles *)

Lemma lstart_steady (c : ascii) (ts : list token) (st : lstate) :
  lstart c = Some (ts, st) -> steady st = true.
Proof.
  unfold lstart.
  repeat match goal with
         | |- context [if ?b then _ else _] => destruct b
         end; try discriminate; intros [= <- <-]; reflexivity.
Qed.

Lemma lstep_steady (st st' : lstate) (c : ascii) (ts : list token) :
  steady st = true -> lstep st c = Some (ts, st') -> steady st' = true.
Proof.
  destruct st as [|[| |k] acc|ns acc|rest tok]; cbn [lstep steady].
  - intros _. apply lstart_steady.
  - intros _.
    repeat match goal with
           | |- context [if ?b then _ else _] => destruct b
           end; try discriminate; intros [= <- <-]; reflexivity.
  - intros _.
    repeat match goal with
           | |- context [if ?b then _ else _] => destruct b
           end; try discriminate; intros [= <- <-]; reflexivity.
  - intros _. destruct (is_hex c); [|discriminate].
    intros [= <- <-]. reflexivity.
  - intros _. destruct (num_next ns c); [intros [= <- <-]; reflexivity|].
    destruct (num_complete ns); [|discriminate].
    destruct (lstart c) as [[ts0 st0]|] eqn:E; [|discriminate].
    intros [= <- <-]. exact (lstart_steady c ts0 st0 E).
  - destruct rest as [|e rest']; [discriminate|]. cbn [lowercase].
    intros H. apply andb_true_iff in H as [_ H].
    destruct (Ascii.eqb c e); [|discriminate].
    destruct rest'; intros [= <- <-]; [reflexivity|exact H].
Qed.

(** A line break ends a token that is complete, and no other. *)
Lemma lstep_newline (st st' : lstate) (ts : list token) :
  steady st = true -> lstep st newline = Some (ts, st') ->
  lex_finish st = Some ts /\ st' = LStart.
Proof.
  destruct st as [|[| |k] acc|ns acc|rest tok]; cbn [lstep steady lex_finish].
  - intros _ [= <- <-]. split; reflexivity.
  - discriminate.
  - discriminate.
  - discriminate.
  - intros _. rewrite (num_next_space ns newline eq_refl).
    destruct (num_complete ns); [|discriminate].
    intros [= <- <-]. split; reflexivity.
  - destruct rest as [|e rest']; [discriminate|]. cbn [lowercase].
    intros H. apply andb_true_iff in H as [H _].
    apply in_range_spec in H.
    destruct (Ascii.eqb_spec newline e) as [<-|_]; [|discriminate].
    change (byte_val newline) with 10 in H. lia.
Qed.

(** The closing brace on a line of its own, as [Query] writes it, is
    scanned as the same brace directly after the text. *)
Lemma lex_run_closing_brace (J : string) :
  forall st x,
    steady st = true ->
    lex_run st (J ++ "
  }") = Some x ->
    lex_run st (J ++ "}") = Some x.
Proof.
  induction J as [|c J IH]; intros st x Hst.
  - cbn [append]. rewrite lex_run_cons.
    change (Ascii false true false true false false false false) with newline.
    destruct (lstep st newline) as [[ts st']|] eqn:E; [|discriminate].
    destruct (lstep_newline st st' ts Hst E) as [Hf ->].
    replace (lex_run LStart "  }") with (Some ([TRBrace], LStart))
      by (vm_compute; reflexivity).
    cbn [prepend]. intros [= <-].
    rewrite lex_run_cons, (lstep_delimiter st ts "}" Hf eq_refl).
    change (lstart "}") with (Some ([TRBrace], LStart)).
    cbn [prepend lex_run]. now rewrite app_nil_r.
  - cbn [append]. rewrite !lex_run_cons.
    destruct (lstep st c) as [[ts st']|] eqn:E; [|discriminate].
    pose proof (lstep_steady st st' c ts Hst E) as Hst'.
    destruct (lex_run st' (J ++ "
  }")) as [y|] eqn:Ey; [|discriminate].
    now rewrite (IH st' y Hst' Ey).
Qed.

(** When the text that [Query] assembles is scanned, the joined
    children are the members of an object, at least one, and the tree
    is the marker followed by those members. *)
Lemma Query_document (J : string) (t : tree) :
  scan (golit "{
    'size': 0,
    " ++ J ++ "
  }") = Some t ->
  exists ms,
    ms <> [] /\ t = TrObj (("size", TrNum "0") :: ms)
    /\ scan ("{" ++ J ++ "}") = Some (TrObj ms).
Proof.
  unfold scan at 1.
  destruct (lex _) as [ts|] eqn:El; [|discriminate]. intros Hp.
  apply lex_spec in El as (t0 & st & pend & Hrun & Hf & ->).
  rewrite lex_run_app in Hrun.
  assert (lex_run LStart (golit "{
    'size': 0,
    ") = Some ([TLBrace; TStr "size"; TColon; TNum "0"; TComma], LStart))
    as Hpre by (vm_compute; reflexivity).
  rewrite Hpre in Hrun.
  destruct (lex_run LStart (J ++ "
  }")) as [[tr st']|] eqn:Er; [|discriminate].
  cbn [prepend] in Hrun. injection Hrun as <- <-.
  pose proof (lex_run_closing_brace J LStart _ eq_refl Er) as Er'.
  cbn [app] in Hp.
  pose proof (parse_tree_depth _ _ Hp) as Hd.
  pose proof Hp as Hshape. apply parse_object_first in Hshape as [ms ->].
  apply parse_tokens in Hp.
  destruct ms as [|kv ms].
  { cbn in Hp. destruct (tr ++ pend)%list; discriminate Hp. }
  exists (kv :: ms). split; [discriminate|]. split; [reflexivity|].
  rewrite tokens_of_obj, tokens_members_cons in Hp.
  cbn [tokens_of app] in Hp. injection Hp as Hp.
  unfold scan.
  assert (lex ("{" ++ J ++ "}") = Some (tokens_of (TrObj (kv :: ms)))) as ->.
  { apply lex_spec. exists (TLBrace :: tr)%list, st', pend.
    split; [|split; [exact Hf|]].
    - cbn [append]. rewrite lex_run_cons.
      change (lstep LStart "{") with (Some ([TLBrace], LStart)).
      cbv beta iota. now rewrite Er'.
    - rewrite tokens_of_obj. cbn [app]. now rewrite Hp. }
  apply parse_tokens_of.
  pose proof (tree_depth_obj "size" (TrNum "0") (kv :: ms)) as [_ D]. lia.
Qed.


(* ----------------------------------------------------------------- *)
(** *** TimeZone with a name that does not resolve *)

(** C4 (amended).  When the region lookup fails, the one-argument
    [TimeZone] returns (it has no panicking path) the fragment whose
    value is the argument as [%q] quotes it.  For an argument of plain
    ASCII the quoted text is the argument unchanged between double
    quotes.  For a quotable argument the fragment reads back as the
    argument: between braces it parses to the map with the one key
    [time_zone] and the argument as its value.  For any other argument
    the value is written with an escape that JSON does not have, and
    the fragment between braces is refused. *)
Theorem TimeZone_unresolved_name_passes_through
  (now : Z) (s : string) (rest : list string) :
  LoadLocation s = None ->
  TimeZone now (s :: rest) = golit "'time_zone': " ++ Quote s
  /\ (plain s = true ->
      TimeZone now (s :: rest) = golit "'time_zone': '" ++ s ++ golit "'")
  /\ (quotable s = true ->
      Unmarshal ("{" ++ TimeZone now (s :: rest) ++ "}")
      = Ok (JObject [("time_zone", JString s)]))
  /\ (quotable s = false ->
      Unmarshal ("{" ++ TimeZone now (s :: rest) ++ "}") = Err SyntaxError).
Proof.
  intros H. split; [now apply TimeZone_unresolved_text|].
  split.
  { intros Hp. rewrite TimeZone_unresolved_text, Quote_plain by assumption.
    cbn [golit append Ascii.eqb Bool.eqb].
    repeat f_equal. }
  split.
  - intros Hq.
    pose proof (TimeZone_quoted_scans now (s :: rest)) as Hs.
    cbv beta iota in Hs. rewrite H in Hs.
    apply (fragment_decodes _ _ _ (Hs ltac:(now intros ? ? [= <- _] _))).
    + unfold maxNestingDepth. cbn [tree_depth fold_right snd map]. lia.
    + rewrite convert_obj. cbn [convert_members convert].
      now rewrite (unquote_quoted s Hq).
  - intros Hq. apply Unmarshal_not_scanned.
    rewrite TimeZone_unresolved_text by assumption.
    change ("{" ++ (golit "'time_zone': " ++ Quote s) ++ "}")
      with (golit "{'time_zone': " ++ Quote s ++ "}").
    rewrite lex_run_app.
    change (lex_run LStart (golit "{'time_zone': "))
      with (Some ([TLBrace; TStr "time_zone"; TColon], LStart)).
    cbv beta iota.
    now rewrite (lex_run_quote_refused_any s "}" Hq).
Qed.

(* ----------------------------------------------------------------- *)
(** *** Dependence on the clock *)

Lemma append_cancel_l (a x y : string) : a ++ x = a ++ y -> x = y.
Proof.
  induction a as [|c a IH]; cbn [append]; [auto|]. intros [= H]. auto.
Qed.

Lemma append_last_inj (x y : string) (d : ascii) :
  x ++ String d "" = y ++ String d "" -> x = y.
Proof.
  revert y. induction x as [|c x IH]; intros [|c' y]; cbn [append]; intros H.
  - reflexivity.
  - injection H as _ H. destruct y; discriminate.
  - injection H as _ H. destruct x; discriminate.
  - injection H as -> H. f_equal. auto.
Qed.

Lemma pad2_all_digits (n : Z) : 0 <= n -> all_digits (pad2 n) = true.
Proof.
  intros Hn. unfold pad2, pad_left0.
  rewrite all_digits_app, all_digits_zeros.
  now destruct (utoa_digits n Hn) as [_ ->].
Qed.

Lemma digits_val_zeros (k : nat) : digits_val 0 (zeros k) = 0.
Proof. induction k as [|k IH]; [reflexivity|exact IH]. Qed.

(** Padding keeps the number, also when it has more than two digits. *)
Lemma pad2_val (n : Z) : 0 <= n -> digits_val 0 (pad2 n) = n.
Proof.
  intros H. unfold pad2, pad_left0.
  rewrite digits_val_app, digits_val_zeros. now apply utoa_val.
Qed.

Lemma digits_colon_split (a a' b b' : string) :
  all_digits a = true -> all_digits a' = true ->
  a ++ String ":" b = a' ++ String ":" b' -> a = a' /\ b = b'.
Proof.
  revert a'. induction a as [|c a IH]; intros [|c' a'] Ha Ha' H;
    cbn [append] in H.
  - injection H as ->. auto.
  - injection H as <- _. discriminate Ha'.
  - injection H as -> _. discriminate Ha.
  - injection H as -> H. cbn [all_digits] in Ha, Ha'.
    apply andb_true_iff in Ha as [_ Ha].
    apply andb_true_iff in Ha' as [_ Ha'].
    destruct (IH a' Ha Ha' H) as [-> ->]. auto.
Qed.

(** The layout [-07:00] prints the offset in whole minutes and nothing
    else of the instant: two instants are printed alike exactly when
    their offsets agree to the minute. *)
Lemma Format_offset_zone (t1 t2 : Time) :
  Format_offset t1 = Format_offset t2
  <-> Z.quot (location t1 (unix t1)) 60 = Z.quot (location t2 (unix t2)) 60.
Proof.
  unfold Format_offset. cbv zeta.
  set (z1 := Z.quot (location t1 (unix t1)) 60).
  set (z2 := Z.quot (location t2 (unix t2)) 60).
  split; [|now intros ->].
  assert (forall z, 0 <= Z.quot (Z.abs z) 60) as Hq
    by (intros z; apply Z.quot_pos; lia).
  assert (forall z, 0 <= Z.rem (Z.abs z) 60) as Hr
    by (intros z; apply Z.rem_nonneg; lia).
  intros H. injection H as Hsign H. cbn [append] in H.
  apply digits_colon_split in H as [Hh Hm];
    try (apply pad2_all_digits; apply Hq).
  apply (f_equal (digits_val 0)) in Hh, Hm.
  rewrite !pad2_val in Hh, Hm by first [apply Hq|apply Hr].
  pose proof (Z.quot_rem' (Z.abs z1) 60) as D1.
  pose proof (Z.quot_rem' (Z.abs z2) 60) as D2.
  destruct (z1 <? 0) eqn:E1, (z2 <? 0) eqn:E2; try discriminate Hsign;
    first [apply Z.ltb_lt in E1|apply Z.ltb_ge in E1];
    first [apply Z.ltb_lt in E2|apply Z.ltb_ge in E2]; lia.
Qed.

Lemma Quote_offset_zone (t1 t2 : Time) :
  golit "'time_zone': " ++ Quote (offset t1)
  = golit "'time_zone': " ++ Quote (offset t2)
  <-> Z.quot (location t1 (unix t1)) 60 = Z.quot (location t2 (unix t2)) 60.
Proof.
  rewrite <- Format_offset_zone. split.
  - intros H. apply append_cancel_l in H.
    rewrite !Quote_plain in H by apply offset_plain.
    apply (append_cancel_l (String dquote "")) in H.
    now apply append_last_inj in H.
  - unfold offset. now intros ->.
Qed.


(* ----------------------------------------------------------------- *)
(** *** Percentiles under the key stats *)

Lemma digits_val_shift (s : string) :
  forall acc,
    digits_val acc s = acc * 10 ^ Z.of_nat (String.length s) + digits_val 0 s.
Proof.
  induction s as [|c r IH]; intros acc; cbn [digits_val String.length].
  - change (10 ^ Z.of_nat 0) with 1. lia.
  - rewrite (IH (10 * acc + (byte_val c - 48))),
      (IH (10 * 0 + (byte_val c - 48))).
    replace (Z.of_nat (S (String.length r)))
      with (Z.succ (Z.of_nat (String.length r))) by lia.
    rewrite Z.pow_succ_r by lia. ring.
Qed.

(** The digits of [a], a point and the fraction digits [fp], signed,
    are read as the integer made of all the digits, scaled by the
    number of fraction digits. *)
Lemma decode_number_point (neg : bool) (a : Z) (fp : string) :
  0 <= a -> all_digits fp = true ->
  decode_number (sign_text neg ++ utoa a ++ String "." fp)
  = (neg, a * 10 ^ Z.of_nat (String.length fp) + digits_val 0 fp,
     - Z.of_nat (String.length fp)).
Proof.
  intros Ha Hfp. destruct (utoa_val a Ha) as (Hne & Hd & Hv & _).
  destruct (digit_head _ Hne Hd) as (c & r & E & Hc).
  assert (match utoa a ++ String "." fp with
          | String "-" r' => (true, r')
          | _ => (false, utoa a ++ String "." fp)
          end = (false, utoa a ++ String "." fp)) as Hm.
  { rewrite E. cbn [append].
    destruct c as [[] [] [] [] [] [] [] []]; try reflexivity.
    discriminate Hc. }
  assert (decode_number (utoa a ++ String "." fp)
          = (false, a * 10 ^ Z.of_nat (String.length fp) + digits_val 0 fp,
             - Z.of_nat (String.length fp))) as Hpos.
  { unfold decode_number. rewrite Hm.
    rewrite (span_digits_app (utoa a) (String "." fp) Hd eq_refl).
    cbv beta iota. rewrite (span_digits_all fp Hfp).
    cbv beta iota. rewrite digits_val_app, Hv, digits_val_shift.
    reflexivity. }
  destruct neg; [|exact Hpos]. cbn [sign_text append].
  unfold decode_number in *. cbv beta iota. rewrite Hm in Hpos.
  destruct (span_digits (utoa a ++ String "." fp)) as [ip s2].
  destruct (match s2 with String "." r' => span_digits r' | _ => ("", s2) end)
    as [fp' s3].
  now injection Hpos as -> ->.
Qed.

(** The text that [%0.2f] writes for [n] hundredths is read as [n]
    hundredths. *)
Lemma decode_number_format_fixed (neg : bool) (n : Z) :
  0 <= n -> decode_number (format_fixed 2 neg n) = (neg, n, -2).
Proof.
  intros Hn. unfold format_fixed. change (10 ^ Z.of_nat 2) with 100.
  pose proof (Z.mod_pos_bound n 100 ltac:(lia)) as Hr.
  destruct (pad2_value (n mod 100) ltac:(lia)) as (Hd & Hl & Hv).
  change (pad_left0 2 (utoa (n mod 100))) with (pad2 (n mod 100)).
  change (if neg then "-" else "") with (sign_text neg).
  rewrite decode_number_point, Hl, Hv;
    [|apply Z.div_pos; lia|exact Hd].
  change (10 ^ Z.of_nat 2) with 100. change (- Z.of_nat 2) with (-2).
  pose proof (Z.div_mod n 100 ltac:(lia)). repeat f_equal. lia.
Qed.

Lemma round_half_even_upper (num den : Z) :
  0 <= num -> 0 < den -> round_half_even num den <= num + 1.
Proof.
  intros Hn Hd. unfold round_half_even.
  assert (num / den <= num)
    by (apply Z.div_le_upper_bound; [lia|nia]).
  destruct (2 * (num mod den) <? den); [lia|].
  destruct (den <? 2 * (num mod den)); [lia|].
  destruct (Z.even (num / den)); lia.
Qed.

(** A quotient far below the largest float64 has a nearest float64. *)
Lemma round_binary64_small (neg : bool) (p q : Z) :
  0 <= p -> 0 < q -> p < q * 2 ^ 64 ->
  exists f, round_binary64 neg p q = Some f.
Proof.
  intros Hp Hq Hb. unfold round_binary64.
  set (x := p * 2 ^ 1074).
  assert (0 <= x / q) as Hx0 by (apply Z.div_pos; subst x; lia).
  assert (Z.log2 (x / q) < 1138) as Hl.
  { destruct (Z.eq_dec (x / q) 0) as [->|Hz]; [reflexivity|].
    apply Z.log2_lt_pow2; [lia|].
    apply Z.div_lt_upper_bound; [lia|].
    change (2 ^ 1138) with (2 ^ 64 * 2 ^ 1074). subst x.
    assert (0 < 2 ^ 1074) by (apply Z.pow_pos_nonneg; lia). nia. }
  set (shift := Z.max 0 (Z.log2 (x / q) - 52)).
  assert (shift <= 1085) as Hs by lia.
  set (n := round_half_even x (q * 2 ^ shift)).
  destruct (n =? 2 ^ 53); cbv beta iota zeta.
  - replace (shift - 1073 <=? 971) with true
      by (symmetry; apply Z.leb_le; lia).
    destruct (2 ^ 52); eauto.
  - replace (shift - 1074 <=? 971) with true
      by (symmetry; apply Z.leb_le; lia).
    destruct n; eauto.
Qed.

(** What [%0.2f] writes for a float64 is the text of a number that a
    float64 holds: reading it never leaves the range. *)
Lemma ParseFloat_fmt_f (x : float64) :
  canonical_float x = true -> exists f, ParseFloat (fmt_f 2 x) = Some f.
Proof.
  destruct x as [s|s| |s m e]; try discriminate; intros Hc; cbn [fmt_f].
  - exists (S754_zero s). destruct s; reflexivity.
  - unfold ParseFloat.
    rewrite decode_number_format_fixed by apply scaled_round_nonneg.
    destruct (scaled_round m e 2 =? 0); [eauto|].
    change (0 <=? -2) with false. cbv iota.
    change (10 ^ (- -2)) with 100.
    pose proof Hc as Hc'. apply canonical_finite in Hc' as (Hm & He & _).
    unfold scaled_round. change (10 ^ Z.of_nat 2) with 100.
    destruct (Z.leb_spec 0 e) as [G|L].
    + exists (S754_finite s m e).
      replace 100 with (1 * 100) at 2 by reflexivity.
      rewrite round_binary64_scale by lia.
      apply round_binary64_exact; [assumption|lia|].
      rewrite Z.pow_add_r by lia. ring.
    + assert (0 < 2 ^ (- e)) by (apply Z.pow_pos_nonneg; lia).
      pose proof (round_half_even_upper (Z.pos m * 100) (2 ^ (- e))
                    ltac:(lia) ltac:(lia)).
      apply round_binary64_small; [|lia|].
      * apply round_half_even_nonneg; lia.
      * change (2 ^ 53) with 9007199254740992 in Hm.
        change (2 ^ 64) with 18446744073709551616. lia.
Qed.

Lemma convert_percents (ps : list float64) :
  forallb canonical_float ps = true ->
  exists vs,
    convert_elements (map (fun x => TrNum (fmt_f 2 x)) ps) = Some vs
    /\ Forall2 (fun x v =>
                  exists f, ParseFloat (fmt_f 2 x) = Some f /\ v = JNumber f)
         ps vs.
Proof.
  induction ps as [|p ps IH]; intros H.
  - exists []. split; [reflexivity|constructor].
  - cbn [forallb] in H. apply andb_true_iff in H as [Hp Hps].
    destruct (IH Hps) as (vs & E & Hvs).
    destruct (ParseFloat_fmt_f p Hp) as (f & Ef).
    exists (JNumber f :: vs). split.
    + cbn [map convert_elements]. fold convert_elements.
      cbn [convert]. now rewrite Ef, E.
    + constructor; [|exact Hvs]. eauto.
Qed.

Lemma canonical_floats_finite (ps : list float64) :
  forallb canonical_float ps = true -> forallb is_finite ps = true.
Proof.
  induction ps as [|p ps IH]; [reflexivity|]. cbn [forallb].
  intros H. apply andb_true_iff in H as [Hp Hps].
  now rewrite (canonical_finite_float p Hp), IH.
Qed.

(** C10.  Without break-points [Percentiles] returns the very text of
    [Stats].  With break-points its fragment has the key [stats] (not
    [percentiles]), the field, and the key [percents] before a
    bracketed list that holds, for each break-point in turn, what
    [%0.2f] writes for it, separated by a comma and a space.  For a
    quotable field and float64 break-points the fragment between
    braces parses to the map with the one key [stats], under it the
    field and under [percents] an array with one number per
    break-point, in their order: the number that the text written for
    the break-point reads as. *)
Theorem Percentiles_emits_stats_key (field : string) :
  Percentiles field [] = Stats field
  /\ (forall p ps,
        Percentiles field (p :: ps) =
        golit "
      'stats': {
        'field': " ++ Quote field ++ golit ",
        'percents': [" ++ strings_Join (map (fmt_f 2) (p :: ps)) ", " ++ "]
      }
    ")
  /\ (forall p ps,
        quotable field = true ->
        forallb canonical_float (p :: ps) = true ->
        exists vs,
          Unmarshal ("{" ++ Percentiles field (p :: ps) ++ "}")
          = Ok (JObject
                  [("stats",
                    JObject [("field", JString field);
                             ("percents", JArray vs)])])
          /\ Forall2 (fun x v =>
                        exists f,
                          ParseFloat (fmt_f 2 x) = Some f /\ v = JNumber f)
               (p :: ps) vs).
Proof.
  split; [apply Percentiles_nil_text|].
  split.
  { intros p ps. now rewrite Percentiles_cons_text, joinFloats_map. }
  intros p ps Hf Hc.
  destruct (convert_percents (p :: ps) Hc) as (vs & E & Hvs).
  exists vs. split; [|exact Hvs].
  pose proof (canonical_floats_finite _ Hc) as Hfin.
  apply (fragment_decodes _ _ _ (Percentiles_quoted_scans field p ps Hf Hfin)).
  - assert (tree_depth (TrArr (map (fun x => TrNum (fmt_f 2 x)) (p :: ps)))
            = 1) as D.
    { generalize (p :: ps). intros l.
      induction l as [|x l IH]; [reflexivity|].
      revert IH. cbn [map tree_depth fold_right]. lia. }
    revert D. unfold maxNestingDepth. cbn [tree_depth fold_right snd]. lia.
  - apply (convert_member "stats").
    rewrite convert_obj. cbn [convert_members].
    rewrite convert_arr, E. cbn [convert].
    rewrite (unquote_quoted field Hf). reflexivity.
Qed.

End Es.

(* ================================================================= *)
(** ** The package on the sample environment *)

(** A name that the sample database does not resolve: the fragment
    holds the name as it is, and reads back as the name. *)
Lemma TimeZone_unresolved_witness :
  sample_tzdb "Not/AZone" = None
  /\ TimeZone sample_table sample_tzdb utc 0 ["Not/AZone"]
     = golit "'time_zone': 'Not/AZone'"
  /\ Unmarshal
       ("{" ++ TimeZone sample_table sample_tzdb utc 0 ["Not/AZone"] ++ "}")
     = Ok (JObject [("time_zone", JString "Not/AZone")]).
Proof.
  split; [reflexivity|].
  destruct (TimeZone_unresolved_name_passes_through
              sample_table sample_tzdb utc 0 "Not/AZone" [] eq_refl)
    as (_ & Hp & Hq & _).
  split; [exact (Hp eq_refl)|exact (Hq eq_refl)].
Defined.

(** A name that does not resolve and holds the bell character: [%q]
    writes it as the escape [\a], the text between the quotes is not
    the name, and the fragment is not read back at all. *)
Lemma TimeZone_unresolved_name_not_read_back :
  sample_tzdb (String (byte_of 7) "") = None
  /\ TimeZone sample_table sample_tzdb utc 0 [String (byte_of 7) ""]
     = golit "'time_zone': '\a'"
  /\ Unmarshal
       ("{" ++ TimeZone sample_table sample_tzdb utc 0 [String (byte_of 7) ""]
        ++ "}")
     = Err SyntaxError.
Proof. vm_compute. repeat split; reflexivity. Qed.

Lemma Percentiles_two_decimals_witness :
  forallb is_finite [float_of 50 0; float_of 191 (-1); float_of 99 0] = true
  /\ Percentiles sample_table "load"
       [float_of 50 0; float_of 191 (-1); float_of 99 0]
     = golit "
      'stats': {
        'field': 'load',
        'percents': [50.00, 95.50, 99.00]
      }
    ".
Proof.
  split; [reflexivity|].
  exact (proj1 (Percentiles_renders_two_decimals sample_table "load"
                  (float_of 50 0) [float_of 191 (-1); float_of 99 0]
                  eq_refl)).
Defined.

(** A NaN and an infinity among the break-points are printed as such,
    with no decimal digits. *)
Lemma Percentiles_nan_not_two_decimals :
  Percentiles sample_table "load" [float_of 50 0; S754_nan; S754_infinity false]
  = golit "
      'stats': {
        'field': 'load',
        'percents': [50.00, NaN, +Inf]
      }
    ".
Proof. vm_compute. reflexivity. Qed.

(** The literal 1e999 is a well-formed text, yet it does not fit a
    float64: both normalizers panic on it. *)
Lemma normalizers_panic_on_1e999 :
  checkValid "1e999" = true
  /\ compress "1e999" = Panics (error_text UnmarshalTypeError)
  /\ Pretty "1e999" = Panics (error_text UnmarshalTypeError).
Proof. vm_compute. repeat split; reflexivity. Qed.

Example normalizers_examples :
  compress (golit "{ 'b' : [1, 2.50, true],
  'a' : null }") = Returns (golit "{'a':null,'b':[1,2.5,true]}")
  /\ Pretty (golit "{'b':[1,{}],'a':'x'}") = Returns (golit "{
  'a': 'x',
  'b': [
    1,
    {}
  ]
}")
  /\ compress (golit "{'size': 0, }") = Panics (error_text SyntaxError).
Proof. vm_compute. repeat split; reflexivity. Qed.

(** The round trip on a document with a map, a list, numbers and a
    string. *)
Lemma compress_keeps_parsed_value_witness :
  exists out v,
    compress (golit "{'b': [1, 2.5, 'x'], 'a': null}") = Returns out
    /\ Unmarshal (golit "{'b': [1, 2.5, 'x'], 'a': null}") = Ok v
    /\ Unmarshal out = Ok v.
Proof.
  assert (scan (golit "{'b': [1, 2.5, 'x'], 'a': null}")
          = Some (TrObj [("b", TrArr [TrNum "1"; TrNum "2.5"; TrStr "x"]);
                         ("a", TrNull)])) as E
    by (vm_compute; reflexivity).
  destruct (compress_keeps_parsed_value
              (golit "{'b': [1, 2.5, 'x'], 'a': null}"))
    as (t & Es & Hin & _).
  - unfold checkValid. now rewrite E.
  - apply Hin. rewrite E in Es. injection Es as <-. reflexivity.
Defined.

(** A list with the literal 1e999 is a well-formed text, yet it has no
    parsed value: there is nothing for the result of [compress] to be
    equal to, and [compress] panics. *)
Lemma compress_of_valid_text_without_value :
  checkValid "[1, 1e999]" = true
  /\ Unmarshal "[1, 1e999]" = Err UnmarshalTypeError
  /\ compress "[1, 1e999]" = Panics (error_text UnmarshalTypeError).
Proof. vm_compute. repeat split; reflexivity. Qed.





(** A document with a range filter, a term filter and a sum
    aggregation.  The name of the aggregation has a letter outside
    ASCII (u with diaeresis, the bytes 195 and 188) and the field a
    double quote: the assembled text parses to the marker, one
    [filter] with two clauses and one [aggs] with the name as its key;
    the field stands as the text of its token, with the backslash that
    [%q] wrote before the quote. *)
Lemma composed_fragments_witness :
  scan (golit "{
    'size': 0,
    "
        ++ join [Filter sample_table
                   [Range sample_table "now-1d" "now";
                    Term sample_table "app" "api"]
                   [Aggs sample_table
                      [Agg sample_table
                         (String "Z" (String (byte_of 195)
                                        (String (byte_of 188) "rich")))
                         [Sum sample_table
                            (String "a" (String dquote "b"))]]]]
        ++ "
  }")
  = Some
      (TrObj
         [("size", TrNum "0");
          ("filter",
           TrObj
             [("bool",
               TrObj
                 [("filter",
                   TrArr
                     [TrObj
                        [("range",
                          TrObj
                            [("timestamp",
                              TrObj [("gte", TrStr "now-1d");
                                     ("lte", TrStr "now")])])];
                      TrObj [("term", TrObj [("app", TrStr "api")])]])])]);
          ("aggs",
           TrObj
             [(String "Z" (String (byte_of 195) (String (byte_of 188) "rich")),
               TrObj
                 [("sum",
                   TrObj
                     [("field",
                       TrStr (String "a"
                                (String "\" (String dquote "b"))))])])])])
  /\ checkValid (golit "{
    'size': 0,
    "
        ++ join [Filter sample_table
                   [Range sample_table "now-1d" "now";
                    Term sample_table "app" "api"]
                   [Aggs sample_table
                      [Agg sample_table
                         (String "Z" (String (byte_of 195)
                                        (String (byte_of 188) "rich")))
                         [Sum sample_table
                            (String "a" (String dquote "b"))]]]]
        ++ "
  }") = true.
Proof.
  apply (composed_fragments_make_valid_document sample_table sample_tzdb utc).
  - apply (Ms_cons _ _ _ _
             [("filter", _);
              ("aggs",
               TrObj
                 [(String "Z"
                     (String (byte_of 195) (String (byte_of 188) "rich")),
                   TrObj
                     [("sum",
                       TrObj
                         [("field",
                           TrStr (String "a"
                                    (String "\" (String dquote "b"))))])])])]
             [] []); [|apply Ms_nil].
    apply F_Filter.
    + apply Vs_cons; [apply F_Range; reflexivity|].
      apply Vs_cons; [apply F_Term; reflexivity|apply Vs_nil].
    + apply (Ms_cons _ _ _ _ [("aggs", _)] [] []); [|apply Ms_nil].
      apply F_Aggs.
      apply (Ms_cons _ _ _ _ [(_, _)] [] []); [|apply Ms_nil].
      apply (F_Agg _ _ _
               (String "Z" (String (byte_of 195) (String (byte_of 188) "rich"))));
        [reflexivity|].
      apply (Ms_cons _ _ _ _ [("sum", _)] [] []); [|apply Ms_nil].
      apply (F_Sum _ _ _ (String "a" (String dquote "b"))). reflexivity.
    + discriminate.
  - discriminate.
  - vm_compute. intros E. discriminate E.
Defined.

(** Fragments that break the text around them: the function returned
    by [Filter] called without children and [DateHistogram] or
    [Histogram] without options end in a comma, [%q] writes the
    escape [\a], which the scanner refuses, for the byte 7, and
    [%0.2f] writes [NaN] for a break-point that is not a number. *)
Lemma fragments_that_break_the_document :
  Query sample_table
    [Filter sample_table [Term sample_table "app" "api"] []]
  = Panics (error_text SyntaxError)
  /\ Query sample_table
       [Aggs sample_table
          [Agg sample_table "h" [DateHistogram sample_table "ts" []]]]
     = Panics (error_text SyntaxError)
  /\ Query sample_table
       [Aggs sample_table
          [Agg sample_table "h" [Histogram sample_table "n" []]]]
     = Panics (error_text SyntaxError)
  /\ Query sample_table
       [Aggs sample_table
          [Agg sample_table (String (byte_of 7) "")
             [Sum sample_table "price"]]]
     = Panics (error_text SyntaxError)
  /\ Query sample_table
       [Aggs sample_table
          [Agg sample_table "p"
             [Percentiles sample_table "load" [S754_nan]]]]
     = Panics (error_text SyntaxError).
Proof. vm_compute. repeat split; reflexivity. Qed.

(** The normalizers on a document with a map, a list, numbers and a
    string. *)
Lemma compress_is_idempotent_witness :
  compress (golit "{'a':null,'b':[1,2.5,'x']}")
  = Returns (golit "{'a':null,'b':[1,2.5,'x']}").
Proof.
  apply (compress_is_idempotent (golit "{'b': [1, 2.50, 'x'], 'a': null}")).
  vm_compute. reflexivity.
Defined.

Lemma Pretty_keeps_parsed_value_witness :
  exists v,
    Unmarshal (golit "{'b': [1, 2.50, 'x'], 'a': null}") = Ok v
    /\ Unmarshal (golit "{
  'a': null,
  'b': [
    1,
    2.5,
    'x'
  ]
}") = Ok v.
Proof.
  apply (Pretty_keeps_parsed_value (golit "{'b': [1, 2.50, 'x'], 'a': null}")).
  vm_compute. reflexivity.
Defined.

Lemma compress_after_Pretty_witness :
  compress (golit "{
  'a': null,
  'b': [
    1,
    2.5,
    'x'
  ]
}") = compress (golit "{'b': [1, 2.50, 'x'], 'a': null}").
Proof.
  apply (compress_after_Pretty (golit "{'b': [1, 2.50, 'x'], 'a': null}")).
  vm_compute. reflexivity.
Defined.

Lemma Pretty_after_compress_witness :
  Pretty (golit "{'a':null,'b':[1,2.5,'x']}")
  = Pretty (golit "{'b': [1, 2.50, 'x'], 'a': null}").
Proof.
  apply (Pretty_after_compress (golit "{'b': [1, 2.50, 'x'], 'a': null}")).
  vm_compute. reflexivity.
Defined.

Lemma Pretty_is_idempotent_witness :
  Pretty (golit "{
  'a': null,
  'b': [
    1,
    2.5,
    'x'
  ]
}") = Returns (golit "{
  'a': null,
  'b': [
    1,
    2.5,
    'x'
  ]
}").
Proof.
  apply (Pretty_is_idempotent (golit "{'b': [1, 2.50, 'x'], 'a': null}")).
  vm_compute. reflexivity.
Defined.

(** The fragments of a query with one aggregation. *)
Lemma sample_aggregation_fragments :
  Member_fragments sample_table sample_tzdb utc
    [Aggs sample_table [Agg sample_table "total" [Sum sample_table "price"]]]
    [("aggs",
      TrObj [("total", TrObj [("sum", TrObj [("field", TrStr "price")])])])].
Proof.
  apply (Ms_cons _ _ _ _ [("aggs", _)] [] []); [|apply Ms_nil].
  apply F_Aggs.
  apply (Ms_cons _ _ _ _ [("total", _)] [] []); [|apply Ms_nil].
  apply F_Agg; [reflexivity|].
  apply (Ms_cons _ _ _ _ [("sum", _)] [] []); [|apply Ms_nil].
  apply F_Sum. reflexivity.
Qed.

Lemma Query_of_composed_fragments_witness :
  exists out v,
    Query sample_table
      [Aggs sample_table [Agg sample_table "total" [Sum sample_table "price"]]]
    = Returns out
    /\ convert
         (TrObj
            [("size", TrNum "0");
             ("aggs",
              TrObj [("total",
                      TrObj [("sum", TrObj [("field", TrStr "price")])])])])
       = Some v
    /\ Unmarshal out = Ok v.
Proof.
  apply (Query_of_composed_fragments_returns sample_table sample_tzdb utc
           _ _ sample_aggregation_fragments).
  - discriminate.
  - vm_compute. intros E. discriminate E.
  - reflexivity.
Defined.

Lemma Filter_without_children_witness :
  Query sample_table
    [Filter sample_table
       [Range sample_table "now-1d" "now"; Term sample_table "app" "api"] []]
  = Panics (error_text SyntaxError).
Proof.
  apply (Filter_without_children_panics sample_table
           [Range sample_table "now-1d" "now"; Term sample_table "app" "api"]
           [TrObj [("range",
                    TrObj [("timestamp",
                            TrObj [("gte", TrStr "now-1d");
                                   ("lte", TrStr "now")])])];
            TrObj [("term", TrObj [("app", TrStr "api")])]]).
  - apply Vs_cons; [apply F_Range; reflexivity|].
    apply Vs_cons; [apply F_Term; reflexivity|apply Vs_nil].
  - vm_compute. intros E. discriminate E.
Defined.

Lemma Range_decodes_witness :
  Unmarshal (Range sample_table "now-1d" "now")
  = Ok (JObject
          [("range",
            JObject
              [("timestamp",
                JObject [("gte", JString "now-1d"); ("lte", JString "now")])])]).
Proof. apply (Range_decodes sample_table "now-1d" "now"); reflexivity. Defined.

Lemma Term_decodes_witness :
  Unmarshal (Term sample_table "app" "api")
  = Ok (JObject [("term", JObject [("app", JString "api")])]).
Proof. apply (Term_decodes sample_table "app" "api"); reflexivity. Defined.

Lemma metric_aggregations_witness :
  Unmarshal ("{" ++ Sum sample_table "price" ++ "}")
  = Ok (JObject [("sum", JObject [("field", JString "price")])])
  /\ Unmarshal ("{" ++ Avg sample_table "price" ++ "}")
     = Ok (JObject [("avg", JObject [("field", JString "price")])])
  /\ Unmarshal ("{" ++ Min sample_table "price" ++ "}")
     = Ok (JObject [("min", JObject [("field", JString "price")])])
  /\ Unmarshal ("{" ++ Max sample_table "price" ++ "}")
     = Ok (JObject [("max", JObject [("field", JString "price")])])
  /\ Unmarshal ("{" ++ Stats sample_table "price" ++ "}")
     = Ok (JObject [("stats", JObject [("field", JString "price")])]).
Proof.
  apply (metric_aggregations_decode sample_table "price"). reflexivity.
Defined.

Lemma Order_decodes_witness :
  Unmarshal ("{" ++ Order sample_table "_count" Descending ++ "}")
  = Ok (JObject [("order", JObject [("_count", JString "desc")])]).
Proof.
  apply (Order_decodes sample_table "_count" Descending); reflexivity.
Defined.

Lemma MinDocCount_and_Missing_witness :
  exists f,
    float_is_integer f (-3)
    /\ Unmarshal ("{" ++ MinDocCount sample_table (-3) ++ "}")
       = Ok (JObject [("min_doc_count", JNumber f)])
    /\ Unmarshal ("{" ++ Missing sample_table (-3) ++ "}")
       = Ok (JObject [("missing", JNumber f)]).
Proof.
  apply (MinDocCount_and_Missing_decode sample_table (-3)). reflexivity.
Defined.

Lemma ExtendedBounds_decodes_witness :
  exists flo fhi,
    float_is_integer flo 0 /\ float_is_integer fhi 500
    /\ Unmarshal ("{" ++ ExtendedBounds sample_table 0 500 ++ "}")
       = Ok (JObject
               [("extended_bounds",
                 JObject [("max", JNumber fhi); ("min", JNumber flo)])]).
Proof.
  apply (ExtendedBounds_decodes sample_table 0 500); reflexivity.
Defined.

Lemma Terms_decodes_witness :
  exists f,
    float_is_integer f 10
    /\ Unmarshal ("{" ++ Terms sample_table "app" 10 ++ "}")
       = Ok (JObject
               [("terms",
                 JObject [("field", JString "app"); ("size", JNumber f)])]).
Proof. apply (Terms_decodes sample_table "app" 10); reflexivity. Defined.

Lemma Interval_decodes_witness :
  exists d,
    Unmarshal ("{" ++ golit "'interval': 5" ++ "}")
    = Ok (JObject [("interval", d)])
    /\ exists f, d = JNumber f /\ float_is_integer f 5.
Proof.
  apply (Interval_decodes sample_table (VInt 5) (golit "'interval': 5")).
  - vm_compute. reflexivity.
  - intros x E. discriminate E.
  - intros n E. injection E as <-. reflexivity.
Defined.

Lemma TimeZone_decodes_witness :
  Unmarshal
    ("{" ++ TimeZone sample_table sample_tzdb utc 1719792000
              ["America/Los_Angeles"] ++ "}")
  = Ok (JObject [("time_zone", JString "-07:00")]).
Proof.
  rewrite (TimeZone_decodes sample_table sample_tzdb utc 1719792000
             ["America/Los_Angeles"]).
  - vm_compute. reflexivity.
  - intros s0 r E N. injection E as E1 E2. rewrite <- E1 in N.
    discriminate N.
Defined.

Lemma TimeZone_offset_format_witness :
  exists hh mm,
    TimeZone sample_table sample_tzdb utc 1719792000 ["America/Los_Angeles"]
    = golit "'time_zone': "
      ++ String dquote
           (String (if Z.quot (los_angeles 1719792000) 60 <? 0
                    then "-"%char else "+"%char)
              (hh ++ ":" ++ mm)
            ++ String dquote "")
    /\ all_digits hh = true /\ String.length hh = 2%nat
    /\ digits_val 0 hh = Z.quot (Z.abs (Z.quot (los_angeles 1719792000) 60)) 60
    /\ all_digits mm = true /\ String.length mm = 2%nat
    /\ digits_val 0 mm = Z.rem (Z.abs (Z.quot (los_angeles 1719792000) 60)) 60.
Proof.
  apply (TimeZone_offset_format sample_table sample_tzdb utc 1719792000
           ["America/Los_Angeles"] los_angeles).
  - right. exists "America/Los_Angeles", []. split; reflexivity.
  - reflexivity.
Defined.


Lemma Agg_nests_children_witness :
  Unmarshal ("{" ++ Aggs sample_table
                      [Agg sample_table "total" [Sum sample_table "price"]]
                 ++ "}")
  = Ok (JObject [("aggs",
                  JObject [("total",
                            JObject [("sum",
                                      JObject [("field", JString "price")])])])]).
Proof.
  apply (Agg_nests_children sample_table sample_tzdb utc "total"
           [Sum sample_table "price"]
           [("sum", TrObj [("field", TrStr "price")])]).
  - reflexivity.
  - apply (Ms_cons _ _ _ _ [("sum", _)] [] []); [|apply Ms_nil].
    apply F_Sum. reflexivity.
  - vm_compute. intros H. discriminate H.
  - reflexivity.
Defined.

Lemma histogram_without_options_witness :
  Query sample_table
    [Aggs sample_table
       [Agg sample_table "per_day" [DateHistogram sample_table "ts" []]]]
  = Panics (error_text SyntaxError)
  /\ Query sample_table
       [Aggs sample_table
          [Agg sample_table "per_day" [Histogram sample_table "ts" []]]]
     = Panics (error_text SyntaxError).
Proof.
  apply (histogram_without_options_panics sample_table "per_day" "ts");
    reflexivity.
Defined.


Lemma histogram_with_options_witness :
  Unmarshal
    ("{" ++ DateHistogram sample_table "ts"
              [golit "'interval': '1d'"; MinDocCount sample_table 0] ++ "}")
  = Ok (JObject
          [("date_histogram",
            JObject [("field", JString "ts"); ("interval", JString "1d");
                     ("min_doc_count", JNumber (S754_zero false))])])
  /\ Unmarshal
       ("{" ++ Histogram sample_table "ts"
                 [golit "'interval': '1d'"; MinDocCount sample_table 0] ++ "}")
     = Ok (JObject
             [("histogram",
               JObject [("field", JString "ts"); ("interval", JString "1d");
                        ("min_doc_count", JNumber (S754_zero false))])]).
Proof.
  apply (histogram_with_options_decodes sample_table sample_tzdb utc "ts"
           [golit "'interval': '1d'"; MinDocCount sample_table 0]
           [("interval", TrStr "1d"); ("min_doc_count", TrNum "0")]).
  - reflexivity.
  - apply (Ms_cons _ _ _ _ [("interval", _)] [MinDocCount sample_table 0]
             [("min_doc_count", TrNum "0")]).
    + apply (F_Interval _ _ _ (VString "1d")); [reflexivity|].
      intros x E. injection E as <-. reflexivity.
    + apply (Ms_cons _ _ _ _ [("min_doc_count", _)] [] []); [|apply Ms_nil].
      apply (F_MinDocCount _ _ _ 0).
  - intros E. discriminate E.
  - vm_compute. intros E. discriminate E.
  - vm_compute. reflexivity.
Defined.


Lemma Query_size_marker_witness :
  exists out m,
    Query sample_table
      [Aggs sample_table [Agg sample_table "total" [Sum sample_table "price"]]]
    = Returns out
    /\ Unmarshal out = Ok (JObject m)
    /\ map_get "size" m = Some (JNumber (S754_zero false)).
Proof.
  destruct (Query_size_marker sample_table sample_tzdb utc
              [Aggs sample_table
                 [Agg sample_table "total" [Sum sample_table "price"]]]
              [("aggs",
                TrObj [("total",
                        TrObj [("sum", TrObj [("field", TrStr "price")])])])]
              sample_aggregation_fragments)
    as (out & m & Hq & Hu & Hz & _).
  - intros E. discriminate E.
  - vm_compute. intros E. discriminate E.
  - reflexivity.
  - exists out, m. split; [exact Hq|]. split; [exact Hu|].
    apply Hz. constructor; [|constructor].
    intros E. discriminate E.
Defined.


Lemma repeated_aggregation_name_witness :
  Query sample_table
    [Aggs sample_table
       [Agg sample_table "total" [Sum sample_table "price"];
        Agg sample_table "total" [Avg sample_table "price"]]]
  = Query sample_table
      [Aggs sample_table [Agg sample_table "total" [Avg sample_table "price"]]].
Proof.
  apply (repeated_aggregation_name sample_table sample_tzdb utc "total"
           [Sum sample_table "price"] [Avg sample_table "price"]
           [("sum", TrObj [("field", TrStr "price")])]
           [("avg", TrObj [("field", TrStr "price")])]).
  - reflexivity.
  - apply (Ms_cons _ _ _ _ [("sum", _)] [] []); [|apply Ms_nil].
    apply F_Sum. reflexivity.
  - apply (Ms_cons _ _ _ _ [("avg", _)] [] []); [|apply Ms_nil].
    apply F_Avg. reflexivity.
  - vm_compute. intros E. discriminate E.
  - vm_compute. intros E. discriminate E.
  - reflexivity.
Defined.


Lemma Filter_decodes_witness :
  exists m,
    Unmarshal
      ("{" ++ Filter sample_table [Term sample_table "app" "api"]
                [Aggs sample_table
                   [Agg sample_table "total" [Sum sample_table "price"]]]
           ++ "}")
    = Ok (JObject m)
    /\ map_get "filter" m
       = Some (JObject
                 [("bool",
                   JObject
                     [("filter",
                       JArray
                         [JObject
                            [("term", JObject [("app", JString "api")])]])])])
    /\ forall k, k <> "filter" ->
         map_get k m
         = map_get k
             [("aggs",
               JObject
                 [("total",
                   JObject [("sum", JObject [("field", JString "price")])])])].
Proof.
  apply (Filter_decodes sample_table sample_tzdb utc
           [Term sample_table "app" "api"]
           [Aggs sample_table
              [Agg sample_table "total" [Sum sample_table "price"]]]
           [TrObj [("term", TrObj [("app", TrStr "api")])]]
           [("aggs",
             TrObj [("total",
                     TrObj [("sum", TrObj [("field", TrStr "price")])])])]).
  - apply Vs_cons; [|apply Vs_nil]. apply F_Term; reflexivity.
  - exact sample_aggregation_fragments.
  - intros E. discriminate E.
  - vm_compute. intros E. discriminate E.
  - vm_compute. intros E. discriminate E.
  - reflexivity.
  - reflexivity.
  - constructor; [|constructor]. intros E. discriminate E.
Defined.


(** An operand with a double quote, one with a backslash and a tab. *)
Lemma quoted_operands_witness :
  Unmarshal
    (Term sample_table (String dquote "a") ("b\c" ++ String (byte_of 9) "d"))
  = Ok (JObject
          [("term",
            JObject
              [(String dquote "a",
                JString ("b\c" ++ String (byte_of 9) "d"))])])
  /\ Unmarshal
       (Range sample_table (String dquote "a")
          ("b\c" ++ String (byte_of 9) "d"))
     = Ok (JObject
             [("range",
               JObject
                 [("timestamp",
                   JObject [("gte", JString (String dquote "a"));
                            ("lte",
                             JString ("b\c" ++ String (byte_of 9) "d"))])])]).
Proof.
  apply (quoted_operands_read_back sample_table (String dquote "a")
           ("b\c" ++ String (byte_of 9) "d"));
    reflexivity.
Defined.


(** Operands with the byte 0x7f. *)
Lemma control_bytes_witness :
  Unmarshal (Term sample_table ("ab" ++ String (byte_of 127) "c") "x")
  = Err SyntaxError
  /\ Unmarshal (Term sample_table "x" ("ab" ++ String (byte_of 127) "c"))
     = Err SyntaxError
  /\ Query sample_table
       [Aggs sample_table
          [Agg sample_table ("ab" ++ String (byte_of 127) "c")
             [Sum sample_table "price"]]]
     = Panics (error_text SyntaxError).
Proof.
  destruct (control_bytes_are_refused sample_table "ab" "c" "x" (byte_of 127)
              [Sum sample_table "price"] eq_refl eq_refl)
    as (H1 & H2 & H3).
  split; [exact H1|]. split; [exact (H2 eq_refl)|exact H3].
Defined.


Lemma Percentiles_decodes_witness :
  exists vs,
    Unmarshal
      ("{" ++ Percentiles sample_table "load"
                [float_of 50 0; float_of 95 0; float_of 99 0] ++ "}")
    = Ok (JObject
            [("stats",
              JObject [("field", JString "load"); ("percents", JArray vs)])])
    /\ Forall2 (fun v n => exists f, v = JNumber f /\ float_is_integer f n)
         vs [50; 95; 99].
Proof.
  apply (Percentiles_decodes sample_table "load"
           [float_of 50 0; float_of 95 0; float_of 99 0] [50; 95; 99]).
  - reflexivity.
  - intros E. discriminate E.
  - repeat (apply Forall2_cons;
              [vm_compute; split; [intros E; discriminate E|reflexivity]|]).
    apply Forall2_nil.
  - repeat (apply Forall_cons; [reflexivity|]). apply Forall_nil.
Defined.


Lemma Percentiles_non_finite_witness :
  Query sample_table
    [Aggs sample_table
       [Agg sample_table "p"
          [Percentiles sample_table "load"
             [float_of 50 0; S754_infinity false; float_of 99 0]]]]
  = Panics (error_text SyntaxError).
Proof.
  apply (Percentiles_refuses_non_finite sample_table "p" "load"
           [float_of 50 0] [float_of 99 0] (S754_infinity false));
    reflexivity.
Defined.

(** A single fragment is joined to itself, and the text of [Sum] opens
    with a line break: the joined text has an empty line although no
    fragment is empty. *)
Lemma join_keeps_empty_line_of_fragment :
  join [Sum sample_table "price"] = Sum sample_table "price"
  /\ has_empty_line (Sum sample_table "price") = true
  /\ has_empty_line (join [Sum sample_table "price"]) = true
  /\ has_empty_line (join [golit "'a': 1"; ""; golit "'b': 2"]) = false.
Proof. vm_compute. repeat split; reflexivity. Qed.

(** An integer of type [int64] and a string of the named type
    [Direction] are neither [int] nor [string] for the type switch:
    [Interval] panics on both. *)
Lemma Interval_panics_on_int64_and_named_string :
  Interval sample_table (VInt64 5)
  = Panics "invalid interval, must be an int or string"
  /\ Interval sample_table (VDirection "1d")
     = Panics "invalid interval, must be an int or string".
Proof. split; reflexivity. Qed.

(** Three break-points, one of them not whole: the fragment reads back
    as the map stats with the field and an array of three numbers. *)
Lemma Percentiles_stats_key_witness :
  exists vs,
    Unmarshal
      ("{" ++ Percentiles sample_table "load"
                [float_of 50 0; float_of 191 (-1); float_of 99 0] ++ "}")
    = Ok (JObject
            [("stats",
              JObject [("field", JString "load"); ("percents", JArray vs)])])
    /\ Forall2 (fun x v =>
                  exists f, ParseFloat (fmt_f 2 x) = Some f /\ v = JNumber f)
         [float_of 50 0; float_of 191 (-1); float_of 99 0] vs.
Proof.
  destruct (Percentiles_emits_stats_key sample_table "load") as (_ & _ & H).
  apply H; reflexivity.
Defined.


(** Two fragments among empty ones: the empty ones leave nothing, the
    text starts with the first fragment, and no line of it is empty. *)
Lemma join_drops_empty_fragments_witness :
  join [""; golit "'a': 1"; ""; golit "'b': 2"]
  = join [golit "'a': 1"; golit "'b': 2"]
  /\ (exists rest,
        join [""; golit "'a': 1"; ""; golit "'b': 2"]
        = golit "'a': 1" ++ rest)
  /\ has_empty_line (join [""; golit "'a': 1"; ""; golit "'b': 2"]) = false.
Proof.
  destruct (join_drops_empty_fragments
              [""; golit "'a': 1"; ""; golit "'b': 2"])
    as (_ & _ & H3 & _ & H5 & _ & H7).
  split; [exact H3|]. split; [exact (H5 _ _ eq_refl)|].
  rewrite H7. reflexivity.
Defined.
